(** * Cooperative synchronisation primitives and stream buffering

    A shallow embedding of [Lib/asyncio/locks.py] and of the buffer engine
    and flow-control adapter of [Lib/asyncio/streams.py].

    The event loop is single threaded: a coroutine runs without
    interleaving from one [await] to the next.  Every coroutine method is
    therefore split at its suspension points into pure state transformers,
    and the scheduler is a list of events that says which task runs next.
    Futures live in a store shared by the primitive and the tasks that
    await them, as the objects they are in the source. *)

From Stdlib Require Import ZArith Strings.String Strings.Byte.
From stdpp Require Import base option list gmap.

Local Open Scope Z_scope.

(** ** Exceptions and results *)

Inductive exn : Type :=
| CancelledError
| RuntimeError (msg : string)
| ValueError (msg : string)
| AssertionError (msg : string)
| NotImplementedError
| BrokenBarrierError
| ConnectionResetError (msg : string)
| IncompleteReadError (partial : list byte) (expected : option Z)
| LimitOverrunError (msg : string) (consumed : Z)
| AttributeError (msg : string)
| OSError (errno : Z).

Inductive result (A : Type) : Type :=
| Ok (a : A)
| Raise (e : exn).
Arguments Ok {A} a.
Arguments Raise {A} e.

(** ** Futures (the completion signals supplied by the event loop) *)

Module Future.

Inductive state : Type :=
| Pending
| Result
| Exception (e : exn)
| Cancelled.

Definition done (s : state) : bool :=
  match s with Pending => false | _ => true end.

Definition cancelled (s : state) : bool :=
  match s with Cancelled => true | _ => false end.

(** The store of all futures created so far; a future is its index. *)
Abbreviation store := (list state).

Definition get (σ : store) (f : nat) : state := default Pending (σ !! f).

(** [loop.create_future()] *)
Definition create (σ : store) : nat * store := (length σ, σ ++ [Pending]).

(** [fut.set_result(..)]; every caller in the source tests [done()] or
    [cancelled()] first. *)
Definition set_result (f : nat) (σ : store) : store := <[f := Result]> σ.

Definition set_exception (f : nat) (e : exn) (σ : store) : store :=
  <[f := Exception e]> σ.

(** [fut.cancel()]: only a pending future changes state. *)
Definition cancel (f : nat) (σ : store) : store :=
  if done (get σ f) then σ else <[f := Cancelled]> σ.

(** What [await fut] does when the awaiting task is scheduled again:
    [must_cancel] is the task's own pending cancellation request, which
    the loop throws into the coroutine even when the future already has
    a result.  [None]: the future is still pending and the task has not
    been cancelled, so the task is not runnable. *)
Definition await (must_cancel : bool) (s : state) : option (result unit) :=
  if must_cancel then Some (Raise CancelledError)
  else match s with
       | Pending => None
       | Result => Some (Ok ())
       | Exception e => Some (Raise e)
       | Cancelled => Some (Raise CancelledError)
       end.

(** [task.cancel()] on a task suspended on [f]: cancel the future if it
    is still pending, else remember the request in the task. *)
Definition cancel_task (f : nat) (σ : store) : store * bool :=
  if done (get σ f) then (σ, true) else (<[f := Cancelled]> σ, false).

End Future.

(** [deque.remove(x)]: drops the first occurrence, [ValueError] if absent. *)
Fixpoint deque_remove (x : nat) (l : list nat) : option (list nat) :=
  match l with
  | [] => None
  | y :: l' => if decide (x = y) then Some l' else cons y <$> deque_remove x l'
  end.

(** ** Lock *)

Module Lock.

Record t : Type := mk { _locked : bool; _waiters : option (list nat) }.

(** [Lock.__init__] *)
Definition init : t := {| _locked := false; _waiters := None |}.

Definition locked (l : t) : bool := _locked l.

(** [Lock._wake_up_first] *)
Definition _wake_up_first (l : t) (σ : Future.store) : Future.store :=
  match _waiters l with
  | None | Some [] => σ
  | Some (fut :: _) =>
      if Future.done (Future.get σ fut) then σ else Future.set_result fut σ
  end.

(** [Lock.release] *)
Definition release (l : t) (σ : Future.store) : result (t * Future.store) :=
  if _locked l then
    let l' := {| _locked := false; _waiters := _waiters l |} in
    Ok (l', _wake_up_first l' σ)
  else Raise (RuntimeError "Lock is not acquired.").

Inductive suspended : Type :=
| Returned                (* acquire() returned True *)
| Awaiting (fut : nat).   (* suspended in [await fut] *)

(** [Lock.acquire] up to its [await]. *)
Definition acquire_enter (l : t) (σ : Future.store)
  : suspended * t * Future.store :=
  if negb (_locked l) &&
     match _waiters l with
     | None => true
     | Some ws => forallb (λ w, Future.cancelled (Future.get σ w)) ws
     end
  then (Returned, {| _locked := true; _waiters := _waiters l |}, σ)
  else
    let ws := default [] (_waiters l) in
    let '(fut, σ') := Future.create σ in
    (Awaiting fut, {| _locked := _locked l; _waiters := Some (ws ++ [fut]) |}, σ').

(** [Lock.acquire] from its [await] on: [r] is what the await produced. *)
Definition acquire_resume (fut : nat) (r : result unit) (l : t) (σ : Future.store)
  : result unit * t * Future.store :=
  match deque_remove fut (default [] (_waiters l)) with
  | None => (Raise (ValueError "deque.remove(x): x not in deque"), l, σ)
  | Some ws =>
      let l1 := {| _locked := _locked l; _waiters := Some ws |} in
      match r with
      | Raise CancelledError =>
          (Raise CancelledError, l1,
           if _locked l1 then σ else _wake_up_first l1 σ)
      | Raise e => (Raise e, l1, σ)
      | Ok _ => (Ok (), {| _locked := true; _waiters := Some ws |}, σ)
      end
  end.

(** *** Tasks sharing one lock *)

Inductive task : Type :=
| Waiting (fut : nat) (must_cancel : bool)
| Holding.

Record sys : Type :=
  Sys { lock : t; futs : Future.store; tasks : gmap nat task }.

Definition sys0 : sys := {| lock := init; futs := []; tasks := ∅ |}.

(** What the scheduler may do next.  A task is idle, suspended in
    [acquire()], or between its successful [acquire()] and its
    [release()]; it does not call [acquire()] again while it holds or
    waits.  [release()] has no owner test (the lock is "not owned by a
    particular coroutine"): any task that is running, so not one that is
    suspended, may call it, whether it holds the lock or not; whatever
    the call does, the caller is past its [release()] afterwards.  An
    event that is not enabled leaves the system as it is. *)
Inductive event : Type :=
| Acquire (tid : nat)   (* an idle task calls [acquire()] *)
| Cancel (tid : nat)    (* a suspended task is cancelled *)
| Resume (tid : nat)    (* a suspended task whose await is over runs *)
| Release (tid : nat).  (* a task that is not suspended calls [release()] *)

Definition step (ev : event) (s : sys) : sys :=
  match ev with
  | Acquire tid =>
      match tasks s !! tid with
      | Some _ => s
      | None =>
          let '(r, l, σ) := acquire_enter (lock s) (futs s) in
          Sys l σ (<[tid := match r with
                            | Returned => Holding
                            | Awaiting fut => Waiting fut false
                            end]> (tasks s))
      end
  | Cancel tid =>
      match tasks s !! tid with
      | Some (Waiting fut mc) =>
          let '(σ, mc') := Future.cancel_task fut (futs s) in
          Sys (lock s) σ (<[tid := Waiting fut (mc || mc')]> (tasks s))
      | _ => s
      end
  | Resume tid =>
      match tasks s !! tid with
      | Some (Waiting fut mc) =>
          match Future.await mc (Future.get (futs s) fut) with
          | None => s
          | Some r =>
              let '(r', l, σ) := acquire_resume fut r (lock s) (futs s) in
              Sys l σ (match r' with
                       | Ok _ => <[tid := Holding]> (tasks s)
                       | Raise _ => delete tid (tasks s)
                       end)
          end
      | _ => s
      end
  | Release tid =>
      match tasks s !! tid with
      | Some (Waiting _ _) => s
      | _ =>
          match release (lock s) (futs s) with
          | Ok (l, σ) => Sys l σ (delete tid (tasks s))
          | Raise _ => Sys (lock s) (futs s) (delete tid (tasks s))
          end
      end
  end.

Definition run (evs : list event) (s : sys) : sys :=
  foldl (λ s ev, step ev s) s evs.

Definition holds (s : sys) (tid : nat) : Prop := tasks s !! tid = Some Holding.

Definition queue (s : sys) : list nat := default [] (_waiters (lock s)).

(** The discipline that the lock leaves to its users: [release()] is
    called by the task that is between its own successful [acquire()] and
    its [release()], and by nobody else. *)
Definition owned (ev : event) (s : sys) : bool :=
  match ev with
  | Release tid => match tasks s !! tid with Some Holding => true | _ => false end
  | _ => true
  end.

Fixpoint disciplined (evs : list event) (s : sys) : bool :=
  match evs with
  | [] => true
  | ev :: evs => owned ev s && disciplined evs (step ev s)
  end.

(** Mutual exclusion: at most one task is between its successful
    [acquire()] and its [release()]. *)
Definition exclusive (s : sys) : Prop :=
  ∀ t1 t2, holds s t1 → holds s t2 → t1 = t2.

(** What every reachable system satisfies, whoever calls [release()].  A
    queued future that holds a result is a wakeup that its task has not
    consumed yet: it sits at the head of the queue and the lock is free
    for that task to take. *)
Record sound (s : sys) : Prop := Sound {
  sound_woken : ∀ f, f ∈ queue s → Future.get (futs s) f = Future.Result →
                head (queue s) = Some f ∧ _locked (lock s) = false;
  sound_nodup : NoDup (queue s);
  sound_fresh : ∀ f, f ∈ queue s → (f < length (futs s))%nat;
  sound_queued : ∀ tid f mc,
      tasks s !! tid = Some (Waiting f mc) → f ∈ queue s;
  sound_owner : ∀ t1 t2 f mc1 mc2,
      tasks s !! t1 = Some (Waiting f mc1) →
      tasks s !! t2 = Some (Waiting f mc2) → t1 = t2 }.

(** What every system satisfies that is reached with discipline. *)
Record inv (s : sys) : Prop := Inv {
  inv_sound : sound s;
  inv_holder : ∀ tid, holds s tid → _locked (lock s) = true;
  inv_unique : exclusive s }.

(** The first queued future that is not done yet, if there is one. *)
Definition first_pending (σ : Future.store) (ws : list nat) : option nat :=
  find (λ w, negb (Future.done (Future.get σ w))) ws.

(** [release()] read as waking the first queued future that is not done,
    wherever it stands in the queue. *)
Definition release_wakes_first_pending (l : t) (σ : Future.store) : Prop :=
  ∃ l' σ', release l σ = Ok (l', σ') ∧ _locked l' = false ∧
           σ' = match first_pending σ (default [] (_waiters l)) with
                | Some f => Future.set_result f σ
                | None => σ
                end.

(** No future of the lock ever carries an exception: they are resolved
    with [set_result] or cancelled. *)
Definition plain (σ : Future.store) : Prop :=
  ∀ f e, Future.get σ f ≠ Future.Exception e.

(** Nobody is left behind: every queued future is awaited by a task, and
    when the lock is free the head of the queue is done, so that its task
    can run. *)
Record served (s : sys) : Prop := Served {
  served_owner : ∀ f, f ∈ queue s → ∃ tid mc, tasks s !! tid = Some (Waiting f mc);
  served_head : _locked (lock s) = false →
                ∀ f, head (queue s) = Some f →
                     Future.done (Future.get (futs s) f) = true;
  served_plain : plain (futs s) }.

End Lock.

(** ** Semaphore and BoundedSemaphore *)

Inductive outcome : Type :=
| Returned                (* the coroutine returned True *)
| Awaiting (fut : nat)    (* it is suspended in [await fut] *)
| Raised (e : exn).       (* it raised *)

Module Semaphore.

Record t : Type := mk { _value : Z; _waiters : list nat }.

(** [Semaphore.__init__] *)
Definition init (value : Z) : result t :=
  if value <? 0 then Raise (ValueError "Semaphore initial value must be >= 0")
  else Ok {| _value := value; _waiters := [] |}.

(** The loop of [_wake_up_next] over the deque: pop from the left until
    a waiter that is not done turns up, and resolve that one. *)
Fixpoint wake_loop (ws : list nat) (σ : Future.store) : list nat * Future.store :=
  match ws with
  | [] => ([], σ)
  | waiter :: ws' =>
      if Future.done (Future.get σ waiter) then wake_loop ws' σ
      else (ws', Future.set_result waiter σ)
  end.

(** [Semaphore._wake_up_next] *)
Definition _wake_up_next (s : t) (σ : Future.store) : t * Future.store :=
  let '(ws, σ') := wake_loop (_waiters s) σ in
  ({| _value := _value s; _waiters := ws |}, σ').

Definition locked (s : t) : bool := _value s =? 0.

(** [Semaphore.acquire] from the head of its [while] loop to the next
    [await], or to its return. *)
Definition acquire_enter (s : t) (σ : Future.store) : outcome * t * Future.store :=
  if _value s <=? 0 then
    let '(fut, σ') := Future.create σ in
    (Awaiting fut, {| _value := _value s; _waiters := _waiters s ++ [fut] |}, σ')
  else (Returned, {| _value := _value s - 1; _waiters := _waiters s |}, σ).

(** [Semaphore.acquire] from [await fut] on: a plain wakeup goes round
    the loop again, anything raised runs the [except:] clause. *)
Definition acquire_resume (fut : nat) (r : result unit) (s : t) (σ : Future.store)
  : outcome * t * Future.store :=
  match r with
  | Ok _ => acquire_enter s σ
  | Raise e =>
      let σ1 := Future.cancel fut σ in
      if (0 <? _value s) && negb (Future.cancelled (Future.get σ1 fut)) then
        let '(s', σ2) := _wake_up_next s σ1 in (Raised e, s', σ2)
      else (Raised e, s, σ1)
  end.

(** [Semaphore.release] *)
Definition release (s : t) (σ : Future.store) : t * Future.store :=
  _wake_up_next {| _value := _value s + 1; _waiters := _waiters s |} σ.

(** The first queued future that is not done yet, if there is one. *)
Definition first_pending (σ : Future.store) (ws : list nat) : option nat :=
  find (λ w, negb (Future.done (Future.get σ w))) ws.

(** The cancellation clause read as forwarding the wakeup whenever the
    counter is positive and the cancelled waiter's own future had not
    been resolved: the first queued future that is not done ends up
    resolved. *)
Definition forwards_when_unresolved (fut : nat) (s : t) (σ : Future.store) : Prop :=
  0 < _value s →
  Future.get σ fut ≠ Future.Result →
  ∀ f, first_pending (Future.cancel fut σ) (_waiters s) = Some f →
       Future.get (acquire_resume fut (Raise CancelledError) s σ).2 f = Future.Result.

(** *** Tasks sharing one semaphore *)

(** Only suspended tasks are recorded: the future a task awaits and
    whether a cancellation request is pending for it.  [acquired] counts
    the calls of [acquire()] that returned, [released] the calls of
    [release()]. *)
Record sys : Type :=
  Sys { sem : t; futs : Future.store; tasks : gmap nat (nat * bool);
        acquired : Z; released : Z }.

Definition sys0 (s : t) : sys :=
  {| sem := s; futs := []; tasks := ∅; acquired := 0; released := 0 |}.

(** A semaphore has no owner: any task may call [release()]. *)
Inductive event : Type :=
| Acquire (tid : nat)
| Cancel (tid : nat)
| Resume (tid : nat)
| Release.

Definition settle (tid : nat) (r : outcome) (ts : gmap nat (nat * bool))
  : gmap nat (nat * bool) :=
  match r with
  | Awaiting fut => <[tid := (fut, false)]> ts
  | Returned | Raised _ => delete tid ts
  end.

Definition took (r : outcome) : Z :=
  match r with Returned => 1 | _ => 0 end.

Definition step (ev : event) (s : sys) : sys :=
  match ev with
  | Acquire tid =>
      match tasks s !! tid with
      | Some _ => s
      | None =>
          let '(r, sm, σ) := acquire_enter (sem s) (futs s) in
          Sys sm σ (settle tid r (tasks s)) (acquired s + took r) (released s)
      end
  | Cancel tid =>
      match tasks s !! tid with
      | Some (fut, mc) =>
          let '(σ, mc') := Future.cancel_task fut (futs s) in
          Sys (sem s) σ (<[tid := (fut, mc || mc')]> (tasks s))
              (acquired s) (released s)
      | None => s
      end
  | Resume tid =>
      match tasks s !! tid with
      | Some (fut, mc) =>
          match Future.await mc (Future.get (futs s) fut) with
          | None => s
          | Some r =>
              let '(r', sm, σ) := acquire_resume fut r (sem s) (futs s) in
              Sys sm σ (settle tid r' (tasks s)) (acquired s + took r') (released s)
          end
      | None => s
      end
  | Release =>
      let '(sm, σ) := release (sem s) (futs s) in
      Sys sm σ (tasks s) (acquired s) (released s + 1)
  end.

Definition run (evs : list event) (s : sys) : sys :=
  foldl (λ s ev, step ev s) s evs.

(** A suspended task whose future is still pending. *)
Definition blocked (s : sys) (tid : nat) : Prop :=
  ∃ f mc, tasks s !! tid = Some (f, mc) ∧ Future.get (futs s) f = Future.Pending.

(** A suspended task whose future has been given a result. *)
Definition woken (s : sys) (tid : nat) : Prop :=
  ∃ f mc, tasks s !! tid = Some (f, mc) ∧ Future.get (futs s) f = Future.Result.

(** What the queue [ws], the futures, the suspended tasks and the list
    [wk] of the futures that were given a result and whose tasks have not
    run since satisfy in every reachable system. *)
Record queue_inv (ws : list nat) (σ : Future.store) (ts : gmap nat (nat * bool))
    (wk : list nat) : Prop := QueueInv {
  inv_queued : ∀ tid f mc, ts !! tid = Some (f, mc) →
               Future.get σ f = Future.Pending → f ∈ ws;
  inv_owned : ∀ f, f ∈ ws → Future.get σ f = Future.Pending →
              ∃ tid mc, ts !! tid = Some (f, mc);
  inv_fresh : ∀ f, f ∈ ws → (f < length σ)%nat;
  inv_exists : ∀ tid f mc, ts !! tid = Some (f, mc) → (f < length σ)%nat;
  inv_request : ∀ tid f, ts !! tid = Some (f, true) →
                Future.done (Future.get σ f) = true;
  inv_plain : ∀ f e, Future.get σ f ≠ Future.Exception e;
  inv_wk_nodup : NoDup wk;
  inv_wk : ∀ f, f ∈ wk → Future.get σ f = Future.Result
                         ∧ ∃ tid mc, ts !! tid = Some (f, mc) }.

(** While a task is blocked, there are at least as many woken tasks as
    free units. *)
Record inv (s : sys) (wk : list nat) : Prop := Inv {
  inv_queue : queue_inv (_waiters (sem s)) (futs s) (tasks s) wk;
  inv_units : (∃ tid, blocked s tid) → _value (sem s) ≤ Z.of_nat (length wk) }.

End Semaphore.

Module BoundedSemaphore.

Record t : Type := mk { sem : Semaphore.t; _bound_value : Z }.

(** [BoundedSemaphore.__init__] *)
Definition init (value : Z) : result t :=
  match Semaphore.init value with
  | Ok s => Ok {| sem := s; _bound_value := value |}
  | Raise e => Raise e
  end.

Definition _value (b : t) : Z := Semaphore._value (sem b).

(** [BoundedSemaphore.release] *)
Definition release (b : t) (σ : Future.store) : result unit * t * Future.store :=
  if _value b >=? _bound_value b then
    (Raise (ValueError "BoundedSemaphore released too many times"), b, σ)
  else
    let '(s, σ') := Semaphore.release (sem b) σ in
    (Ok (), {| sem := s; _bound_value := _bound_value b |}, σ').

(** [acquire] is inherited from [Semaphore]. *)
Definition acquire_enter (b : t) (σ : Future.store) : outcome * t * Future.store :=
  let '(r, s, σ') := Semaphore.acquire_enter (sem b) σ in
  (r, {| sem := s; _bound_value := _bound_value b |}, σ').

Definition acquire_resume (fut : nat) (r : result unit) (b : t) (σ : Future.store)
  : outcome * t * Future.store :=
  let '(r', s, σ') := Semaphore.acquire_resume fut r (sem b) σ in
  (r', {| sem := s; _bound_value := _bound_value b |}, σ').

(** *** Tasks sharing one bounded semaphore *)

(** Only suspended tasks are recorded: the future a task awaits and
    whether a cancellation request is pending for it. *)
Record sys : Type :=
  Sys { bsem : t; futs : Future.store; tasks : gmap nat (nat * bool) }.

Definition sys0 (b : t) : sys := {| bsem := b; futs := []; tasks := ∅ |}.

(** A semaphore has no owner: any task may call [release()]. *)
Inductive event : Type :=
| Acquire (tid : nat)
| Cancel (tid : nat)
| Resume (tid : nat)
| Release.

Definition settle (tid : nat) (r : outcome) (ts : gmap nat (nat * bool))
  : gmap nat (nat * bool) :=
  match r with
  | Awaiting fut => <[tid := (fut, false)]> ts
  | Returned | Raised _ => delete tid ts
  end.

Definition step (ev : event) (s : sys) : sys :=
  match ev with
  | Acquire tid =>
      match tasks s !! tid with
      | Some _ => s
      | None =>
          let '(r, b, σ) := acquire_enter (bsem s) (futs s) in
          Sys b σ (settle tid r (tasks s))
      end
  | Cancel tid =>
      match tasks s !! tid with
      | Some (fut, mc) =>
          let '(σ, mc') := Future.cancel_task fut (futs s) in
          Sys (bsem s) σ (<[tid := (fut, mc || mc')]> (tasks s))
      | None => s
      end
  | Resume tid =>
      match tasks s !! tid with
      | Some (fut, mc) =>
          match Future.await mc (Future.get (futs s) fut) with
          | None => s
          | Some r =>
              let '(r', b, σ) := acquire_resume fut r (bsem s) (futs s) in
              Sys b σ (settle tid r' (tasks s))
          end
      | None => s
      end
  | Release =>
      let '(_, b, σ) := release (bsem s) (futs s) in
      Sys b σ (tasks s)
  end.

Definition run (evs : list event) (s : sys) : sys :=
  foldl (λ s ev, step ev s) s evs.

End BoundedSemaphore.

(** ** Event *)

Module Event.

Record t : Type := mk { _waiters : list nat; _value : bool }.

(** [Event.__init__] *)
Definition init : t := {| _waiters := []; _value := false |}.

Definition is_set (ev : t) : bool := _value ev.

(** [Event.set] *)
Definition set (ev : t) (σ : Future.store) : t * Future.store :=
  if _value ev then (ev, σ)
  else ({| _waiters := _waiters ev; _value := true |},
        foldl (λ σ fut, if Future.done (Future.get σ fut) then σ
                        else Future.set_result fut σ) σ (_waiters ev)).

(** [Event.clear] *)
Definition clear (ev : t) : t := {| _waiters := _waiters ev; _value := false |}.

(** [Event.wait] up to its [await]. *)
Definition wait_enter (ev : t) (σ : Future.store) : outcome * t * Future.store :=
  if _value ev then (Returned, ev, σ)
  else
    let '(fut, σ') := Future.create σ in
    (Awaiting fut, {| _waiters := _waiters ev ++ [fut]; _value := _value ev |}, σ').

(** [Event.wait] from its [await] on; the [finally] clause runs first. *)
Definition wait_resume (fut : nat) (r : result unit) (ev : t) : result unit * t :=
  match deque_remove fut (_waiters ev) with
  | None => (Raise (ValueError "deque.remove(x): x not in deque"), ev)
  | Some ws => (r, {| _waiters := ws; _value := _value ev |})
  end.

(** *** Tasks sharing one event *)

Record sys : Type :=
  Sys { event : t; futs : Future.store; tasks : gmap nat (nat * bool) }.

Definition sys0 : sys := {| event := init; futs := []; tasks := ∅ |}.

(** A task is idle or suspended in [wait()] on its future, with its
    pending cancellation request; [set()] and [clear()] may be called at
    any time.  An event that is not enabled leaves the system as it is. *)
Inductive op : Type :=
| Wait (tid : nat)      (* an idle task calls [wait()] *)
| Cancel (tid : nat)    (* a suspended task is cancelled *)
| Resume (tid : nat)    (* a suspended task whose await is over runs *)
| SetFlag               (* [set()] *)
| ClearFlag.            (* [clear()] *)

Definition step (o : op) (s : sys) : sys :=
  match o with
  | Wait tid =>
      match tasks s !! tid with
      | Some _ => s
      | None =>
          let '(r, e, σ) := wait_enter (event s) (futs s) in
          Sys e σ (match r with
                   | Awaiting fut => <[tid := (fut, false)]> (tasks s)
                   | _ => tasks s
                   end)
      end
  | Cancel tid =>
      match tasks s !! tid with
      | Some (fut, mc) =>
          let '(σ, mc') := Future.cancel_task fut (futs s) in
          Sys (event s) σ (<[tid := (fut, mc || mc')]> (tasks s))
      | None => s
      end
  | Resume tid =>
      match tasks s !! tid with
      | Some (fut, mc) =>
          match Future.await mc (Future.get (futs s) fut) with
          | None => s
          | Some r =>
              let '(_, e) := wait_resume fut r (event s) in
              Sys e (futs s) (delete tid (tasks s))
          end
      | None => s
      end
  | SetFlag => let '(e, σ) := set (event s) (futs s) in Sys e σ (tasks s)
  | ClearFlag => Sys (clear (event s)) (futs s) (tasks s)
  end.

Definition run (os : list op) (s : sys) : sys :=
  foldl (λ s o, step o s) s os.

(** What every reachable system satisfies: the future of a suspended
    task is queued, and queued futures exist and are distinct. *)
Record inv (s : sys) : Prop := Inv {
  inv_queued : ∀ tid f mc, tasks s !! tid = Some (f, mc) → f ∈ _waiters (event s);
  inv_fresh : ∀ f, f ∈ _waiters (event s) → (f < length (futs s))%nat;
  inv_nodup : NoDup (_waiters (event s));
  inv_owner : ∀ t1 t2 f mc1 mc2,
      tasks s !! t1 = Some (f, mc1) → tasks s !! t2 = Some (f, mc2) → t1 = t2;
  inv_set : _value (event s) = true →
            ∀ f, f ∈ _waiters (event s) → Future.done (Future.get (futs s) f) = true;
  inv_plain : ∀ f e, Future.get (futs s) f ≠ Future.Exception e }.

End Event.

(** ** Barrier *)

(** ** Condition

    [locked], [acquire] and [release] are those of the underlying lock.
    The futures of the lock and the futures of the condition are
    different objects; they are kept in two stores, [κ] for the lock and
    [σ] for the condition. *)
Module Condition.

Record t : Type := mk { _lock : Lock.t; _waiters : list nat }.

(** [Condition.__init__] *)
Definition init (lock : option Lock.t) : t :=
  {| _lock := default Lock.init lock; _waiters := [] |}.

Definition locked (c : t) : bool := Lock.locked (_lock c).

(** The loop of [Condition.notify]: [idx] counts the futures woken. *)
Fixpoint notify_loop (n idx : Z) (ws : list nat) (σ : Future.store)
  : Future.store :=
  match ws with
  | [] => σ
  | fut :: ws =>
      if idx >=? n then σ
      else if Future.done (Future.get σ fut) then notify_loop n idx ws σ
           else notify_loop n (idx + 1) ws (Future.set_result fut σ)
  end.

(** [Condition.notify] *)
Definition notify (n : Z) (c : t) (σ : Future.store)
  : result unit * Future.store :=
  if locked c then (Ok (), notify_loop n 0 (_waiters c) σ)
  else (Raise (RuntimeError "cannot notify on un-acquired lock"), σ).

(** [Condition.notify_all] *)
Definition notify_all (c : t) (σ : Future.store) : result unit * Future.store :=
  notify (Z.of_nat (length (_waiters c))) c σ.

(** Where [wait()] is suspended: on its own future, or in the [finally]
    clause on a future of the lock, with the flag [cancelled] of the loop
    and the pending outcome [res] of the [try] block. *)
Inductive pc : Type :=
| InWait (fut : nat)
| Reacquiring (lfut : nat) (cancelled : bool) (res : result unit).

(** [Done r]: [wait()] is over with the lock held again; [Escaped e]: an
    exception other than [CancelledError] left the [finally] clause, so
    the lock is not held. *)
Inductive progress : Type :=
| Done (r : result unit)
| Escaped (e : exn)
| Suspended (p : pc).

(** [Condition.wait] up to [await fut]. *)
Definition wait_enter (c : t) (κ σ : Future.store)
  : result nat * t * Future.store * Future.store :=
  if negb (locked c)
  then (Raise (RuntimeError "cannot wait on un-acquired lock"), c, κ, σ)
  else match Lock.release (_lock c) κ with
       | Raise e => (Raise e, c, κ, σ)
       | Ok (l, κ') =>
           let '(fut, σ') := Future.create σ in
           (Ok fut, {| _lock := l; _waiters := _waiters c ++ [fut] |}, κ', σ')
       end.

(** One round of the [while True] loop of the [finally] clause, up to
    the [await] inside [acquire()]. *)
Definition reacquire (cancelled : bool) (res : result unit) (c : t)
    (κ : Future.store) : progress * t * Future.store :=
  let '(r, l, κ') := Lock.acquire_enter (_lock c) κ in
  let c' := {| _lock := l; _waiters := _waiters c |} in
  match r with
  | Lock.Returned => (Done (if cancelled then Raise CancelledError else res), c', κ')
  | Lock.Awaiting lf => (Suspended (Reacquiring lf cancelled res), c', κ')
  end.

(** [Condition.wait] from [await fut] on: the inner [finally] removes the
    future, the outer one takes the lock again. *)
Definition wait_resume (fut : nat) (r : result unit) (c : t) (κ : Future.store)
  : progress * t * Future.store :=
  match deque_remove fut (_waiters c) with
  | None => reacquire false (Raise (ValueError "deque.remove(x): x not in deque")) c κ
  | Some ws => reacquire false r {| _lock := _lock c; _waiters := ws |} κ
  end.

(** [Condition.wait] from the [await] inside [acquire()] on. *)
Definition reacquire_resume (lf : nat) (cancelled : bool) (res r : result unit)
    (c : t) (κ : Future.store) : progress * t * Future.store :=
  let '(r', l, κ') := Lock.acquire_resume lf r (_lock c) κ in
  let c' := {| _lock := l; _waiters := _waiters c |} in
  match r' with
  | Ok _ => (Done (if cancelled then Raise CancelledError else res), c', κ')
  | Raise CancelledError => reacquire true res c' κ'
  | Raise e => (Escaped e, c', κ')
  end.

(** *** Tasks sharing one condition *)

Inductive task : Type :=
| Acquiring (lfut : nat) (must_cancel : bool)   (* suspended in [acquire()] *)
| Holding (last : option (result unit))         (* holds the lock; [last] is
                                                   what its last [wait()] gave *)
| Waiting (p : pc) (must_cancel : bool).        (* suspended in [wait()] *)

Record sys : Type :=
  Sys { cond : t; lfuts : Future.store; futs : Future.store;
        tasks : gmap nat task }.

Definition sys0 : sys :=
  {| cond := init None; lfuts := []; futs := []; tasks := ∅ |}.

(** The tasks use the condition as its documentation asks: a task
    acquires the lock, then waits, notifies or releases while it holds
    it.  The code does not enforce this ([wait()] and [notify()] test
    [locked()], not who holds the lock, and [release()] tests nothing of
    the kind); the schedules run here are those that keep to it, and a
    [Release], [Wait], [Notify] or [NotifyAll] of a task that does not
    hold the lock is not enabled.  An event that is not enabled leaves
    the system as it is. *)
Inductive event : Type :=
| Acquire (tid : nat)
| Release (tid : nat)
| Wait (tid : nat)
| Notify (tid : nat) (n : Z)
| NotifyAll (tid : nat)
| Cancel (tid : nat)
| Resume (tid : nat).

Definition leave (tid : nat) (p : progress) (ts : gmap nat task) : gmap nat task :=
  match p with
  | Done r => <[tid := Holding (Some r)]> ts
  | Escaped _ => delete tid ts
  | Suspended p => <[tid := Waiting p false]> ts
  end.

Definition step (ev : event) (s : sys) : sys :=
  let c := cond s in
  match ev with
  | Acquire tid =>
      match tasks s !! tid with
      | Some _ => s
      | None =>
          let '(r, l, κ) := Lock.acquire_enter (_lock c) (lfuts s) in
          Sys (mk l (_waiters c)) κ (futs s)
              (<[tid := match r with
                        | Lock.Returned => Holding None
                        | Lock.Awaiting lf => Acquiring lf false
                        end]> (tasks s))
      end
  | Release tid =>
      match tasks s !! tid with
      | Some (Holding _) =>
          match Lock.release (_lock c) (lfuts s) with
          | Ok (l, κ) => Sys (mk l (_waiters c)) κ (futs s) (delete tid (tasks s))
          | Raise _ => Sys c (lfuts s) (futs s) (delete tid (tasks s))
          end
      | _ => s
      end
  | Wait tid =>
      match tasks s !! tid with
      | Some (Holding _) =>
          match wait_enter c (lfuts s) (futs s) with
          | (Ok fut, c', κ, σ) =>
              Sys c' κ σ (<[tid := Waiting (InWait fut) false]> (tasks s))
          | (Raise _, _, _, _) => s
          end
      | _ => s
      end
  | Notify tid n =>
      match tasks s !! tid with
      | Some (Holding _) => Sys c (lfuts s) (notify n c (futs s)).2 (tasks s)
      | _ => s
      end
  | NotifyAll tid =>
      match tasks s !! tid with
      | Some (Holding _) => Sys c (lfuts s) (notify_all c (futs s)).2 (tasks s)
      | _ => s
      end
  | Cancel tid =>
      match tasks s !! tid with
      | Some (Acquiring lf mc) =>
          let '(κ, mc') := Future.cancel_task lf (lfuts s) in
          Sys c κ (futs s) (<[tid := Acquiring lf (mc || mc')]> (tasks s))
      | Some (Waiting (InWait fut) mc) =>
          let '(σ, mc') := Future.cancel_task fut (futs s) in
          Sys c (lfuts s) σ (<[tid := Waiting (InWait fut) (mc || mc')]> (tasks s))
      | Some (Waiting (Reacquiring lf ca res) mc) =>
          let '(κ, mc') := Future.cancel_task lf (lfuts s) in
          Sys c κ (futs s)
              (<[tid := Waiting (Reacquiring lf ca res) (mc || mc')]> (tasks s))
      | _ => s
      end
  | Resume tid =>
      match tasks s !! tid with
      | Some (Acquiring lf mc) =>
          match Future.await mc (Future.get (lfuts s) lf) with
          | None => s
          | Some r =>
              let '(r', l, κ) := Lock.acquire_resume lf r (_lock c) (lfuts s) in
              Sys (mk l (_waiters c)) κ (futs s)
                  (match r' with
                   | Ok _ => <[tid := Holding None]> (tasks s)
                   | Raise _ => delete tid (tasks s)
                   end)
          end
      | Some (Waiting (InWait fut) mc) =>
          match Future.await mc (Future.get (futs s) fut) with
          | None => s
          | Some r =>
              let '(p, c', κ) := wait_resume fut r c (lfuts s) in
              Sys c' κ (futs s) (leave tid p (tasks s))
          end
      | Some (Waiting (Reacquiring lf ca res) mc) =>
          match Future.await mc (Future.get (lfuts s) lf) with
          | None => s
          | Some r =>
              let '(p, c', κ) := reacquire_resume lf ca res r c (lfuts s) in
              Sys c' κ (futs s) (leave tid p (tasks s))
          end
      | _ => s
      end
  end.

Definition run (evs : list event) (s : sys) : sys :=
  foldl (λ s ev, step ev s) s evs.

Definition holds (s : sys) (tid : nat) : Prop :=
  ∃ last, tasks s !! tid = Some (Holding last).

(** The schedules that keep to the discipline: [release()], [wait()],
    [notify()] and [notify_all()] are called by the task that holds the
    lock. *)
Definition owned (ev : event) (s : sys) : bool :=
  match ev with
  | Release tid | Wait tid | Notify tid _ | NotifyAll tid =>
      match tasks s !! tid with Some (Holding _) => true | _ => false end
  | _ => true
  end.

Fixpoint disciplined (evs : list event) (s : sys) : bool :=
  match evs with
  | [] => true
  | ev :: evs => owned ev s && disciplined evs (step ev s)
  end.

(** The lock as the tasks see it: a task suspended on a future of the
    lock waits for it, a task suspended on a future of the condition has
    nothing to do with the lock. *)
Definition lock_task (st : task) : option Lock.task :=
  match st with
  | Acquiring lf mc | Waiting (Reacquiring lf _ _) mc => Some (Lock.Waiting lf mc)
  | Holding _ => Some Lock.Holding
  | Waiting (InWait _) _ => None
  end.

Definition lock_view (s : sys) : Lock.sys :=
  Lock.Sys (_lock (cond s)) (lfuts s) (omap lock_task (tasks s)).

(** What the queue [ws] of the condition, its futures and the tasks
    satisfy in every reachable system. *)
Record queue_inv (ws : list nat) (σ : Future.store) (ts : gmap nat task)
  : Prop := QueueInv {
  inv_queued : ∀ tid fut mc,
      ts !! tid = Some (Waiting (InWait fut) mc) → fut ∈ ws;
  inv_fresh : ∀ f, f ∈ ws → (f < length σ)%nat;
  inv_nodup : NoDup ws;
  inv_owner : ∀ t1 t2 f mc1 mc2,
      ts !! t1 = Some (Waiting (InWait f) mc1) →
      ts !! t2 = Some (Waiting (InWait f) mc2) → t1 = t2;
  inv_plain : ∀ f e, Future.get σ f ≠ Future.Exception e;
  inv_res : ∀ tid lf ca res mc,
      ts !! tid = Some (Waiting (Reacquiring lf ca res) mc) →
      res = Ok () ∨ res = Raise CancelledError }.

(** What every reachable system satisfies. *)
Record inv (s : sys) : Prop := Inv {
  inv_lock : Lock.inv (lock_view s);
  inv_served : Lock.served (lock_view s);
  inv_queue : queue_inv (_waiters (cond s)) (futs s) (tasks s) }.

End Condition.

Module Barrier.

(** [_action] is a callable in the source; what matters to the barrier is
    whether it returns or raises. *)
Record t : Type := mk {
  _waiting : Event.t;
  _blocking : Event.t;
  _action : option (result unit);
  _parties : Z;
  _state : Z;      (* 0 filling, 1 draining, -1 resetting, -2 broken *)
  _count : Z }.

(** [Barrier.__init__] *)
Definition init (parties : Z) (action : option (result unit)) : result t :=
  if parties <? 1 then Raise (ValueError "parties must be > 0")
  else Ok {| _waiting := Event.init; _blocking := Event.init; _action := action;
             _parties := parties; _state := 0; _count := 0 |}.

Definition with_state (st : Z) (b : t) : t :=
  mk (_waiting b) (_blocking b) (_action b) (_parties b) st (_count b).
Definition with_count (c : Z) (b : t) : t :=
  mk (_waiting b) (_blocking b) (_action b) (_parties b) (_state b) c.
Definition with_waiting (ev : Event.t) (b : t) : t :=
  mk ev (_blocking b) (_action b) (_parties b) (_state b) (_count b).
Definition with_blocking (ev : Event.t) (b : t) : t :=
  mk (_waiting b) ev (_action b) (_parties b) (_state b) (_count b).

(** [self._waiting.set(); self._blocking.clear()], in either order. *)
Definition wake_waiting (b : t) (σ : Future.store) : t * Future.store :=
  let '(w, σ') := Event.set (_waiting b) σ in
  (with_blocking (Event.clear (_blocking b)) (with_waiting w b), σ').

(** [Barrier.abort] *)
Definition abort (b : t) (σ : Future.store) : t * Future.store :=
  wake_waiting (with_state (-2) b) σ.

(** [Barrier.reset] *)
Definition reset (b : t) (σ : Future.store) : t * Future.store :=
  if 0 <? _count b then
    let b1 := if (_state b =? 0) || (_state b =? 1) then with_state (-1) b
              else if _state b =? -2 then with_state (-1) b
              else b in
    wake_waiting b1 σ
  else (with_state 0 b, σ).

(** [Barrier._exit] *)
Definition _exit (b : t) (σ : Future.store) : t * Future.store :=
  if _count b =? 0 then
    let b1 := if _state b =? 1 then with_state 0 b
              else if _state b =? -1 then with_state 0 b
              else b in
    let b2 := with_waiting (Event.clear (_waiting b1)) b1 in
    let '(bl, σ') := Event.set (_blocking b2) σ in
    (with_blocking bl b2, σ')
  else (b, σ).

(** The [finally] clause of [Barrier.wait]. *)
Definition leave (b : t) (σ : Future.store) : t * Future.store :=
  _exit (with_count (_count b - 1) b) σ.

(** [Barrier._release] *)
Definition _release (b : t) (σ : Future.store) : result unit * t * Future.store :=
  match _action b with
  | Some (Raise e) => let '(b', σ') := abort b σ in (Raise e, b', σ')
  | _ => let '(b', σ') := wake_waiting (with_state 1 b) σ in (Ok (), b', σ')
  end.

(** Where a call of [Barrier.wait] stands. *)
Inductive pc : Type :=
| InBlock (fut : nat)                (* in [_block], awaiting [_blocking] *)
| InWait (fut : nat) (index : Z)     (* in [_wait], awaiting [_waiting] *)
| Spinning                           (* [_block] loops without ever yielding *)
| Done (r : result Z).               (* returned its index, or raised *)

(** The body of [wait()] after [_block()] let the caller in. *)
Definition arrive (b : t) (σ : Future.store) : pc * t * Future.store :=
  let index := _count b in
  let b := with_count (_count b + 1) b in
  if index + 1 =? _parties b then
    let '(r, b, σ) := _release b σ in
    let '(b, σ) := leave b σ in
    (Done match r with Ok _ => Ok index | Raise e => Raise e end, b, σ)
  else
    match Event.wait_enter (_waiting b) σ with
    | (Awaiting fut, w, σ) => (InWait fut index, with_waiting w b, σ)
    | (_, w, σ) =>
        let b := with_waiting w b in
        let r := if _state b <? 0 then Raise BrokenBarrierError else Ok index in
        let '(b, σ) := leave b σ in
        (Done r, b, σ)
    end.

(** [Barrier._block] from the head of its loop, then the rest of
    [wait()]. *)
Definition enter (b : t) (σ : Future.store) : pc * t * Future.store :=
  if (_state b =? -1) || (_state b =? 1) then
    match Event.wait_enter (_blocking b) σ with
    | (Awaiting fut, bl, σ) => (InBlock fut, with_blocking bl b, σ)
    | (_, bl, σ) => (Spinning, with_blocking bl b, σ)
    end
  else if _state b <? 0 then (Done (Raise BrokenBarrierError), b, σ)
  else arrive b σ.

(** A suspended call runs again; [r] is what its [await] produced. *)
Definition resume (p : pc) (r : result unit) (b : t) (σ : Future.store)
  : pc * t * Future.store :=
  match p with
  | InBlock fut =>
      match Event.wait_resume fut r (_blocking b) with
      | (Ok _, bl) => enter (with_blocking bl b) σ
      | (Raise e, bl) => (Done (Raise e), with_blocking bl b, σ)
      end
  | InWait fut index =>
      let '(r, w) := Event.wait_resume fut r (_waiting b) in
      let b := with_waiting w b in
      let r := match r with
               | Ok _ => if _state b <? 0 then Raise BrokenBarrierError else Ok index
               | Raise e => Raise e
               end in
      let '(b, σ) := leave b σ in
      (Done r, b, σ)
  | _ => (p, b, σ)
  end.

(** *** Tasks sharing one barrier

    Cancellation of a task inside [wait()] is not part of this model. *)

Record sys : Type :=
  Sys { barrier : t; futs : Future.store; calls : gmap nat pc }.

Definition sys0 (b : t) : sys := {| barrier := b; futs := []; calls := ∅ |}.

Inductive event : Type :=
| Wait (tid : nat)     (* a task that is not inside calls [wait()] *)
| Resume (tid : nat)   (* a suspended task whose future is done runs *)
| Reset                (* some task calls [reset()] *)
| Abort.               (* some task calls [abort()] *)

#[global] Instance event_eq_dec : EqDecision event.
Proof. solve_decision. Defined.

Definition awaited (p : pc) : option nat :=
  match p with InBlock fut | InWait fut _ => Some fut | _ => None end.

Definition step (ev : event) (s : sys) : sys :=
  match ev with
  | Wait tid =>
      match calls s !! tid with
      | Some (InBlock _) | Some (InWait _ _) | Some Spinning => s
      | _ =>
          let '(p, b, σ) := enter (barrier s) (futs s) in
          Sys b σ (<[tid := p]> (calls s))
      end
  | Resume tid =>
      match calls s !! tid with
      | Some p =>
          match awaited p with
          | Some fut =>
              match Future.await false (Future.get (futs s) fut) with
              | Some r =>
                  let '(p', b, σ) := resume p r (barrier s) (futs s) in
                  Sys b σ (<[tid := p']> (calls s))
              | None => s
              end
          | None => s
          end
      | None => s
      end
  | Reset =>
      let '(b, σ) := reset (barrier s) (futs s) in Sys b σ (calls s)
  | Abort =>
      let '(b, σ) := abort (barrier s) (futs s) in Sys b σ (calls s)
  end.

Definition run (evs : list event) (s : sys) : sys :=
  foldl (λ s ev, step ev s) s evs.

(** The calls of [wait()] that have come back with an index. *)
Definition returned (s : sys) : list (nat * Z) :=
  omap (λ '(tid, p), match p with Done (Ok i) => Some (tid, i) | _ => None end)
       (map_to_list (calls s)).

(** [Barrier.parties], [Barrier.n_waiting] and [Barrier.broken] *)
Definition parties (b : t) : Z := _parties b.
Definition n_waiting (b : t) : Z := if _state b =? 0 then _count b else 0.
Definition broken (b : t) : bool := _state b =? -2.

(** The task is suspended in [_wait()]. *)
Definition inside (s : sys) (tid : nat) : Prop :=
  ∃ fut i, calls s !! tid = Some (InWait fut i).

(** What every reachable system satisfies; [l] lists the tasks inside. *)
Record inv (s : sys) (l : list nat) : Prop := Inv {
  inv_parties : 1 ≤ _parties (barrier s);
  inv_count : _count (barrier s) < _parties (barrier s);
  inv_state : _state (barrier s) = 0 ∨ _state (barrier s) = 1
              ∨ _state (barrier s) = -1 ∨ _state (barrier s) = -2;
  inv_nodup : NoDup l;
  inv_inside : ∀ tid, tid ∈ l ↔ inside s tid;
  inv_card : Z.of_nat (length l) = _count (barrier s);
  inv_wq : ∀ tid fut i, calls s !! tid = Some (InWait fut i) →
           fut ∈ Event._waiters (_waiting (barrier s));
  inv_bq : ∀ tid fut, calls s !! tid = Some (InBlock fut) →
           fut ∈ Event._waiters (_blocking (barrier s));
  inv_wfresh : ∀ f, f ∈ Event._waiters (_waiting (barrier s)) →
               (f < length (futs s))%nat;
  inv_bfresh : ∀ f, f ∈ Event._waiters (_blocking (barrier s)) →
               (f < length (futs s))%nat;
  inv_wowner : ∀ t1 t2 f i1 i2, calls s !! t1 = Some (InWait f i1) →
               calls s !! t2 = Some (InWait f i2) → t1 = t2;
  inv_bowner : ∀ t1 t2 f, calls s !! t1 = Some (InBlock f) →
               calls s !! t2 = Some (InBlock f) → t1 = t2;
  inv_plain : ∀ f, Future.get (futs s) f = Future.Pending
                   ∨ Future.get (futs s) f = Future.Result;
  inv_wset : Event._value (_waiting (barrier s)) = true →
             ∀ tid fut i, calls s !! tid = Some (InWait fut i) →
                          Future.get (futs s) fut = Future.Result;
  inv_filling : _state (barrier s) = 0 →
                ∀ tid fut i, calls s !! tid = Some (InWait fut i) →
                             Future.get (futs s) fut = Future.Pending
                             ∧ i < _count (barrier s);
  inv_index : ∀ tid fut i, calls s !! tid = Some (InWait fut i) →
              0 ≤ i < _parties (barrier s) - 1;
  inv_distinct : ∀ t1 t2 f1 f2 i, calls s !! t1 = Some (InWait f1 i) →
                 calls s !! t2 = Some (InWait f2 i) → t1 = t2;
  inv_bunset : _state (barrier s) = 1 ∨ _state (barrier s) = -1 →
               Event._value (_blocking (barrier s)) = false;
  inv_nospin : ∀ tid, calls s !! tid ≠ Some Spinning }.

End Barrier.

(** ** Flow control of the write side *)

Module FlowControlMixin.

Record t : Type := mk {
  _paused : bool;
  _drain_waiter : option nat;
  _connection_lost : bool }.

(** [FlowControlMixin.__init__] *)
Definition init : t :=
  {| _paused := false; _drain_waiter := None; _connection_lost := false |}.

(** [pause_writing] *)
Definition pause_writing (p : t) : result unit * t :=
  if _paused p then (Raise (AssertionError ""), p)
  else (Ok (), mk true (_drain_waiter p) (_connection_lost p)).

(** [resume_writing] *)
Definition resume_writing (p : t) (σ : Future.store) : result unit * t * Future.store :=
  if negb (_paused p) then (Raise (AssertionError ""), p, σ)
  else
    match _drain_waiter p with
    | None => (Ok (), mk false None (_connection_lost p), σ)
    | Some waiter =>
        (Ok (), mk false None (_connection_lost p),
         if Future.done (Future.get σ waiter) then σ
         else Future.set_result waiter σ)
    end.

(** [connection_lost] *)
Definition connection_lost (exc : option exn) (p : t) (σ : Future.store)
  : t * Future.store :=
  let p1 := mk (_paused p) (_drain_waiter p) true in
  if negb (_paused p1) then (p1, σ)
  else
    match _drain_waiter p1 with
    | None => (p1, σ)
    | Some waiter =>
        let p2 := mk (_paused p1) None true in
        if Future.done (Future.get σ waiter) then (p2, σ)
        else match exc with
             | None => (p2, Future.set_result waiter σ)
             | Some e => (p2, Future.set_exception waiter e σ)
             end
    end.

(** [_drain_helper] up to its [await]; what [await waiter] produces is
    what the coroutine returns or raises. *)
Definition _drain_helper (p : t) (σ : Future.store) : outcome * t * Future.store :=
  if _connection_lost p then (Raised (ConnectionResetError "Connection lost"), p, σ)
  else if negb (_paused p) then (Returned, p, σ)
  else
    let ok := match _drain_waiter p with
              | None => true
              | Some waiter => Future.cancelled (Future.get σ waiter)
              end in
    if ok then
      let '(waiter, σ') := Future.create σ in
      (Awaiting waiter, mk (_paused p) (Some waiter) (_connection_lost p), σ')
    else (Raised (AssertionError ""), p, σ).

End FlowControlMixin.

(** ** Stream *)

Definition bytes := list byte.

(** [bytes.startswith] and [bytes.find], on an offset that is never
    negative here. *)
Fixpoint startswith (sep buf : bytes) : bool :=
  match sep, buf with
  | [], _ => true
  | _ :: _, [] => false
  | s :: sep', b :: buf' => Byte.eqb s b && startswith sep' buf'
  end.

Fixpoint find_first (sep buf : bytes) : option nat :=
  if startswith sep buf then Some 0%nat
  else match buf with
       | [] => None
       | _ :: buf' => S <$> find_first sep buf'
       end.

Definition bytes_find (sep buf : bytes) (start : Z) : Z :=
  match find_first sep (drop (Z.to_nat start) buf) with
  | Some i => start + Z.of_nat i
  | None => -1
  end.

Definition len (b : bytes) : Z := Z.of_nat (length b).

Module Stream.

Definition _DEFAULT_LIMIT : Z := 2 ^ 16.

Inductive StreamMode : Type := READ | WRITE | READWRITE.

Definition is_read (m : StreamMode) : bool :=
  match m with WRITE => false | _ => true end.
Definition is_write (m : StreamMode) : bool :=
  match m with READ => false | _ => true end.

Definition _check_read (m : StreamMode) : result unit :=
  if is_read m then Ok () else Raise (RuntimeError "The stream is write-only").
Definition _check_write (m : StreamMode) : result unit :=
  if is_write m then Ok () else Raise (RuntimeError "The stream is read-only").

(** The transport is an external collaborator: what the stream needs to
    know is whether [pause_reading()] is implemented and whether the
    transport is closing.  The calls made on it are logged. *)
Record Transport : Type := mkTransport {
  pause_reading_supported : bool;
  is_closing : bool }.

Inductive call : Type :=
| pause_reading
| resume_reading
| write_ (data : bytes).

Record t : Type := mk {
  _mode : StreamMode;
  _transport : option Transport;
  _limit : Z;
  _buffer : bytes;
  _eof : bool;
  _waiter : option nat;
  _exception : option exn;
  _paused : bool }.

(** [Stream.__init__] *)
Definition init (mode : StreamMode) (transport : option Transport) (limit : Z)
  : result t :=
  if limit <=? 0 then Raise (ValueError "Limit cannot be <= 0")
  else Ok {| _mode := mode; _transport := transport; _limit := limit;
             _buffer := []; _eof := false; _waiter := None;
             _exception := None; _paused := false |}.

Definition with_transport (x : option Transport) (s : t) : t :=
  mk (_mode s) x (_limit s) (_buffer s) (_eof s) (_waiter s) (_exception s) (_paused s).
Definition with_buffer (x : bytes) (s : t) : t :=
  mk (_mode s) (_transport s) (_limit s) x (_eof s) (_waiter s) (_exception s) (_paused s).
Definition with_eof (x : bool) (s : t) : t :=
  mk (_mode s) (_transport s) (_limit s) (_buffer s) x (_waiter s) (_exception s) (_paused s).
Definition with_waiter (x : option nat) (s : t) : t :=
  mk (_mode s) (_transport s) (_limit s) (_buffer s) (_eof s) x (_exception s) (_paused s).
Definition with_exception (x : option exn) (s : t) : t :=
  mk (_mode s) (_transport s) (_limit s) (_buffer s) (_eof s) (_waiter s) x (_paused s).
Definition with_paused (x : bool) (s : t) : t :=
  mk (_mode s) (_transport s) (_limit s) (_buffer s) (_eof s) (_waiter s) (_exception s) x.

(** [_BaseStreamProtocol]: the flow control it inherits, whether its
    [_stream] is still there (it is the stream of the same [world]), and
    the future [_closed]. *)
Record Protocol : Type := mkProtocol {
  flow : FlowControlMixin.t;
  _stream : bool;
  _closed : nat }.

(** [_BaseStreamProtocol.__init__], with [_closed] the first future of
    the loop. *)
Definition protocol0 : Protocol :=
  {| flow := FlowControlMixin.init; _stream := true; _closed := 0 |}.

(** The stream, its protocol, the futures of the loop, and the calls made
    on the transport so far (latest last). *)
Record world : Type := World {
  stream : t;
  protocol : Protocol;
  futs : Future.store;
  calls : list call }.

Definition on_stream (f : t → t) (w : world) : world :=
  World (f (stream w)) (protocol w) (futs w) (calls w).
Definition on_futs (f : Future.store → Future.store) (w : world) : world :=
  World (stream w) (protocol w) (f (futs w)) (calls w).
Definition log (c : call) (w : world) : world :=
  World (stream w) (protocol w) (futs w) (calls w ++ [c]).

(** [Stream.exception] *)
Definition exception (w : world) : option exn := _exception (stream w).

(** [Stream.set_exception] *)
Definition set_exception (exc : exn) (w : world) : world :=
  let w := on_stream (with_exception (Some exc)) w in
  match _waiter (stream w) with
  | None => w
  | Some waiter =>
      let w := on_stream (with_waiter None) w in
      if Future.cancelled (Future.get (futs w) waiter) then w
      else on_futs (Future.set_exception waiter exc) w
  end.

(** [Stream._wakeup_waiter] *)
Definition _wakeup_waiter (w : world) : world :=
  match _waiter (stream w) with
  | None => w
  | Some waiter =>
      let w := on_stream (with_waiter None) w in
      if Future.cancelled (Future.get (futs w) waiter) then w
      else on_futs (Future.set_result waiter) w
  end.

(** [transport.resume_reading()] through [self._transport]. *)
Definition transport_resume_reading (w : world) : result unit * world :=
  match _transport (stream w) with
  | None => (Raise (AttributeError "'NoneType' object has no attribute 'resume_reading'"), w)
  | Some _ => (Ok (), log resume_reading w)
  end.

(** [Stream._maybe_resume_transport] *)
Definition _maybe_resume_transport (w : world) : result unit * world :=
  if _paused (stream w) && (len (_buffer (stream w)) <=? _limit (stream w)) then
    transport_resume_reading (on_stream (with_paused false) w)
  else (Ok (), w).

(** [Stream.feed_eof] *)
Definition feed_eof (w : world) : result unit * world :=
  match _check_read (_mode (stream w)) with
  | Raise e => (Raise e, w)
  | Ok _ => (Ok (), _wakeup_waiter (on_stream (with_eof true) w))
  end.

(** [Stream.at_eof] *)
Definition at_eof (w : world) : result bool :=
  match _check_read (_mode (stream w)) with
  | Raise e => Raise e
  | Ok _ => Ok (_eof (stream w) && bool_decide (_buffer (stream w) = []))
  end.

(** [Stream.feed_data] *)
Definition feed_data (data : bytes) (w : world) : result unit * world :=
  match _check_read (_mode (stream w)) with
  | Raise e => (Raise e, w)
  | Ok _ =>
      if _eof (stream w) then (Raise (AssertionError "feed_data after feed_eof"), w)
      else
        match data with
        | [] => (Ok (), w)
        | _ =>
            let w := on_stream (λ s, with_buffer (_buffer s ++ data) s) w in
            let w := _wakeup_waiter w in
            match _transport (stream w) with
            | Some transport =>
                if negb (_paused (stream w)) &&
                   (2 * _limit (stream w) <? len (_buffer (stream w)))
                then
                  let w := log pause_reading w in
                  if pause_reading_supported transport
                  then (Ok (), on_stream (with_paused true) w)
                  else (Ok (), on_stream (with_transport None) w)
                else (Ok (), w)
            | None => (Ok (), w)
            end
        end
  end.

(** [Stream._wait_for_data] up to its [await]: the future the caller is
    now suspended on, or what was raised. *)
Definition _wait_for_data (func_name : string) (w : world) : result nat * world :=
  match _waiter (stream w) with
  | Some _ =>
      (Raise (RuntimeError
                (func_name ++ "() called while another coroutine is " ++
                 "already waiting for incoming data")), w)
  | None =>
      if _eof (stream w) then (Raise (AssertionError "_wait_for_data after EOF"), w)
      else
        let '(r, w) :=
          if _paused (stream w)
          then transport_resume_reading (on_stream (with_paused false) w)
          else (Ok (), w) in
        match r with
        | Raise e => (Raise e, w)
        | Ok _ =>
            let '(fut, σ) := Future.create (futs w) in
            (Ok fut, on_stream (with_waiter (Some fut)) (on_futs (λ _, σ) w))
        end
  end.

(** *** Readers as coroutines *)

(** What may happen to the stream while a reader is suspended: the
    protocol feeds it (an exception of such a call goes to the loop, not
    to the reader), or the task of the reader is cancelled. *)
Inductive feed : Type :=
| FeedData (data : bytes)
| FeedEof
| SetException (exc : exn)
| CancelReader.

Definition apply_feed (f : feed) (w : world) : world :=
  match f with
  | FeedData data => (feed_data data w).2
  | FeedEof => (feed_eof w).2
  | SetException exc => set_exception exc w
  | CancelReader =>
      (* [task.cancel()] cancels the future the reader awaits while it is
         pending, and it is the stream's [_waiter] then; what becomes of
         a request that finds the future done is [must_cancel] below *)
      match _waiter (stream w) with
      | Some fut => on_futs (Future.cancel fut) w
      | None => w
      end
  end.

Definition apply_feeds (batch : list feed) (w : world) : world :=
  foldl (λ w f, apply_feed f w) w batch.

(** [task.cancel()] on a reader whose future [fut] is done already, woken
    by a feed but not run yet, cannot cancel the future: the request stays
    with the task ([_must_cancel]) and the loop throws [CancelledError]
    into the reader when it runs.  [must_cancel batch fut w] tells whether
    [batch], applied to [w], leaves such a request. *)
Fixpoint must_cancel (batch : list feed) (fut : nat) (w : world) : bool :=
  match batch with
  | [] => false
  | f :: batch =>
      match f with
      | CancelReader => Future.done (Future.get (futs w) fut)
      | _ => false
      end || must_cancel batch fut (apply_feed f w)
  end.

(** One run of a reader from the head of its loop, with locals [L]: it
    finishes, or suspends in [_wait_for_data]. *)
Inductive progress (L A : Type) : Type :=
| Finish (r : result A) (w : world)
| Suspend (l : L) (fut : nat) (w : world).
Arguments Finish {L A} r w.
Arguments Suspend {L A} l fut w.

(** The whole call: finished, or still suspended when the feed ran out. *)
Inductive run (L A : Type) : Type :=
| Finished (r : result A) (w : world)
| Pending (l : L) (fut : nat) (w : world).
Arguments Finished {L A} r w.
Arguments Pending {L A} l fut w.

Section reader.
Context {L A : Type}.
Variable body : L → world → progress L A.

(** The reader is suspended on [fut].  Each batch of [env] is what
    happens before the loop looks at the reader again; the reader runs
    on when its future is done by then or its task was cancelled, first
    through the [finally] of [_wait_for_data]. *)
Fixpoint wait (env : list (list feed)) (l : L) (fut : nat) (w : world) : run L A :=
  match env with
  | [] => Pending l fut w
  | batch :: env' =>
      let mc := must_cancel batch fut w in
      let w := apply_feeds batch w in
      match Future.await mc (Future.get (futs w) fut) with
      | None => wait env' l fut w
      | Some r =>
          let w := on_stream (with_waiter None) w in
          match r with
          | Raise e => Finished (Raise e) w
          | Ok _ =>
              match body l w with
              | Finish r w => Finished r w
              | Suspend l fut w => wait env' l fut w
              end
          end
      end
  end.

Definition drive (env : list (list feed)) (l : L) (w : world) : run L A :=
  match body l w with
  | Finish r w => Finished r w
  | Suspend l fut w => wait env l fut w
  end.
End reader.

(** *** readuntil *)

(** The scan at the head of the loop of [readuntil]. *)
Inductive scan : Type :=
| Found (isep : Z)         (* [break] *)
| Overrun (offset : Z)     (* no match, and the new offset is over the limit *)
| NotFound (offset : Z)    (* no match; the new offset *)
| TooShort.                (* the separator does not fit yet: no scan *)

Definition readuntil_scan (separator : bytes) (offset : Z) (s : t) : scan :=
  let seplen := len separator in
  let buflen := len (_buffer s) in
  if seplen <=? buflen - offset then
    let isep := bytes_find separator (_buffer s) offset in
    if negb (isep =? -1) then Found isep
    else
      let offset := buflen + 1 - seplen in
      if _limit s <? offset then Overrun offset else NotFound offset
  else TooShort.

(** The code of [readuntil] after its loop. *)
Definition readuntil_found (separator : bytes) (isep : Z) (w : world)
  : result bytes * world :=
  if _limit (stream w) <? isep then
    (Raise (LimitOverrunError "Separator is found, but chunk is longer than limit" isep), w)
  else
    let n := Z.to_nat (isep + len separator) in
    let chunk := take n (_buffer (stream w)) in
    let w := on_stream (λ s, with_buffer (drop n (_buffer s)) s) w in
    let '(r, w) := _maybe_resume_transport w in
    match r with
    | Raise e => (Raise e, w)
    | Ok _ => (Ok chunk, w)
    end.

(** The EOF check and the wait at the end of the loop body. *)
Definition readuntil_wait (offset : Z) (w : world) : progress Z bytes :=
  if _eof (stream w) then
    let chunk := _buffer (stream w) in
    Finish (Raise (IncompleteReadError chunk None)) (on_stream (with_buffer []) w)
  else
    match _wait_for_data "readuntil" w with
    | (Ok fut, w) => Suspend offset fut w
    | (Raise e, w) => Finish (Raise e) w
    end.

Definition readuntil_iter (separator : bytes) (offset : Z) (w : world)
  : progress Z bytes :=
  match readuntil_scan separator offset (stream w) with
  | Found isep => let '(r, w) := readuntil_found separator isep w in Finish r w
  | Overrun offset =>
      Finish (Raise (LimitOverrunError
                       "Separator is not found, and chunk exceed the limit" offset)) w
  | NotFound offset => readuntil_wait offset w
  | TooShort => readuntil_wait offset w
  end.

(** [Stream.readuntil] *)
Definition readuntil (separator : bytes) (env : list (list feed)) (w : world)
  : run Z bytes :=
  match _check_read (_mode (stream w)) with
  | Raise e => Finished (Raise e) w
  | Ok _ =>
      if len separator =? 0 then
        Finished (Raise (ValueError "Separator should be at least one-byte string")) w
      else
        match _exception (stream w) with
        | Some e => Finished (Raise e) w
        | None => drive (readuntil_iter separator) env 0 w
        end
  end.

(** *** readexactly *)

Definition readexactly_iter (n : Z) (_ : unit) (w : world) : progress unit bytes :=
  if len (_buffer (stream w)) <? n then
    if _eof (stream w) then
      let incomplete := _buffer (stream w) in
      Finish (Raise (IncompleteReadError incomplete (Some n)))
             (on_stream (with_buffer []) w)
    else
      match _wait_for_data "readexactly" w with
      | (Ok fut, w) => Suspend () fut w
      | (Raise e, w) => Finish (Raise e) w
      end
  else
    let '(data, w) :=
      if len (_buffer (stream w)) =? n
      then (_buffer (stream w), on_stream (with_buffer []) w)
      else (take (Z.to_nat n) (_buffer (stream w)),
            on_stream (λ s, with_buffer (drop (Z.to_nat n) (_buffer s)) s) w) in
    let '(r, w) := _maybe_resume_transport w in
    match r with
    | Raise e => Finish (Raise e) w
    | Ok _ => Finish (Ok data) w
    end.

(** [Stream.readexactly] *)
Definition readexactly (n : Z) (env : list (list feed)) (w : world) : run unit bytes :=
  match _check_read (_mode (stream w)) with
  | Raise e => Finished (Raise e) w
  | Ok _ =>
      if n <? 0 then
        Finished (Raise (ValueError "readexactly size can not be less than zero")) w
      else
        match _exception (stream w) with
        | Some e => Finished (Raise e) w
        | None =>
            if n =? 0 then Finished (Ok []) w
            else drive (readexactly_iter n) env () w
        end
  end.

(** *** readline *)

(** The handler of [LimitOverrunError] in [readline]: the line is dropped
    through its newline if there is one at [consumed], else the buffer is
    cleared. *)
Definition readline_overrun (msg : string) (consumed : Z) (w : world)
  : result bytes * world :=
  let sep := ["010"%byte] in
  let w :=
    if startswith sep (drop (Z.to_nat consumed) (_buffer (stream w)))
    then on_stream (λ s, with_buffer (drop (Z.to_nat (consumed + len sep))
                                           (_buffer s)) s) w
    else on_stream (with_buffer []) w in
  let '(r, w) := _maybe_resume_transport w in
  match r with
  | Raise e => (Raise e, w)
  | Ok _ => (Raise (ValueError msg), w)
  end.

(** [Stream.readline] *)
Definition readline (env : list (list feed)) (w : world) : run Z bytes :=
  match _check_read (_mode (stream w)) with
  | Raise e => Finished (Raise e) w
  | Ok _ =>
      match readuntil ["010"%byte] env w with
      | Finished (Ok line) w => Finished (Ok line) w
      | Finished (Raise (IncompleteReadError partial _)) w => Finished (Ok partial) w
      | Finished (Raise (LimitOverrunError msg consumed)) w =>
          let '(r, w) := readline_overrun msg consumed w in Finished r w
      | Finished (Raise e) w => Finished (Raise e) w
      | Pending l fut w => Pending l fut w
      end
  end.

(** *** read *)

(** [read(n)] for [n > 0], from its test of the buffer on; [resumed]
    tells that the call has been through [_wait_for_data] already. *)
Definition read_some (n : Z) (resumed : bool) (w : world) : progress bool bytes :=
  if negb resumed && bool_decide (_buffer (stream w) = []) && negb (_eof (stream w))
  then
    match _wait_for_data "read" w with
    | (Ok fut, w) => Suspend true fut w
    | (Raise e, w) => Finish (Raise e) w
    end
  else
    let data := take (Z.to_nat n) (_buffer (stream w)) in
    let w := on_stream (λ s, with_buffer (drop (Z.to_nat n) (_buffer s)) s) w in
    let '(r, w) := _maybe_resume_transport w in
    match r with
    | Raise e => Finish (Raise e) w
    | Ok _ => Finish (Ok data) w
    end.

(** One call [self.read(self._limit)] made by the loop of [read(-1)],
    from its start or from its [await].  [__init__] refuses a limit that
    is not positive; with a negative one the call would be [read(-1)]
    again, without end, which Python stops with [RecursionError], a
    [RuntimeError]. *)
Definition read_block (resumed : bool) (w : world) : progress bool bytes :=
  if resumed then read_some (_limit (stream w)) true w
  else
    match _check_read (_mode (stream w)) with
    | Raise e => Finish (Raise e) w
    | Ok _ =>
        match _exception (stream w) with
        | Some e => Finish (Raise e) w
        | None =>
            if _limit (stream w) =? 0 then Finish (Ok []) w
            else if _limit (stream w) <? 0
                 then Finish (Raise (RuntimeError "maximum recursion depth exceeded")) w
                 else read_some (_limit (stream w)) false w
        end
    end.

(** The loop of [read(-1)]: [blocks] so far, and whether the current
    [read(self._limit)] is in its [await].  [fuel] bounds the rounds made
    without suspending: each of them takes at least one byte from the
    buffer, so that one more than the length of the buffer is enough and
    the first case is never reached. *)
Fixpoint read_all (fuel : nat) (l : list bytes * bool) (w : world)
  : progress (list bytes * bool) bytes :=
  match fuel with
  | O => Finish (Raise (RuntimeError "out of fuel")) w
  | S fuel =>
      match read_block l.2 w with
      | Suspend r fut w => Suspend (l.1, r) fut w
      | Finish (Raise e) w => Finish (Raise e) w
      | Finish (Ok []) w => Finish (Ok (concat l.1)) w
      | Finish (Ok block) w => read_all fuel (l.1 ++ [block], false) w
      end
  end.

(** The body of [read(n)] past its first tests: the loop for [n < 0],
    the single read else.  The locals are [blocks] and whether the call
    is in its [await]. *)
Definition read_iter (n : Z) (l : list bytes * bool) (w : world)
  : progress (list bytes * bool) bytes :=
  if n <? 0 then read_all (S (length (_buffer (stream w)))) l w
  else match read_some n l.2 w with
       | Suspend r fut w => Suspend (l.1, r) fut w
       | Finish r w => Finish r w
       end.

(** [Stream.read] *)
Definition read (n : Z) (env : list (list feed)) (w : world)
  : run (list bytes * bool) bytes :=
  match _check_read (_mode (stream w)) with
  | Raise e => Finished (Raise e) w
  | Ok _ =>
      match _exception (stream w) with
      | Some e => Finished (Raise e) w
      | None =>
          if n =? 0 then Finished (Ok []) w
          else drive (read_iter n) env ([], false) w
      end
  end.

(** *** The write side *)

Definition on_flow (f : FlowControlMixin.t → FlowControlMixin.t) (w : world) : world :=
  World (stream w) (mkProtocol (f (flow (protocol w))) (_stream (protocol w))
                               (_closed (protocol w)))
        (futs w) (calls w).

(** [pause_writing] and [resume_writing] as the transport calls them on
    the protocol of this stream. *)
Definition pause_writing (w : world) : result unit * world :=
  let '(r, fl) := FlowControlMixin.pause_writing (flow (protocol w)) in
  (r, on_flow (λ _, fl) w).

Definition resume_writing (w : world) : result unit * world :=
  let '(r, fl, σ) := FlowControlMixin.resume_writing (flow (protocol w)) (futs w) in
  (r, on_futs (λ _, σ) (on_flow (λ _, fl) w)).

(** [_BaseStreamProtocol.connection_lost], first half: the stream, if the
    protocol still has it, is told about EOF or about the error. *)
Definition notify_stream (exc : option exn) (w : world) : result unit * world :=
  if _stream (protocol w) then
    match exc with
    | None => feed_eof w
    | Some e => (Ok (), set_exception e w)
    end
  else (Ok (), w).

(** Second half: [_closed] is resolved, the inherited
    [FlowControlMixin.connection_lost] runs, and (this is what each
    subclass adds) the protocol lets go of the stream. *)
Definition close_protocol (exc : option exn) (w : world) : world :=
  let closed := _closed (protocol w) in
  let w :=
    if Future.done (Future.get (futs w) closed) then w
    else match exc with
         | None => on_futs (Future.set_result closed) w
         | Some e => on_futs (Future.set_exception closed e) w
         end in
  let '(fl, σ) := FlowControlMixin.connection_lost exc (flow (protocol w)) (futs w) in
  World (stream w) (mkProtocol fl false (_closed (protocol w))) σ (calls w).

Definition connection_lost (exc : option exn) (w : world) : result unit * world :=
  match notify_stream exc w with
  | (Raise e, w) => (Raise e, w)
  | (Ok _, w) => (Ok (), close_protocol exc w)
  end.

(** Where a call of [drain()] is suspended. *)
Inductive drain_pc : Type :=
| Sleeping                 (* in [sleep(0)] *)
| Draining (fut : nat).    (* in the [await] of [_drain_helper] *)

Inductive drain_step : Type :=
| DFinish (r : result unit) (w : world)
| DSuspend (pc : drain_pc) (w : world).

(** [await self._protocol._drain_helper()] *)
Definition _drain_helper (w : world) : drain_step :=
  let '(r, fl, σ) := FlowControlMixin._drain_helper (flow (protocol w)) (futs w) in
  let w := on_futs (λ _, σ) (on_flow (λ _, fl) w) in
  match r with
  | Returned => DFinish (Ok ()) w
  | Raised e => DFinish (Raise e) w
  | Awaiting fut => DSuspend (Draining fut) w
  end.

(** [Stream.drain] up to its first suspension. *)
Definition drain_enter (w : world) : drain_step :=
  match _check_write (_mode (stream w)) with
  | Raise e => DFinish (Raise e) w
  | Ok _ =>
      match exception w with
      | Some exc => DFinish (Raise exc) w
      | None =>
          match _transport (stream w) with
          | None =>
              DFinish (Raise (AttributeError
                                "'NoneType' object has no attribute 'is_closing'")) w
          | Some transport =>
              if is_closing transport then DSuspend Sleeping w else _drain_helper w
          end
      end
  end.

(** What may happen between two runs of the task that runs [drain()]:
    the transport and the loop call the protocol, or the task is
    cancelled. *)
Inductive pevent : Type :=
| PauseWriting
| ResumeWriting
| ConnectionLost (exc : option exn)
| Fed (f : feed)
| CancelDrain.

(** [task.cancel()] on the task that runs [drain()], suspended at [pc]:
    the future it awaits is cancelled if it is still pending; in
    [sleep(0)], where the task awaits no future, and when the future is
    done, the request stays with the task ([_must_cancel]). *)
Definition cancel_drain (pc : drain_pc) (w : world) : world * bool :=
  match pc with
  | Sleeping => (w, true)
  | Draining fut =>
      let '(σ, mc) := Future.cancel_task fut (futs w) in (on_futs (λ _, σ) w, mc)
  end.

(** One event, on the world and on the pending cancellation request of
    the task. *)
Definition apply_pevent (pc : drain_pc) (ev : pevent) (st : world * bool)
  : world * bool :=
  match ev with
  | PauseWriting => ((pause_writing st.1).2, st.2)
  | ResumeWriting => ((resume_writing st.1).2, st.2)
  | ConnectionLost exc => ((connection_lost exc st.1).2, st.2)
  | Fed f => (apply_feed f st.1, st.2)
  | CancelDrain => let '(w, mc) := cancel_drain pc st.1 in (w, st.2 || mc)
  end.

Definition apply_pevents (pc : drain_pc) (batch : list pevent) (w : world)
  : world * bool :=
  foldl (λ st ev, apply_pevent pc ev st) (w, false) batch.

Inductive drain_run : Type :=
| DFinished (r : result unit) (w : world)
| DPending (pc : drain_pc) (w : world).

(** [drain()] is suspended on [fut] while the batches of [env] go by; it
    runs on when its future is done or its task was cancelled. *)
Fixpoint drain_wait (env : list (list pevent)) (fut : nat) (w : world) : drain_run :=
  match env with
  | [] => DPending (Draining fut) w
  | batch :: env' =>
      let st := apply_pevents (Draining fut) batch w in
      match Future.await st.2 (Future.get (futs st.1) fut) with
      | None => drain_wait env' fut st.1
      | Some r => DFinished r st.1
      end
  end.

(** [Stream.drain], run against what happens meanwhile. *)
Definition drain (env : list (list pevent)) (w : world) : drain_run :=
  match drain_enter w with
  | DFinish r w => DFinished r w
  | DSuspend (Draining fut) w => drain_wait env fut w
  | DSuspend Sleeping w =>
      match env with
      | [] => DPending Sleeping w
      | batch :: env' =>
          let st := apply_pevents Sleeping batch w in
          if st.2 then DFinished (Raise CancelledError) st.1
          else
            match _drain_helper st.1 with
            | DFinish r w => DFinished r w
            | DSuspend (Draining fut) w => drain_wait env' fut w
            | DSuspend Sleeping w => DPending Sleeping w
            end
      end
  end.

(** What [write()] hands back: a future that already failed, the
    completed future [_complete_fut], or a task that runs [drain()]. *)
Inductive awaitable : Type :=
| Failed (exc : exn)
| Complete
| DrainTask.

(** [Stream._fast_drain] *)
Definition _fast_drain (w : world) : result awaitable :=
  match exception w with
  | Some exc => Ok (Failed exc)
  | None =>
      match _transport (stream w) with
      | None =>
          Raise (AttributeError "'NoneType' object has no attribute 'is_closing'")
      | Some transport =>
          if negb (is_closing transport) then
            if FlowControlMixin._connection_lost (flow (protocol w))
            then Ok (Failed (ConnectionResetError "Connection lost"))
            else if negb (FlowControlMixin._paused (flow (protocol w)))
                 then Ok Complete
                 else Ok DrainTask
          else Ok DrainTask
      end
  end.

(** [Stream.write] *)
Definition write (data : bytes) (w : world) : result awaitable * world :=
  match _check_write (_mode (stream w)) with
  | Raise e => (Raise e, w)
  | Ok _ =>
      match _transport (stream w) with
      | None =>
          (Raise (AttributeError "'NoneType' object has no attribute 'write'"), w)
      | Some _ => let w := log (write_ data) w in (_fast_drain w, w)
      end
  end.

(** Awaiting what [write()] handed back. *)
Definition await_write (a : awaitable) (env : list (list pevent)) (w : world)
  : drain_run :=
  match a with
  | Failed exc => DFinished (Raise exc) w
  | Complete => DFinished (Ok ()) w
  | DrainTask => drain env w
  end.

(** [self._protocol._connection_lost] *)
Definition lost (w : world) : bool :=
  FlowControlMixin._connection_lost (flow (protocol w)).

(** A later [drain()] read as failing with [ConnectionResetError] once
    the connection is lost. *)
Definition later_drain_resets (w : world) : Prop :=
  ∀ env, ∃ w', drain env w = DFinished (Raise (ConnectionResetError "Connection lost")) w'.

(** A call of [drain()] is suspended in [_drain_helper] on [fut] after
    [pause_writing()]: [fut] is the drain waiter of the protocol, nobody
    has resolved it, and it is not one of the other futures of the
    stream, [_closed] and the waiter of a reader. *)
Definition draining (w : world) (fut : nat) : Prop :=
  FlowControlMixin._drain_waiter (flow (protocol w)) = Some fut
  ∧ FlowControlMixin._paused (flow (protocol w)) = true
  ∧ (fut < length (futs w))%nat
  ∧ Future.get (futs w) fut = Future.Pending
  ∧ _closed (protocol w) ≠ fut
  ∧ _waiter (stream w) ≠ Some fut.

(** A writable stream after [pause_writing()], with no drain waiter left
    over that is still live: a call of [drain()] will suspend. *)
Definition choked (w : world) : Prop :=
  is_write (_mode (stream w)) = true
  ∧ exception w = None
  ∧ FlowControlMixin._paused (flow (protocol w)) = true
  ∧ lost w = false
  ∧ match FlowControlMixin._drain_waiter (flow (protocol w)) with
    | None => True
    | Some old => Future.cancelled (Future.get (futs w) old) = true
    end
  ∧ (_closed (protocol w) < length (futs w))%nat
  ∧ (∀ f, _waiter (stream w) = Some f → (f < length (futs w))%nat).

(** *** What the transport sees *)

(** The transport as the stream drives it: [pause_reading] only while
    reading, [resume_reading] only while paused.  [paced paused cs] is
    the state after the calls [cs], if they keep to that. *)
Definition paced_step (paused : bool) (c : call) : option bool :=
  match c with
  | pause_reading => if paused then None else Some true
  | resume_reading => if paused then Some false else None
  | write_ _ => Some paused
  end.

Fixpoint paced (paused : bool) (cs : list call) : option bool :=
  match cs with
  | [] => Some paused
  | c :: cs =>
      match paced_step paused c with
      | Some p => paced p cs
      | None => None
      end
  end.

(** The data handed to [transport.write], in order. *)
Definition written (cs : list call) : list bytes :=
  omap (λ c, match c with write_ data => Some data | _ => None end) cs.

(** The world a call leaves behind, finished or still suspended. *)
Definition world_of {L A : Type} (r : run L A) : world :=
  match r with Finished _ w | Pending _ _ w => w end.

Definition progress_world {L A : Type} (p : progress L A) : world :=
  match p with Finish _ w | Suspend _ _ w => w end.

(** What the users of a stream do, one after the other: the protocol
    feeds it, coroutines read from it, each with what the protocol does
    while the call is suspended, or write to it. *)
Inductive op : Type :=
| Feed (f : feed)
| ReadExactly (n : Z) (env : list (list feed))
| ReadUntil (separator : bytes) (env : list (list feed))
| ReadLine (env : list (list feed))
| Read (n : Z) (env : list (list feed))
| Write (data : bytes).

Definition exec (o : op) (w : world) : world :=
  match o with
  | Feed f => apply_feed f w
  | ReadExactly n env => world_of (readexactly n env w)
  | ReadUntil separator env => world_of (readuntil separator env w)
  | ReadLine env => world_of (readline env w)
  | Read n env => world_of (read n env w)
  | Write data => (write data w).2
  end.

Definition exec_all (os : list op) (w : world) : world :=
  foldl (λ w o, exec o w) w os.

(** The data of the [write] calls of [os], in order. *)
Definition writes (os : list op) : list bytes :=
  omap (λ o, match o with Write data => Some data | _ => None end) os.

(** The stream has mode [mode], its transport can pause, the calls made
    on it so far were well paced and left it paused exactly when the
    stream says so, and it was handed [data]. *)
Definition steady (mode : StreamMode) (data : list bytes) (w : world) : Prop :=
  (∃ tr, _transport (stream w) = Some tr ∧ pause_reading_supported tr = true)
  ∧ paced false (calls w) = Some (_paused (stream w))
  ∧ written (calls w) = data
  ∧ _mode (stream w) = mode.

(** A stream with a transport that is open and can pause. *)
Definition connected (mode : StreamMode) (limit : Z) : world :=
  {| stream := {| _mode := mode; _transport := Some (mkTransport true false);
                  _limit := limit; _buffer := []; _eof := false; _waiter := None;
                  _exception := None; _paused := false |};
     protocol := protocol0; futs := [Future.Pending]; calls := [] |}.

(** A paused stream still has the transport it paused. *)
Definition wf (s : t) : Prop := _paused s = true → is_Some (_transport s).

(** A readable stream that has not seen EOF and that nobody reads from:
    the state in which a reader goes round its loop. *)
Definition readable (w : world) : Prop :=
  is_read (_mode (stream w)) = true
  ∧ _eof (stream w) = false
  ∧ _waiter (stream w) = None
  ∧ wf (stream w).

(** The protocol delivers data only: each element of [dss] is the chunks
    that [feed_data] gets before the loop looks at the reader again. *)
Definition batches (dss : list (list bytes)) : list (list feed) :=
  map (map FeedData) dss.

(** A reader is suspended on [fut], which nobody has resolved yet. *)
Definition suspended (w : world) (fut : nat) : Prop :=
  is_read (_mode (stream w)) = true
  ∧ _eof (stream w) = false
  ∧ wf (stream w)
  ∧ _waiter (stream w) = Some fut
  ∧ (fut < length (futs w))%nat
  ∧ Future.get (futs w) fut = Future.Pending.

(** [feed_data(data)] read as waking the pending waiter for every
    [data]. *)
Definition feed_wakes_waiter (data : bytes) (w : world) : Prop :=
  ∀ fut, _waiter (stream w) = Some fut →
         Future.get (futs w) fut = Future.Pending →
         Future.get (futs (feed_data data w).2) fut = Future.Result.

(** [feed_data(data)] read as asking the transport to pause whenever the
    buffer ends up over twice the limit and the stream is not paused. *)
Definition feed_requests_pause (data : bytes) (w : world) : Prop :=
  _paused (stream w) = false →
  2 * _limit (stream w) < len (_buffer (stream w) ++ data) →
  calls (feed_data data w).2 = calls w ++ [pause_reading].

(** A step of the stream read as resuming a paused transport only when
    the buffer is down to the limit. *)
Definition resumes_only_within_limit (step : world → world) (w : world) : Prop :=
  _paused (stream w) = true →
  calls (step w) = calls w ++ [resume_reading] →
  len (_buffer (stream w)) ≤ _limit (stream w).

(** A stream without transport that holds [buffer]; nobody is waiting. *)
Definition buffered (mode : StreamMode) (limit : Z) (buffer : bytes) (eof : bool)
  : world :=
  {| stream := {| _mode := mode; _transport := None; _limit := limit;
                  _buffer := buffer; _eof := eof; _waiter := None;
                  _exception := None; _paused := false |};
     protocol := protocol0; futs := [Future.Pending]; calls := [] |}.

End Stream.

(** * Properties *)

Ltac map_cases t tid :=
  destruct (decide (t = tid)) as [->|?];
  rewrite ?lookup_insert_eq, ?lookup_insert_ne, ?lookup_delete_eq,
    ?lookup_delete_ne by done.

Section future_store.
Implicit Types (σ : Future.store) (f g : nat) (x : Future.state).

Lemma get_insert σ f g x :
  Future.get (<[f := x]> σ) g =
  if decide (f = g ∧ (f < length σ)%nat) then x else Future.get σ g.
Proof.
  unfold Future.get. case_decide as H.
  - destruct H as [-> H]. by rewrite list_lookup_insert_eq.
  - destruct (decide (f = g)) as [->|Hne].
    + rewrite list_insert_ge; [done|]. lia.
    + by rewrite list_lookup_insert_ne.
Qed.

Lemma get_create σ g : Future.get (σ ++ [Future.Pending]) g = Future.get σ g.
Proof.
  unfold Future.get. destruct (decide (g < length σ)%nat) as [H|H].
  - by rewrite lookup_app_l.
  - rewrite (lookup_ge_None_2 σ g); [|lia]. simpl.
    destruct (decide (g = length σ)) as [->|Hne].
    + by rewrite list_lookup_middle.
    + rewrite lookup_ge_None_2; [done|]. rewrite length_app. simpl. lia.
Qed.

Lemma cancel_task_length f σ : length (Future.cancel_task f σ).1 = length σ.
Proof.
  unfold Future.cancel_task. destruct (Future.done _); simpl; [done|].
  by rewrite length_insert.
Qed.

Lemma cancel_task_result f σ g :
  Future.get (Future.cancel_task f σ).1 g = Future.Result →
  Future.get σ g = Future.Result.
Proof.
  unfold Future.cancel_task. destruct (Future.done _); simpl; [done|].
  rewrite get_insert. by case_decide.
Qed.

Lemma get_beyond σ g : (length σ ≤ g)%nat → Future.get σ g = Future.Pending.
Proof. intros H. unfold Future.get. by rewrite lookup_ge_None_2. Qed.

End future_store.

Section deque.
Implicit Types (x y : nat) (l : list nat).

Lemma deque_remove_elem x l : x ∈ l → is_Some (deque_remove x l).
Proof.
  induction l as [|y l IH]; simpl; [by intros ?%elem_of_nil|].
  intros [->|H]%elem_of_cons; case_decide; eauto; try done.
  destruct (IH H) as [l' ->]. eauto.
Qed.

Lemma deque_remove_sub x l l' y : deque_remove x l = Some l' → y ∈ l' → y ∈ l.
Proof.
  revert l'. induction l as [|z l IH]; simpl; [done|]. intros l'.
  case_decide; [intros [= ->] ?; by apply elem_of_cons; right|].
  destruct (deque_remove x l) as [l0|]; simpl; [|done].
  intros [= <-] [->|H']%elem_of_cons; apply elem_of_cons; [by left|right; eauto].
Qed.

Lemma deque_remove_other x l l' y :
  deque_remove x l = Some l' → y ∈ l → y ≠ x → y ∈ l'.
Proof.
  revert l'. induction l as [|z l IH]; simpl; [done|]. intros l'.
  case_decide as Hx.
  - intros [= ->] [->|H']%elem_of_cons ?; [congruence|done].
  - destruct (deque_remove x l) as [l0|]; simpl; [|done].
    intros [= <-] [->|H']%elem_of_cons ?; apply elem_of_cons; [by left|right; eauto].
Qed.

Lemma deque_remove_nodup x l l' :
  deque_remove x l = Some l' → NoDup l → NoDup l' ∧ x ∉ l'.
Proof.
  revert l'. induction l as [|z l IH]; simpl; [done|]. intros l'.
  case_decide as Hx.
  - intros [= ->] [? ?]%NoDup_cons. by subst.
  - destruct (deque_remove x l) as [l0|] eqn:E; simpl; [|done].
    intros [= <-] [Hz Hl]%NoDup_cons. destruct (IH _ eq_refl Hl) as [? ?].
    split.
    + apply NoDup_cons. split; [|done].
      intros ?. apply Hz. eapply deque_remove_sub; eauto.
    + intros [?|?]%elem_of_cons; done.
Qed.

Lemma deque_remove_head x l l' y :
  deque_remove x l = Some l' → head l = Some y → y ≠ x → head l' = Some y.
Proof.
  destruct l as [|z l]; simpl; [done|]. case_decide.
  - intros _ [= ->] ?. congruence.
  - destruct (deque_remove x l); simpl; [|done]. by intros [= <-].
Qed.

End deque.

Section lock_invariant.
Import Lock.
Implicit Types (s : sys) (tid : nat).

Lemma sound_sys0 : sound sys0.
Proof.
  split; unfold queue; simpl; try done.
  - constructor.
  - intros f ?%elem_of_nil. done.
Qed.

Lemma wake_up_first_length l σ : length (_wake_up_first l σ) = length σ.
Proof.
  unfold _wake_up_first, Future.set_result.
  destruct (_waiters l) as [[|h ws]|]; try done.
  destruct (Future.done _); [done|]. by rewrite length_insert.
Qed.

(** A future that [_wake_up_first] leaves with a result either had it
    before or is the head of the queue. *)
Lemma wake_up_first_result b ws σ g :
  Future.get (_wake_up_first (mk b (Some ws)) σ) g = Future.Result →
  Future.get σ g = Future.Result ∨ head ws = Some g.
Proof.
  unfold _wake_up_first, Future.set_result. simpl.
  destruct ws as [|h ws]; [by left|].
  destruct (Future.done _); [by left|].
  rewrite get_insert. case_decide as H; [|by left].
  destruct H as [-> _]. by right.
Qed.

Lemma sound_acquire s tid :
  sound s → tasks s !! tid = None → sound (step (Acquire tid) s).
Proof.
  intros [Iwoken Inodup Ifresh Iqueued Iowner] Hidle.
  destruct s as [[b ows] σ ts]. unfold queue in *. simpl in *.
  rewrite Hidle. unfold acquire_enter. simpl.
  destruct (negb b && _) eqn:E.
  - apply andb_true_iff in E as [Hb Hall]. apply negb_true_iff in Hb. subst b.
    split; unfold queue; simpl; try done.
    + intros f Hf Hres. exfalso. destruct ows as [ws|]; simpl in *.
      * rewrite forallb_forall in Hall. apply list_elem_of_In, Hall in Hf.
        by rewrite Hres in Hf.
      * by apply elem_of_nil in Hf.
    + intros t f mc H. destruct (decide (t = tid)) as [->|N].
      * by rewrite lookup_insert_eq in H.
      * rewrite lookup_insert_ne in H by done. by apply Iqueued in H.
    + intros t1 t2 f mc1 mc2 H1 H2.
      destruct (decide (t1 = tid)) as [->|N1]; [by rewrite lookup_insert_eq in H1|].
      destruct (decide (t2 = tid)) as [->|N2]; [by rewrite lookup_insert_eq in H2|].
      rewrite lookup_insert_ne in H1, H2 by done. by eapply Iowner.
  - clear E.
    assert (Hnew : length σ ∉ default [] ows) by (intros ?%Ifresh; lia).
    split; unfold queue; simpl.
    + intros f Hf Hres. rewrite get_create in Hres.
      apply elem_of_app in Hf as [Hf|Hf%list_elem_of_singleton].
      * destruct (Iwoken f Hf Hres) as [Hh ?]. split; [|done].
        destruct (default [] ows); simpl in *; [done|congruence].
      * subst f. by rewrite get_beyond in Hres.
    + apply NoDup_app. split_and!; [done| |apply NoDup_singleton].
      intros f Hf ?%list_elem_of_singleton. by subst.
    + intros f [Hf|Hf%list_elem_of_singleton]%elem_of_app; rewrite length_app; simpl.
      * apply Ifresh in Hf. lia.
      * lia.
    + intros t f mc H. apply elem_of_app. destruct (decide (t = tid)) as [->|N].
      * rewrite lookup_insert_eq in H. injection H as <- _. right. by apply list_elem_of_singleton.
      * rewrite lookup_insert_ne in H by done. left. by apply Iqueued in H.
    + intros t1 t2 f mc1 mc2 H1 H2.
      destruct (decide (t1 = tid)) as [->|N1]; destruct (decide (t2 = tid)) as [->|N2];
        try done.
      * rewrite lookup_insert_eq in H1. rewrite lookup_insert_ne in H2 by done.
        injection H1 as <- _. by apply Iqueued in H2.
      * rewrite lookup_insert_eq in H2. rewrite lookup_insert_ne in H1 by done.
        injection H2 as <- _. by apply Iqueued in H1.
      * rewrite lookup_insert_ne in H1, H2 by done. by eapply Iowner.
Qed.

Lemma sound_cancel s tid fut mc :
  sound s → tasks s !! tid = Some (Waiting fut mc) → sound (step (Cancel tid) s).
Proof.
  intros [Iwoken Inodup Ifresh Iqueued Iowner] Hw.
  destruct s as [[b ows] σ ts]. unfold queue in *. simpl in *.
  rewrite Hw.
  pose proof (cancel_task_length fut σ) as Hlen.
  pose proof (cancel_task_result fut σ) as Hres.
  destruct (Future.cancel_task fut σ) as [σ' m0]. simpl in *.
  split; unfold queue; simpl;
     [ intros f Hf Hr; apply Iwoken; [done|by apply Hres]
     | done
     | intros f Hf; rewrite Hlen; by apply Ifresh
     | intros t f m H; destruct (decide (t = tid)) as [->|N];
       [ rewrite lookup_insert_eq in H; injection H as <- _; by eapply Iqueued
       | rewrite lookup_insert_ne in H by done; by eapply Iqueued ]
     | intros t1 t2 f m1 m2 H1 H2;
       destruct (decide (t1 = tid)) as [->|N1]; destruct (decide (t2 = tid)) as [->|N2];
       try done;
       [ rewrite lookup_insert_eq in H1; rewrite lookup_insert_ne in H2 by done;
         injection H1 as <- _; by eapply Iowner
       | rewrite lookup_insert_eq in H2; rewrite lookup_insert_ne in H1 by done;
         injection H2 as <- _; by eapply Iowner
       | rewrite lookup_insert_ne in H1, H2 by done; by eapply Iowner ] ].
Qed.

(** What [Release tid] does when [tid] is not suspended. *)
Lemma step_release s tid :
  (∀ f m, tasks s !! tid ≠ Some (Waiting f m)) →
  step (Release tid) s
  = match release (lock s) (futs s) with
    | Ok (l, σ) => Sys l σ (delete tid (tasks s))
    | Raise _ => Sys (lock s) (futs s) (delete tid (tasks s))
    end.
Proof.
  intros Hnw. simpl. destruct (tasks s !! tid) as [[f m|]|] eqn:E; try done.
  by destruct (Hnw f m).
Qed.

(** [release()] keeps the queue in order, whoever calls it. *)
Lemma sound_release s tid :
  sound s → (∀ f m, tasks s !! tid ≠ Some (Waiting f m)) →
  sound (step (Release tid) s).
Proof.
  intros [Iwoken Inodup Ifresh Iqueued Iowner] Hnw. rewrite step_release by done.
  destruct s as [[b ows] σ ts]. unfold queue in *. unfold release. simpl in *.
  destruct b; split; unfold queue; simpl; try done.
  - intros f Hf Hr. split; [|done]. destruct ows as [ws|]; simpl in *;
      [|by apply elem_of_nil in Hf].
    apply wake_up_first_result in Hr as [Hr|Hr]; [|done].
    by destruct (Iwoken f Hf Hr).
  - intros f Hf. rewrite wake_up_first_length. by apply Ifresh.
  - intros t f m [_ H]%lookup_delete_Some. by eapply Iqueued.
  - intros t1 t2 f m1 m2 [_ H1]%lookup_delete_Some [_ H2]%lookup_delete_Some.
    by eapply Iowner.
  - intros t f m [_ H]%lookup_delete_Some. by eapply Iqueued.
  - intros t1 t2 f m1 m2 [_ H1]%lookup_delete_Some [_ H2]%lookup_delete_Some.
    by eapply Iowner.
Qed.

Lemma sound_resume s tid fut mc :
  sound s → tasks s !! tid = Some (Waiting fut mc) → sound (step (Resume tid) s).
Proof.
  intros I Hw. pose proof I as [Iwoken Inodup Ifresh Iqueued Iowner].
  destruct s as [[b ows] σ ts]. unfold queue in *. simpl in *.
  rewrite Hw. destruct (Future.await mc (Future.get σ fut)) as [r|] eqn:Ha; [|done].
  unfold acquire_resume. simpl.
  pose proof (Iqueued _ _ _ Hw) as Hin.
  destruct (deque_remove_elem _ _ Hin) as [ws Hrm]. rewrite Hrm.
  destruct (deque_remove_nodup _ _ _ Hrm Inodup) as [Hnd Hout].
  assert (Hothers : ∀ t f m, t ≠ tid → ts !! t = Some (Waiting f m) → f ∈ ws).
  { intros t f m N H. eapply deque_remove_other; eauto.
    intros ->. apply N. by eapply Iowner. }
  assert (Hhead : ∀ g, g ∈ ws → Future.get σ g = Future.Result →
                       head ws = Some g ∧ b = false).
  { intros g Hg Hr. destruct (Iwoken g) as [Hh ?]; eauto using deque_remove_sub.
    split; [|done]. eapply deque_remove_head; eauto. by intros ->. }
  destruct r as [[]|e].
  - (* the future has a result and the task was not cancelled *)
    assert (mc = false ∧ Future.get σ fut = Future.Result) as [-> Hres].
    { unfold Future.await in Ha. destruct mc; [done|].
      by destruct (Future.get σ fut). }
    destruct (Iwoken fut Hin Hres) as [Hfh ->].
    split; unfold queue; simpl; try done.
    + intros g Hg Hr. exfalso. destruct (Iwoken g) as [Hh _]; eauto using deque_remove_sub.
      rewrite Hfh in Hh. by injection Hh as ->.
    + intros g Hg. eauto using deque_remove_sub.
    + intros t f m H. destruct (decide (t = tid)) as [->|N];
        [by rewrite lookup_insert_eq in H|].
      rewrite lookup_insert_ne in H by done. eauto.
    + intros t1 t2 f m1 m2 H1 H2.
      destruct (decide (t1 = tid)) as [->|N1]; [by rewrite lookup_insert_eq in H1|].
      destruct (decide (t2 = tid)) as [->|N2]; [by rewrite lookup_insert_eq in H2|].
      rewrite lookup_insert_ne in H1, H2 by done. by eapply Iowner.
  - (* the await raised: the task leaves without the lock *)
    assert (∃ σ', (let '(r', l, σ0) :=
               match e with
               | CancelledError =>
                   (Raise CancelledError, mk b (Some ws),
                    if b then σ else _wake_up_first (mk b (Some ws)) σ)
               | _ => (Raise e, mk b (Some ws), σ)
               end in
             Sys l σ0 match r' with
                      | Ok _ => <[tid:=Holding]> ts
                      | Raise _ => delete tid ts
                      end) = Sys (mk b (Some ws)) σ' (delete tid ts)
            ∧ length σ' = length σ
            ∧ ∀ g, Future.get σ' g = Future.Result →
                   Future.get σ g = Future.Result ∨ (b = false ∧ head ws = Some g))
      as (σ' & -> & Hlen & Hres).
    { destruct e; try (exists σ; split_and!; [done|done|by left]).
      destruct b; [exists σ; split_and!; [done|done|by left]|].
      eexists; split_and!; [done|apply wake_up_first_length|].
      intros g [?|?]%wake_up_first_result; eauto. }
    split; unfold queue; simpl; try done.
    + intros g Hg [Hr|[-> Hr]]%Hres; eauto.
    + intros g Hg. rewrite Hlen. eauto using deque_remove_sub.
    + intros t f m [N H]%lookup_delete_Some. eauto.
    + intros t1 t2 f m1 m2 [_ H1]%lookup_delete_Some [_ H2]%lookup_delete_Some.
      by eapply Iowner.
Qed.

Lemma sound_step ev s : sound s → sound (step ev s).
Proof.
  intros I. destruct ev as [tid|tid|tid|tid].
  - destruct (tasks s !! tid) eqn:E; [by simpl; rewrite E|by apply sound_acquire].
  - destruct (tasks s !! tid) as [[f m|]|] eqn:E; try (by simpl; rewrite E).
    by eapply sound_cancel.
  - destruct (tasks s !! tid) as [[f m|]|] eqn:E; try (by simpl; rewrite E).
    by eapply sound_resume.
  - destruct (tasks s !! tid) as [[f m|]|] eqn:E; [by simpl; rewrite E|..];
      apply sound_release; try done; intros f m; congruence.
Qed.

Lemma sound_run evs s : sound s → sound (run evs s).
Proof.
  revert s. induction evs as [|ev evs IH]; intros s I; [done|].
  simpl. apply IH. by apply sound_step.
Qed.

Lemma inv_sys0 : inv sys0.
Proof. split; [apply sound_sys0|done|done]. Qed.

(** With discipline the holder is alone, and the lock is locked for it. *)
Lemma inv_step ev s : inv s → owned ev s = true → inv (step ev s).
Proof.
  intros [S Ihold Iuniq] Hown.
  pose (P := λ s', (∀ t, holds s' t → _locked (lock s') = true) ∧ exclusive s').
  assert (Hfree : _locked (lock s) = false → ∀ t, ¬ holds s t).
  { intros Hf t Ht%Ihold. congruence. }
  assert (Hnew : ∀ tid l σ,
             (∀ t, ¬ holds s t) → _locked l = true →
             P (Sys l σ (<[tid := Holding]> (tasks s)))).
  { intros tid l σ Hnone Hl. split; unfold exclusive, holds; simpl; [done|].
    intros t1 t2. map_cases t1 tid; map_cases t2 tid; try done;
      intros H1 H2; exfalso; by eapply Hnone. }
  assert (Hsame : ∀ l σ ts,
             _locked l = _locked (lock s) →
             (∀ t, ts !! t = Some Holding → holds s t) →
             P (Sys l σ ts)).
  { intros l σ ts Hl Hts. split; unfold exclusive, holds; simpl.
    - intros t Ht%Hts%Ihold. congruence.
    - intros t1 t2 H1%Hts H2%Hts. by apply Iuniq. }
  cut (P (step ev s)).
  { intros [? ?]. split; [by apply sound_step|done|done]. }
  pose proof S as [Iwoken Inodup Ifresh Iqueued Iowner].
  destruct s as [[b ows] σ ts]. unfold holds, queue in *. simpl in *.
  destruct ev as [tid|tid|tid|tid]; simpl in *.
  - destruct (ts !! tid) as [p|] eqn:Ht; [by apply Hsame|].
    unfold acquire_enter. simpl. destruct (negb b && _) eqn:E.
    + apply andb_true_iff in E as [Hb%negb_true_iff _]. by apply Hnew; [apply Hfree|].
    + apply Hsame; [done|]. intros t. map_cases t tid; [done|done].
  - destruct (ts !! tid) as [[fut mc|]|] eqn:Ht; try by apply Hsame.
    destruct (Future.cancel_task fut σ) as [σ' mc']. apply Hsame; [done|].
    intros t. map_cases t tid; done.
  - destruct (ts !! tid) as [[fut mc|]|] eqn:Ht; try by apply Hsame.
    destruct (Future.await mc (Future.get σ fut)) as [r|] eqn:Ha; [|by apply Hsame].
    unfold acquire_resume. simpl.
    destruct (deque_remove fut (default [] ows)) as [ws|] eqn:Hrm; simpl.
    2:{ apply Hsame; [done|]. intros t [_ ?]%lookup_delete_Some. done. }
    destruct r as [[]|e].
    + assert (Future.get σ fut = Future.Result) as Hres.
      { unfold Future.await in Ha. destruct mc; [done|].
        by destruct (Future.get σ fut). }
      destruct (Iwoken fut) as [_ ->]; [by eapply Iqueued|done|].
      by apply Hnew; [apply Hfree|].
    + destruct e; simpl; (apply Hsame; [done|]);
        intros t [_ ?]%lookup_delete_Some; done.
  - destruct (ts !! tid) as [[fut mc|]|] eqn:Ht; try done.
    unfold release. simpl. rewrite (Ihold _ Ht).
    split; unfold exclusive, holds; simpl.
    + intros t [N H]%lookup_delete_Some. destruct N. by eapply Iuniq.
    + intros t1 t2 [N H]%lookup_delete_Some. destruct N. by eapply Iuniq.
Qed.

Lemma inv_run evs s : inv s → disciplined evs s = true → inv (run evs s).
Proof.
  revert s. induction evs as [|ev evs IH]; intros s I Hd; [done|].
  simpl in *. apply andb_true_iff in Hd as [Hown Hd].
  apply IH; [by apply inv_step|done].
Qed.

End lock_invariant.

(** ** Lock: mutual exclusion and release *)

(** C1, as stated, fails: [release()] does not ask who calls it.  Task 0
    acquires the lock, task 1, which never acquired it, releases it, and
    task 2 acquires it: tasks 0 and 2 are both between their successful
    [acquire()] and their [release()], and [locked()] is [True]. *)
Lemma lock_foreign_release_counterexample :
  let s := Lock.run [Lock.Acquire 0; Lock.Release 1; Lock.Acquire 2]%nat Lock.sys0 in
  Lock.holds s 0 ∧ Lock.holds s 2 ∧ Lock.locked (Lock.lock s) = true
  ∧ ¬ Lock.exclusive s.
Proof.
  split_and!; try (vm_compute; reflexivity).
  intros H. specialize (H 0%nat 2%nat). cbv zeta in H.
  assert (0%nat = 2%nat) as Heq by (apply H; vm_compute; reflexivity).
  discriminate Heq.
Qed.

(** C1, amended.  Whatever the interleaving of acquire, cancel, resume and
    release events (tasks switch only at the await of [acquire]) in which
    [release()] is called only by a task that is between its own
    successful [acquire()] and its [release()], two tasks that are both
    between a successful [acquire()] and their [release()] are the same
    task, and that task observes [locked() == True]; [release()] on an
    unlocked lock raises [RuntimeError('Lock is not acquired.')], whoever
    calls it. *)
Theorem lock_mutual_exclusion :
  (∀ (evs : list Lock.event) (t1 t2 : nat),
      Lock.disciplined evs Lock.sys0 = true →
      Lock.holds (Lock.run evs Lock.sys0) t1 →
      Lock.holds (Lock.run evs Lock.sys0) t2 →
      t1 = t2 ∧ Lock.locked (Lock.lock (Lock.run evs Lock.sys0)) = true)
  ∧ (∀ (l : Lock.t) (σ : Future.store),
        Lock.locked l = false →
        Lock.release l σ = Raise (RuntimeError "Lock is not acquired."))
  ∧ (∀ (s : Lock.sys) (tid : nat),
        Lock.locked (Lock.lock s) = false →
        (∀ f m, Lock.tasks s !! tid ≠ Some (Lock.Waiting f m)) →
        Lock.lock (Lock.step (Lock.Release tid) s) = Lock.lock s
        ∧ Lock.futs (Lock.step (Lock.Release tid) s) = Lock.futs s).
Proof.
  split_and!.
  - intros evs t1 t2 Hd H1 H2.
    pose proof (inv_run evs _ inv_sys0 Hd) as I. split.
    + by eapply Lock.inv_unique.
    + by eapply Lock.inv_holder.
  - intros l σ H. unfold Lock.release, Lock.locked in *. by rewrite H.
  - intros s tid H Hnw. rewrite step_release by done.
    unfold Lock.release, Lock.locked in *. by rewrite H.
Qed.

Lemma lock_mutual_exclusion_witness :
  Lock.locked
    (Lock.lock (Lock.run [Lock.Acquire 0; Lock.Acquire 1; Lock.Release 0;
                          Lock.Resume 1]%nat Lock.sys0)) = true
  ∧ Lock.release Lock.init [] = Raise (RuntimeError "Lock is not acquired.").
Proof.
  destruct lock_mutual_exclusion as (Hmutex & Hrel & _). split.
  - apply (Hmutex [Lock.Acquire 0; Lock.Acquire 1; Lock.Release 0; Lock.Resume 1]%nat
             1%nat 1%nat); vm_compute; reflexivity.
  - apply Hrel. reflexivity.
Defined.

(** A reachable state where the head of the queue is a cancelled future
    whose task has not run yet, and a live waiter stands behind it. *)
Lemma lock_cancelled_head_state :
  let s := Lock.run [Lock.Acquire 0; Lock.Acquire 1; Lock.Acquire 2; Lock.Cancel 1]%nat
                    Lock.sys0 in
  Lock.lock s = Lock.mk true (Some [0; 1]%nat)
  ∧ Lock.futs s = [Future.Cancelled; Future.Pending].
Proof. split; vm_compute; reflexivity. Qed.

(** C3, as stated, fails in that state: with a cancelled future at the
    head of the queue and a pending one behind it, [release()] resolves
    nothing, although a not-yet-resolved signal is queued. *)
Lemma lock_release_first_pending_counterexample :
  let s := Lock.run [Lock.Acquire 0; Lock.Acquire 1; Lock.Acquire 2; Lock.Cancel 1]%nat
                    Lock.sys0 in
  Lock.locked (Lock.lock s) = true
  ∧ ¬ Lock.release_wakes_first_pending (Lock.lock s) (Lock.futs s).
Proof.
  split; [vm_compute; reflexivity|].
  intros (l' & σ' & Hrel & _ & Hσ). vm_compute in Hrel, Hσ.
  injection Hrel as _ Hrel. congruence.
Qed.

(** C3, amended.  On a locked lock [release()] clears [locked], keeps the
    queue, and looks at the head of the queue only: the head becomes
    resolved if it was not done, and every other future, queued or not,
    keeps its state; so nothing is resolved when the queue is empty or its
    head is already done (resolved or cancelled). *)
Theorem lock_release_wakes_head (l : Lock.t) (σ : Future.store) :
  Lock.locked l = true →
  Forall (λ f, (f < length σ)%nat) (default [] (Lock._waiters l)) →
  ∃ σ', Lock.release l σ = Ok (Lock.mk false (Lock._waiters l), σ')
        ∧ length σ' = length σ
        ∧ ∀ g, Future.get σ' g
               = if decide (head (default [] (Lock._waiters l)) = Some g
                            ∧ Future.done (Future.get σ g) = false)
                 then Future.Result
                 else Future.get σ g.
Proof.
  unfold Lock.locked, Lock.release. intros -> Hq. eexists. split; [done|].
  split; [apply wake_up_first_length|].
  intros g. unfold Lock._wake_up_first. cbn [Lock._waiters].
  destruct (Lock._waiters l) as [[|h ws]|]; cbn [default head] in *.
  - case_decide as H; [by destruct H|done].
  - apply Forall_cons in Hq as [Hh _].
    destruct (Future.done (Future.get σ h)) eqn:Hd.
    + case_decide as H; [|done]. destruct H as [[= ->] ?]. congruence.
    + unfold Future.set_result. rewrite get_insert.
      destruct (decide (h = g)) as [->|Hne].
      * rewrite !decide_True; done.
      * rewrite !decide_False; [done| |]; [intros [[= ?] _]|intros [? _]]; done.
  - case_decide as H; [by destruct H|done].
Qed.

Lemma lock_release_wakes_head_witness :
  ∃ σ', Lock.release (Lock.mk true (Some [0; 1]%nat)) [Future.Pending; Future.Pending]
        = Ok (Lock.mk false (Some [0; 1]%nat), σ')
        ∧ Future.get σ' 0 = Future.Result
        ∧ Future.get σ' 1 = Future.Pending.
Proof.
  destruct (lock_release_wakes_head (Lock.mk true (Some [0; 1]%nat))
              [Future.Pending; Future.Pending] eq_refl) as (σ' & Hrel & _ & Hget).
  - repeat constructor.
  - exists σ'. split; [exact Hrel|]. split; [exact (Hget 0%nat)|exact (Hget 1%nat)].
Defined.

(** ** Semaphore: what a cancelled acquire forwards *)

Section semaphore_wakeup.
Import Semaphore.
Implicit Types (s : t) (σ : Future.store) (ws : list nat).

Lemma wake_loop_first_pending ws σ :
  (wake_loop ws σ).2 = match first_pending σ ws with
                       | Some f => Future.set_result f σ
                       | None => σ
                       end.
Proof.
  unfold first_pending. induction ws as [|w ws IH]; simpl; [done|].
  by destruct (Future.done (Future.get σ w)).
Qed.

Lemma wake_up_next_value s σ : _value (_wake_up_next s σ).1 = _value s.
Proof. unfold _wake_up_next. by destruct (wake_loop _ _). Qed.

Lemma wake_up_next_store s σ :
  (_wake_up_next s σ).2 = match first_pending σ (_waiters s) with
                          | Some f => Future.set_result f σ
                          | None => σ
                          end.
Proof.
  rewrite <- wake_loop_first_pending. unfold _wake_up_next.
  by destruct (wake_loop _ _).
Qed.

Lemma acquire_enter_value s σ : _value (acquire_enter s σ).1.2 ≤ _value s.
Proof. unfold acquire_enter. destruct (_ <=? _); simpl; lia. Qed.

Lemma acquire_resume_value fut r s σ :
  _value (acquire_resume fut r s σ).1.2 ≤ _value s.
Proof.
  unfold acquire_resume. destruct r as [[]|e]; [apply acquire_enter_value|].
  destruct (_ && _); simpl; [|lia].
  pose proof (wake_up_next_value s (Future.cancel fut σ)).
  destruct (_wake_up_next _ _). simpl in *. lia.
Qed.

End semaphore_wakeup.

(** The state a semaphore seeded with 1 is in after one task took it, three
    more queued up, the first of them was cancelled, and one [release()]
    went by: the release woke
    the second waiter, the third is still pending, and the cancelled task
    has yet to run its [except:] clause. *)
Lemma semaphore_cancelled_state :
  let s := BoundedSemaphore.run
             [BoundedSemaphore.Acquire 3; BoundedSemaphore.Acquire 0;
              BoundedSemaphore.Acquire 1; BoundedSemaphore.Acquire 2;
              BoundedSemaphore.Cancel 0; BoundedSemaphore.Release]%nat
             (BoundedSemaphore.sys0 (BoundedSemaphore.mk (Semaphore.mk 1 []) 1)) in
  BoundedSemaphore.sem (BoundedSemaphore.bsem s) = Semaphore.mk 1 [2%nat]
  ∧ BoundedSemaphore.futs s = [Future.Cancelled; Future.Result; Future.Pending]
  ∧ BoundedSemaphore.tasks s !! 0%nat = Some (0%nat, false).
Proof. split_and!; vm_compute; reflexivity. Qed.

(** C2, as stated, fails in that state: the counter is positive and the
    cancelled waiter's future was never resolved, yet the pending waiter
    behind it stays pending when the cancellation handler has run. *)
Lemma semaphore_forward_counterexample :
  let s := BoundedSemaphore.run
             [BoundedSemaphore.Acquire 3; BoundedSemaphore.Acquire 0;
              BoundedSemaphore.Acquire 1; BoundedSemaphore.Acquire 2;
              BoundedSemaphore.Cancel 0; BoundedSemaphore.Release]%nat
             (BoundedSemaphore.sys0 (BoundedSemaphore.mk (Semaphore.mk 1 []) 1)) in
  Future.await false (Future.get (BoundedSemaphore.futs s) 0)
  = Some (Raise CancelledError)
  ∧ ¬ Semaphore.forwards_when_unresolved 0
        (BoundedSemaphore.sem (BoundedSemaphore.bsem s)) (BoundedSemaphore.futs s).
Proof.
  split; [vm_compute; reflexivity|].
  intros H. vm_compute in H.
  specialize (H eq_refl ltac:(discriminate) 2%nat eq_refl). discriminate.
Qed.

(** C2, amended.  When [await fut] raises inside [Semaphore.acquire], the
    exception is re-raised in every case.  Before that, the wakeup is
    forwarded, i.e. [_wake_up_next] resolves the first queued future that
    is not done, exactly when [value > 0] and the waiter's own future was
    already resolved with a result (done and not cancelled) when the
    cancellation hit; when [value <= 0], or the future was still pending or
    cancelled, the future ends up cancelled and nothing is forwarded. *)
Theorem semaphore_cancel_forwards_resolved
    (fut : nat) (e : exn) (s : Semaphore.t) (σ : Future.store) :
  (fut < length σ)%nat →
  (0 < Semaphore._value s →
   Future.done (Future.get σ fut) = true →
   Future.cancelled (Future.get σ fut) = false →
   Semaphore.acquire_resume fut (Raise e) s σ
   = (Raised e, (Semaphore._wake_up_next s σ).1, (Semaphore._wake_up_next s σ).2)
   ∧ (Semaphore._wake_up_next s σ).2
     = match Semaphore.first_pending σ (Semaphore._waiters s) with
       | Some f => Future.set_result f σ
       | None => σ
       end)
  ∧ (Semaphore._value s ≤ 0
     ∨ Future.done (Future.get σ fut) = false
     ∨ Future.cancelled (Future.get σ fut) = true →
     Semaphore.acquire_resume fut (Raise e) s σ = (Raised e, s, Future.cancel fut σ)
     ∧ (0 < Semaphore._value s →
        Future.get (Future.cancel fut σ) fut = Future.Cancelled)).
Proof.
  intros Hfut. unfold Semaphore.acquire_resume, Future.cancel. split.
  - intros Hv Hd Hc. rewrite Hd, Hc.
    replace (0 <? Semaphore._value s) with true by (symmetry; by apply Z.ltb_lt).
    simpl. split; [by destruct (Semaphore._wake_up_next s σ)|].
    apply wake_up_next_store.
  - intros [Hv|[Hd|Hc]].
    + replace (0 <? Semaphore._value s) with false by (symmetry; apply Z.ltb_ge; lia).
      simpl. split; [done|lia].
    + rewrite Hd. rewrite get_insert. rewrite decide_True by done. simpl.
      by rewrite andb_false_r.
    + assert (Future.done (Future.get σ fut) = true) as ->
        by (by destruct (Future.get σ fut)).
      rewrite Hc. simpl. rewrite andb_false_r. split; [done|].
      by destruct (Future.get σ fut).
Qed.

Lemma semaphore_cancel_forwards_resolved_witness :
  Semaphore.acquire_resume 0 (Raise CancelledError)
    (Semaphore.mk 1 [1; 2]%nat) [Future.Result; Future.Cancelled; Future.Pending]
  = (Raised CancelledError, Semaphore.mk 1 [],
     [Future.Result; Future.Cancelled; Future.Result]).
Proof.
  destruct (semaphore_cancel_forwards_resolved 0 CancelledError
              (Semaphore.mk 1 [1; 2]%nat)
              [Future.Result; Future.Cancelled; Future.Pending]) as [Hfwd _].
  - simpl. lia.
  - destruct Hfwd as [Hfwd _]; [reflexivity|reflexivity|reflexivity|]. exact Hfwd.
Defined.

(** ** BoundedSemaphore: the bound *)

Section bounded_semaphore.
Import BoundedSemaphore.

Lemma bounded_step (k : Z) ev s :
  _bound_value (bsem s) = k ∧ _value (bsem s) ≤ k →
  _bound_value (bsem (step ev s)) = k ∧ _value (bsem (step ev s)) ≤ k.
Proof.
  intros [Hb Hv]. destruct s as [[sm bd] σ ts]. unfold _value in *. simpl in *.
  destruct ev as [tid|tid|tid|]; simpl.
  - destruct (ts !! tid); [done|]. unfold acquire_enter. simpl.
    pose proof (acquire_enter_value sm σ).
    destruct (Semaphore.acquire_enter sm σ) as [[r sm'] σ']. simpl in *.
    split; [done|lia].
  - destruct (ts !! tid) as [[fut mc]|]; [|done].
    by destruct (Future.cancel_task fut σ).
  - destruct (ts !! tid) as [[fut mc]|]; [|done].
    destruct (Future.await mc (Future.get σ fut)) as [r|]; [|done].
    unfold acquire_resume. simpl.
    pose proof (acquire_resume_value fut r sm σ).
    destruct (Semaphore.acquire_resume fut r sm σ) as [[r' sm'] σ']. simpl in *.
    split; [done|lia].
  - unfold release, _value. simpl. destruct (_ >=? _) eqn:E; [done|].
    unfold Semaphore.release.
    pose proof (wake_up_next_value (Semaphore.mk (Semaphore._value sm + 1)
                                      (Semaphore._waiters sm)) σ) as Hw.
    destruct (Semaphore._wake_up_next _ σ) as [sm' σ']. simpl in *.
    split; [done|]. rewrite Hw. lia.
Qed.

End bounded_semaphore.

(** C5.  A [BoundedSemaphore] constructed with initial value [k] keeps
    [_bound_value = k] and [_value <= _bound_value] after every acquire,
    cancel, resume and release, in any order; [release()] with
    [_value >= _bound_value] raises [ValueError] before the increment and
    leaves the semaphore and every future as they were. *)
Theorem bounded_semaphore_never_exceeds_bound (k : Z) (b0 : BoundedSemaphore.t) :
  BoundedSemaphore.init k = Ok b0 →
  (∀ evs : list BoundedSemaphore.event,
     let s := BoundedSemaphore.run evs (BoundedSemaphore.sys0 b0) in
     BoundedSemaphore._bound_value (BoundedSemaphore.bsem s) = k
     ∧ BoundedSemaphore._value (BoundedSemaphore.bsem s) ≤ k)
  ∧ (∀ (b : BoundedSemaphore.t) (σ : Future.store),
       BoundedSemaphore._value b >= BoundedSemaphore._bound_value b →
       BoundedSemaphore.release b σ
       = (Raise (ValueError "BoundedSemaphore released too many times"), b, σ)).
Proof.
  intros Hinit. split.
  - intros evs. simpl.
    assert (H0 : BoundedSemaphore._bound_value
                   (BoundedSemaphore.bsem (BoundedSemaphore.sys0 b0)) = k
                 ∧ BoundedSemaphore._value
                     (BoundedSemaphore.bsem (BoundedSemaphore.sys0 b0)) ≤ k).
    { unfold BoundedSemaphore.init, Semaphore.init in Hinit.
      destruct (k <? 0); [done|]. injection Hinit as <-.
      unfold BoundedSemaphore._value. simpl. split; [done|lia]. }
    revert H0. generalize (BoundedSemaphore.sys0 b0).
    induction evs as [|ev evs IH]; intros s Hs; [done|].
    simpl. apply IH. by apply bounded_step.
  - intros b σ Hge. unfold BoundedSemaphore.release.
    by replace (BoundedSemaphore._value b >=? BoundedSemaphore._bound_value b)
      with true by (symmetry; apply Z.geb_le; lia).
Qed.

Lemma bounded_semaphore_never_exceeds_bound_witness :
  (BoundedSemaphore._bound_value
     (BoundedSemaphore.bsem
        (BoundedSemaphore.run
           [BoundedSemaphore.Acquire 0; BoundedSemaphore.Release;
            BoundedSemaphore.Release]%nat
           (BoundedSemaphore.sys0 (BoundedSemaphore.mk (Semaphore.mk 2 []) 2)))) = 2
   ∧ BoundedSemaphore._value
       (BoundedSemaphore.bsem
          (BoundedSemaphore.run
             [BoundedSemaphore.Acquire 0; BoundedSemaphore.Release;
              BoundedSemaphore.Release]%nat
             (BoundedSemaphore.sys0 (BoundedSemaphore.mk (Semaphore.mk 2 []) 2)))) ≤ 2)
  ∧ BoundedSemaphore.release (BoundedSemaphore.mk (Semaphore.mk 2 []) 2) []
    = (Raise (ValueError "BoundedSemaphore released too many times"),
       BoundedSemaphore.mk (Semaphore.mk 2 []) 2, []).
Proof.
  destruct (bounded_semaphore_never_exceeds_bound 2
              (BoundedSemaphore.mk (Semaphore.mk 2 []) 2) eq_refl) as [Hinv Hrel].
  split.
  - exact (Hinv [BoundedSemaphore.Acquire 0; BoundedSemaphore.Release;
                 BoundedSemaphore.Release]%nat).
  - apply Hrel. unfold BoundedSemaphore._value. simpl. lia.
Defined.

(** ** Barrier *)

(** C7 at the failing input.  [Barrier(N)] with [N >= 2]; [abort()] while
    nobody is inside; [reset()]; then one task calls [wait()]: the call
    comes back at once with index 0, although no other party ever arrived.
    [abort()] left the [_waiting] event set and the [count == 0] branch of
    [reset()] does not clear it.  The same call on the fresh barrier
    suspends. *)
Theorem barrier_wait_returns_alone_after_abort_reset (N : Z) (tid : nat) :
  2 ≤ N →
  ∃ b0, Barrier.init N None = Ok b0
        ∧ Barrier._state
            (Barrier.barrier (Barrier.run [Barrier.Abort; Barrier.Reset]
                                          (Barrier.sys0 b0))) = 0
        ∧ Barrier.calls
            (Barrier.run [Barrier.Abort; Barrier.Reset; Barrier.Wait tid]
                         (Barrier.sys0 b0)) !! tid
          = Some (Barrier.Done (Ok 0))
        ∧ Barrier.calls (Barrier.run [Barrier.Wait tid] (Barrier.sys0 b0)) !! tid
          = Some (Barrier.InWait 0 0).
Proof.
  intros HN. unfold Barrier.init.
  replace (N <? 1) with false by (symmetry; apply Z.ltb_ge; lia).
  eexists. split; [reflexivity|]. split; [reflexivity|].
  assert (Hlast : (0 + 1 =? N) = false) by (apply Z.eqb_neq; lia).
  set (b0 := Barrier.mk Event.init Event.init None N 0 0).
  set (b2 := Barrier.mk (Event.mk [] true) Event.init None N 0 0).
  assert (Hbroken : Barrier.run [Barrier.Abort; Barrier.Reset] (Barrier.sys0 b0)
                    = Barrier.Sys b2 [] ∅) by reflexivity.
  assert (Halone : ∃ b3, Barrier.enter b2 [] = (Barrier.Done (Ok 0), b3, [])).
  { unfold Barrier.enter, Barrier.arrive. cbn. rewrite Hlast. cbn. by eexists. }
  assert (Hfresh : ∃ b1, Barrier.enter b0 []
                         = (Barrier.InWait 0 0, b1, [Future.Pending])).
  { unfold Barrier.enter, Barrier.arrive. cbn. rewrite Hlast. cbn. by eexists. }
  destruct Halone as [b3 Halone]. destruct Hfresh as [b1 Hfresh]. split.
  - change (Barrier.run [Barrier.Abort; Barrier.Reset; Barrier.Wait tid]
                        (Barrier.sys0 b0))
      with (Barrier.step (Barrier.Wait tid)
              (Barrier.run [Barrier.Abort; Barrier.Reset] (Barrier.sys0 b0))).
    rewrite Hbroken. unfold Barrier.step. cbn [Barrier.calls Barrier.barrier Barrier.futs].
    rewrite lookup_empty, Halone. cbn [Barrier.calls]. apply lookup_insert_eq.
  - change (Barrier.run [Barrier.Wait tid] (Barrier.sys0 b0))
      with (Barrier.step (Barrier.Wait tid) (Barrier.sys0 b0)).
    unfold Barrier.step, Barrier.sys0.
    cbn [Barrier.calls Barrier.barrier Barrier.futs].
    rewrite lookup_empty, Hfresh. cbn [Barrier.calls]. apply lookup_insert_eq.
Qed.

Lemma barrier_wait_returns_alone_after_abort_reset_witness :
  ∃ b0, Barrier.init 2 None = Ok b0
        ∧ Barrier._state
            (Barrier.barrier (Barrier.run [Barrier.Abort; Barrier.Reset]
                                          (Barrier.sys0 b0))) = 0
        ∧ Barrier.calls
            (Barrier.run [Barrier.Abort; Barrier.Reset; Barrier.Wait 7]
                         (Barrier.sys0 b0)) !! 7%nat
          = Some (Barrier.Done (Ok 0))
        ∧ Barrier.calls (Barrier.run [Barrier.Wait 7] (Barrier.sys0 b0)) !! 7%nat
          = Some (Barrier.InWait 0 0).
Proof.
  apply (barrier_wait_returns_alone_after_abort_reset 2 7). lia.
Defined.

(** The model on a plain cycle of three parties: nobody is released before
    the third call, and the three calls come back with 0, 1 and 2. *)
Example barrier_cycle_of_three :
  ∃ b0, Barrier.init 3 None = Ok b0
        ∧ Barrier.returned
            (Barrier.run [Barrier.Wait 0; Barrier.Wait 1; Barrier.Resume 0;
                          Barrier.Resume 1]%nat (Barrier.sys0 b0)) = []
        ∧ (let s := Barrier.run [Barrier.Wait 0; Barrier.Wait 1; Barrier.Wait 2;
                                 Barrier.Resume 1; Barrier.Resume 0]%nat
                                (Barrier.sys0 b0) in
           Barrier.calls s !! 0%nat = Some (Barrier.Done (Ok 0))
           ∧ Barrier.calls s !! 1%nat = Some (Barrier.Done (Ok 1))
           ∧ Barrier.calls s !! 2%nat = Some (Barrier.Done (Ok 2))
           ∧ Barrier._state (Barrier.barrier s) = 0
           ∧ Barrier._count (Barrier.barrier s) = 0).
Proof.
  eexists. split; [reflexivity|]. cbv zeta. split_and!; vm_compute; reflexivity.
Qed.

(** The model on [reset()] with two of three parties inside: both get
    [BrokenBarrierError], and the last one out puts the barrier back to
    filling. *)
Example barrier_reset_breaks_waiters :
  ∃ b0, Barrier.init 3 None = Ok b0
        ∧ let s := Barrier.run [Barrier.Wait 0; Barrier.Wait 1; Barrier.Reset;
                                Barrier.Resume 0; Barrier.Resume 1]%nat
                               (Barrier.sys0 b0) in
          Barrier.calls s !! 0%nat = Some (Barrier.Done (Raise BrokenBarrierError))
          ∧ Barrier.calls s !! 1%nat = Some (Barrier.Done (Raise BrokenBarrierError))
          ∧ Barrier._state (Barrier.barrier s) = 0
          ∧ Barrier._count (Barrier.barrier s) = 0.
Proof.
  eexists. split; [reflexivity|]. cbv zeta. split_and!; vm_compute; reflexivity.
Qed.

(** ** Stream: separator search *)

Section separator_search.
Implicit Types (sep buf pre post : bytes) (i j : nat).

Lemma startswith_app sep post : startswith sep (sep ++ post) = true.
Proof.
  induction sep as [|b sep IH]; simpl; [done|].
  by rewrite Byte.byte_dec_lb.
Qed.

Lemma startswith_split sep buf :
  startswith sep buf = true → buf = sep ++ drop (length sep) buf.
Proof.
  revert buf. induction sep as [|b sep IH]; intros [|c buf]; simpl; try done.
  intros [Hb Hs]%andb_true_iff. apply Byte.byte_dec_bl in Hb as ->.
  f_equal. by apply IH.
Qed.

Lemma find_first_Some sep buf i :
  find_first sep buf = Some i →
  startswith sep (drop i buf) = true
  ∧ ∀ j, (j < i)%nat → startswith sep (drop j buf) = false.
Proof.
  revert i. induction buf as [|c buf IH]; intros i; simpl.
  - destruct (startswith sep []) eqn:E; [|done]. intros [= <-]. split; [done|lia].
  - destruct (startswith sep (c :: buf)) eqn:E.
    + intros [= <-]. split; [done|lia].
    + destruct (find_first sep buf) as [k|]; simpl; [|done]. intros [= <-].
      destruct (IH k eq_refl) as [Hk Hlt]. split; [done|].
      intros [|j] Hj; [done|]. simpl. apply Hlt. lia.
Qed.

Lemma find_first_None sep buf j :
  find_first sep buf = None → startswith sep (drop j buf) = false.
Proof.
  revert j. induction buf as [|c buf IH]; intros j; simpl.
  - destruct (startswith sep []) eqn:E; [done|]. by rewrite drop_nil.
  - destruct (startswith sep (c :: buf)) eqn:E; [done|].
    destruct (find_first sep buf) as [k|]; simpl; [done|]. intros _.
    destruct j as [|j]; [done|]. simpl. by apply IH.
Qed.

(** The first occurrence is found where it is. *)
Lemma find_first_occurrence sep pre post :
  (∀ j, (j < length pre)%nat → startswith sep (drop j (pre ++ sep ++ post)) = false) →
  find_first sep (pre ++ sep ++ post) = Some (length pre).
Proof.
  intros Hno. destruct (find_first sep (pre ++ sep ++ post)) as [i|] eqn:E.
  - destruct (find_first_Some _ _ _ E) as [Hi Hlt]. f_equal.
    destruct (Nat.lt_trichotomy i (length pre)) as [H|[H|H]]; [|done|].
    + by rewrite Hno in Hi.
    + specialize (Hlt _ H). by rewrite drop_app_length, startswith_app in Hlt.
  - apply (find_first_None _ _ (length pre)) in E.
    by rewrite drop_app_length, startswith_app in E.
Qed.

Lemma bytes_find_occurrence sep pre post :
  (∀ j, (j < length pre)%nat → startswith sep (drop j (pre ++ sep ++ post)) = false) →
  bytes_find sep (pre ++ sep ++ post) 0 = len pre.
Proof.
  intros Hno. unfold bytes_find. change (Z.to_nat 0) with 0%nat.
  rewrite drop_0, find_first_occurrence by done. unfold len. lia.
Qed.

Lemma bytes_find_range sep buf start :
  0 ≤ start → bytes_find sep buf start = -1 ∨ start ≤ bytes_find sep buf start.
Proof.
  intros H. unfold bytes_find. destruct (find_first _ _); [right; lia|by left].
Qed.

End separator_search.

(** ** Stream: readuntil *)

Section readuntil.
Import Stream.
Implicit Types (w : world) (s : t) (sep : bytes).

(** Feeding data cancels nobody. *)
Lemma must_cancel_data (ds : list bytes) fut w :
  must_cancel (map FeedData ds) fut w = false.
Proof.
  revert w. induction ds as [|d ds IH]; intros w; [done|].
  cbn [map must_cancel orb]. apply IH.
Qed.

Lemma maybe_resume_transport_ok w :
  wf (stream w) →
  ∃ w', _maybe_resume_transport w = (Ok (), w')
        ∧ _buffer (stream w') = _buffer (stream w)
        ∧ _eof (stream w') = _eof (stream w)
        ∧ futs w' = futs w.
Proof.
  intros Hwf. unfold _maybe_resume_transport.
  destruct (_paused (stream w)) eqn:Hp; simpl; [|by eexists].
  destruct (_ <=? _); [|by eexists].
  unfold transport_resume_reading. simpl.
  destruct (Hwf Hp) as [tr ->]. by eexists.
Qed.

Lemma readuntil_found_ok sep isep w :
  wf (stream w) → isep ≤ _limit (stream w) →
  ∃ w', readuntil_found sep isep w
        = (Ok (take (Z.to_nat (isep + len sep)) (_buffer (stream w))), w')
        ∧ _buffer (stream w') = drop (Z.to_nat (isep + len sep)) (_buffer (stream w))
        ∧ _eof (stream w') = _eof (stream w).
Proof.
  intros Hwf Hle. unfold readuntil_found.
  replace (_limit (stream w) <? isep) with false by (symmetry; apply Z.ltb_ge; lia).
  set (n := Z.to_nat (isep + len sep)).
  destruct (maybe_resume_transport_ok
              (on_stream (λ s, with_buffer (drop n (_buffer s)) s) w))
    as (w' & -> & Hb & He & _); [done|].
  exists w'. by rewrite Hb, He.
Qed.

Lemma wait_for_data_ok name w :
  readable w →
  ∃ w1, _wait_for_data name w = (Ok (length (futs w)), w1)
        ∧ futs w1 = futs w ++ [Future.Pending]
        ∧ _waiter (stream w1) = Some (length (futs w))
        ∧ _buffer (stream w1) = _buffer (stream w)
        ∧ _mode (stream w1) = _mode (stream w)
        ∧ _eof (stream w1) = false
        ∧ wf (stream w1).
Proof.
  intros (Hm & He & Hw & Hwf). unfold _wait_for_data. rewrite Hw, He.
  destruct (_paused (stream w)) eqn:Hp.
  - unfold transport_resume_reading. simpl. destruct (Hwf Hp) as [tr ->].
    eexists. split; [done|]. simpl. split_and!; try done.
  - eexists. split; [done|]. simpl. split_and!; done.
Qed.

Lemma wait_for_data_suspends name w :
  readable w →
  ∃ w1 fut, _wait_for_data name w = (Ok fut, w1)
            ∧ suspended w1 fut
            ∧ _buffer (stream w1) = _buffer (stream w).
Proof.
  intros Hr. pose proof Hr as (Hm & _).
  destruct (wait_for_data_ok name w Hr) as (w1 & Hw1 & Hf1 & Hwt1 & Hb1 & Hm1 & He1 & Hwf1).
  exists w1, (length (futs w)). split; [done|]. split; [|done].
  split_and!; try done.
  - congruence.
  - rewrite Hf1, length_app. simpl. lia.
  - rewrite Hf1, get_create. by apply get_beyond.
Qed.

End readuntil.

(** C4.  [readuntil(separator)]: after a scan of a buffer of length
    [buflen] that finds no separator the loop carries the offset
    [max(0, buflen + 1 - len(separator))], with which it suspends for more
    data (or, at EOF, raises [IncompleteReadError] with the whole buffer,
    which it clears); it raises [LimitOverrunError] (separator not found)
    when that offset exceeds the limit, leaving the buffer alone; when the separator is found at [isep] it raises
    [LimitOverrunError] (found, chunk too long) if [isep] exceeds the limit
    and otherwise returns the buffer through the separator and keeps the
    rest.  On [b"ab\ncd"] it returns [b"ab\n"] and leaves [b"cd"]; on
    [b"abcdef"] with limit 3 it raises the not-found overrun; at EOF with
    [b"partial"] buffered it raises [IncompleteReadError] with that
    partial data, whether EOF was there at the call or comes during the
    wait. *)
Theorem readuntil_scan_limits_and_examples :
  (∀ (sep : bytes) (offset : Z) (s : Stream.t),
     0 ≤ offset →
     len sep ≤ len (Stream._buffer s) - offset →
     bytes_find sep (Stream._buffer s) offset = -1 →
     let scanned := Z.max 0 (len (Stream._buffer s) + 1 - len sep) in
     Stream.readuntil_scan sep offset s
     = if Stream._limit s <? scanned then Stream.Overrun scanned
       else Stream.NotFound scanned)
  ∧ (∀ (sep : bytes) (offset : Z) (w : Stream.world),
       0 ≤ offset →
       len sep ≤ len (Stream._buffer (Stream.stream w)) - offset →
       bytes_find sep (Stream._buffer (Stream.stream w)) offset = -1 →
       let scanned := Z.max 0 (len (Stream._buffer (Stream.stream w)) + 1 - len sep) in
       scanned ≤ Stream._limit (Stream.stream w) →
       (Stream.readable w →
        ∃ fut w1, Stream.readuntil_iter sep offset w = Stream.Suspend scanned fut w1
                  ∧ Stream.suspended w1 fut
                  ∧ Stream._buffer (Stream.stream w1) = Stream._buffer (Stream.stream w))
       ∧ (Stream._eof (Stream.stream w) = true →
          Stream.readuntil_iter sep offset w
          = Stream.Finish
              (Raise (IncompleteReadError (Stream._buffer (Stream.stream w)) None))
              (Stream.on_stream (Stream.with_buffer []) w)))
  ∧ (∀ (sep : bytes) (offset scanned : Z) (w : Stream.world),
       Stream.readuntil_scan sep offset (Stream.stream w) = Stream.Overrun scanned →
       Stream.readuntil_iter sep offset w
       = Stream.Finish
           (Raise (LimitOverrunError
                     "Separator is not found, and chunk exceed the limit" scanned)) w)
  ∧ (∀ (sep : bytes) (offset isep : Z) (w : Stream.world),
       len sep ≤ len (Stream._buffer (Stream.stream w)) - offset →
       bytes_find sep (Stream._buffer (Stream.stream w)) offset = isep →
       isep ≠ -1 →
       (Stream._limit (Stream.stream w) < isep →
        Stream.readuntil_iter sep offset w
        = Stream.Finish
            (Raise (LimitOverrunError
                      "Separator is found, but chunk is longer than limit" isep)) w)
       ∧ (isep ≤ Stream._limit (Stream.stream w) →
          Stream.wf (Stream.stream w) →
          ∃ w', Stream.readuntil_iter sep offset w
                = Stream.Finish
                    (Ok (take (Z.to_nat (isep + len sep))
                              (Stream._buffer (Stream.stream w)))) w'
                ∧ Stream._buffer (Stream.stream w')
                  = drop (Z.to_nat (isep + len sep))
                         (Stream._buffer (Stream.stream w))))
  ∧ (∀ env,
       Stream.readuntil ["010"%byte] env
         (Stream.buffered Stream.READ Stream._DEFAULT_LIMIT
            ["a"; "b"; "010"; "c"; "d"]%byte false)
       = Stream.Finished (Ok ["a"; "b"; "010"]%byte)
           (Stream.buffered Stream.READ Stream._DEFAULT_LIMIT ["c"; "d"]%byte false))
  ∧ (∀ env,
       Stream.readuntil ["010"%byte] env
         (Stream.buffered Stream.READ 3 ["a"; "b"; "c"; "d"; "e"; "f"]%byte false)
       = Stream.Finished
           (Raise (LimitOverrunError
                     "Separator is not found, and chunk exceed the limit" 6))
           (Stream.buffered Stream.READ 3 ["a"; "b"; "c"; "d"; "e"; "f"]%byte false))
  ∧ (∀ env,
       Stream.readuntil ["010"%byte] env
         (Stream.buffered Stream.READ Stream._DEFAULT_LIMIT
            ["p"; "a"; "r"; "t"; "i"; "a"; "l"]%byte true)
       = Stream.Finished
           (Raise (IncompleteReadError ["p"; "a"; "r"; "t"; "i"; "a"; "l"]%byte None))
           (Stream.buffered Stream.READ Stream._DEFAULT_LIMIT [] true))
  ∧ (∀ env,
       ∃ w', Stream.readuntil ["010"%byte] ([Stream.FeedEof] :: env)
               (Stream.buffered Stream.READ Stream._DEFAULT_LIMIT
                  ["p"; "a"; "r"; "t"; "i"; "a"; "l"]%byte false)
             = Stream.Finished
                 (Raise (IncompleteReadError
                           ["p"; "a"; "r"; "t"; "i"; "a"; "l"]%byte None)) w'
             ∧ Stream._buffer (Stream.stream w') = []).
Proof.
  split_and!.
  - intros sep offset s Hoff Hfit Hnone. simpl.
    unfold Stream.readuntil_scan. rewrite Hnone.
    replace (len sep <=? len (Stream._buffer s) - offset) with true
      by (symmetry; apply Z.leb_le; lia).
    simpl. by rewrite Z.max_r by lia.
  - intros sep offset w Hoff Hfit Hnone. simpl. intros Hlim.
    assert (Hscan : Stream.readuntil_scan sep offset (Stream.stream w)
                    = Stream.NotFound
                        (Z.max 0 (len (Stream._buffer (Stream.stream w)) + 1 - len sep))).
    { unfold Stream.readuntil_scan. rewrite Hnone.
      replace (len sep <=? len (Stream._buffer (Stream.stream w)) - offset) with true
        by (symmetry; apply Z.leb_le; lia).
      simpl. rewrite Z.max_r in * by lia.
      by replace (Stream._limit (Stream.stream w) <? _) with false
        by (symmetry; apply Z.ltb_ge; lia). }
    unfold Stream.readuntil_iter, Stream.readuntil_wait. rewrite Hscan. split.
    + intros Hr. pose proof Hr as (_ & -> & _).
      destruct (wait_for_data_suspends "readuntil" w Hr) as (w1 & fut & -> & Hs & Hb).
      by exists fut, w1.
    + by intros ->.
  - intros sep offset scanned w H. unfold Stream.readuntil_iter. by rewrite H.
  - intros sep offset isep w Hfit Hfind Hne.
    assert (Hscan : Stream.readuntil_scan sep offset (Stream.stream w) = Stream.Found isep).
    { unfold Stream.readuntil_scan. rewrite Hfind.
      replace (len sep <=? len (Stream._buffer (Stream.stream w)) - offset) with true
        by (symmetry; apply Z.leb_le; lia).
      by replace (isep =? -1) with false by (symmetry; apply Z.eqb_neq; lia). }
    unfold Stream.readuntil_iter. rewrite Hscan. split.
    + intros Hlt. unfold Stream.readuntil_found.
      by replace (Stream._limit (Stream.stream w) <? isep) with true
        by (symmetry; apply Z.ltb_lt; lia).
    + intros Hle Hwf.
      destruct (readuntil_found_ok sep isep w Hwf Hle) as (w' & -> & Hb & _).
      by exists w'.
  - intros env. reflexivity.
  - intros env. reflexivity.
  - intros env. reflexivity.
  - intros env. eexists. split; reflexivity.
Qed.

Lemma readuntil_scan_limits_and_examples_witness :
  Stream.readuntil_scan ["010"%byte] 0
    (Stream.stream (Stream.buffered Stream.READ 3 ["a"; "b"; "c"; "d"; "e"; "f"]%byte false))
  = Stream.Overrun 6
  ∧ ∃ w', Stream.readuntil_iter ["010"%byte] 0
            (Stream.buffered Stream.READ 8 ["a"; "b"; "010"; "c"; "d"]%byte true)
          = Stream.Finish (Ok ["a"; "b"; "010"]%byte) w'
          ∧ Stream._buffer (Stream.stream w') = ["c"; "d"]%byte.
Proof.
  destruct readuntil_scan_limits_and_examples as (Hscan & _ & _ & Hfound & _).
  split.
  - apply (Hscan ["010"%byte] 0
             (Stream.stream (Stream.buffered Stream.READ 3
                               ["a"; "b"; "c"; "d"; "e"; "f"]%byte false)));
      [lia | vm_compute; discriminate | reflexivity].
  - destruct (Hfound ["010"%byte] 0 2
                (Stream.buffered Stream.READ 8 ["a"; "b"; "010"; "c"; "d"]%byte true))
      as [_ Hok]; [vm_compute; discriminate | reflexivity | lia |].
    apply Hok; [simpl; lia | intros H; discriminate H].
Defined.

(** C10.  When the buffer of a readable stream without stored exception
    already holds the separator, first at an index that does not exceed the
    limit, [readuntil(separator)] returns the bytes through that first
    occurrence and keeps what follows, whatever is fed later and whether or
    not EOF was set before the call: the EOF flag is not looked at, and is
    left as it was. *)
Theorem readuntil_buffered_match_ignores_eof
    (sep pre post : bytes) (w : Stream.world) (env : list (list Stream.feed)) :
  Stream.is_read (Stream._mode (Stream.stream w)) = true →
  Stream._exception (Stream.stream w) = None →
  Stream.wf (Stream.stream w) →
  sep ≠ [] →
  Stream._buffer (Stream.stream w) = pre ++ sep ++ post →
  (∀ j, (j < length pre)%nat → startswith sep (drop j (pre ++ sep ++ post)) = false) →
  len pre ≤ Stream._limit (Stream.stream w) →
  ∃ w', Stream.readuntil sep env w = Stream.Finished (Ok (pre ++ sep)) w'
        ∧ Stream._buffer (Stream.stream w') = post
        ∧ Stream._eof (Stream.stream w') = Stream._eof (Stream.stream w).
Proof.
  intros Hmode Hexc Hwf Hsep Hbuf Hfirst Hlim.
  unfold Stream.readuntil, Stream._check_read. rewrite Hmode, Hexc.
  assert (Hlen : 0 < len sep) by (unfold len; destruct sep; [done|simpl; lia]).
  replace (len sep =? 0) with false by (symmetry; apply Z.eqb_neq; lia).
  unfold Stream.drive, Stream.readuntil_iter, Stream.readuntil_scan.
  rewrite Hbuf, (bytes_find_occurrence _ _ _ Hfirst).
  replace (len sep <=? len (pre ++ sep ++ post) - 0) with true
    by (symmetry; apply Z.leb_le; unfold len; rewrite !length_app; lia).
  replace (len pre =? -1) with false
    by (symmetry; apply Z.eqb_neq; unfold len; lia).
  simpl negb. cbv iota.
  destruct (readuntil_found_ok sep (len pre) w Hwf) as (w' & -> & Hb & He); [done|].
  assert (Hn : Z.to_nat (len pre + len sep) = length (pre ++ sep)).
  { unfold len. rewrite length_app. lia. }
  rewrite Hn, Hbuf in *. rewrite app_assoc in *.
  rewrite take_app_length. rewrite drop_app_length in Hb. by exists w'.
Qed.

Lemma readuntil_buffered_match_ignores_eof_witness :
  ∃ w', Stream.readuntil ["010"%byte] [[Stream.FeedData ["x"%byte]]]
          (Stream.buffered Stream.READWRITE 2 ["a"; "b"; "010"; "c"; "010"]%byte true)
        = Stream.Finished (Ok ["a"; "b"; "010"]%byte) w'
        ∧ Stream._buffer (Stream.stream w') = ["c"; "010"]%byte
        ∧ Stream._eof (Stream.stream w') = true.
Proof.
  apply (readuntil_buffered_match_ignores_eof
           ["010"%byte] ["a"; "b"]%byte ["c"; "010"]%byte
           (Stream.buffered Stream.READWRITE 2 ["a"; "b"; "010"; "c"; "010"]%byte true)).
  - reflexivity.
  - reflexivity.
  - intros H; discriminate H.
  - discriminate.
  - reflexivity.
  - intros [|[|j]] Hj; [reflexivity|reflexivity|simpl in Hj; lia].
  - vm_compute. discriminate.
Defined.

(** ** Stream: readexactly *)

Section readexactly.
Import Stream.
Implicit Types (w : world) (n : Z) (d : bytes) (ds : list bytes).

(** A chunk fed to a stream with a suspended reader lands in the buffer
    and wakes the reader. *)
Lemma feed_data_wakes d w fut :
  is_read (_mode (stream w)) = true → _eof (stream w) = false →
  wf (stream w) → d ≠ [] →
  _waiter (stream w) = Some fut →
  (fut < length (futs w))%nat → Future.get (futs w) fut = Future.Pending →
  let w' := (feed_data d w).2 in
  Future.get (futs w') fut = Future.Result
  ∧ _buffer (stream w') = _buffer (stream w) ++ d
  ∧ is_read (_mode (stream w')) = true
  ∧ _eof (stream w') = false
  ∧ wf (stream w')
  ∧ _exception (stream w') = _exception (stream w).
Proof.
  intros Hm He Hwf Hd Hw Hlt Hp. unfold feed_data, _check_read. rewrite Hm, He.
  destruct d as [|c d]; [done|]. unfold _wakeup_waiter. simpl. rewrite Hw. simpl.
  rewrite Hp. simpl.
  assert (Hres : Future.get (Future.set_result fut (futs w)) fut = Future.Result).
  { unfold Future.set_result. rewrite get_insert. by rewrite decide_True. }
  destruct (_transport (stream w)) as [tr|] eqn:Ht; simpl.
  - destruct (negb (_paused (stream w)) && _) eqn:E; simpl.
    + destruct (pause_reading_supported tr); simpl; split_and!; try done.
      * intros _. simpl. by rewrite Ht.
      * intros H. simpl in H. apply andb_true_iff in E as [E _].
        apply negb_true_iff in E. congruence.
    + by split_and!.
  - by split_and!.
Qed.

Lemma readexactly_iter_enough n w :
  0 < n → wf (stream w) → n ≤ len (_buffer (stream w)) →
  ∃ w', readexactly_iter n () w
        = Finish (Ok (take (Z.to_nat n) (_buffer (stream w)))) w'
        ∧ _buffer (stream w') = drop (Z.to_nat n) (_buffer (stream w)).
Proof.
  intros Hn Hwf Hle. unfold readexactly_iter.
  replace (len (_buffer (stream w)) <? n) with false by (symmetry; apply Z.ltb_ge; lia).
  destruct (len (_buffer (stream w)) =? n) eqn:E.
  - apply Z.eqb_eq in E.
    destruct (maybe_resume_transport_ok (on_stream (with_buffer []) w))
      as (w' & -> & Hb & _); [done|].
    exists w'. unfold len in *.
    rewrite take_ge, Hb by lia. rewrite drop_ge by lia. done.
  - destruct (maybe_resume_transport_ok
                (on_stream (λ s, with_buffer (drop (Z.to_nat n) (_buffer s)) s) w))
      as (w' & -> & Hb & _); [done|].
    by exists w'.
Qed.

(** A chunk fed to a stream that nobody waits on just lands in the
    buffer. *)
Lemma feed_data_idle d w :
  is_read (_mode (stream w)) = true → _eof (stream w) = false →
  wf (stream w) → _waiter (stream w) = None →
  let w' := (feed_data d w).2 in
  _buffer (stream w') = _buffer (stream w) ++ d
  ∧ futs w' = futs w
  ∧ is_read (_mode (stream w')) = true
  ∧ _eof (stream w') = false
  ∧ wf (stream w')
  ∧ _waiter (stream w') = None.
Proof.
  intros Hm He Hwf Hw. unfold feed_data, _check_read. rewrite Hm, He.
  destruct d as [|c d]; [by rewrite app_nil_r|].
  unfold _wakeup_waiter. simpl. rewrite Hw. simpl.
  destruct (_transport (stream w)) as [tr|] eqn:Ht; simpl; [|done].
  destruct (negb (_paused (stream w)) && _) eqn:E; simpl; [|done].
  destruct (pause_reading_supported tr); simpl; split_and!; try done.
  - intros _. simpl. by rewrite Ht.
  - intros H. simpl in H. apply andb_true_iff in E as [E _].
    apply negb_true_iff in E. congruence.
Qed.

Lemma feed_batch_idle ds w :
  is_read (_mode (stream w)) = true → _eof (stream w) = false →
  wf (stream w) → _waiter (stream w) = None →
  let w' := apply_feeds (map FeedData ds) w in
  _buffer (stream w') = _buffer (stream w) ++ concat ds
  ∧ futs w' = futs w
  ∧ is_read (_mode (stream w')) = true
  ∧ _eof (stream w') = false
  ∧ wf (stream w')
  ∧ _waiter (stream w') = None.
Proof.
  revert w. induction ds as [|d ds IH]; intros w Hm He Hwf Hw; simpl.
  - by rewrite app_nil_r.
  - destruct (feed_data_idle d w) as (Hb1 & Hf1 & Hm1 & He1 & Hwf1 & Hw1); try done.
    destruct (IH (feed_data d w).2) as (Hb & Hf & ? & ? & ? & ?); try done.
    unfold apply_feeds in *. simpl in *.
    rewrite Hb, Hf, Hb1, Hf1, <- app_assoc. done.
Qed.

(** A batch of chunks fed to a stream with a suspended reader: either
    all chunks are empty and nothing happens, or the reader is woken. *)
Lemma feed_batch_suspended ds w fut :
  suspended w fut →
  let w' := apply_feeds (map FeedData ds) w in
  _buffer (stream w') = _buffer (stream w) ++ concat ds
  ∧ ((concat ds = [] ∧ w' = w)
     ∨ (is_read (_mode (stream w')) = true
        ∧ _eof (stream w') = false
        ∧ wf (stream w')
        ∧ _waiter (stream w') = None
        ∧ Future.get (futs w') fut = Future.Result)).
Proof.
  revert w. induction ds as [|d ds IH]; intros w Hs; simpl.
  - rewrite app_nil_r. split; [done|]. by left.
  - pose proof Hs as (Hm & He & Hwf & Hw & Hlt & Hp).
    destruct (decide (d = [])) as [->|Hd].
    + assert (Hnop : (feed_data [] w).2 = w).
      { unfold feed_data, _check_read. by rewrite Hm, He. }
      unfold apply_feeds in *. simpl. rewrite Hnop. by apply IH.
    + destruct (feed_data_wakes d w fut) as (Hres & Hb1 & Hm1 & He1 & Hwf1 & _);
        try done.
      assert (Hw1 : _waiter (stream (feed_data d w).2) = None).
      { unfold feed_data, _check_read. rewrite Hm, He.
        destruct d as [|c d]; [done|]. unfold _wakeup_waiter. simpl. rewrite Hw.
        simpl. rewrite Hp. simpl.
        destruct (_transport (stream w)); simpl; [|done].
        destruct (negb _ && _); simpl; [|done].
        by destruct (pause_reading_supported _). }
      destruct (feed_batch_idle ds (feed_data d w).2)
        as (Hb & Hf & ? & ? & ? & ?); try done.
      unfold apply_feeds in *. simpl in *.
      rewrite Hb, Hb1, <- app_assoc. split; [done|]. right.
      split_and!; try done. by rewrite Hf.
Qed.

(** While the data fed stays short of [n], the reader stays suspended. *)
Lemma wait_batches_short n dss env w fut :
  suspended w fut →
  len (_buffer (stream w) ++ concat (concat dss)) < n →
  ∃ w' fut', wait (readexactly_iter n) (batches dss ++ env) () fut w
             = wait (readexactly_iter n) env () fut' w'
             ∧ suspended w' fut'
             ∧ _buffer (stream w') = _buffer (stream w) ++ concat (concat dss).
Proof.
  revert w fut. induction dss as [|ds dss IH]; intros w fut Hs Hshort; simpl in *.
  - exists w, fut. by rewrite app_nil_r.
  - rewrite concat_app in *.
    destruct (feed_batch_suspended ds w fut Hs) as (Hb & [[Hnil Hsame]|Hwoken]).
    + rewrite Hsame. destruct Hs as (? & ? & ? & ? & ? & Hp). rewrite Hp.
      rewrite must_cancel_data. simpl.
      rewrite Hnil in *. simpl in *.
      apply IH; [by split_and!|done].
    + destruct Hwoken as (Hm1 & He1 & Hwf1 & Hw1 & Hres). rewrite Hres.
      rewrite must_cancel_data. simpl.
      set (w1 := apply_feeds (map FeedData ds) w) in *.
      assert (Hr2 : readable (on_stream (with_waiter None) w1)) by by split_and!.
      assert (Hlen : len (_buffer (stream w1)) < n).
      { rewrite Hb. unfold len in *. rewrite !length_app in *. lia. }
      unfold readexactly_iter at 1. simpl.
      replace (len (_buffer (stream w1)) <? n) with true
        by (symmetry; apply Z.ltb_lt; lia).
      rewrite He1.
      destruct (wait_for_data_suspends "readexactly" _ Hr2) as (w2 & fut2 & -> & Hs2 & Hb2).
      simpl in Hb2.
      destruct (IH w2 fut2 Hs2) as (w' & fut' & -> & Hs' & Hb').
      { by rewrite Hb2, Hb, <- app_assoc. }
      exists w', fut'. split; [done|]. split; [done|].
      by rewrite Hb', Hb2, Hb, <- app_assoc.
Qed.

(** Once the data fed brings the buffer to [n] bytes, the reader
    returns the first [n] of them. *)
Lemma wait_batches_enough n dss env w fut :
  0 < n → suspended w fut →
  n ≤ len (_buffer (stream w) ++ concat (concat dss)) →
  len (_buffer (stream w)) < n →
  ∃ w', wait (readexactly_iter n) (batches dss ++ env) () fut w
        = Finished (Ok (take (Z.to_nat n)
                             (_buffer (stream w) ++ concat (concat dss)))) w'.
Proof.
  intros Hn. revert w fut.
  induction dss as [|ds dss IH]; intros w fut Hs Hlong Hshort; simpl in *.
  - rewrite app_nil_r in Hlong. lia.
  - rewrite concat_app in *.
    destruct (feed_batch_suspended ds w fut Hs) as (Hb & [[Hnil Hsame]|Hwoken]).
    + rewrite Hsame. pose proof Hs as (? & ? & ? & ? & ? & Hp). rewrite Hp.
      rewrite must_cancel_data. simpl.
      rewrite Hnil in *. simpl in *. by apply IH.
    + destruct Hwoken as (Hm1 & He1 & Hwf1 & Hw1 & Hres). rewrite Hres.
      rewrite must_cancel_data. simpl.
      set (w1 := apply_feeds (map FeedData ds) w) in *.
      assert (Hr2 : readable (on_stream (with_waiter None) w1)) by by split_and!.
      destruct (decide (n ≤ len (_buffer (stream w1)))) as [Hle|Hgt].
      * destruct (readexactly_iter_enough n (on_stream (with_waiter None) w1))
          as (w' & -> & _); try done.
        exists w'. simpl. rewrite Hb. do 2 f_equal.
        rewrite app_assoc. symmetry. apply take_app_le.
        rewrite Hb in Hle. unfold len in Hle. lia.
      * unfold readexactly_iter at 1. simpl.
        replace (len (_buffer (stream w1)) <? n) with true
          by (symmetry; apply Z.ltb_lt; lia).
        rewrite He1.
        destruct (wait_for_data_suspends "readexactly" _ Hr2)
          as (w2 & fut2 & -> & Hs2 & Hb2).
        simpl in Hb2.
        destruct (IH w2 fut2 Hs2) as (w' & ->).
        { by rewrite Hb2, Hb, <- app_assoc. }
        { rewrite Hb2. lia. }
        exists w'. by rewrite Hb2, Hb, <- app_assoc.
Qed.

(** EOF fed to a suspended reader that is still short of [n] bytes. *)
Lemma wait_eof n env w fut :
  suspended w fut → len (_buffer (stream w)) < n →
  ∃ w', wait (readexactly_iter n) ([FeedEof] :: env) () fut w
        = Finished (Raise (IncompleteReadError (_buffer (stream w)) (Some n))) w'
        ∧ _buffer (stream w') = [].
Proof.
  intros (Hm & He & Hwf & Hw & Hlt & Hp) Hshort. simpl. unfold apply_feeds. simpl.
  unfold feed_eof, _check_read. rewrite Hm. simpl.
  unfold _wakeup_waiter. simpl. rewrite Hw. simpl. rewrite Hp. simpl.
  unfold Future.set_result. rewrite get_insert. rewrite decide_True by done.
  simpl. unfold readexactly_iter. simpl.
  replace (len (_buffer (stream w)) <? n) with true by (symmetry; apply Z.ltb_lt; lia).
  by eexists.
Qed.

End readexactly.

(** C6.  [readexactly(n)] for [n >= 0] on a readable stream without stored
    exception that no other coroutine reads from.  The call goes round its
    loop, suspended while fewer than [n] bytes are buffered: however the
    data is fed, chunk by chunk or several chunks between two runs of the
    reader, as soon as it brings the buffer to [n] bytes or more the call
    returns the first [n] bytes, exactly [n] of them; if EOF is fed while
    the buffer is still short it raises [IncompleteReadError(partial, n)]
    with the whole buffer as [partial] and leaves the buffer empty.  The
    same holds without any wait when the data, or EOF, is there at the
    call.  [readexactly(10)] on a stream that gets 4 bytes and then EOF
    raises [IncompleteReadError] with these 4 bytes and [expected == 10]. *)
Theorem readexactly_exact_or_incomplete :
  (∀ (n : Z) (w : Stream.world) (dss : list (list bytes))
     (env : list (list Stream.feed)),
     0 ≤ n → Stream.readable w → Stream._exception (Stream.stream w) = None →
     n ≤ len (Stream._buffer (Stream.stream w) ++ concat (concat dss)) →
     ∃ w', Stream.readexactly n (Stream.batches dss ++ env) w
           = Stream.Finished
               (Ok (take (Z.to_nat n)
                         (Stream._buffer (Stream.stream w) ++ concat (concat dss)))) w'
           ∧ len (take (Z.to_nat n)
                       (Stream._buffer (Stream.stream w) ++ concat (concat dss))) = n)
  ∧ (∀ (n : Z) (w : Stream.world) (dss : list (list bytes))
       (env : list (list Stream.feed)),
       Stream.readable w → Stream._exception (Stream.stream w) = None →
       len (Stream._buffer (Stream.stream w) ++ concat (concat dss)) < n →
       ∃ w', Stream.readexactly n (Stream.batches dss ++ [Stream.FeedEof] :: env) w
             = Stream.Finished
                 (Raise (IncompleteReadError
                           (Stream._buffer (Stream.stream w) ++ concat (concat dss))
                           (Some n))) w'
             ∧ Stream._buffer (Stream.stream w') = [])
  ∧ (∀ (n : Z) (w : Stream.world) (env : list (list Stream.feed)),
       0 ≤ n → Stream.is_read (Stream._mode (Stream.stream w)) = true →
       Stream._exception (Stream.stream w) = None → Stream.wf (Stream.stream w) →
       (n ≤ len (Stream._buffer (Stream.stream w)) →
        ∃ w', Stream.readexactly n env w
              = Stream.Finished
                  (Ok (take (Z.to_nat n) (Stream._buffer (Stream.stream w)))) w'
              ∧ Stream._buffer (Stream.stream w')
                = drop (Z.to_nat n) (Stream._buffer (Stream.stream w)))
       ∧ (len (Stream._buffer (Stream.stream w)) < n →
          Stream._eof (Stream.stream w) = true →
          Stream.readexactly n env w
          = Stream.Finished
              (Raise (IncompleteReadError (Stream._buffer (Stream.stream w)) (Some n)))
              (Stream.on_stream (Stream.with_buffer []) w)))
  ∧ (∀ env,
       Stream.readexactly 10
         ([Stream.FeedData ["a"; "b"; "c"; "d"]%byte] :: [Stream.FeedEof] :: env)
         (Stream.buffered Stream.READ Stream._DEFAULT_LIMIT [] false)
       = Stream.Finished
           (Raise (IncompleteReadError ["a"; "b"; "c"; "d"]%byte (Some 10)))
           {| Stream.stream :=
                Stream.stream (Stream.buffered Stream.READ Stream._DEFAULT_LIMIT [] true);
              Stream.protocol := Stream.protocol0;
              Stream.futs := [Future.Pending; Future.Result; Future.Result];
              Stream.calls := [] |}).
Proof.
  split_and!.
  - intros n w dss env Hn Hr Hexc Hlong.
    pose proof Hr as (Hm & He & _ & Hwf).
    unfold Stream.readexactly, Stream._check_read. rewrite Hm, Hexc.
    replace (n <? 0) with false by (symmetry; apply Z.ltb_ge; lia).
    assert (Hlen : len (take (Z.to_nat n)
                     (Stream._buffer (Stream.stream w) ++ concat (concat dss))) = n).
    { unfold len in *. rewrite length_take. lia. }
    destruct (n =? 0) eqn:E.
    + apply Z.eqb_eq in E as ->. exists w. by rewrite take_0.
    + apply Z.eqb_neq in E. unfold Stream.drive.
      destruct (decide (n ≤ len (Stream._buffer (Stream.stream w)))) as [Hle|Hgt].
      * destruct (readexactly_iter_enough n w) as (w' & -> & _); try done; [lia|].
        exists w'. split; [|done]. do 2 f_equal. symmetry. apply take_app_le.
        unfold len in Hle. lia.
      * unfold Stream.readexactly_iter at 1.
        replace (len (Stream._buffer (Stream.stream w)) <? n) with true
          by (symmetry; apply Z.ltb_lt; lia).
        rewrite He.
        destruct (wait_for_data_suspends "readexactly" w Hr) as (w1 & fut & -> & Hs & Hb).
        destruct (wait_batches_enough n dss env w1 fut) as (w' & Hrun).
        { lia. } { done. } { by rewrite Hb. } { rewrite Hb. lia. }
        rewrite Hrun, Hb. by exists w'.
  - intros n w dss env Hr Hexc Hshort.
    pose proof Hr as (Hm & He & _ & Hwf).
    assert (len (Stream._buffer (Stream.stream w)) < n).
    { unfold len in *. rewrite length_app in Hshort. lia. }
    assert (0 < n) by (unfold len in *; lia).
    unfold Stream.readexactly, Stream._check_read. rewrite Hm, Hexc.
    replace (n <? 0) with false by (symmetry; apply Z.ltb_ge; lia).
    replace (n =? 0) with false by (symmetry; apply Z.eqb_neq; lia).
    unfold Stream.drive, Stream.readexactly_iter at 1.
    replace (len (Stream._buffer (Stream.stream w)) <? n) with true
      by (symmetry; apply Z.ltb_lt; lia).
    rewrite He.
    destruct (wait_for_data_suspends "readexactly" w Hr) as (w1 & fut & -> & Hs & Hb).
    destruct (wait_batches_short n dss ([Stream.FeedEof] :: env) w1 fut Hs)
      as (w2 & fut2 & -> & Hs2 & Hb2); [by rewrite Hb|].
    destruct (wait_eof n env w2 fut2 Hs2) as (w' & -> & Hb'); [by rewrite Hb2, Hb|].
    exists w'. by rewrite Hb2, Hb.
  - intros n w env Hn Hm Hexc Hwf.
    unfold Stream.readexactly, Stream._check_read. rewrite Hm, Hexc.
    replace (n <? 0) with false by (symmetry; apply Z.ltb_ge; lia).
    split.
    + intros Hle. destruct (n =? 0) eqn:E.
      * apply Z.eqb_eq in E as ->. exists w. by rewrite take_0, drop_0.
      * apply Z.eqb_neq in E.
        destruct (readexactly_iter_enough n w) as (w' & Hi & Hb); try done; [lia|].
        exists w'. unfold Stream.drive. by rewrite Hi.
    + intros Hshort Heof.
      replace (n =? 0) with false by (symmetry; apply Z.eqb_neq; unfold len in *; lia).
      unfold Stream.drive, Stream.readexactly_iter.
      replace (len (Stream._buffer (Stream.stream w)) <? n) with true
        by (symmetry; apply Z.ltb_lt; lia).
      by rewrite Heof.
  - intros env. reflexivity.
Qed.

Lemma readexactly_exact_or_incomplete_witness :
  (∃ w', Stream.readexactly 3
           (Stream.batches [[["a"]; []]; []; [["b"; "c"]; ["d"]]]%byte ++ [])
           (Stream.buffered Stream.READ 8 [] false)
         = Stream.Finished (Ok ["a"; "b"; "c"]%byte) w')
  ∧ (∃ w', Stream.readexactly 10
             (Stream.batches [[["a"; "b"]]; [["c"; "d"]]]%byte ++ [[Stream.FeedEof]])
             (Stream.buffered Stream.READ 8 [] false)
           = Stream.Finished
               (Raise (IncompleteReadError ["a"; "b"; "c"; "d"]%byte (Some 10))) w'
           ∧ Stream._buffer (Stream.stream w') = []).
Proof.
  destruct readexactly_exact_or_incomplete as (Hok & Heof & _).
  assert (Hr : Stream.readable (Stream.buffered Stream.READ 8 [] false)).
  { split_and!; try reflexivity. intros H; discriminate H. }
  split.
  - destruct (Hok 3 (Stream.buffered Stream.READ 8 [] false)
                [[["a"]; []]; []; [["b"; "c"]; ["d"]]]%byte [] ltac:(lia) Hr eq_refl)
      as (w' & Hrun & _); [vm_compute; discriminate|].
    exists w'. exact Hrun.
  - exact (Heof 10 (Stream.buffered Stream.READ 8 [] false)
             [[["a"; "b"]]; [["c"; "d"]]]%byte [] Hr eq_refl eq_refl).
Defined.

(** ** Stream: feed_data and the pacing of the transport *)

Lemma wakeup_waiter_spec (w : Stream.world) :
  let w' := Stream._wakeup_waiter w in
  Stream._buffer (Stream.stream w') = Stream._buffer (Stream.stream w)
  ∧ Stream._waiter (Stream.stream w') = None
  ∧ Stream._transport (Stream.stream w') = Stream._transport (Stream.stream w)
  ∧ Stream._paused (Stream.stream w') = Stream._paused (Stream.stream w)
  ∧ Stream._limit (Stream.stream w') = Stream._limit (Stream.stream w)
  ∧ Stream.calls w' = Stream.calls w
  ∧ (∀ fut, Stream._waiter (Stream.stream w) = Some fut →
            (fut < length (Stream.futs w))%nat →
            Future.get (Stream.futs w) fut = Future.Pending →
            Future.get (Stream.futs w') fut = Future.Result).
Proof.
  simpl. unfold Stream._wakeup_waiter.
  destruct (Stream._waiter (Stream.stream w)) as [waiter|] eqn:Hw; [|done].
  simpl. destruct (Future.cancelled (Future.get (Stream.futs w) waiter)) eqn:Hc; simpl.
  - split_and!; try done. intros fut [= <-] _ Hp. by rewrite Hp in Hc.
  - split_and!; try done. intros fut [= <-] Hlt _.
    unfold Future.set_result. rewrite get_insert. by rewrite decide_True.
Qed.

(** C9, as stated, fails in three places: an empty [data] returns before
    the waiter is woken; without a transport nothing is asked to pause; and
    [_wait_for_data] resumes a paused transport although the buffer is
    still over the limit. *)
Lemma feed_data_pacing_counterexample :
  let tr := Stream.mkTransport true false in
  let reader := Stream.World
                  (Stream.mk Stream.READ (Some tr) 2 [] false (Some 1%nat) None false)
                  Stream.protocol0 [Future.Pending; Future.Pending] [] in
  let paused := Stream.World
                  (Stream.mk Stream.READ (Some tr) 2
                     ["a"; "b"; "c"; "d"; "e"]%byte false None None true)
                  Stream.protocol0 [Future.Pending] [Stream.pause_reading] in
  ¬ Stream.feed_wakes_waiter [] reader
  ∧ ¬ Stream.feed_requests_pause ["a"; "b"; "c"; "d"; "e"]%byte
        (Stream.buffered Stream.READ 2 [] false)
  ∧ ¬ Stream.resumes_only_within_limit
        (λ w, (Stream._wait_for_data "readexactly" w).2) paused.
Proof.
  split_and!.
  - intros H. specialize (H 1%nat eq_refl eq_refl). discriminate H.
  - intros H. specialize (H eq_refl ltac:(vm_compute; reflexivity)). discriminate H.
  - intros H. specialize (H eq_refl eq_refl). vm_compute in H. by apply H.
Qed.

(** C9, amended.  On a readable stream that has not seen EOF,
    [feed_data(data)] with non-empty [data] appends [data] to the buffer
    and wakes the pending waiter, if there is one; with empty [data] it
    does nothing.  If a transport is attached, the stream is not paused and
    the buffer is then over [2 * limit], [pause_reading()] is called on the
    transport (and the stream is paused, or forgets a transport that cannot
    pause); otherwise no call is made.  [_maybe_resume_transport] calls
    [resume_reading()] only on a paused stream whose buffer is within
    [limit], and does so whenever there is a transport; [_wait_for_data]
    resumes a paused transport whatever the buffer holds.  The default
    limit is 65536. *)
Theorem feed_data_appends_wakes_and_paces :
  (∀ (data : bytes) (w : Stream.world),
     Stream.is_read (Stream._mode (Stream.stream w)) = true →
     Stream._eof (Stream.stream w) = false →
     let w' := (Stream.feed_data data w).2 in
     (data = [] → Stream.feed_data data w = (Ok (), w))
     ∧ (data ≠ [] →
        (Stream.feed_data data w).1 = Ok ()
        ∧ Stream._buffer (Stream.stream w')
          = Stream._buffer (Stream.stream w) ++ data
        ∧ Stream._waiter (Stream.stream w') = None
        ∧ (∀ fut, Stream._waiter (Stream.stream w) = Some fut →
                  (fut < length (Stream.futs w))%nat →
                  Future.get (Stream.futs w) fut = Future.Pending →
                  Future.get (Stream.futs w') fut = Future.Result)
        ∧ (∀ tr, Stream._transport (Stream.stream w) = Some tr →
                 Stream._paused (Stream.stream w) = false →
                 2 * Stream._limit (Stream.stream w)
                 < len (Stream._buffer (Stream.stream w) ++ data) →
                 Stream.calls w' = Stream.calls w ++ [Stream.pause_reading]
                 ∧ Stream._paused (Stream.stream w') = Stream.pause_reading_supported tr
                 ∧ Stream._transport (Stream.stream w')
                   = if Stream.pause_reading_supported tr then Some tr else None)
        ∧ (Stream._transport (Stream.stream w) = None
           ∨ Stream._paused (Stream.stream w) = true
           ∨ len (Stream._buffer (Stream.stream w) ++ data)
             ≤ 2 * Stream._limit (Stream.stream w) →
           Stream.calls w' = Stream.calls w
           ∧ Stream._paused (Stream.stream w') = Stream._paused (Stream.stream w))))
  ∧ (∀ w : Stream.world,
       let w' := (Stream._maybe_resume_transport w).2 in
       (Stream.calls w' ≠ Stream.calls w →
        Stream._paused (Stream.stream w) = true
        ∧ len (Stream._buffer (Stream.stream w)) ≤ Stream._limit (Stream.stream w))
       ∧ (Stream._paused (Stream.stream w) = true →
          len (Stream._buffer (Stream.stream w)) ≤ Stream._limit (Stream.stream w) →
          is_Some (Stream._transport (Stream.stream w)) →
          Stream.calls w' = Stream.calls w ++ [Stream.resume_reading]
          ∧ Stream._paused (Stream.stream w') = false))
  ∧ (∀ (name : string) (w : Stream.world),
       Stream._paused (Stream.stream w) = true →
       is_Some (Stream._transport (Stream.stream w)) →
       Stream._waiter (Stream.stream w) = None →
       Stream._eof (Stream.stream w) = false →
       let w' := (Stream._wait_for_data name w).2 in
       Stream.calls w' = Stream.calls w ++ [Stream.resume_reading]
       ∧ Stream._paused (Stream.stream w') = false)
  ∧ Stream._DEFAULT_LIMIT = 65536.
Proof.
  split_and!.
  - intros data w Hm He. cbv zeta. unfold Stream.feed_data, Stream._check_read.
    rewrite Hm, He. split; [by intros ->|]. intros Hd.
    destruct data as [|c data]; [done|]. clear Hd.
    set (buf := Stream._buffer (Stream.stream w) ++ c :: data).
    destruct (wakeup_waiter_spec
                (Stream.on_stream
                   (λ s, Stream.with_buffer (Stream._buffer s ++ c :: data) s) w))
      as (Hb1 & Hw1 & Ht1 & Hp1 & Hl1 & Hc1 & Hf1).
    set (w1 := Stream._wakeup_waiter _) in *. simpl in Hb1, Ht1, Hp1, Hl1, Hc1, Hf1.
    fold buf in Hb1. rewrite Ht1, Hp1, Hl1, Hb1. clearbody w1.
    destruct (Stream._transport (Stream.stream w)) as [tr|] eqn:Ht.
    + destruct (negb (Stream._paused (Stream.stream w))
                && (2 * Stream._limit (Stream.stream w) <? len buf)) eqn:E.
      * apply andb_true_iff in E as [Hp%negb_true_iff Hlim%Z.ltb_lt].
        destruct (Stream.pause_reading_supported tr) eqn:Hs; simpl;
          rewrite ?Hb1, ?Hw1, ?Hc1, ?Ht1, ?Hp1, ?Ht;
          (split_and!; [done|done|done|done| |]).
        -- intros tr' [= <-] _ _. by rewrite Hs.
        -- intros [?|[?|?]]; [done|congruence|lia].
        -- intros tr' [= <-] _ _. by rewrite Hs.
        -- intros [?|[?|?]]; [done|congruence|lia].
      * simpl. rewrite ?Hb1, ?Hw1, ?Hc1, ?Ht1, ?Hp1, ?Ht.
        split_and!; [done|done|done|done| |done].
        intros tr' _ Hp Hlim. rewrite Hp in E. simpl in E. apply Z.ltb_ge in E. lia.
    + simpl. rewrite ?Hb1, ?Hw1, ?Hc1, ?Ht1, ?Hp1, ?Ht.
      split_and!; done.
  - intros w. simpl. unfold Stream._maybe_resume_transport. split.
    + destruct (Stream._paused (Stream.stream w)); simpl; [|done].
      destruct (_ <=? _) eqn:E; [|done]. apply Z.leb_le in E. done.
    + intros -> Hle [tr Ht]. simpl.
      replace (_ <=? _) with true by (symmetry; by apply Z.leb_le).
      unfold Stream.transport_resume_reading. simpl. by rewrite Ht.
  - intros name w Hp [tr Ht] Hw He. simpl. unfold Stream._wait_for_data.
    rewrite Hw, He, Hp. unfold Stream.transport_resume_reading. simpl. by rewrite Ht.
  - reflexivity.
Qed.

Lemma feed_data_appends_wakes_and_paces_witness :
  Stream._buffer
    (Stream.stream
       (Stream.feed_data ["a"; "b"; "c"; "d"]%byte
          (Stream.World
             (Stream.mk Stream.READ (Some (Stream.mkTransport true false)) 2
                ["x"%byte] false (Some 1%nat) None false)
             Stream.protocol0 [Future.Pending; Future.Pending] [])).2)
  = ["x"; "a"; "b"; "c"; "d"]%byte
  ∧ Future.get
      (Stream.futs
         (Stream.feed_data ["a"; "b"; "c"; "d"]%byte
            (Stream.World
               (Stream.mk Stream.READ (Some (Stream.mkTransport true false)) 2
                  ["x"%byte] false (Some 1%nat) None false)
               Stream.protocol0 [Future.Pending; Future.Pending] [])).2) 1
    = Future.Result
  ∧ Stream.calls
      (Stream.feed_data ["a"; "b"; "c"; "d"]%byte
         (Stream.World
            (Stream.mk Stream.READ (Some (Stream.mkTransport true false)) 2
               ["x"%byte] false (Some 1%nat) None false)
            Stream.protocol0 [Future.Pending; Future.Pending] [])).2
    = [Stream.pause_reading].
Proof.
  destruct feed_data_appends_wakes_and_paces as (Hfeed & _).
  destruct (Hfeed ["a"; "b"; "c"; "d"]%byte
              (Stream.World
                 (Stream.mk Stream.READ (Some (Stream.mkTransport true false)) 2
                    ["x"%byte] false (Some 1%nat) None false)
                 Stream.protocol0 [Future.Pending; Future.Pending] [])
              eq_refl eq_refl) as [_ Hne].
  destruct Hne as (_ & Hbuf & _ & Hwake & Hpause & _); [discriminate|].
  split; [exact Hbuf|]. split.
  - apply (Hwake 1%nat); [reflexivity | simpl; lia | reflexivity].
  - destruct (Hpause (Stream.mkTransport true false) eq_refl eq_refl) as (Hc & _).
    + vm_compute. reflexivity.
    + exact Hc.
Defined.

(** ** Flow control: drain, write and the loss of the connection *)

Section flow_control.
Import Stream.
Implicit Types (w : world) (p : FlowControlMixin.t) (σ : Future.store).

Lemma apply_feed_protocol f w : protocol (apply_feed f w) = protocol w.
Proof.
  destruct f as [data| |exc|]; simpl.
  - unfold feed_data. destruct (_check_read _); [|done].
    destruct (_eof _); [done|]. destruct data; [done|].
    unfold _wakeup_waiter. simpl.
    destruct (_waiter (stream w)); simpl;
      try destruct (Future.cancelled _); simpl;
      destruct (_transport (stream w)); simpl; try done;
      destruct (negb _ && _); simpl; try done;
      by destruct (pause_reading_supported _).
  - unfold feed_eof. destruct (_check_read _); [|done].
    unfold _wakeup_waiter. simpl. destruct (_waiter (stream w)); simpl; [|done].
    by destruct (Future.cancelled _).
  - unfold set_exception. simpl. destruct (_waiter (stream w)); simpl; [|done].
    by destruct (Future.cancelled _).
  - by destruct (_waiter (stream w)).
Qed.

Lemma mixin_connection_lost_flag exc p σ :
  FlowControlMixin._connection_lost (FlowControlMixin.connection_lost exc p σ).1 = true.
Proof.
  unfold FlowControlMixin.connection_lost. simpl.
  destruct (FlowControlMixin._paused p); simpl; [|done].
  destruct (FlowControlMixin._drain_waiter p); simpl; [|done].
  destruct (Future.done _); simpl; [done|]. by destruct exc.
Qed.

Lemma notify_stream_protocol exc w : protocol (notify_stream exc w).2 = protocol w.
Proof.
  unfold notify_stream. destruct (_stream (protocol w)); [|done].
  destruct exc as [e|].
  - apply (apply_feed_protocol (SetException e)).
  - apply (apply_feed_protocol FeedEof).
Qed.

Lemma close_protocol_flag exc w : lost (close_protocol exc w) = true.
Proof.
  unfold lost, close_protocol.
  set (w1 := if Future.done _ then w else _).
  pose proof (mixin_connection_lost_flag exc (flow (protocol w1)) (futs w1)) as Hf.
  by destruct (FlowControlMixin.connection_lost exc _ _).
Qed.

Lemma connection_lost_flag exc w :
  lost w = true ∨ (connection_lost exc w).1 = Ok () →
  lost (connection_lost exc w).2 = true.
Proof.
  unfold connection_lost. intros H.
  pose proof (notify_stream_protocol exc w) as Hp.
  destruct (notify_stream exc w) as [[[]|e] w1]; simpl in *.
  - apply close_protocol_flag.
  - destruct H as [H|?]; [|done]. unfold lost in *. by rewrite Hp.
Qed.

Lemma lost_persists_event pc ev (st : world * bool) :
  lost st.1 = true → lost (apply_pevent pc ev st).1 = true.
Proof.
  destruct st as [w mc]. intros H. cbn [fst] in H.
  destruct ev as [| |exc|f|]; cbn [apply_pevent fst snd];
    [| |by apply connection_lost_flag; left| |]; unfold lost in *.
  - unfold pause_writing, FlowControlMixin.pause_writing.
    by destruct (FlowControlMixin._paused _).
  - unfold resume_writing, FlowControlMixin.resume_writing.
    destruct (FlowControlMixin._paused _); simpl; [|done].
    by destruct (FlowControlMixin._drain_waiter _).
  - by rewrite apply_feed_protocol.
  - destruct pc as [|fut]; simpl; [done|]. by destruct (Future.cancel_task _ _).
Qed.

Lemma lost_persists pc evs w :
  lost w = true → lost (apply_pevents pc evs w).1 = true.
Proof.
  unfold apply_pevents. change w with (w, false).1 at 1. generalize (w, false).
  induction evs as [|ev evs IH]; intros st H; [done|].
  simpl. apply IH. by apply lost_persists_event.
Qed.

Lemma drain_helper_lost w :
  lost w = true →
  _drain_helper w = DFinish (Raise (ConnectionResetError "Connection lost")) w.
Proof.
  unfold lost, _drain_helper, FlowControlMixin._drain_helper. intros ->.
  by destruct w as [s [fl st cl] σ c].
Qed.

Lemma drain_lost w tr env :
  lost w = true →
  is_write (_mode (stream w)) = true →
  _transport (stream w) = Some tr →
  (∀ e, exception w = Some e → drain env w = DFinished (Raise e) w)
  ∧ (exception w = None → is_closing tr = false →
     drain env w = DFinished (Raise (ConnectionResetError "Connection lost")) w)
  ∧ (exception w = None → is_closing tr = true →
     ∀ batch,
       drain (batch :: env) w
       = DFinished (Raise (if (apply_pevents Sleeping batch w).2 then CancelledError
                            else ConnectionResetError "Connection lost"))
           (apply_pevents Sleeping batch w).1).
Proof.
  intros Hl Hm Ht. unfold drain, drain_enter, _check_write.
  rewrite Hm, Ht. split_and!.
  - by intros e ->.
  - intros -> ->. by rewrite drain_helper_lost.
  - intros -> -> batch. pose proof (lost_persists Sleeping batch w Hl) as Hl'.
    destruct (apply_pevents Sleeping batch w) as [w' mc]. cbn [fst snd] in *.
    destruct mc; [done|]. by rewrite drain_helper_lost.
Qed.

(** What the stream is told when the connection is lost touches only the
    waiter of a reader. *)
Lemma notify_stream_futs exc w fut :
  _waiter (stream w) ≠ Some fut →
  Future.get (futs (notify_stream exc w).2) fut = Future.get (futs w) fut
  ∧ length (futs (notify_stream exc w).2) = length (futs w).
Proof.
  intros Hw. unfold notify_stream. destruct (_stream (protocol w)); [|done].
  destruct exc as [e|]; cbn [snd].
  - unfold set_exception. cbn [stream on_stream with_exception _waiter].
    destruct (_waiter (stream w)) as [wt|]; [|done].
    cbn [futs on_stream]. destruct (Future.cancelled _); [done|].
    cbn [futs on_futs on_stream]. unfold Future.set_exception.
    rewrite get_insert, length_insert. split; [|done].
    rewrite decide_False; [done|]. intros [-> _]. done.
  - unfold feed_eof. destruct (_check_read _); [|done]. cbn [snd].
    unfold _wakeup_waiter. cbn [stream on_stream with_eof _waiter].
    destruct (_waiter (stream w)) as [wt|]; [|done].
    cbn [futs on_stream]. destruct (Future.cancelled _); [done|].
    cbn [futs on_futs on_stream]. unfold Future.set_result.
    rewrite get_insert, length_insert. split; [|done].
    rewrite decide_False; [done|]. intros [-> _]. done.
Qed.

Lemma notify_stream_exception exc w :
  exception (notify_stream exc w).2
  = match exc with
    | Some e => if _stream (protocol w) then Some e else exception w
    | None => exception w
    end.
Proof.
  unfold notify_stream, exception. destruct (_stream (protocol w)); [|by destruct exc].
  destruct exc as [e|]; cbn [snd].
  - unfold set_exception. cbn [stream on_stream with_exception _waiter].
    destruct (_waiter (stream w)); [|done]. cbn [futs on_stream].
    by destruct (Future.cancelled _).
  - unfold feed_eof. destruct (_check_read _); [|done]. cbn [snd].
    unfold _wakeup_waiter. cbn [stream on_stream with_eof _waiter].
    destruct (_waiter (stream w)); [|done]. cbn [futs on_stream].
    by destruct (Future.cancelled _).
Qed.

(** The second half of [connection_lost] resolves the waiter of a
    suspended drain, with the error if there is one. *)
Lemma close_protocol_wakes exc w fut :
  FlowControlMixin._drain_waiter (flow (protocol w)) = Some fut →
  FlowControlMixin._paused (flow (protocol w)) = true →
  (fut < length (futs w))%nat →
  Future.get (futs w) fut = Future.Pending →
  _closed (protocol w) ≠ fut →
  Future.get (futs (close_protocol exc w)) fut
  = match exc with None => Future.Result | Some e => Future.Exception e end
  ∧ stream (close_protocol exc w) = stream w
  ∧ lost (close_protocol exc w) = true.
Proof.
  intros Hdw Hpa Hlt Hp Hcl. split_and!; [| |apply close_protocol_flag].
  - unfold close_protocol.
    set (w1 := if Future.done _ then w else _).
    assert (protocol w1 = protocol w ∧ Future.get (futs w1) fut = Future.Pending
            ∧ length (futs w1) = length (futs w)) as (Hpr & Hp1 & Hlen).
    { unfold w1. destruct (Future.done _); [done|].
      destruct exc as [e|]; cbn [protocol futs on_futs];
        unfold Future.set_exception, Future.set_result;
        rewrite get_insert, length_insert, decide_False; try done;
        intros [? _]; done. }
    rewrite Hpr. unfold FlowControlMixin.connection_lost.
    cbn [FlowControlMixin._paused FlowControlMixin._drain_waiter].
    rewrite Hpa, Hdw. cbn [negb]. rewrite Hp1. cbn [Future.done].
    destruct exc as [e|]; cbn [futs];
      unfold Future.set_exception, Future.set_result;
      rewrite get_insert; by rewrite decide_True by (split; [done|lia]).
  - unfold close_protocol.
    set (w1 := if Future.done _ then w else _).
    assert (stream w1 = stream w) as <-.
    { unfold w1. destruct (Future.done _); [done|]. by destruct exc. }
    by destruct (FlowControlMixin.connection_lost _ _ _).
Qed.

(** [connection_lost] on a stream whose protocol gets through to the
    inherited [connection_lost]. *)
Lemma connection_lost_wakes exc w fut :
  draining w fut →
  (connection_lost exc w).1 = Ok () →
  Future.get (futs (connection_lost exc w).2) fut
  = match exc with None => Future.Result | Some e => Future.Exception e end
  ∧ lost (connection_lost exc w).2 = true
  ∧ exception (connection_lost exc w).2
    = match exc with
      | Some e => if _stream (protocol w) then Some e else exception w
      | None => exception w
      end.
Proof.
  intros (Hdw & Hpa & Hlt & Hp & Hcl & Hw). unfold connection_lost.
  pose proof (notify_stream_protocol exc w) as Hpr.
  pose proof (notify_stream_futs exc w fut Hw) as [Hget Hlen].
  pose proof (notify_stream_exception exc w) as Hexc.
  destruct (notify_stream exc w) as [[[]|e] w1]; cbn [fst snd] in *; [|done].
  intros _.
  destruct (close_protocol_wakes exc w1 fut) as (Hres & Hst & Hlost);
    try (rewrite Hpr; done); try congruence.
  split_and!; [done|done|]. unfold exception in *. by rewrite Hst.
Qed.

Lemma connection_lost_ok exc w :
  _stream (protocol w) = false ∨ is_read (_mode (stream w)) = true ∨ is_Some exc →
  (connection_lost exc w).1 = Ok ().
Proof.
  intros H. unfold connection_lost, notify_stream.
  destruct (_stream (protocol w)); [|done].
  destruct exc as [e|]; [done|]. unfold feed_eof, _check_read.
  destruct H as [?|[->|[? ?]]]; done.
Qed.

(** On a write-only stream, [connection_lost(None)] of a protocol that
    still has the stream raises in [feed_eof] and goes no further. *)
Lemma connection_lost_write_only w :
  _stream (protocol w) = true → is_read (_mode (stream w)) = false →
  connection_lost None w = (Raise (RuntimeError "The stream is write-only"), w).
Proof.
  intros Hs Hm. unfold connection_lost, notify_stream, feed_eof, _check_read.
  by rewrite Hs, Hm.
Qed.

Lemma resume_writing_wakes w fut :
  draining w fut →
  Future.get (futs (resume_writing w).2) fut = Future.Result.
Proof.
  intros (Hdw & Hpa & Hlt & Hp & Hcl & Hw).
  unfold resume_writing, FlowControlMixin.resume_writing.
  rewrite Hpa, Hdw. cbn [negb]. rewrite Hp. cbn [Future.done snd futs on_futs].
  unfold Future.set_result. by rewrite get_insert, decide_True.
Qed.

(** How a drain comes to be suspended. *)
Lemma drain_suspends w tr env :
  choked w → _transport (stream w) = Some tr →
  ∃ w1, draining w1 (length (futs w))
        ∧ drain (if is_closing tr then [] :: env else env) w
          = drain_wait env (length (futs w)) w1.
Proof.
  intros (Hm & Hexc & Hpa & Hl & Hold & Hcl & Hwt) Ht.
  set (w1 := on_futs (λ _, futs w ++ [Future.Pending])
               (on_flow (λ _, FlowControlMixin.mk true (Some (length (futs w))) false) w)).
  assert (Hh : _drain_helper w = DSuspend (Draining (length (futs w))) w1).
  { unfold _drain_helper, FlowControlMixin._drain_helper. unfold lost in Hl.
    rewrite Hl, Hpa. cbn [negb].
    destruct (FlowControlMixin._drain_waiter _) as [old|]; [rewrite Hold|]; done. }
  exists w1. split.
  - unfold draining, w1. cbn. split_and!; try done.
    + rewrite length_app. simpl. lia.
    + rewrite get_create. by apply get_beyond.
    + lia.
    + intros H%Hwt. lia.
  - unfold drain, drain_enter, _check_write. rewrite Hm, Hexc, Ht.
    destruct (is_closing tr); [|by rewrite Hh].
    unfold apply_pevents. cbn [foldl fst snd]. by rewrite Hh.
Qed.

End flow_control.

(** C8, as stated, fails on its last part.  A drain is suspended after
    [pause_writing()]; [connection_lost(err)] fails it with [err] and marks
    the connection lost, but a later [drain()] then raises [err] again, the
    exception the protocol stored in the stream, and not
    [ConnectionResetError]. *)
Lemma drain_after_loss_counterexample :
  let w0 := (Stream.pause_writing (Stream.connected Stream.READWRITE Stream._DEFAULT_LIMIT)).2 in
  ∃ w2, Stream.drain [[Stream.ConnectionLost (Some (OSError 104))]] w0
        = Stream.DFinished (Raise (OSError 104)) w2
        ∧ Stream.lost w2 = true
        ∧ Stream.drain [] w2 = Stream.DFinished (Raise (OSError 104)) w2
        ∧ ¬ Stream.later_drain_resets w2.
Proof.
  eexists. split; [reflexivity|]. split; [reflexivity|]. split; [reflexivity|].
  intros H. destruct (H []) as [w' Hw']. discriminate Hw'.
Qed.

(** C8, amended.  At the level of the mixin: a [_drain_helper] entered
    after [pause_writing()] (with no earlier drain waiter left, or a
    cancelled one) suspends on a new waiter; [resume_writing()] then
    completes it successfully, [connection_lost(None)] completes it
    successfully and [connection_lost(err)] fails it with [err]; either
    way the connection is marked lost and [_drain_helper] from then on
    raises [ConnectionResetError].  At the level of the stream: a
    [drain()] on a writable stream without stored exception suspends in
    this way (after one turn of the loop when the transport is closing),
    and for every drain so suspended [resume_writing()] completes it
    successfully and the stream protocol's [connection_lost(err)] fails
    it with [err], marks the connection lost and, when the protocol still
    has the stream, stores [err] in it.  [connection_lost(None)]
    completes the drain successfully and marks the connection lost when
    the stream is readable too or the protocol has let go of it; on a
    write-only stream that the protocol still has it raises
    [RuntimeError] in [feed_eof] before it reaches the drain waiter, so
    that the drain stays suspended.  A drain whose task is cancelled
    raises [CancelledError], also when [resume_writing()] got to its
    waiter first.  Once the connection is marked lost it stays so, and a
    later [drain()] or [write()] on a writable stream with a transport
    fails: with the exception stored in the stream when there is one, and
    with [ConnectionResetError] otherwise (when the transport is closing,
    after the one turn of the loop that [drain()] yields for, in which a
    cancellation makes it [CancelledError] instead). *)
Theorem drain_flow_control_and_connection_loss :
  (∀ (p : FlowControlMixin.t) (σ : Future.store),
     FlowControlMixin._paused p = true →
     FlowControlMixin._connection_lost p = false →
     match FlowControlMixin._drain_waiter p with
     | None => True
     | Some old => Future.cancelled (Future.get σ old) = true
     end →
     ∃ p1, FlowControlMixin._drain_helper p σ
           = (Awaiting (length σ), p1, σ ++ [Future.Pending])
           ∧ (∃ p2 σ2,
                FlowControlMixin.resume_writing p1 (σ ++ [Future.Pending]) = (Ok (), p2, σ2)
                ∧ Future.await false (Future.get σ2 (length σ)) = Some (Ok ()))
           ∧ (∀ exc : option exn,
                ∃ p2 σ2,
                  FlowControlMixin.connection_lost exc p1 (σ ++ [Future.Pending]) = (p2, σ2)
                  ∧ Future.await false (Future.get σ2 (length σ))
                    = Some (match exc with None => Ok () | Some e => Raise e end)
                  ∧ FlowControlMixin._connection_lost p2 = true
                  ∧ FlowControlMixin._drain_helper p2 σ2
                    = (Raised (ConnectionResetError "Connection lost"), p2, σ2)))
  ∧ (∀ (w : Stream.world) (tr : Stream.Transport) (env : list (list Stream.pevent)),
       Stream.choked w →
       Stream._transport (Stream.stream w) = Some tr →
       ∃ w1, Stream.draining w1 (length (Stream.futs w))
             ∧ Stream.drain (if Stream.is_closing tr then [] :: env else env) w
               = Stream.drain_wait env (length (Stream.futs w)) w1)
  ∧ (∀ (w : Stream.world) (fut : nat) (env : list (list Stream.pevent)),
       Stream.draining w fut →
       (∃ w', Stream.drain_wait ([Stream.ResumeWriting] :: env) fut w
              = Stream.DFinished (Ok ()) w')
       ∧ (∀ e, ∃ w', Stream.drain_wait ([Stream.ConnectionLost (Some e)] :: env) fut w
                     = Stream.DFinished (Raise e) w'
                     ∧ Stream.lost w' = true
                     ∧ Stream.exception w'
                       = if Stream._stream (Stream.protocol w) then Some e
                         else Stream.exception w)
       ∧ (Stream._stream (Stream.protocol w) = false
          ∨ Stream.is_read (Stream._mode (Stream.stream w)) = true →
          ∃ w', Stream.drain_wait ([Stream.ConnectionLost None] :: env) fut w
                = Stream.DFinished (Ok ()) w'
                ∧ Stream.lost w' = true
                ∧ Stream.exception w' = Stream.exception w)
       ∧ (Stream._stream (Stream.protocol w) = true →
          Stream.is_read (Stream._mode (Stream.stream w)) = false →
          Stream.connection_lost None w
          = (Raise (RuntimeError "The stream is write-only"), w)
          ∧ Stream.drain_wait ([Stream.ConnectionLost None] :: env) fut w
            = Stream.drain_wait env fut w)
       ∧ (∃ w', Stream.drain_wait ([Stream.CancelDrain] :: env) fut w
                = Stream.DFinished (Raise CancelledError) w')
       ∧ (∃ w', Stream.drain_wait ([Stream.ResumeWriting; Stream.CancelDrain] :: env)
                  fut w
                = Stream.DFinished (Raise CancelledError) w'))
  ∧ (∀ (pc : Stream.drain_pc) (evs : list Stream.pevent) (w : Stream.world),
       Stream.lost w = true → Stream.lost (Stream.apply_pevents pc evs w).1 = true)
  ∧ (∀ (w : Stream.world) (tr : Stream.Transport) (env : list (list Stream.pevent)),
       Stream.lost w = true →
       Stream.is_write (Stream._mode (Stream.stream w)) = true →
       Stream._transport (Stream.stream w) = Some tr →
       (∀ e, Stream.exception w = Some e →
             Stream.drain env w = Stream.DFinished (Raise e) w)
       ∧ (Stream.exception w = None → Stream.is_closing tr = false →
          Stream.drain env w
          = Stream.DFinished (Raise (ConnectionResetError "Connection lost")) w)
       ∧ (Stream.exception w = None → Stream.is_closing tr = true →
          ∀ batch,
            Stream.drain (batch :: env) w
            = Stream.DFinished
                (Raise (if (Stream.apply_pevents Stream.Sleeping batch w).2
                        then CancelledError
                        else ConnectionResetError "Connection lost"))
                (Stream.apply_pevents Stream.Sleeping batch w).1))
  ∧ (∀ (w : Stream.world) (tr : Stream.Transport) (data : bytes)
       (env : list (list Stream.pevent)),
       Stream.lost w = true →
       Stream.is_write (Stream._mode (Stream.stream w)) = true →
       Stream._transport (Stream.stream w) = Some tr →
       let w1 := Stream.log (Stream.write_ data) w in
       ∃ a, Stream.write data w = (Ok a, w1)
            ∧ (∀ e, Stream.exception w = Some e →
                    Stream.await_write a env w1 = Stream.DFinished (Raise e) w1)
            ∧ (Stream.exception w = None → Stream.is_closing tr = false →
               Stream.await_write a env w1
               = Stream.DFinished (Raise (ConnectionResetError "Connection lost")) w1)
            ∧ (Stream.exception w = None → Stream.is_closing tr = true →
               ∀ batch,
                 Stream.await_write a (batch :: env) w1
                 = Stream.DFinished
                     (Raise (if (Stream.apply_pevents Stream.Sleeping batch w1).2
                             then CancelledError
                             else ConnectionResetError "Connection lost"))
                     (Stream.apply_pevents Stream.Sleeping batch w1).1))
  ∧ (∀ (w : Stream.world) (e : exn),
       Stream._stream (Stream.protocol w) = true →
       Stream.connection_lost (Some e) w
       = (Ok (), Stream.close_protocol (Some e) (Stream.set_exception e w))
       ∧ Stream.exception (Stream.connection_lost (Some e) w).2 = Some e
       ∧ Stream.lost (Stream.connection_lost (Some e) w).2 = true).
Proof.
  split_and!.
  - intros p σ Hp Hl Hw. destruct p as [pa dw cl]. simpl in *. subst.
    assert (∃ p1, FlowControlMixin._drain_helper (FlowControlMixin.mk true dw false) σ
                  = (Awaiting (length σ), p1, σ ++ [Future.Pending])
                  ∧ p1 = FlowControlMixin.mk true (Some (length σ)) false)
      as (p1 & -> & ->).
    { unfold FlowControlMixin._drain_helper. simpl.
      destruct dw as [old|]; [rewrite Hw|]; by eexists. }
    eexists. split; [reflexivity|].
    assert (Hget : Future.get (σ ++ [Future.Pending]) (length σ) = Future.Pending).
    { rewrite get_create. by apply get_beyond. }
    assert (Hlt : (length σ < length (σ ++ [Future.Pending]))%nat).
    { rewrite length_app. simpl. lia. }
    split.
    + unfold FlowControlMixin.resume_writing. simpl. rewrite Hget. simpl.
      do 2 eexists. split; [reflexivity|].
      unfold Future.set_result. rewrite get_insert. by rewrite decide_True.
    + intros exc. unfold FlowControlMixin.connection_lost. simpl. rewrite Hget. simpl.
      destruct exc as [e|]; do 2 eexists; (split; [reflexivity|]);
        unfold Future.set_exception, Future.set_result; rewrite get_insert;
        by rewrite decide_True.
  - apply drain_suspends.
  - intros w fut env Hd. pose proof Hd as (Hdw & Hpa & Hlt & Hp & Hcl & Hw).
    unfold Stream.apply_pevents.
    cbn [Stream.drain_wait Stream.apply_pevents foldl Stream.apply_pevent fst snd].
    split_and!.
    + rewrite (resume_writing_wakes w fut Hd). by eexists.
    + intros e.
      destruct (connection_lost_wakes (Some e) w fut Hd) as (-> & Hl & Hx).
      { apply connection_lost_ok. right. right. by eexists. }
      eexists. by split_and!.
    + intros Hok.
      destruct (connection_lost_wakes None w fut Hd) as (-> & Hl & Hx).
      { apply connection_lost_ok. destruct Hok; [by left|by right; left]. }
      eexists. by split_and!.
    + intros Hs Hm. rewrite (connection_lost_write_only w Hs Hm). split; [done|].
      cbn [snd]. by rewrite Hp.
    + unfold Stream.cancel_drain, Future.cancel_task. rewrite Hp.
      cbn [Future.done Stream.on_futs Stream.futs orb fst snd].
      rewrite get_insert, decide_True by done. by eexists.
    + unfold Stream.cancel_drain, Future.cancel_task.
      rewrite (resume_writing_wakes w fut Hd). cbn [Future.done orb]. by eexists.
  - apply lost_persists.
  - apply drain_lost.
  - intros w tr data env Hl Hm Ht. simpl.
    unfold Stream.write, Stream._check_write, Stream._fast_drain. rewrite Hm, Ht. simpl.
    rewrite Ht. unfold Stream.lost in Hl. rewrite Hl.
    assert (Hl1 : Stream.lost (Stream.log (Stream.write_ data) w) = true) by done.
    change (Stream.exception (Stream.log (Stream.write_ data) w))
      with (Stream.exception w).
    destruct (Stream.exception w) as [e|] eqn:He.
    + eexists. split; [reflexivity|]. split_and!; [|done|done].
      by intros ? [= <-].
    + destruct (Stream.is_closing tr) eqn:Hc; simpl; eexists; (split; [reflexivity|]);
        (split_and!; [done| |]); try done.
      intros _ _ batch. simpl.
      by apply (drain_lost (Stream.log (Stream.write_ data) w) tr env Hl1 Hm Ht).
  - intros w e Hs. unfold Stream.connection_lost, Stream.notify_stream. rewrite Hs.
    split; [done|]. simpl. split; [|apply close_protocol_flag].
    unfold Stream.exception, Stream.close_protocol.
    destruct (Future.done _);
      destruct (FlowControlMixin.connection_lost _ _ _); simpl;
      unfold Stream.set_exception; simpl;
      destruct (Stream._waiter (Stream.stream w)); simpl; try done;
      by destruct (Future.cancelled _).
Qed.

Lemma drain_flow_control_and_connection_loss_witness :
  (∃ w', Stream.drain_wait [[Stream.ConnectionLost (Some (OSError 104))]] 1
           (Stream.World
              (Stream.mk Stream.READWRITE (Some (Stream.mkTransport true false)) 8
                 [] false None None false)
              (Stream.mkProtocol (FlowControlMixin.mk true (Some 1%nat) false) true 0)
              [Future.Pending; Future.Pending] [])
         = Stream.DFinished (Raise (OSError 104)) w'
         ∧ Stream.lost w' = true
         ∧ Stream.exception w' = Some (OSError 104))
  ∧ Stream.drain_wait [[Stream.ConnectionLost None]; [Stream.ResumeWriting]] 1
      (Stream.World
         (Stream.mk Stream.WRITE (Some (Stream.mkTransport true false)) 8
            [] false None None false)
         (Stream.mkProtocol (FlowControlMixin.mk true (Some 1%nat) false) true 0)
         [Future.Pending; Future.Pending] [])
    = Stream.drain_wait [[Stream.ResumeWriting]] 1
        (Stream.World
           (Stream.mk Stream.WRITE (Some (Stream.mkTransport true false)) 8
              [] false None None false)
           (Stream.mkProtocol (FlowControlMixin.mk true (Some 1%nat) false) true 0)
           [Future.Pending; Future.Pending] []).
Proof.
  destruct drain_flow_control_and_connection_loss as (_ & _ & Hdrain & _).
  split.
  - destruct (Hdrain
                (Stream.World
                   (Stream.mk Stream.READWRITE (Some (Stream.mkTransport true false)) 8
                      [] false None None false)
                   (Stream.mkProtocol (FlowControlMixin.mk true (Some 1%nat) false) true 0)
                   [Future.Pending; Future.Pending] [])
                1%nat [])
      as (_ & Herr & _).
    + split_and!; try reflexivity; [simpl; lia|intros H; discriminate H..].
    + exact (Herr (OSError 104)).
  - destruct (Hdrain
                (Stream.World
                   (Stream.mk Stream.WRITE (Some (Stream.mkTransport true false)) 8
                      [] false None None false)
                   (Stream.mkProtocol (FlowControlMixin.mk true (Some 1%nat) false) true 0)
                   [Future.Pending; Future.Pending] [])
                1%nat [[Stream.ResumeWriting]])
      as (_ & _ & _ & Hwo & _).
    + split_and!; try reflexivity; [simpl; lia|intros H; discriminate H..].
    + apply Hwo; reflexivity.
Defined.

(** * Further properties of the code *)

(** ** Lock: the queue is served in order and never stalls *)

Section lock_service.
Import Lock.
Implicit Types (s : sys) (tid : nat).

Lemma await_plain mc st r :
  (∀ e, st ≠ Future.Exception e) →
  Future.await mc st = Some r → r = Ok () ∨ r = Raise CancelledError.
Proof.
  intros Hp. unfold Future.await. destruct mc; [intros [= <-]; by right|].
  destruct st; intros [= <-]; [by left| |by right]. by destruct (Hp e).
Qed.

Lemma served_sys0 : served sys0.
Proof.
  split; unfold queue, plain; simpl.
  - by intros f ?%elem_of_nil.
  - done.
  - intros f e. by rewrite get_beyond by (simpl; lia).
Qed.

Lemma plain_insert σ f st :
  plain σ → (∀ e, st ≠ Future.Exception e) → plain (<[f := st]> σ).
Proof.
  intros Hp Hst g e. rewrite get_insert. case_decide; [apply Hst|apply Hp].
Qed.

Lemma plain_wake_up_first l σ : plain σ → plain (_wake_up_first l σ).
Proof.
  intros Hp. unfold _wake_up_first, Future.set_result.
  destruct (_waiters l) as [[|h ws]|]; try done.
  destruct (Future.done _); [done|]. by apply plain_insert.
Qed.

Lemma wake_up_first_head_done b h ws σ :
  (h < length σ)%nat →
  Future.done (Future.get (_wake_up_first (mk b (Some (h :: ws))) σ) h) = true.
Proof.
  intros Hlt. unfold _wake_up_first, Future.set_result. simpl.
  destruct (Future.done (Future.get σ h)) eqn:Hd; [done|].
  rewrite get_insert. by rewrite decide_True.
Qed.

Lemma served_step ev s : sound s → served s → served (step ev s).
Proof.
  intros I [Sown Shead Splain].
  pose proof I as [Iwoken Inodup Ifresh Iqueued Iowner].
  destruct s as [[b ows] σ ts]. unfold holds, queue in *. simpl in *.
  destruct ev as [tid|tid|tid|tid]; simpl.
  - (* Acquire *)
    destruct (ts !! tid) as [p|] eqn:Hidle; [by split|].
    unfold acquire_enter. simpl. destruct (negb b && _) eqn:E.
    + split; unfold queue; simpl; [|done|done].
      intros f Hf. destruct (Sown f Hf) as (t & mc & Ht). exists t, mc.
      rewrite lookup_insert_ne; [done|]. intros ->. congruence.
    + split; unfold queue; simpl.
      * intros f [Hf|Hf]%elem_of_app; [|apply list_elem_of_singleton in Hf as ->].
        -- destruct (Sown f Hf) as (t & mc & Ht). exists t, mc.
           rewrite lookup_insert_ne; [done|]. intros ->. congruence.
        -- exists tid, false. by rewrite lookup_insert_eq.
      * intros -> f Hh. rewrite get_create. simpl in E.
        destruct ows as [[|h ws]|]; simpl in *; try done.
        injection Hh as <-. by apply Shead.
      * intros f e. rewrite get_create. apply Splain.
  - (* Cancel *)
    destruct (ts !! tid) as [[fut mc|]|] eqn:Hw; try by split.
    unfold Future.cancel_task.
    destruct (Future.done (Future.get σ fut)) eqn:Hd; split; unfold queue; simpl;
      try done.
    + intros f Hf. destruct (Sown f Hf) as (t & m & Ht).
      destruct (decide (t = tid)) as [->|N].
      * rewrite Hw in Ht. injection Ht as <- <-. eexists tid, _.
        by rewrite lookup_insert_eq.
      * exists t, m. by rewrite lookup_insert_ne.
    + intros f Hf. destruct (Sown f Hf) as (t & m & Ht).
      destruct (decide (t = tid)) as [->|N].
      * rewrite Hw in Ht. injection Ht as <- <-. eexists tid, _.
        by rewrite lookup_insert_eq.
      * exists t, m. by rewrite lookup_insert_ne.
    + intros Hb f Hh. rewrite get_insert. case_decide; [done|]. by apply Shead.
    + by apply plain_insert.
  - (* Resume *)
    destruct (ts !! tid) as [[fut mc|]|] eqn:Hw; try by split.
    destruct (Future.await mc (Future.get σ fut)) as [r|] eqn:Ha; [|by split].
    unfold acquire_resume. simpl.
    pose proof (Iqueued _ _ _ Hw) as Hin.
    destruct (deque_remove_elem _ _ Hin) as [ws Hrm]. rewrite Hrm.
    destruct (deque_remove_nodup _ _ _ Hrm Inodup) as [Hnd Hout].
    assert (Hown : ∀ f, f ∈ ws → ∃ t m, t ≠ tid ∧ ts !! t = Some (Waiting f m)).
    { intros f Hf. destruct (Sown f) as (t & m & Ht); [by eapply deque_remove_sub|].
      exists t, m. split; [|done]. intros ->. rewrite Hw in Ht.
      injection Ht as <- _. done. }
    destruct (await_plain _ _ _ (Splain fut) Ha) as [->| ->].
    + split; unfold queue; simpl; [|done|done].
      intros f Hf. destruct (Hown f Hf) as (t & m & N & Ht). exists t, m.
      by rewrite lookup_insert_ne.
    + split; unfold queue; simpl.
      * intros f Hf. destruct (Hown f Hf) as (t & m & N & Ht). exists t, m.
        by rewrite lookup_delete_ne.
      * intros -> f Hh. destruct ws as [|h ws]; [done|]. injection Hh as <-.
        apply wake_up_first_head_done. apply Ifresh.
        eapply deque_remove_sub; [done|]. by left.
      * destruct b; [done|]. by apply plain_wake_up_first.
  - (* Release, by whoever is not suspended *)
    destruct (ts !! tid) as [[fut mc|]|] eqn:Hh; [by split|..];
      (assert (Hown : ∀ f, f ∈ default [] ows →
                           ∃ t m, delete tid ts !! t = Some (Waiting f m))
        by (intros f Hf; destruct (Sown f Hf) as (t & m & Ht); exists t, m;
            rewrite lookup_delete_ne; [done|]; intros <-; congruence));
      unfold release; simpl; destruct b; split; unfold queue; simpl; try done.
    + intros _ f Hf. destruct ows as [[|h ws]|]; simpl in *; try done.
      injection Hf as <-. apply wake_up_first_head_done. apply Ifresh. by left.
    + by apply plain_wake_up_first.
    + intros _ f Hf. destruct ows as [[|h ws]|]; simpl in *; try done.
      injection Hf as <-. apply wake_up_first_head_done. apply Ifresh. by left.
    + by apply plain_wake_up_first.
Qed.

Lemma served_run evs s : sound s → served s → served (run evs s).
Proof.
  revert s. induction evs as [|ev evs IH]; intros s I S; [done|].
  simpl. apply IH; [by apply sound_step|by apply served_step].
Qed.

Lemma holds_step_other ev s tid :
  (∀ t, ev = Acquire t → t ≠ tid) → (∀ t, ev = Resume t → t ≠ tid) →
  holds (step ev s) tid → holds s tid.
Proof.
  intros HA HR. unfold holds. destruct s as [l σ ts].
  destruct ev as [t|t|t|t]; simpl.
  - destruct (ts !! t) eqn:Ht; [done|]. destruct (acquire_enter l σ) as [[r l'] σ'].
    simpl. rewrite lookup_insert_ne; [done|]. by apply HA.
  - destruct (ts !! t) as [[fut mc|]|] eqn:Ht; try done.
    destruct (Future.cancel_task fut σ) as [σ' mc']. simpl.
    destruct (decide (t = tid)) as [->|N];
      [by rewrite lookup_insert_eq|by rewrite lookup_insert_ne].
  - destruct (ts !! t) as [[fut mc|]|] eqn:Ht; try done.
    destruct (Future.await _ _) as [r|]; [|done].
    destruct (acquire_resume fut r l σ) as [[r' l'] σ']. simpl.
    specialize (HR t eq_refl).
    destruct r'; [by rewrite lookup_insert_ne|by rewrite lookup_delete_ne].
  - destruct (ts !! t) as [[fut mc|]|] eqn:Ht; try done;
      destruct (release l σ) as [[l' σ']|]; simpl;
      destruct (decide (t = tid)) as [->|N];
      by rewrite ?lookup_delete_eq, ?lookup_delete_ne by done.
Qed.

(** X1. The lock changes hands in queue order.  After any sequence of
    acquire, cancel, resume and release events, a task that did not hold
    the lock holds it after one more event only in two ways: it called
    [acquire()] while the lock was free and every queued waiter was
    cancelled, or it was suspended in [acquire()], its future was at the
    head of the queue and had been given a result. *)
Theorem lock_granted_in_queue_order (evs : list event) (ev : event) (tid : nat) :
  ¬ holds (run evs sys0) tid →
  holds (step ev (run evs sys0)) tid →
  _locked (lock (run evs sys0)) = false
  ∧ ((ev = Acquire tid
      ∧ ∀ f, f ∈ queue (run evs sys0) →
             Future.cancelled (Future.get (futs (run evs sys0)) f) = true)
     ∨ (ev = Resume tid
        ∧ ∃ fut, tasks (run evs sys0) !! tid = Some (Waiting fut false)
                 ∧ head (queue (run evs sys0)) = Some fut
                 ∧ Future.get (futs (run evs sys0)) fut = Future.Result)).
Proof.
  pose proof (sound_run evs _ sound_sys0) as I.
  pose proof (served_run evs _ sound_sys0 served_sys0) as S.
  destruct (run evs sys0) as [[b ows] σ ts]. intros Hn Hh.
  assert (Hother : (∀ t, ev = Acquire t → t ≠ tid) →
                   (∀ t, ev = Resume t → t ≠ tid) → False).
  { intros HA HR. apply Hn. by eapply holds_step_other. }
  destruct ev as [t|t|t|t]; try (destruct Hother; congruence);
    (destruct (decide (t = tid)) as [->|N]; [|destruct Hother; congruence]).
  - unfold holds, queue in *. simpl in *.
    destruct (ts !! tid) eqn:Ht; simpl in Hh; [congruence|].
    unfold acquire_enter in Hh.
    simpl in Hh.
    destruct (negb b && _) eqn:E; simpl in Hh;
      [|by rewrite lookup_insert_eq in Hh].
    apply andb_prop in E as [Hb Hc]. apply negb_true_iff in Hb.
    split; [done|]. left. split; [done|]. intros f Hf.
    destruct ows as [ws|]; simpl in *; [|by apply elem_of_nil in Hf].
    rewrite forallb_forall in Hc. apply Hc. by apply list_elem_of_In.
  - unfold holds, queue in *. simpl in *.
    destruct (ts !! tid) as [[fut mc|]|] eqn:Ht; simpl in Hh; try congruence.
    destruct (Future.await mc (Future.get σ fut)) as [r|] eqn:Ha;
      [|simpl in Hh; congruence].
    unfold acquire_resume in Hh. simpl in Hh.
    destruct (deque_remove fut (default [] ows)) as [ws|];
      [|simpl in Hh; by rewrite lookup_delete_eq in Hh].
    assert (r = Ok ()) as ->.
    { destruct r as [[]|e]; [done|].
      destruct e; simpl in Hh; by rewrite lookup_delete_eq in Hh. }
    unfold Future.await in Ha. destruct mc; [done|].
    destruct (Future.get σ fut) eqn:Hg; try done.
    destruct (sound_woken _ I fut) as [Hhead Hfree]; simpl; try done.
    { unfold queue. simpl. by eapply (sound_queued _ I tid). }
    split; [done|]. right. split; [done|]. by exists fut.
Qed.

Lemma lock_granted_in_queue_order_witness :
  _locked (lock (run [Acquire 0; Acquire 1; Release 0]%nat sys0)) = false
  ∧ ((Resume 1%nat = Acquire 1%nat
      ∧ ∀ f, f ∈ queue (run [Acquire 0; Acquire 1; Release 0]%nat sys0) →
             Future.cancelled
               (Future.get (futs (run [Acquire 0; Acquire 1; Release 0]%nat sys0)) f)
             = true)
     ∨ (Resume 1%nat = Resume 1%nat
        ∧ ∃ fut, tasks (run [Acquire 0; Acquire 1; Release 0]%nat sys0) !! 1%nat
                 = Some (Waiting fut false)
                 ∧ head (queue (run [Acquire 0; Acquire 1; Release 0]%nat sys0))
                   = Some fut
                 ∧ Future.get (futs (run [Acquire 0; Acquire 1; Release 0]%nat sys0)) fut
                   = Future.Result)).
Proof.
  apply (lock_granted_in_queue_order [Acquire 0; Acquire 1; Release 0]%nat
           (Resume 1%nat) 1%nat); vm_compute; [discriminate|reflexivity].
Defined.

(** X2. A free lock with waiters does not stall.  After any sequence of
    events, when the lock is not held and the queue is not empty, the
    future at the head of the queue is done and belongs to a suspended
    task, whose [acquire()] can therefore go on. *)
Theorem lock_free_with_waiters_has_runnable_head
  (evs : list event) (f : nat) :
  _locked (lock (run evs sys0)) = false →
  head (queue (run evs sys0)) = Some f →
  ∃ tid mc r, tasks (run evs sys0) !! tid = Some (Waiting f mc)
              ∧ Future.await mc (Future.get (futs (run evs sys0)) f) = Some r.
Proof.
  pose proof (served_run evs _ sound_sys0 served_sys0) as [Sown Shead Splain].
  intros Hfree Hhead. specialize (Shead Hfree f Hhead).
  destruct (Sown f) as (tid & mc & Ht).
  { destruct (queue _); [done|]. injection Hhead as ->. by left. }
  exists tid, mc. unfold Future.await.
  destruct mc; [by eexists|]. destruct (Future.get _ f); [done|by eexists..].
Qed.

Lemma lock_free_with_waiters_has_runnable_head_witness :
  ∃ tid mc r,
    tasks (run [Acquire 0; Acquire 1; Release 0]%nat sys0) !! tid
    = Some (Waiting 0%nat mc)
    ∧ Future.await mc
        (Future.get (futs (run [Acquire 0; Acquire 1; Release 0]%nat sys0)) 0%nat)
      = Some r.
Proof.
  apply (lock_free_with_waiters_has_runnable_head
           [Acquire 0; Acquire 1; Release 0]%nat 0%nat); reflexivity.
Defined.

(** X3. A suspended [acquire()] ends in one of two ways.  After any
    sequence of events, when a task suspended in [acquire()] runs again,
    the call returns [True] with the lock held or raises
    [CancelledError]; in both cases its future has left the queue.  It
    never raises the [ValueError] of [deque.remove]. *)
Theorem lock_acquire_returns_or_is_cancelled
  (evs : list event) (tid fut : nat) (mc : bool) (r : result unit) :
  tasks (run evs sys0) !! tid = Some (Waiting fut mc) →
  Future.await mc (Future.get (futs (run evs sys0)) fut) = Some r →
  ∃ r' l σ,
    acquire_resume fut r (lock (run evs sys0)) (futs (run evs sys0)) = (r', l, σ)
    ∧ (r' = Ok () ∧ _locked l = true ∨ r' = Raise CancelledError)
    ∧ fut ∉ default [] (_waiters l).
Proof.
  pose proof (sound_run evs _ sound_sys0) as I.
  pose proof (served_run evs _ sound_sys0 served_sys0) as [_ _ Splain].
  intros Ht Ha. pose proof (sound_queued _ I _ _ _ Ht) as Hin.
  destruct (deque_remove_elem _ _ Hin) as [ws Hrm].
  destruct (deque_remove_nodup _ _ _ Hrm (sound_nodup _ I)) as [_ Hout].
  unfold acquire_resume. unfold queue in Hrm. rewrite Hrm.
  destruct (await_plain _ _ _ (Splain fut) Ha) as [->| ->].
  - eexists _, _, _. split; [done|]. split; [by left|done].
  - eexists _, _, _. split; [done|]. split; [by right|done].
Qed.

Lemma lock_acquire_returns_or_is_cancelled_witness :
  ∃ r' l σ,
    acquire_resume 0%nat (Raise CancelledError)
      (lock (run [Acquire 0; Acquire 1; Cancel 1]%nat sys0))
      (futs (run [Acquire 0; Acquire 1; Cancel 1]%nat sys0)) = (r', l, σ)
    ∧ (r' = Ok () ∧ _locked l = true ∨ r' = Raise CancelledError)
    ∧ 0%nat ∉ default [] (_waiters l).
Proof.
  apply (lock_acquire_returns_or_is_cancelled [Acquire 0; Acquire 1; Cancel 1]%nat
           1%nat 0%nat false (Raise CancelledError)); reflexivity.
Defined.

End lock_service.

(** ** Event: [set()] wakes every waiter, also when [clear()] follows *)

Section event_service.
Import Event.
Implicit Types (s : sys) (tid : nat) (σ : Future.store).

(** The loop of [Event.set]. *)
Lemma wake_all_spec ws σ :
  Forall (λ f, (f < length σ)%nat) ws →
  let σ' := foldl (λ σ fut, if Future.done (Future.get σ fut) then σ
                            else Future.set_result fut σ) σ ws in
  length σ' = length σ
  ∧ ∀ g, Future.get σ' g
         = if decide (g ∈ ws ∧ Future.done (Future.get σ g) = false)
           then Future.Result else Future.get σ g.
Proof.
  revert σ. induction ws as [|f ws IH]; intros σ Hws; cbv zeta; cbn [foldl].
  - split; [done|]. intros g. case_decide as H; [|done].
    destruct H as [H _]. by apply elem_of_nil in H.
  - apply Forall_cons in Hws as [Hf Hws].
    set (σ1 := if Future.done (Future.get σ f) then σ else Future.set_result f σ).
    assert (Hlen : length σ1 = length σ).
    { unfold σ1, Future.set_result. destruct (Future.done _); [done|].
      by rewrite length_insert. }
    assert (Hget : ∀ g, Future.get σ1 g
                        = if decide (g = f ∧ Future.done (Future.get σ g) = false)
                          then Future.Result else Future.get σ g).
    { intros g. unfold σ1, Future.set_result.
      destruct (Future.done (Future.get σ f)) eqn:Hd.
      - case_decide as H; [|done]. destruct H as [-> H]. congruence.
      - rewrite get_insert. destruct (decide (f = g)) as [->|N].
        + by rewrite !decide_True.
        + rewrite !decide_False; [done| |]; intros [? _]; congruence. }
    destruct (IH σ1) as [IHlen IHget]; [by rewrite Hlen|]. fold σ1.
    split; [by rewrite IHlen|]. intros g. rewrite IHget, !Hget.
    destruct (Future.done (Future.get σ g)) eqn:Hd.
    + rewrite (decide_False (P := g = f ∧ _)); [|by intros [_ ?]].
      rewrite Hd. rewrite !decide_False; [done| |]; by intros [_ ?].
    + destruct (decide (g = f)) as [->|N].
      * rewrite (decide_True (P := f = f ∧ _)); [|done]. simpl.
        rewrite (decide_True (P := f ∈ f :: ws ∧ _)); [|split; [by left|done]].
        by case_decide.
      * rewrite (decide_False (P := g = f ∧ _)); [|by intros [? _]]. rewrite Hd.
        destruct (decide (g ∈ ws)) as [Hin|Hout].
        -- rewrite !decide_True; [done|split; [by right|done]|done].
        -- rewrite !decide_False; [done| |]; intros [H _]; [|done].
           by apply elem_of_cons in H as [?|?].
Qed.

(** X4. [Event.set()] sets the flag and wakes exactly the waiters that
    are still pending: every queued future that was not done gets a
    result, every other future, among them the cancelled ones, keeps its
    state; the queue is left as it is.  On an event that is already set
    it changes nothing. *)
Theorem event_set_wakes_pending_waiters (ev : t) (σ : Future.store) :
  Forall (λ f, (f < length σ)%nat) (_waiters ev) →
  ∃ σ', set ev σ = (mk (_waiters ev) true, σ')
        ∧ length σ' = length σ
        ∧ (∀ g, Future.get σ' g
                = if decide (_value ev = false ∧ g ∈ _waiters ev
                             ∧ Future.done (Future.get σ g) = false)
                  then Future.Result else Future.get σ g)
        ∧ (∀ g, g ∈ _waiters ev → Future.done (Future.get σ' g) = true
                                   ∨ _value ev = true).
Proof.
  intros Hws. destruct ev as [ws [|]]; unfold set; cbn [_value _waiters] in *.
  - exists σ. split_and!; [done|done| |by right].
    intros g. rewrite decide_False; [done|]. by intros [? _].
  - destruct (wake_all_spec ws σ Hws) as [Hlen Hget]. eexists.
    split_and!; [done|done| |].
    + intros g. rewrite Hget. apply decide_ext. naive_solver.
    + intros g Hg. left. rewrite Hget.
      destruct (Future.done (Future.get σ g)) eqn:Hd.
      * rewrite decide_False; [done|]. by intros [_ ?].
      * by rewrite decide_True.
Qed.

Lemma event_set_wakes_pending_waiters_witness :
  ∃ σ', set (mk [0; 1]%nat false) [Future.Cancelled; Future.Pending]
        = (mk [0; 1]%nat true, σ')
        ∧ Future.get σ' 0 = Future.Cancelled
        ∧ Future.get σ' 1 = Future.Result.
Proof.
  destruct (event_set_wakes_pending_waiters (mk [0; 1]%nat false)
              [Future.Cancelled; Future.Pending]) as (σ' & Hset & _ & Hget & _).
  - repeat constructor.
  - exists σ'. split; [exact Hset|]. split; [exact (Hget 0%nat)|exact (Hget 1%nat)].
Defined.

Lemma set_length ev σ :
  Forall (λ f, (f < length σ)%nat) (_waiters ev) → length (set ev σ).2 = length σ.
Proof.
  intros Hws. unfold set. destruct (_value ev); [done|]. simpl.
  by destruct (wake_all_spec _ _ Hws).
Qed.

Lemma set_get ev σ g :
  Forall (λ f, (f < length σ)%nat) (_waiters ev) →
  Future.get (set ev σ).2 g
  = if decide (_value ev = false ∧ g ∈ _waiters ev
               ∧ Future.done (Future.get σ g) = false)
    then Future.Result else Future.get σ g.
Proof.
  intros Hws. unfold set. destruct (_value ev) eqn:Hv; cbn [snd].
  - rewrite decide_False; [done|]. by intros [? _].
  - destruct (wake_all_spec _ _ Hws) as [_ ->]. apply decide_ext. naive_solver.
Qed.

Lemma set_waiters ev σ : _waiters (set ev σ).1 = _waiters ev.
Proof. unfold set. by destruct (_value ev). Qed.

Lemma set_value ev σ : _value (set ev σ).1 = true.
Proof. unfold set. by destruct (_value ev) eqn:E. Qed.

Lemma cancel_task_get f σ g :
  Future.get (Future.cancel_task f σ).1 g
  = if decide (f = g ∧ (f < length σ)%nat ∧ Future.done (Future.get σ f) = false)
    then Future.Cancelled else Future.get σ g.
Proof.
  unfold Future.cancel_task. destruct (Future.done (Future.get σ f)) eqn:Hd; simpl.
  - rewrite decide_False; [done|]. by intros (_ & _ & ?).
  - rewrite get_insert. apply decide_ext. naive_solver.
Qed.

Lemma event_inv_sys0 : inv sys0.
Proof.
  split; simpl; try done.
  - by intros f ?%elem_of_nil.
  - constructor.
Qed.

Lemma event_inv_step o s : inv s → inv (step o s).
Proof.
  intros [Iq If Ind Io Is Ip]. destruct s as [[ws v] σ ts]. simpl in *.
  destruct o as [tid|tid|tid| |]; simpl.
  - (* Wait *)
    destruct (ts !! tid) as [p|] eqn:Hidle; [by split|].
    unfold wait_enter. simpl. destruct v; [by split|]. simpl.
    split; simpl.
    + intros t f mc. destruct (decide (t = tid)) as [->|N].
      * rewrite lookup_insert_eq. intros [= <- <-]. apply elem_of_app. right. by left.
      * rewrite lookup_insert_ne by done. intros H. apply elem_of_app. left. eauto.
    + intros f [H|H]%elem_of_app; rewrite length_app; simpl.
      * specialize (If f H). lia.
      * apply list_elem_of_singleton in H as ->. lia.
    + apply NoDup_app. split_and!; [done| |apply NoDup_singleton].
      intros f Hf ->%list_elem_of_singleton. specialize (If _ Hf). lia.
    + intros t1 t2 f mc1 mc2.
      destruct (decide (t1 = tid)) as [->|N1], (decide (t2 = tid)) as [->|N2];
        try done.
      * rewrite lookup_insert_eq, lookup_insert_ne by done. intros [= <- <-] H.
        specialize (If _ (Iq _ _ _ H)). lia.
      * rewrite lookup_insert_eq, lookup_insert_ne by done. intros H [= <- <-].
        specialize (If _ (Iq _ _ _ H)). lia.
      * rewrite !lookup_insert_ne by done. apply Io.
    + done.
    + intros f e. rewrite get_create. apply Ip.
  - (* Cancel *)
    destruct (ts !! tid) as [[fut mc]|] eqn:Hw; [|by split].
    pose proof (cancel_task_length fut σ) as Hlen.
    pose proof (cancel_task_get fut σ) as Hget.
    destruct (Future.cancel_task fut σ) as [σ' mc']. simpl in *.
    split; simpl; [| |done| | |].
    + intros t f m. destruct (decide (t = tid)) as [->|N].
      * rewrite lookup_insert_eq. intros [= <- <-]. eauto.
      * rewrite lookup_insert_ne by done. eauto.
    + intros f Hf. rewrite Hlen. eauto.
    + intros t1 t2 f mc1 mc2.
      destruct (decide (t1 = tid)) as [->|N1], (decide (t2 = tid)) as [->|N2];
        try done.
      * rewrite lookup_insert_eq, lookup_insert_ne by done. intros [= <- <-] H. eauto.
      * rewrite lookup_insert_eq, lookup_insert_ne by done. intros H [= <- <-]. eauto.
      * rewrite !lookup_insert_ne by done. apply Io.
    + intros Hv f Hf. rewrite Hget. destruct (decide _); [done|]. by apply Is.
    + intros f e. rewrite Hget. destruct (decide _); [done|]. apply Ip.
  - (* Resume *)
    destruct (ts !! tid) as [[fut mc]|] eqn:Hw; [|by split].
    destruct (Future.await mc (Future.get σ fut)) as [r|]; [|by split].
    unfold wait_resume. simpl.
    destruct (deque_remove_elem _ _ (Iq _ _ _ Hw)) as [ws' Hrm]. rewrite Hrm.
    destruct (deque_remove_nodup _ _ _ Hrm Ind) as [Hnd Hout].
    split; simpl; [| |done| | |done].
    + intros t f m. destruct (decide (t = tid)) as [->|N].
      * by rewrite lookup_delete_eq.
      * rewrite lookup_delete_ne by done. intros H.
        eapply deque_remove_other; [done|by eauto|]. intros ->. by eapply N, Io.
    + intros f Hf. apply If. by eapply deque_remove_sub.
    + intros t1 t2 f mc1 mc2.
      destruct (decide (t1 = tid)) as [->|N1]; [by rewrite lookup_delete_eq|].
      destruct (decide (t2 = tid)) as [->|N2]; [by rewrite lookup_delete_eq|].
      rewrite !lookup_delete_ne by done. apply Io.
    + intros Hv f Hf. apply Is; [done|]. by eapply deque_remove_sub.
  - (* set() *)
    assert (Hfresh : Forall (λ f, (f < length σ)%nat) ws).
    { apply Forall_forall. intros f Hf. by apply If. }
    pose proof (set_length (mk ws v) σ Hfresh) as Hlen.
    pose proof (set_waiters (mk ws v) σ) as Hws.
    pose proof (λ g, set_get (mk ws v) σ g Hfresh) as Hget.
    destruct (set (mk ws v) σ) as [e σ']. simpl in *.
    split; simpl; rewrite ?Hws, ?Hlen; try done.
    + intros _ f Hf. rewrite Hget.
      destruct (Future.done (Future.get σ f)) eqn:Hd.
      * rewrite decide_False; [done|]. by intros (_ & _ & ?).
      * destruct v; [by rewrite Is in Hd|]. by rewrite decide_True.
    + intros f e'. rewrite Hget. destruct (decide _); [done|]. apply Ip.
  - (* clear() *)
    by split.
Qed.

Lemma event_inv_run os s : inv s → inv (run os s).
Proof.
  revert s. induction os as [|o os IH]; intros s I; [done|].
  simpl. apply IH. by apply event_inv_step.
Qed.

(** A future that is done keeps its state. *)
Lemma event_done_stable o s f :
  inv s → Future.done (Future.get (futs s) f) = true →
  Future.get (futs (step o s)) f = Future.get (futs s) f.
Proof.
  intros [Iq If Ind Io Is Ip] Hd. destruct s as [[ws v] σ ts]. simpl in *.
  destruct o as [tid|tid|tid| |]; simpl.
  - destruct (ts !! tid); [done|]. unfold wait_enter. simpl.
    destruct v; [done|]. simpl. apply get_create.
  - destruct (ts !! tid) as [[fut mc]|]; [|done].
    pose proof (cancel_task_get fut σ f) as Hget.
    destruct (Future.cancel_task fut σ) as [σ' mc']. simpl in *.
    rewrite Hget. destruct (decide _) as [H|H]; [|done]. destruct H as (-> & _ & ?). congruence.
  - destruct (ts !! tid) as [[fut mc]|]; [|done].
    destruct (Future.await _ _); [|done]. by destruct (wait_resume _ _ _).
  - assert (Hfresh : Forall (λ f, (f < length σ)%nat) ws).
    { apply Forall_forall. intros g Hg. by apply If. }
    pose proof (set_get (mk ws v) σ f Hfresh) as Hget.
    destruct (set (mk ws v) σ) as [e σ']. simpl in *.
    rewrite Hget. destruct (decide _) as [H|H]; [|done]. destruct H as (_ & _ & ?). congruence.
  - done.
Qed.

Lemma event_done_stable_run os s f :
  inv s → Future.done (Future.get (futs s) f) = true →
  Future.get (futs (run os s)) f = Future.get (futs s) f.
Proof.
  revert s. induction os as [|o os IH]; intros s I Hd; [done|]. simpl.
  rewrite IH; [by apply event_done_stable|by apply event_inv_step|].
  by rewrite event_done_stable.
Qed.

(** Without a [Cancel] of the task, no cancellation request appears. *)
Lemma event_uncancelled_run os s tid :
  Cancel tid ∉ os →
  (∀ f m, tasks s !! tid = Some (f, m) → m = false) →
  ∀ f m, tasks (run os s) !! tid = Some (f, m) → m = false.
Proof.
  revert s. induction os as [|o os IH]; intros s Hno Hs; [done|]. simpl.
  apply not_elem_of_cons in Hno as [Hne Hno]. apply IH; [done|].
  destruct s as [e σ ts]. simpl in *. destruct o as [t|t|t| |]; simpl.
  - destruct (ts !! t) eqn:Ht; [done|]. destruct (wait_enter e σ) as [[r e'] σ'].
    simpl. destruct r; try done. intros f m.
    destruct (decide (tid = t)) as [->|N].
    + rewrite lookup_insert_eq. by intros [= _ <-].
    + rewrite lookup_insert_ne by done. apply Hs.
  - destruct (ts !! t) as [[fut mc]|] eqn:Ht; [|done].
    destruct (Future.cancel_task fut σ) as [σ' mc']. simpl. intros f m.
    rewrite lookup_insert_ne by congruence. apply Hs.
  - destruct (ts !! t) as [[fut mc]|] eqn:Ht; [|done].
    destruct (Future.await _ _); [|done]. destruct (wait_resume _ _ _). simpl.
    intros f m. destruct (decide (tid = t)) as [->|N].
    + by rewrite lookup_delete_eq.
    + rewrite lookup_delete_ne by done. apply Hs.
  - by destruct (set e σ).
  - done.
Qed.

(** X5. [set()] releases every task suspended in [wait()], whatever
    follows.  Take a task suspended in [wait()] after any sequence of
    events, then [set()], then any further events, among them [clear()],
    after which the task is still suspended in that call.  Then the task
    can run: its [wait()] returns [True] or raises [CancelledError], and
    removes its future from the queue.  It returns [True] when its future
    was pending at the time of [set()] and the task was not cancelled
    before or after. *)
Theorem event_set_releases_suspended_wait
  (os os' : list op) (tid fut : nat) (mc mc' : bool) :
  tasks (run os sys0) !! tid = Some (fut, mc) →
  tasks (run (SetFlag :: os') (run os sys0)) !! tid = Some (fut, mc') →
  ∃ r ev',
    Future.await mc' (Future.get (futs (run (SetFlag :: os') (run os sys0))) fut)
    = Some r
    ∧ wait_resume fut r (event (run (SetFlag :: os') (run os sys0))) = (r, ev')
    ∧ (fut ∉ _waiters ev')
    ∧ (r = Ok () ∨ r = Raise CancelledError)
    ∧ (Future.get (futs (run os sys0)) fut = Future.Pending → mc = false →
       Cancel tid ∉ os' → r = Ok ()).
Proof.
  intros Hw Hw'. pose proof (event_inv_run os _ event_inv_sys0) as I.
  pose proof (event_inv_step SetFlag _ I) as I1.
  pose proof (event_inv_run os' _ I1) as I2.
  change (run (SetFlag :: os') (run os sys0))
    with (run os' (step SetFlag (run os sys0))) in *.
  set (s := run os sys0) in *. set (s1 := step SetFlag s) in *.
  set (s2 := run os' s1) in *.
  assert (Hfresh : Forall (λ f, (f < length (futs s))%nat) (_waiters (event s))).
  { apply Forall_forall. intros g Hg. by apply (inv_fresh _ I). }
  assert (Hin : fut ∈ _waiters (event s)) by (by eapply (inv_queued _ I)).
  assert (Hs1 : event s1 = (set (event s) (futs s)).1
                ∧ futs s1 = (set (event s) (futs s)).2 ∧ tasks s1 = tasks s).
  { unfold s1, step. by destruct (set (event s) (futs s)). }
  destruct Hs1 as (He1 & Hf1 & Ht1).
  assert (Hd1 : Future.done (Future.get (futs s1) fut) = true).
  { apply (inv_set _ I1); rewrite He1; [apply set_value|by rewrite set_waiters]. }
  pose proof (event_done_stable_run os' s1 fut I1 Hd1) as Hst. fold s2 in Hst.
  destruct (deque_remove_elem fut (_waiters (event s2))) as [ws Hrm].
  { by eapply (inv_queued _ I2). }
  destruct (deque_remove_nodup _ _ _ Hrm (inv_nodup _ I2)) as [_ Hout].
  assert (Hr : ∃ r, Future.await mc' (Future.get (futs s2) fut) = Some r
                    ∧ (r = Ok () ∨ r = Raise CancelledError)
                    ∧ (mc' = false → Future.get (futs s2) fut = Future.Result →
                       r = Ok ())).
  { rewrite Hst. unfold Future.await.
    destruct mc'; [eexists; split_and!; [done|by right|done]|].
    pose proof (inv_plain _ I1 fut) as Hp.
    destruct (Future.get (futs s1) fut); try done.
    - eexists; split_and!; [done|by left|done].
    - by destruct (Hp e).
    - eexists; split_and!; [done|by right|done]. }
  destruct Hr as (r & Ha & Hr & Hok). exists r, (mk ws (_value (event s2))).
  split_and!; [done| |done|done|].
  - unfold wait_resume. by rewrite Hrm.
  - intros Hp -> Hno. apply Hok.
    + eapply (event_uncancelled_run os' s1 tid Hno); [|done].
      rewrite Ht1. intros f m. rewrite Hw. by intros [= _ <-].
    + rewrite Hst, Hf1, set_get by done. rewrite decide_True; [done|].
      split_and!; [|done|by rewrite Hp].
      destruct (_value (event s)) eqn:Hv; [|done].
      pose proof (inv_set _ I Hv fut Hin) as Hd. by rewrite Hp in Hd.
Qed.

Lemma event_set_releases_suspended_wait_witness :
  ∃ r ev',
    Future.await false
      (Future.get (futs (run [SetFlag; ClearFlag] (run [Wait 0%nat] sys0))) 0%nat)
    = Some r
    ∧ wait_resume 0%nat r (event (run [SetFlag; ClearFlag] (run [Wait 0%nat] sys0)))
      = (r, ev')
    ∧ (0%nat ∉ _waiters ev')
    ∧ (r = Ok () ∨ r = Raise CancelledError)
    ∧ (Future.get (futs (run [Wait 0%nat] sys0)) 0%nat = Future.Pending →
       false = false → Cancel 0%nat ∉ [ClearFlag] → r = Ok ()).
Proof.
  apply (event_set_releases_suspended_wait [Wait 0%nat] [ClearFlag] 0%nat 0%nat
           false false); reflexivity.
Defined.

End event_service.

(** ** Condition: [notify] wakes the longest waiters, [wait] keeps the lock *)

Section condition_notify.
Import Condition.
Implicit Types (c : t) (σ : Future.store) (ws : list nat).

Lemma filter_pending_insert ws σ f x :
  f ∉ ws →
  filter (λ g, Future.done (Future.get (<[f := x]> σ) g) = false) ws
  = filter (λ g, Future.done (Future.get σ g) = false) ws.
Proof.
  induction ws as [|h ws IH]; intros Hf; [done|].
  apply not_elem_of_cons in Hf as [Hne Hf].
  assert (Hh : Future.get (<[f := x]> σ) h = Future.get σ h).
  { rewrite get_insert. rewrite decide_False; [done|]. by intros [? _]. }
  destruct (Future.done (Future.get σ h)) eqn:Hd.
  - rewrite !filter_cons_False by (rewrite ?Hh; congruence). by apply IH.
  - rewrite !filter_cons_True by (rewrite ?Hh; congruence). by rewrite IH.
Qed.

Lemma notify_loop_spec n idx ws σ :
  NoDup ws → Forall (λ f, (f < length σ)%nat) ws →
  length (notify_loop n idx ws σ) = length σ
  ∧ ∀ g, Future.get (notify_loop n idx ws σ) g
         = if decide (g ∈ take (Z.to_nat (n - idx))
                            (filter (λ f, Future.done (Future.get σ f) = false) ws))
           then Future.Result else Future.get σ g.
Proof.
  revert idx σ. induction ws as [|f ws IH]; intros idx σ Hnd Hws; cbn [notify_loop].
  - split; [done|]. intros g. rewrite decide_False; [done|].
    rewrite filter_nil, take_nil. apply not_elem_of_nil.
  - apply NoDup_cons in Hnd as [Hf Hnd]. apply Forall_cons in Hws as [Hlt Hws].
    destruct (Z.geb_spec idx n) as [Hge|Hlt'].
    { split; [done|]. intros g. rewrite decide_False; [done|].
      replace (Z.to_nat (n - idx)) with 0%nat by lia. apply not_elem_of_nil. }
    destruct (Future.done (Future.get σ f)) eqn:Hd.
    + rewrite filter_cons_False by congruence. by apply IH.
    + rewrite filter_cons_True by done.
      replace (Z.to_nat (n - idx)) with (S (Z.to_nat (n - (idx + 1)))) by lia.
      cbn [take]. unfold Future.set_result.
      destruct (IH (idx + 1) (<[f := Future.Result]> σ)) as [IHlen IHget];
        [done|by rewrite length_insert|].
      split; [by rewrite IHlen, length_insert|]. intros g. rewrite IHget.
      rewrite filter_pending_insert by done.
      rewrite get_insert. destruct (decide (f = g)) as [->|N].
      * rewrite (decide_True (P := g ∈ g :: _)) by by left.
        rewrite (decide_True (P := g = g ∧ _)) by done. by case_decide.
      * rewrite (decide_False (P := f = g ∧ _)) by by intros [? _].
        apply decide_ext. rewrite elem_of_cons. naive_solver.
Qed.

(** X6. [notify(n)] wakes the first [n] waiters that are still pending,
    in the order in which they started to wait.  With the lock held, the
    futures that get a result are the first [n] queued futures that were
    not done (all of them when there are fewer, none when [n <= 0]); every
    other future keeps its state. *)
Theorem condition_notify_wakes_first_pending (n : Z) c σ :
  locked c = true →
  NoDup (_waiters c) →
  Forall (λ f, (f < length σ)%nat) (_waiters c) →
  ∃ σ', notify n c σ = (Ok (), σ')
        ∧ length σ' = length σ
        ∧ ∀ g, Future.get σ' g
               = if decide (g ∈ take (Z.to_nat n)
                                  (filter (λ f, Future.done (Future.get σ f) = false)
                                          (_waiters c)))
                 then Future.Result else Future.get σ g.
Proof.
  intros Hl Hnd Hws. unfold notify. rewrite Hl. eexists. split; [done|].
  destruct (notify_loop_spec n 0 _ σ Hnd Hws) as [Hlen Hget].
  split; [done|]. intros g. rewrite Hget. by rewrite Z.sub_0_r.
Qed.

Lemma condition_notify_wakes_first_pending_witness :
  ∃ σ', notify 1 (mk (Lock.mk true None) [0; 1; 2]%nat)
               [Future.Cancelled; Future.Pending; Future.Pending] = (Ok (), σ')
        ∧ Future.get σ' 0 = Future.Cancelled
        ∧ Future.get σ' 1 = Future.Result
        ∧ Future.get σ' 2 = Future.Pending.
Proof.
  destruct (condition_notify_wakes_first_pending 1
              (mk (Lock.mk true None) [0; 1; 2]%nat)
              [Future.Cancelled; Future.Pending; Future.Pending])
    as (σ' & Hn & _ & Hget).
  - reflexivity.
  - by apply (bool_decide_unpack _).
  - repeat constructor.
  - exists σ'. split; [exact Hn|].
    split; [exact (Hget 0%nat)|]. split; [exact (Hget 1%nat)|exact (Hget 2%nat)].
Defined.

(** X7. [notify_all()] with the lock held leaves no queued future
    pending: those that were not done get a result, the others keep
    their state.  Without the lock, [notify] and [notify_all] raise
    [RuntimeError] and change nothing. *)
Theorem condition_notify_all_wakes_everyone c σ :
  NoDup (_waiters c) →
  Forall (λ f, (f < length σ)%nat) (_waiters c) →
  if locked c
  then ∃ σ', notify_all c σ = (Ok (), σ')
             ∧ (∀ g, g ∈ _waiters c → Future.done (Future.get σ' g) = true)
             ∧ (∀ g, Future.get σ' g
                     = if decide (g ∈ _waiters c
                                  ∧ Future.done (Future.get σ g) = false)
                       then Future.Result else Future.get σ g)
  else notify_all c σ = (Raise (RuntimeError "cannot notify on un-acquired lock"), σ)
       ∧ ∀ n, notify n c σ
              = (Raise (RuntimeError "cannot notify on un-acquired lock"), σ).
Proof.
  intros Hnd Hws. unfold notify_all, notify. destruct (locked c); [|done].
  eexists. split; [done|].
  destruct (notify_loop_spec (Z.of_nat (length (_waiters c))) 0 _ σ Hnd Hws)
    as [Hlen Hget].
  assert (Hall : ∀ g, Future.get (notify_loop (Z.of_nat (length (_waiters c))) 0
                                    (_waiters c) σ) g
                      = if decide (g ∈ _waiters c
                                   ∧ Future.done (Future.get σ g) = false)
                        then Future.Result else Future.get σ g).
  { intros g. rewrite Hget, Z.sub_0_r, Nat2Z.id.
    rewrite take_ge by apply length_filter. apply decide_ext.
    rewrite list_elem_of_filter. naive_solver. }
  split; [|done]. intros g Hg. rewrite Hall.
  destruct (Future.done (Future.get σ g)) eqn:Hd.
  - rewrite decide_False; [done|]. by intros [_ ?].
  - by rewrite decide_True.
Qed.

Lemma condition_notify_all_wakes_everyone_witness :
  ∃ σ', notify_all (mk (Lock.mk true None) [0; 1]%nat)
                   [Future.Pending; Future.Pending] = (Ok (), σ')
        ∧ (∀ g, g ∈ [0; 1]%nat → Future.done (Future.get σ' g) = true)
        ∧ (∀ g, Future.get σ' g
                = if decide (g ∈ [0; 1]%nat
                             ∧ Future.done (Future.get [Future.Pending; Future.Pending] g)
                               = false)
                  then Future.Result
                  else Future.get [Future.Pending; Future.Pending] g).
Proof.
  apply (condition_notify_all_wakes_everyone (mk (Lock.mk true None) [0; 1]%nat)
           [Future.Pending; Future.Pending]).
  - by apply (bool_decide_unpack _).
  - repeat constructor.
Defined.

End condition_notify.

Section condition_service.
Import Condition.
Implicit Types (s : sys) (tid : nat).

Lemma lock_view_tasks s tid :
  Lock.tasks (lock_view s) !! tid = tasks s !! tid ≫= lock_task.
Proof. unfold lock_view. simpl. apply lookup_omap. Qed.

(** Every step of the tasks is a sequence of steps of the lock, in which
    the lock is released by its holder only. *)
Lemma lock_view_step ev s :
  ∃ levs, lock_view (step ev s) = Lock.run levs (lock_view s)
          ∧ Lock.disciplined levs (lock_view s) = true.
Proof.
  destruct s as [[l ws] κ σ ts].
  destruct ev as [tid|tid|tid|tid n|tid|tid|tid]; cbn [step cond tasks lfuts futs];
    destruct (ts !! tid) as [[lf mc|last|[fut|lf ca res] mc]|] eqn:Ht;
    try (by exists []).
  - (* Acquire *)
    exists [Lock.Acquire tid]. split; [|done]. unfold lock_view, Lock.run. cbn.
    rewrite lookup_omap, Ht. cbn.
    destruct (Lock.acquire_enter l κ) as [[r l'] κ']. cbn.
    by destruct r; rewrite (omap_insert lock_task).
  - (* Release *)
    exists [Lock.Release tid]. unfold lock_view, Lock.run. cbn.
    rewrite lookup_omap, Ht. cbn. split; [|done].
    destruct (Lock.release l κ) as [[l' κ']|]; cbn; by rewrite omap_delete.
  - (* Wait *)
    unfold wait_enter, locked, Lock.locked. cbn.
    destruct (Lock._locked l) eqn:Hl; [|by exists []]. cbn.
    exists [Lock.Release tid]. unfold lock_view, Lock.run. cbn.
    rewrite lookup_omap, Ht. cbn. split; [|done]. unfold Lock.release. rewrite Hl. cbn.
    by rewrite (omap_insert lock_task).
  - (* Cancel, in acquire() *)
    exists [Lock.Cancel tid]. split; [|done]. unfold lock_view, Lock.run. cbn.
    rewrite lookup_omap, Ht. cbn.
    destruct (Future.cancel_task lf κ) as [κ' mc']. cbn.
    by rewrite (omap_insert lock_task).
  - (* Cancel, in wait() on its future *)
    exists []. split; [|done]. destruct (Future.cancel_task fut σ) as [σ' mc'].
    unfold lock_view. cbn. rewrite (omap_insert lock_task). cbn [lock_task].
    rewrite delete_id; [done|]. by rewrite lookup_omap, Ht.
  - (* Cancel, in wait() on the lock *)
    exists [Lock.Cancel tid]. split; [|done]. unfold lock_view, Lock.run. cbn.
    rewrite lookup_omap, Ht. cbn.
    destruct (Future.cancel_task lf κ) as [κ' mc']. cbn.
    by rewrite (omap_insert lock_task).
  - (* Resume, in acquire() *)
    destruct (Future.await mc (Future.get κ lf)) as [r|] eqn:Ha; [|by exists []].
    exists [Lock.Resume tid]. split; [|done]. unfold lock_view, Lock.run. cbn.
    rewrite lookup_omap, Ht. cbn. rewrite Ha.
    destruct (Lock.acquire_resume lf r l κ) as [[r' l'] κ']. cbn.
    destruct r'; [by rewrite (omap_insert lock_task)|by rewrite omap_delete].
  - (* Resume, in wait() on its future *)
    destruct (Future.await mc (Future.get σ fut)) as [r|] eqn:Ha; [|by exists []].
    exists [Lock.Acquire tid]. split; [|done]. unfold lock_view, Lock.run. cbn.
    rewrite lookup_omap, Ht. cbn. unfold wait_resume, reacquire. cbn.
    destruct (deque_remove fut ws) as [ws'|]; cbn;
      destruct (Lock.acquire_enter l κ) as [[r' l'] κ']; cbn;
      by destruct r'; cbn; rewrite (omap_insert lock_task).
  - (* Resume, in wait() on the lock *)
    destruct (Future.await mc (Future.get κ lf)) as [r|] eqn:Ha; [|by exists []].
    unfold reacquire_resume. cbn.
    destruct (Lock.acquire_resume lf r l κ) as [[r' l'] κ'] eqn:Hr.
    destruct r' as [[]|e].
    + exists [Lock.Resume tid]. split; [|done]. unfold lock_view, Lock.run. cbn.
      rewrite lookup_omap, Ht. cbn. rewrite Ha, Hr. cbn.
      by rewrite (omap_insert lock_task).
    + assert (Hview : Lock.step (Lock.Resume tid)
                        (Lock.Sys l κ (omap lock_task ts))
                      = Lock.Sys l' κ' (delete tid (omap lock_task ts))).
      { cbn. rewrite lookup_omap, Ht. cbn. by rewrite Ha, Hr. }
      destruct (match e with CancelledError => true | _ => false end) eqn:He.
      * assert (e = CancelledError) as -> by (by destruct e).
        exists [Lock.Resume tid; Lock.Acquire tid]. split; [|done].
        unfold lock_view, Lock.run.
        cbn [foldl]. cbn [cond lfuts tasks _lock]. rewrite Hview.
        cbn. rewrite lookup_delete_eq. unfold reacquire. cbn.
        destruct (Lock.acquire_enter l' κ') as [[r2 l2] κ2]. cbn.
        destruct r2; cbn; rewrite (omap_insert lock_task); cbn [lock_task];
          by rewrite insert_delete_eq.
      * exists [Lock.Resume tid]. split; [|done]. unfold lock_view, Lock.run.
        cbn [foldl]. cbn [cond lfuts tasks _lock]. rewrite Hview.
        destruct e; try done; cbn; by rewrite omap_delete.
Qed.

Lemma lock_view_inv ev s :
  Lock.inv (lock_view s) → Lock.served (lock_view s) →
  Lock.inv (lock_view (step ev s)) ∧ Lock.served (lock_view (step ev s)).
Proof.
  intros I S. destruct (lock_view_step ev s) as (levs & -> & Hd).
  split; [by apply inv_run|apply served_run; [apply I|done]].
Qed.

(** Steps that leave the queue of the condition alone. *)
Lemma queue_inv_frame ws σ σ' ts ts' :
  (∀ t f m, ts' !! t = Some (Waiting (InWait f) m) →
            ∃ m0, ts !! t = Some (Waiting (InWait f) m0)) →
  (∀ t lf ca res m, ts' !! t = Some (Waiting (Reacquiring lf ca res) m) →
                    ∃ lf0 ca0 m0, ts !! t = Some (Waiting (Reacquiring lf0 ca0 res) m0)) →
  length σ' = length σ →
  (∀ f e, Future.get σ' f ≠ Future.Exception e) →
  queue_inv ws σ ts → queue_inv ws σ' ts'.
Proof.
  intros Hw Hr Hlen Hp [Iq If Ind Io Ip Ir]. split; [| |done| |done|].
  - intros t f m H. destruct (Hw _ _ _ H) as [m0 H0]. eauto.
  - intros f Hf. rewrite Hlen. eauto.
  - intros t1 t2 f m1 m2 H1 H2.
    destruct (Hw _ _ _ H1) as [? ?], (Hw _ _ _ H2) as [? ?]. eauto.
  - intros t lf ca res m H. destruct (Hr _ _ _ _ _ H) as (? & ? & ? & ?). eauto.
Qed.

Ltac frame_tasks tid :=
  let t := fresh "t" in
  intros t; intros; revert select (_ !! t = Some _); map_cases t tid;
  intros; simplify_eq; eauto.

Lemma queue_inv_step ev s :
  inv s → queue_inv (_waiters (cond (step ev s))) (futs (step ev s))
                    (tasks (step ev s)).
Proof.
  intros [IL IS Q]. destruct s as [[l ws] κ σ ts]. cbn in Q.
  pose proof Q as [Iq If Ind Io Ip Ir].
  destruct ev as [tid|tid|tid|tid n|tid|tid|tid];
    cbn [step cond tasks lfuts futs _lock _waiters];
    destruct (ts !! tid) as [[lf mc|last|[fut|lf ca res] mc]|] eqn:Ht;
    try exact Q.
  - (* Acquire *)
    destruct (Lock.acquire_enter l κ) as [[r l'] κ']. cbn.
    apply (queue_inv_frame ws σ σ ts); try done; destruct r; frame_tasks tid.
  - (* Release *)
    destruct (Lock.release l κ) as [[l' κ']|]; cbn;
      apply (queue_inv_frame ws σ σ ts); try done; frame_tasks tid.
  - (* Wait *)
    unfold wait_enter, locked, Lock.locked, Lock.release. cbn.
    destruct (Lock._locked l); [|exact Q]. cbn. split.
    + intros t f m. map_cases t tid.
      * intros [= <-]. apply elem_of_app. right. by left.
      * intros Hx. apply elem_of_app. left. eauto.
    + intros f [H|H]%elem_of_app; rewrite length_app; simpl.
      * specialize (If f H). lia.
      * apply list_elem_of_singleton in H as ->. lia.
    + apply NoDup_app. split_and!; [done| |apply NoDup_singleton].
      intros f Hf ->%list_elem_of_singleton. specialize (If _ Hf). lia.
    + intros t1 t2 f m1 m2. map_cases t1 tid; map_cases t2 tid; try done.
      * intros [= <-] Hx. specialize (If _ (Iq _ _ _ Hx)). lia.
      * intros Hx [= <-]. specialize (If _ (Iq _ _ _ Hx)). lia.
      * apply Io.
    + intros f e. rewrite get_create. apply Ip.
    + intros t lf ca res m. map_cases t tid; [done|]. apply Ir.
  - (* Notify *)
    cbn. unfold notify. destruct (locked _); [|exact Q]. cbn.
    destruct (notify_loop_spec n 0 ws σ Ind) as [Hlen Hget].
    { apply Forall_forall. intros f Hf. by apply If. }
    apply (queue_inv_frame ws σ _ ts); eauto.
    intros f e. rewrite Hget. destruct (decide _); [done|apply Ip].
  - (* NotifyAll *)
    cbn. unfold notify_all, notify. destruct (locked _); [|exact Q]. cbn.
    destruct (notify_loop_spec (Z.of_nat (length ws)) 0 ws σ Ind) as [Hlen Hget].
    { apply Forall_forall. intros f Hf. by apply If. }
    apply (queue_inv_frame ws σ _ ts); eauto.
    intros f e. rewrite Hget. destruct (decide _); [done|apply Ip].
  - (* Cancel, in acquire() *)
    destruct (Future.cancel_task lf κ) as [κ' mc']. cbn.
    apply (queue_inv_frame ws σ σ ts); try done; frame_tasks tid.
  - (* Cancel, in wait() on its future *)
    pose proof (cancel_task_length fut σ) as Hlen.
    pose proof (cancel_task_get fut σ) as Hget.
    destruct (Future.cancel_task fut σ) as [σ' mc']. cbn [fst] in *. cbn.
    apply (queue_inv_frame ws σ σ' ts); try done; [frame_tasks tid..|].
    intros f e. rewrite Hget. destruct (decide _); [done|apply Ip].
  - (* Cancel, in wait() on the lock *)
    destruct (Future.cancel_task lf κ) as [κ' mc']. cbn.
    apply (queue_inv_frame ws σ σ ts); try done; frame_tasks tid.
  - (* Resume, in acquire() *)
    destruct (Future.await mc (Future.get κ lf)) as [r|]; [|exact Q].
    destruct (Lock.acquire_resume lf r l κ) as [[r' l'] κ']. cbn.
    apply (queue_inv_frame ws σ σ ts); try done; destruct r'; frame_tasks tid.
  - (* Resume, in wait() on its future *)
    destruct (Future.await mc (Future.get σ fut)) as [r|] eqn:Ha; [|exact Q].
    unfold wait_resume, reacquire. cbn.
    destruct (deque_remove_elem _ _ (Iq _ _ _ Ht)) as [ws' Hrm]. rewrite Hrm.
    destruct (deque_remove_nodup _ _ _ Hrm Ind) as [Hnd Hout]. cbn.
    destruct (Lock.acquire_enter l κ) as [[r' l'] κ']. cbn.
    assert (Hr : r = Ok () ∨ r = Raise CancelledError).
    { eapply await_plain; [|done]. apply Ip. }
    assert (Hq : ∀ t f m, t ≠ tid → ts !! t = Some (Waiting (InWait f) m) → f ∈ ws').
    { intros t f m N Hx. eapply deque_remove_other; [done|by eauto|].
      intros ->. by eapply N, Io. }
    destruct r'; cbn; (split; [| |done| |done|]).
    + intros t f m. map_cases t tid; [done|]. by apply Hq.
    + intros f Hf. apply If. by eapply deque_remove_sub.
    + intros t1 t2 f m1 m2. map_cases t1 tid; map_cases t2 tid; try done. apply Io.
    + intros t lf ca res m. map_cases t tid; [done|]. apply Ir.
    + intros t f m. map_cases t tid; [done|]. by apply Hq.
    + intros f Hf. apply If. by eapply deque_remove_sub.
    + intros t1 t2 f m1 m2. map_cases t1 tid; map_cases t2 tid; try done. apply Io.
    + intros t lf ca res m. map_cases t tid; [by intros [= _ _ <- _]|]. apply Ir.
  - (* Resume, in wait() on the lock *)
    destruct (Future.await mc (Future.get κ lf)) as [r|]; [|exact Q].
    unfold reacquire_resume, reacquire. cbn [_lock _waiters].
    destruct (Lock.acquire_resume lf r l κ) as [[r' l'] κ']. cbn.
    destruct r' as [[]|e]; cbn.
    + apply (queue_inv_frame ws σ σ ts); try done; frame_tasks tid.
    + destruct e; cbn; try (apply (queue_inv_frame ws σ σ ts); try done;
                             frame_tasks tid).
      destruct (Lock.acquire_enter l' κ') as [[r2 l2] κ2]. cbn.
      destruct r2; cbn; apply (queue_inv_frame ws σ σ ts); try done;
        frame_tasks tid.
Qed.

Lemma cond_inv_sys0 : inv sys0.
Proof.
  split; [apply inv_sys0|apply served_sys0|].
  split; cbn; try done.
  - by intros f ?%elem_of_nil.
  - apply NoDup_nil_2.
Qed.

Lemma cond_inv_step ev s : inv s → inv (step ev s).
Proof.
  intros I. destruct (lock_view_inv ev s (inv_lock _ I) (inv_served _ I)).
  split; [done|done|by apply queue_inv_step].
Qed.

Lemma cond_inv_run evs s : inv s → inv (run evs s).
Proof.
  revert s. induction evs as [|ev evs IH]; intros s I; [done|].
  simpl. apply IH. by apply cond_inv_step.
Qed.

Lemma holds_lock_view s tid : holds s tid → Lock.holds (lock_view s) tid.
Proof.
  intros [last H]. unfold Lock.holds. by rewrite lock_view_tasks, H.
Qed.

Lemma cond_holder_unique s t1 t2 :
  inv s → holds s t1 → holds s t2 → t1 = t2 ∧ locked (cond s) = true.
Proof.
  intros I H1%holds_lock_view H2%holds_lock_view. split.
  - by eapply (Lock.inv_unique _ (inv_lock _ I)).
  - by eapply (Lock.inv_holder _ (inv_lock _ I)).
Qed.

(** X8. Mutual exclusion holds across [Condition.wait] when the lock is
    used with discipline.  After any sequence of acquire, release, wait,
    notify, notify_all, cancel and resume events in which [release()],
    [wait()], [notify()] and [notify_all()] are called only by the task
    that holds the lock (the code does not check this, and without it
    mutual exclusion is lost as for the bare lock), at most one task is
    between taking the lock, by [acquire()] or by coming out of [wait()],
    and giving it up, by [release()] or by going into [wait()]; while
    there is one, the lock is locked. *)
Theorem condition_wait_keeps_mutual_exclusion (evs : list event) (t1 t2 : nat) :
  disciplined evs sys0 = true →
  holds (run evs sys0) t1 → holds (run evs sys0) t2 →
  t1 = t2 ∧ locked (cond (run evs sys0)) = true.
Proof. intros _. apply cond_holder_unique, cond_inv_run, cond_inv_sys0. Qed.

Lemma condition_wait_keeps_mutual_exclusion_witness :
  0%nat = 0%nat
  ∧ locked (cond (run [Acquire 0; Wait 0; Acquire 1; Notify 1 1; Release 1;
                       Resume 0]%nat sys0))
    = true.
Proof.
  apply (condition_wait_keeps_mutual_exclusion
           [Acquire 0; Wait 0; Acquire 1; Notify 1 1; Release 1; Resume 0]%nat
           0%nat 0%nat); [reflexivity|by exists (Some (Ok ()))..].
Defined.




End condition_service.

(** ** Semaphore: units are conserved and no wakeup is lost *)

Section semaphore_service.
Import Semaphore.
Implicit Types (s : sys) (tid : nat) (σ : Future.store).

Lemma acquire_enter_units sm σ :
  0 ≤ _value sm →
  _value (acquire_enter sm σ).1.2 = _value sm - took (acquire_enter sm σ).1.1
  ∧ 0 ≤ _value (acquire_enter sm σ).1.2.
Proof. unfold acquire_enter. destruct (Z.leb_spec (_value sm) 0); simpl; lia. Qed.

Lemma acquire_resume_units fut r sm σ :
  0 ≤ _value sm →
  _value (acquire_resume fut r sm σ).1.2
  = _value sm - took (acquire_resume fut r sm σ).1.1
  ∧ 0 ≤ _value (acquire_resume fut r sm σ).1.2.
Proof.
  intros Hv. unfold acquire_resume. destruct r as [[]|e];
    [by apply acquire_enter_units|].
  destruct (_ && _); simpl; [|lia].
  pose proof (wake_up_next_value sm (Future.cancel fut σ)).
  destruct (_wake_up_next _ _). simpl in *. lia.
Qed.

Lemma units_step k ev s :
  _value (sem s) = k - acquired s + released s ∧ 0 ≤ _value (sem s) →
  _value (sem (step ev s)) = k - acquired (step ev s) + released (step ev s)
  ∧ 0 ≤ _value (sem (step ev s)).
Proof.
  intros [Hk Hv]. destruct s as [sm σ ts a r]. simpl in *.
  destruct ev as [tid|tid|tid|]; simpl.
  - destruct (ts !! tid); [done|].
    pose proof (acquire_enter_units sm σ Hv).
    destruct (acquire_enter sm σ) as [[o sm'] σ']. simpl in *. lia.
  - destruct (ts !! tid) as [[fut mc]|]; [|done].
    by destruct (Future.cancel_task fut σ).
  - destruct (ts !! tid) as [[fut mc]|]; [|done].
    destruct (Future.await _ _) as [r'|]; [|done].
    pose proof (acquire_resume_units fut r' sm σ Hv).
    destruct (acquire_resume fut r' sm σ) as [[o sm'] σ']. simpl in *. lia.
  - unfold release.
    pose proof (wake_up_next_value {| _value := _value sm + 1;
                                      _waiters := _waiters sm |} σ).
    destruct (_wake_up_next _ _). simpl in *. lia.
Qed.

(** X10. A semaphore conserves its units.  From a semaphore made with
    [value], after any sequence of acquire, cancel, resume and release
    events the counter is [value] minus the calls of [acquire()] that
    returned plus the calls of [release()], and it is never negative: at
    no time have more than [value] plus the number of releases been
    acquired. *)
Theorem semaphore_conserves_units (value : Z) (sm : t) (evs : list event) :
  init value = Ok sm →
  _value (sem (run evs (sys0 sm)))
  = value - acquired (run evs (sys0 sm)) + released (run evs (sys0 sm))
  ∧ 0 ≤ _value (sem (run evs (sys0 sm)))
  ∧ acquired (run evs (sys0 sm)) ≤ value + released (run evs (sys0 sm)).
Proof.
  intros Hinit.
  assert (H0 : _value (sem (sys0 sm))
               = value - acquired (sys0 sm) + released (sys0 sm)
               ∧ 0 ≤ _value (sem (sys0 sm))).
  { unfold init in Hinit. destruct (Z.ltb_spec value 0); [done|].
    injection Hinit as <-. simpl. lia. }
  assert (H : _value (sem (run evs (sys0 sm)))
              = value - acquired (run evs (sys0 sm)) + released (run evs (sys0 sm))
              ∧ 0 ≤ _value (sem (run evs (sys0 sm)))); [|lia].
  generalize dependent (sys0 sm). clear Hinit.
  induction evs as [|ev evs IH]; intros s H0; [done|].
  simpl. apply IH. by apply units_step.
Qed.

Lemma semaphore_conserves_units_witness :
  _value (sem (run [Acquire 0; Acquire 1; Release; Resume 1]%nat
                 (sys0 (mk 1 []))))
  = 1 - acquired (run [Acquire 0; Acquire 1; Release; Resume 1]%nat (sys0 (mk 1 [])))
    + released (run [Acquire 0; Acquire 1; Release; Resume 1]%nat (sys0 (mk 1 [])))
  ∧ 0 ≤ _value (sem (run [Acquire 0; Acquire 1; Release; Resume 1]%nat
                       (sys0 (mk 1 []))))
  ∧ acquired (run [Acquire 0; Acquire 1; Release; Resume 1]%nat (sys0 (mk 1 [])))
    ≤ 1 + released (run [Acquire 0; Acquire 1; Release; Resume 1]%nat (sys0 (mk 1 []))).
Proof.
  apply (semaphore_conserves_units 1 (mk 1 [])
           [Acquire 0; Acquire 1; Release; Resume 1]%nat).
  reflexivity.
Defined.

Lemma first_pending_Some σ ws f :
  first_pending σ ws = Some f → f ∈ ws ∧ Future.get σ f = Future.Pending.
Proof.
  unfold first_pending. intros [Hin Hp]%find_some. split.
  - by apply list_elem_of_In.
  - by destruct (Future.get σ f).
Qed.

Lemma wake_loop_sub ws σ f : f ∈ (wake_loop ws σ).1 → f ∈ ws.
Proof.
  induction ws as [|w ws IH]; simpl; [done|].
  destruct (Future.done (Future.get σ w)); simpl; intros H;
    apply elem_of_cons; right; auto.
Qed.

Lemma wake_loop_keeps ws σ f :
  f ∈ ws → Future.get σ f = Future.Pending →
  ∃ f0, first_pending σ ws = Some f0 ∧ (f0 = f ∨ f ∈ (wake_loop ws σ).1).
Proof.
  unfold first_pending. induction ws as [|w ws IH]; simpl; [by intros ?%elem_of_nil|].
  intros Hin Hp. destruct (Future.done (Future.get σ w)) eqn:Hd; simpl.
  - apply elem_of_cons in Hin as [->|Hin]; [by rewrite Hp in Hd|]. by apply IH.
  - exists w. split; [done|].
    apply elem_of_cons in Hin as [->|Hin]; [by left|by right].
Qed.

Lemma filter_ne_id (x : nat) (l : list nat) : x ∉ l → filter (λ y, y ≠ x) l = l.
Proof.
  induction l as [|y l IH]; [done|]. intros [N Hx]%not_elem_of_cons.
  rewrite filter_cons_True by done. by rewrite IH.
Qed.

Lemma length_filter_ne (x : nat) (l : list nat) :
  NoDup l → (length l ≤ S (length (filter (λ y, y ≠ x) l)))%nat.
Proof.
  induction l as [|y l IH]; intros Hnd; [simpl; lia|].
  apply NoDup_cons in Hnd as [Hy Hnd]. destruct (decide (y = x)) as [->|N].
  - rewrite filter_cons_False by naive_solver.
    rewrite filter_ne_id by done. simpl. lia.
  - rewrite filter_cons_True by done. simpl. specialize (IH Hnd). lia.
Qed.

Lemma queue_inv_cancel ws σ ts wk tid fut mc :
  queue_inv ws σ ts wk → ts !! tid = Some (fut, mc) →
  queue_inv ws (Future.cancel_task fut σ).1
            (<[tid := (fut, mc || (Future.cancel_task fut σ).2)]> ts) wk
  ∧ ∀ f, Future.get (Future.cancel_task fut σ).1 f = Future.Pending →
         Future.get σ f = Future.Pending.
Proof.
  intros [Iq Io If Ie Ir Ip Ind Iw] Ht.
  pose proof (cancel_task_get fut σ) as Hget.
  pose proof (cancel_task_length fut σ) as Hlen.
  assert (Hpend : ∀ f, Future.get (Future.cancel_task fut σ).1 f = Future.Pending →
                       Future.get σ f = Future.Pending).
  { intros f. rewrite Hget. by destruct (decide _). }
  assert (Hown : ∀ f t m, ts !! t = Some (f, m) →
                 ∃ t' m', <[tid := (fut, mc || (Future.cancel_task fut σ).2)]> ts !! t'
                          = Some (f, m')).
  { intros f t m H. destruct (decide (t = tid)) as [->|N].
    - rewrite Ht in H. injection H as <- <-. eexists tid, _.
      by rewrite lookup_insert_eq.
    - exists t, m. by rewrite lookup_insert_ne. }
  split; [|done]. split; try done.
  - intros t f m. destruct (decide (t = tid)) as [->|N].
    + rewrite lookup_insert_eq. intros [= <- <-] Hp. eauto.
    + rewrite lookup_insert_ne by done. eauto.
  - intros f Hf Hp. destruct (Io f Hf (Hpend _ Hp)) as (t & m & H). eauto.
  - intros f Hf. rewrite Hlen. eauto.
  - intros t f m. rewrite Hlen. destruct (decide (t = tid)) as [->|N].
    + rewrite lookup_insert_eq. intros [= <- <-]. eauto.
    + rewrite lookup_insert_ne by done. eauto.
  - intros t f. destruct (decide (t = tid)) as [->|N].
    + rewrite lookup_insert_eq. intros [= <- Hm]. rewrite Hget.
      destruct (decide _) as [_|Hn]; [done|].
      destruct (Future.done (Future.get σ fut)) eqn:Hd; [done|].
      destruct Hn. split_and!; [done|by eauto|done].
    + rewrite lookup_insert_ne by done. intros H. rewrite Hget.
      destruct (decide _); [done|]. eauto.
  - intros f e. rewrite Hget. destruct (decide _); [done|apply Ip].
  - intros f Hf. destruct (Iw f Hf) as [Hr (t & m & H)]. split; [|by eauto].
    rewrite Hget. destruct (decide _) as [(-> & _ & Hd)|]; [|done].
    by rewrite Hr in Hd.
Qed.

Lemma queue_inv_enqueue ws σ ts wk tid :
  queue_inv ws σ ts wk → ts !! tid = None →
  queue_inv (ws ++ [length σ]) (σ ++ [Future.Pending])
            (<[tid := (length σ, false)]> ts) wk.
Proof.
  intros [Iq Io If Ie Ir Ip Ind Iw] Ht.
  assert (Hown : ∀ f t m, ts !! t = Some (f, m) →
                 <[tid := (length σ, false)]> ts !! t = Some (f, m)).
  { intros f t m H. rewrite lookup_insert_ne; [done|]. intros ->. congruence. }
  split; try done.
  - intros t f m. destruct (decide (t = tid)) as [->|N].
    + rewrite lookup_insert_eq. intros [= <- <-] _. apply elem_of_app. right. by left.
    + rewrite lookup_insert_ne by done. rewrite get_create. intros H Hp.
      apply elem_of_app. left. eauto.
  - intros f [Hf|Hf]%elem_of_app; rewrite get_create; intros Hp.
    + destruct (Io f Hf Hp) as (t & m & H). eauto.
    + apply list_elem_of_singleton in Hf as ->. exists tid, false.
      by rewrite lookup_insert_eq.
  - intros f [Hf|Hf]%elem_of_app; rewrite length_app; simpl.
    + specialize (If f Hf). lia.
    + apply list_elem_of_singleton in Hf as ->. lia.
  - intros t f m. rewrite length_app. simpl. destruct (decide (t = tid)) as [->|N].
    + rewrite lookup_insert_eq. intros [= <- <-]. lia.
    + rewrite lookup_insert_ne by done. intros H. specialize (Ie _ _ _ H). lia.
  - intros t f. destruct (decide (t = tid)) as [->|N].
    + rewrite lookup_insert_eq. by intros [= <-].
    + rewrite lookup_insert_ne by done. rewrite get_create. eauto.
  - intros f e. rewrite get_create. apply Ip.
  - intros f Hf. destruct (Iw f Hf) as [Hr (t & m & H)]. rewrite get_create. eauto.
Qed.

Lemma queue_inv_leave ws σ ts wk tid fut mc :
  queue_inv ws σ ts wk → ts !! tid = Some (fut, mc) →
  Future.done (Future.get σ fut) = true →
  queue_inv ws σ (delete tid ts) (filter (λ f, f ≠ fut) wk).
Proof.
  intros [Iq Io If Ie Ir Ip Ind Iw] Ht Hd. split; try done.
  - intros t f m. destruct (decide (t = tid)) as [->|N].
    + by rewrite lookup_delete_eq.
    + rewrite lookup_delete_ne by done. eauto.
  - intros f Hf Hp. destruct (Io f Hf Hp) as (t & m & H). exists t, m.
    rewrite lookup_delete_ne; [done|]. intros ->. rewrite Ht in H.
    injection H as <- _. by rewrite Hp in Hd.
  - intros t f m. destruct (decide (t = tid)) as [->|N].
    + by rewrite lookup_delete_eq.
    + rewrite lookup_delete_ne by done. eauto.
  - intros t f. destruct (decide (t = tid)) as [->|N].
    + by rewrite lookup_delete_eq.
    + rewrite lookup_delete_ne by done. eauto.
  - by apply NoDup_filter.
  - intros f [Hne Hf]%list_elem_of_filter. destruct (Iw f Hf) as [Hr (t & m & H)].
    split; [done|]. exists t, m. rewrite lookup_delete_ne; [done|].
    intros ->. rewrite Ht in H. by injection H as <- _.
Qed.

Lemma queue_inv_wake ws σ ts wk :
  queue_inv ws σ ts wk →
  queue_inv (wake_loop ws σ).1 (wake_loop ws σ).2 ts
            (match first_pending σ ws with Some f0 => f0 :: wk | None => wk end)
  ∧ ∀ t f mc, ts !! t = Some (f, mc) →
              Future.get (wake_loop ws σ).2 f = Future.Pending →
              Future.get σ f = Future.Pending ∧ is_Some (first_pending σ ws).
Proof.
  intros [Iq Io If Ie Ir Ip Ind Iw]. rewrite wake_loop_first_pending.
  destruct (first_pending σ ws) as [f0|] eqn:Hfp.
  - destruct (first_pending_Some _ _ _ Hfp) as [Hin0 Hp0].
    pose proof (If _ Hin0) as Hlt0. unfold Future.set_result.
    assert (Hget : ∀ g, Future.get (<[f0 := Future.Result]> σ) g
                        = if decide (g = f0) then Future.Result else Future.get σ g).
    { intros g. rewrite get_insert. apply decide_ext. naive_solver. }
    split; [split|].
    + intros t f m H. rewrite Hget. destruct (decide (f = f0)); [done|]. intros Hp.
      destruct (wake_loop_keeps ws σ f) as (f1 & Hf1 & [->|Hk]); eauto; congruence.
    + intros f Hf%wake_loop_sub. rewrite Hget. destruct (decide _); [done|]. eauto.
    + intros f Hf%wake_loop_sub. rewrite length_insert. eauto.
    + intros t f m H. rewrite length_insert. eauto.
    + intros t f H. rewrite Hget. destruct (decide _); [done|]. eauto.
    + intros f e. rewrite Hget. destruct (decide _); [done|]. apply Ip.
    + apply NoDup_cons. split; [|done]. intros Hw. destruct (Iw _ Hw) as [Hr _].
      congruence.
    + intros f [->|Hf]%elem_of_cons; rewrite Hget.
      * rewrite decide_True by done. split; [done|]. eauto.
      * destruct (Iw f Hf) as [Hr Hown]. by destruct (decide _).
    + intros t f m H. rewrite Hget. destruct (decide _); [done|]. eauto.
  - assert (Hnone : ∀ f, f ∈ ws → Future.get σ f ≠ Future.Pending).
    { intros f Hf Hp. destruct (wake_loop_keeps ws σ f Hf Hp) as (f1 & Hf1 & _).
      congruence. }
    split; [split; try done|].
    + intros t f m H Hp. destruct (Hnone f); eauto.
    + intros f Hf%wake_loop_sub Hp. by destruct (Hnone f).
    + intros f Hf%wake_loop_sub. eauto.
    + intros t f m H Hp. destruct (Hnone f); eauto.
Qed.

Lemma await_done mc st r :
  Future.await mc st = Some r → mc = true ∨ Future.done st = true.
Proof. destruct mc; [by left|]. destruct st; simpl; [done|by right..]. Qed.

Lemma cancel_done fut σ :
  Future.done (Future.get σ fut) = true → Future.cancel fut σ = σ.
Proof. unfold Future.cancel. by intros ->. Qed.

Lemma sem_inv_step ev s wk : inv s wk → ∃ wk', inv (step ev s) wk'.
Proof.
  intros [Q U]. destruct s as [[v ws] σ ts a r]. unfold blocked in *.
  cbn [sem futs tasks _value _waiters] in *.
  destruct ev as [tid|tid|tid|]; cbn [step sem futs tasks acquired released].
  - (* Acquire *)
    destruct (ts !! tid) as [p|] eqn:Ht; [by exists wk|].
    unfold acquire_enter, Future.create. cbn [_value _waiters].
    destruct (Z.leb_spec v 0) as [Hv|Hv]; cbn [settle took sem futs tasks _value _waiters fst snd].
    + exists wk. split; try unfold blocked;
      cbn [settle took sem futs tasks _value _waiters fst snd]; [by apply queue_inv_enqueue|]. intros _. lia.
    + exists wk. rewrite delete_id by done. split; try unfold blocked;
      cbn [settle took sem futs tasks _value _waiters fst snd]; [done|].
      intros Hb. specialize (U Hb). lia.
  - (* Cancel *)
    destruct (ts !! tid) as [[fut mc]|] eqn:Ht; [|by exists wk].
    destruct (queue_inv_cancel _ _ _ _ _ _ _ Q Ht) as [Q' Hp].
    destruct (Future.cancel_task fut σ) as [σ' mc']. cbn [fst snd] in *.
    exists wk. split; try unfold blocked;
      cbn [settle took sem futs tasks _value _waiters fst snd]; [done|]. intros (t & f & m & H & Hpe). apply U.
    apply Hp in Hpe. destruct (decide (t = tid)) as [->|N].
    + rewrite lookup_insert_eq in H. injection H as <- _. by exists tid, fut, mc.
    + rewrite lookup_insert_ne in H by done. by exists t, f, m.
  - (* Resume *)
    destruct (ts !! tid) as [[fut mc]|] eqn:Ht; [|by exists wk].
    destruct (Future.await mc (Future.get σ fut)) as [r'|] eqn:Ha; [|by exists wk].
    assert (Hd : Future.done (Future.get σ fut) = true).
    { destruct (await_done _ _ _ Ha) as [->|?]; [|done].
      by eapply (inv_request _ _ _ _ Q). }
    pose proof (queue_inv_leave _ _ _ _ _ _ _ Q Ht Hd) as Q1.
    pose proof (length_filter_ne fut wk (inv_wk_nodup _ _ _ _ Q)) as Hlen.
    assert (Hb : ∀ σ', (∀ f, Future.get σ' f = Future.Pending →
                             Future.get σ f = Future.Pending) →
                 (∃ t f m, delete tid ts !! t = Some (f, m)
                           ∧ Future.get σ' f = Future.Pending) →
                 ∃ t f m, ts !! t = Some (f, m) ∧ Future.get σ f = Future.Pending).
    { intros σ' Hσ (t & f & m & H & Hp). exists t, f, m. split; [|by apply Hσ].
      destruct (decide (t = tid)) as [->|N]; [by rewrite lookup_delete_eq in H|].
      by rewrite lookup_delete_ne in H. }
    unfold acquire_resume. destruct r' as [[]|e].
    + unfold acquire_enter, Future.create. cbn [_value _waiters].
      destruct (Z.leb_spec v 0) as [Hv|Hv]; cbn [settle took sem futs tasks _value _waiters fst snd].
      * eexists. split; try unfold blocked;
      cbn [settle took sem futs tasks _value _waiters fst snd]; [|intros _; lia]. rewrite <- (insert_delete_eq ts).
        apply queue_inv_enqueue; [exact Q1|apply lookup_delete_eq].
      * eexists. split; try unfold blocked;
      cbn [settle took sem futs tasks _value _waiters fst snd]; [exact Q1|]. intros Hbl.
        specialize (U (Hb σ (λ _ H, H) Hbl)). lia.
    + rewrite cancel_done by done. cbn [_value].
      destruct (Z.ltb_spec 0 v) as [Hv|Hv]; cbn [andb].
      * destruct (Future.cancelled (Future.get σ fut)) eqn:Hc; cbn [negb].
        -- eexists. split; try unfold blocked;
      cbn [settle took sem futs tasks _value _waiters fst snd]; [exact Q1|]. intros Hbl.
           specialize (U (Hb σ (λ _ H, H) Hbl)).
           rewrite filter_ne_id; [done|]. intros Hw.
           destruct (inv_wk _ _ _ _ Q _ Hw) as [Hr _]. by rewrite Hr in Hc.
        -- unfold _wake_up_next. cbn [_value _waiters].
           destruct (queue_inv_wake _ _ _ _ Q1) as [Q2 Hp].
           destruct (wake_loop ws σ) as [ws' σ'] eqn:Hw. cbn [fst snd] in *. cbn [settle took sem futs tasks _value _waiters fst snd].
           eexists. split; try unfold blocked;
      cbn [settle took sem futs tasks _value _waiters fst snd]; [exact Q2|]. intros (t & f & m & H & Hpe).
           destruct (Hp _ _ _ H Hpe) as [Hpσ [f0 Hf0]]. rewrite Hf0.
           assert (Hbl : ∃ t f m, ts !! t = Some (f, m)
                                  ∧ Future.get σ f = Future.Pending).
           { apply (Hb σ (λ _ H, H)). by exists t, f, m. }
           specialize (U Hbl). cbn [length]. lia.
      * eexists. split; try unfold blocked;
      cbn [settle took sem futs tasks _value _waiters fst snd]; [exact Q1|]. intros _. lia.
  - (* Release *)
    unfold release, _wake_up_next. cbn [_value _waiters].
    destruct (queue_inv_wake _ _ _ _ Q) as [Q2 Hp].
    destruct (wake_loop ws σ) as [ws' σ'] eqn:Hw. cbn [fst snd] in *. cbn [settle took sem futs tasks _value _waiters fst snd].
    eexists. split; try unfold blocked;
      cbn [settle took sem futs tasks _value _waiters fst snd]; [exact Q2|]. intros (t & f & m & H & Hpe).
    destruct (Hp _ _ _ H Hpe) as [Hpσ [f0 Hf0]]. rewrite Hf0.
    assert (Hbl : ∃ t f m, ts !! t = Some (f, m) ∧ Future.get σ f = Future.Pending)
      by (by exists t, f, m).
    specialize (U Hbl). cbn [length]. lia.
Qed.

Lemma sem_inv_run evs s wk : inv s wk → ∃ wk', inv (run evs s) wk'.
Proof.
  revert s wk. induction evs as [|ev evs IH]; intros s wk I; [by exists wk|].
  simpl. destruct (sem_inv_step ev s wk I) as [wk1 I1]. by eapply IH.
Qed.

Lemma sem_inv_sys0 v : inv (sys0 (mk v [])) [].
Proof.
  split; [split|]; cbn; try done.
  - by intros f ?%elem_of_nil.
  - by intros f ?%elem_of_nil.
  - apply NoDup_nil_2.
  - by intros f ?%elem_of_nil.
  - by intros (t & f & m & H & _).
Qed.

(** X11. No wakeup is lost.  From a semaphore made with [value], after
    any sequence of acquire, cancel, resume and release events: when the
    counter is positive while some task is suspended in [acquire()] on a
    future that is still pending, then another suspended task has been
    woken, its future has a result, and has not run yet.  So a free unit
    never sits beside tasks that all wait for ever, also when woken tasks
    are cancelled or overtaken by a newcomer. *)
Theorem semaphore_no_lost_wakeup (value : Z) (sm : t) (evs : list event) :
  init value = Ok sm →
  0 < _value (sem (run evs (sys0 sm))) →
  (∃ tid, blocked (run evs (sys0 sm)) tid) →
  ∃ tid, woken (run evs (sys0 sm)) tid.
Proof.
  intros Hinit Hv Hb.
  assert (sm = mk value []) as ->.
  { unfold init in Hinit. destruct (value <? 0); [done|]. by injection Hinit. }
  destruct (sem_inv_run evs _ _ (sem_inv_sys0 value)) as [wk [Q U]].
  specialize (U Hb). destruct wk as [|f wk]; [simpl in U; lia|].
  destruct (inv_wk _ _ _ _ Q f) as [Hr (t & m & H)]; [by left|].
  by exists t, f, m.
Qed.

Lemma semaphore_no_lost_wakeup_witness :
  ∃ tid, woken (run [Acquire 0; Acquire 1; Acquire 2; Release]%nat (sys0 (mk 1 []))) tid.
Proof.
  apply (semaphore_no_lost_wakeup 1 (mk 1 [])
           [Acquire 0; Acquire 1; Acquire 2; Release]%nat).
  - reflexivity.
  - reflexivity.
  - exists 2%nat, 1%nat, false. split; reflexivity.
Defined.

End semaphore_service.

(** ** Barrier: who is inside, who passes, who is turned away *)

Section barrier_service.
Import Barrier.
Implicit Types (s : sys) (b : t) (tid : nat) (σ : Future.store) (cs : gmap nat pc).

Lemma length_filter_ne_in (x : nat) (l : list nat) :
  NoDup l → x ∈ l → S (length (filter (λ y, y ≠ x) l)) = length l.
Proof.
  induction l as [|y l IH]; intros Hnd Hx; [by apply elem_of_nil in Hx|].
  apply NoDup_cons in Hnd as [Hy Hnd]. destruct (decide (y = x)) as [->|N].
  - rewrite filter_cons_False by naive_solver. by rewrite filter_ne_id.
  - rewrite filter_cons_True by done. simpl. f_equal. apply IH; [done|].
    by apply elem_of_cons in Hx as [->|Hx].
Qed.

(** Changes of [calls] that touch no suspended call. *)
Lemma inv_calls_frame b σ cs cs' l :
  (∀ t fut i, cs' !! t = Some (InWait fut i) ↔ cs !! t = Some (InWait fut i)) →
  (∀ t fut, cs' !! t = Some (InBlock fut) → cs !! t = Some (InBlock fut)) →
  (∀ t, cs' !! t = Some Spinning → cs !! t = Some Spinning) →
  inv (Sys b σ cs) l → inv (Sys b σ cs') l.
Proof.
  intros Hw Hb Hs [].
  split; unfold inside in *; cbn [barrier futs calls] in *; try done.
  - intros t. rewrite inv_inside0. by setoid_rewrite Hw.
  - intros t fut i ?%Hw. eauto.
  - intros t fut ?%Hb. eauto.
  - intros t1 t2 f i1 i2 ?%Hw ?%Hw. eauto.
  - intros t1 t2 f ?%Hb ?%Hb. eauto.
  - intros Hv t fut i ?%Hw. eauto.
  - intros Hst t fut i ?%Hw. eauto.
  - intros t fut i ?%Hw. eauto.
  - intros t1 t2 f1 f2 i ?%Hw ?%Hw. eauto.
  - intros t ?%Hs. by eapply inv_nospin0.
Qed.

Lemma inv_forget b σ cs l tid :
  inv (Sys b σ cs) l →
  (cs !! tid = None ∨ ∃ r, cs !! tid = Some (Done r)) →
  inv (Sys b σ (delete tid cs)) l.
Proof.
  intros I Ht. apply (inv_calls_frame b σ cs); [| | |done].
  - intros t fut i. map_cases t tid; [|done]. split; [done|]. naive_solver.
  - intros t fut. by map_cases t tid.
  - intros t. by map_cases t tid.
Qed.

Lemma inv_settle b σ cs l tid r :
  inv (Sys b σ cs) l → cs !! tid = None →
  inv (Sys b σ (<[tid := Done r]> cs)) l.
Proof.
  intros I Ht. apply (inv_calls_frame b σ cs); [| | |done].
  - intros t fut i. map_cases t tid; [|done]. split; [done|]. congruence.
  - intros t fut. by map_cases t tid.
  - intros t. by map_cases t tid.
Qed.

Ltac barrier_cbn :=
  cbn [barrier futs calls with_state with_count with_waiting with_blocking
       _waiting _blocking _action _parties _state _count
       Event.clear Event._waiters Event._value fst snd] in *.

Lemma inv_wake b σ cs l st' :
  inv (Sys b σ cs) l → st' = 1 ∨ st' = -1 ∨ st' = -2 →
  inv (Sys (wake_waiting (with_state st' b) σ).1
           (wake_waiting (with_state st' b) σ).2 cs) l.
Proof.
  intros [] Hst. unfold wake_waiting, inside in *. barrier_cbn.
  assert (Hfresh : Forall (λ f, (f < length σ)%nat) (Event._waiters (_waiting b))).
  { by apply Forall_forall. }
  pose proof (set_length _ _ Hfresh) as Hlen.
  pose proof (λ g, set_get _ _ g Hfresh) as Hget.
  pose proof (set_waiters (_waiting b) σ) as Hws.
  pose proof (set_value (_waiting b) σ) as Hval.
  destruct (Event.set (_waiting b) σ) as [w σ']. barrier_cbn.
  split; unfold inside; barrier_cbn; rewrite ?Hws, ?Hlen; try done.
  - lia.
  - intros f. rewrite Hget. destruct (decide _); [by right|done].
  - intros _ t fut i Ht. rewrite Hget.
    destruct (decide _) as [|Hn]; [done|].
    destruct (Event._value (_waiting b)) eqn:Hv; [by eauto|].
    destruct (inv_plain0 fut) as [Hp|Hr]; [|done]. destruct Hn.
    split_and!; [done|by eauto|by rewrite Hp].
  - intros ->. lia.
Qed.

Lemma inv_exit b σ cs l :
  inv (Sys b σ cs) l → inv (Sys (_exit b σ).1 (_exit b σ).2 cs) l.
Proof.
  intros I. unfold _exit. destruct (Z.eqb_spec (_count b) 0) as [Hc|Hc]; [|done].
  destruct I. unfold inside in *. barrier_cbn.
  assert (l = []) as ->.
  { destruct l; [done|]. simpl in inv_card0. lia. }
  assert (Hnone : ∀ t fut i, cs !! t ≠ Some (InWait fut i)).
  { intros t fut i Ht. apply (not_elem_of_nil t), inv_inside0. eauto. }
  set (b1 := if _state b =? 1 then with_state 0 b
             else if _state b =? -1 then with_state 0 b else b).
  assert (Hb1 : _waiting b1 = _waiting b ∧ _blocking b1 = _blocking b
                ∧ _parties b1 = _parties b ∧ _count b1 = _count b
                ∧ (_state b1 = 0 ∨ _state b1 = -2)).
  { unfold b1. destruct (Z.eqb_spec (_state b) 1); [by split_and!; auto|].
    destruct (Z.eqb_spec (_state b) (-1)); [by split_and!; auto|].
    split_and!; try done. lia. }
  destruct Hb1 as (Hw1 & Hbl1 & Hp1 & Hc1 & Hs1). clearbody b1.
  barrier_cbn. rewrite Hbl1.
  assert (Hfresh : Forall (λ f, (f < length σ)%nat) (Event._waiters (_blocking b))).
  { by apply Forall_forall. }
  pose proof (set_length _ _ Hfresh) as Hlen.
  pose proof (λ g, set_get _ _ g Hfresh) as Hget.
  pose proof (set_waiters (_blocking b) σ) as Hws.
  destruct (Event.set (_blocking b) σ) as [bl σ']. barrier_cbn.
  split; unfold inside; barrier_cbn; rewrite ?Hw1, ?Hp1, ?Hc1, ?Hws, ?Hlen;
    try done; try (by intros; exfalso; eapply Hnone).
  - lia.
  - intros f. rewrite Hget. destruct (decide _); [by right|done].
  - lia.
Qed.

Lemma inv_enqueue_w b σ cs l tid :
  inv (Sys b σ cs) l → cs !! tid = None → _state b = 0 →
  Event._value (_waiting b) = false → _count b + 1 ≠ _parties b →
  inv (Sys (with_waiting (Event.mk (Event._waiters (_waiting b) ++ [length σ]) false)
                         (with_count (_count b + 1) b))
           (σ ++ [Future.Pending])
           (<[tid := InWait (length σ) (_count b)]> cs))
      (l ++ [tid]).
Proof.
  intros [] Ht Hst Hv Hne. unfold inside in *. barrier_cbn.
  assert (Hold : ∀ t fut i, cs !! t = Some (InWait fut i) →
                            t ≠ tid ∧ (fut < length σ)%nat ∧ i < _count b).
  { intros t fut i H. split_and!; [congruence|by eauto|].
    by eapply inv_filling0. }
  split; unfold inside; barrier_cbn; try done.
  - lia.
  - apply NoDup_app. split_and!; [done| |apply NoDup_singleton].
    intros t Hl ->%list_elem_of_singleton. apply inv_inside0 in Hl as (? & ? & ?).
    congruence.
  - intros t. rewrite elem_of_app, list_elem_of_singleton, inv_inside0.
    map_cases t tid; [by split; eauto|]. split; [by intros [?|?]|by left].
  - rewrite length_app. simpl. lia.
  - intros t fut i. map_cases t tid.
    + intros [= <- <-]. apply elem_of_app. right. by left.
    + intros Hx. apply elem_of_app. left. eauto.
  - intros t fut. map_cases t tid; [done|]. eauto.
  - intros f [Hf|Hf]%elem_of_app; rewrite length_app; simpl.
    + specialize (inv_wfresh0 f Hf). lia.
    + apply list_elem_of_singleton in Hf as ->. lia.
  - intros f Hf. rewrite length_app. simpl. specialize (inv_bfresh0 f Hf). lia.
  - intros t1 t2 f i1 i2. map_cases t1 tid; map_cases t2 tid; try done.
    + intros [= <- <-] Hx. apply Hold in Hx. lia.
    + intros Hx [= <- <-]. apply Hold in Hx. lia.
    + eauto.
  - intros t1 t2 f. map_cases t1 tid; map_cases t2 tid; try done. eauto.
  - intros f. rewrite get_create. eauto.
  - intros _ t fut i. rewrite get_create. map_cases t tid.
    + intros [= <- <-]. split; [|lia]. by rewrite get_beyond.
    + intros Hx. destruct (inv_filling0 Hst _ _ _ Hx). split; [done|lia].
  - intros t fut i. map_cases t tid; [|by eauto]. intros [= <- <-]. lia.
  - intros t1 t2 f1 f2 i. map_cases t1 tid; map_cases t2 tid; try done.
    + intros [= <- <-] Hx. apply Hold in Hx. lia.
    + intros Hx [= <- <-]. apply Hold in Hx. lia.
    + eauto.
  - intros t. map_cases t tid; [done|]. eauto.
Qed.

Lemma inv_enqueue_b b σ cs l tid :
  inv (Sys b σ cs) l → cs !! tid = None →
  inv (Sys (with_blocking (Event.mk (Event._waiters (_blocking b) ++ [length σ])
                                    (Event._value (_blocking b))) b)
           (σ ++ [Future.Pending]) (<[tid := InBlock (length σ)]> cs)) l.
Proof.
  intros [] Ht. unfold inside in *. barrier_cbn.
  split; unfold inside; barrier_cbn; try done.
  - intros t. rewrite inv_inside0. map_cases t tid; [|done].
    split; intros (? & ? & ?); congruence.
  - intros t fut i. map_cases t tid; [done|]. eauto.
  - intros t fut. map_cases t tid.
    + intros [= <-]. apply elem_of_app. right. by left.
    + intros Hx. apply elem_of_app. left. eauto.
  - intros f Hf. rewrite length_app. simpl. specialize (inv_wfresh0 f Hf). lia.
  - intros f [Hf|Hf]%elem_of_app; rewrite length_app; simpl.
    + specialize (inv_bfresh0 f Hf). lia.
    + apply list_elem_of_singleton in Hf as ->. lia.
  - intros t1 t2 f i1 i2. map_cases t1 tid; map_cases t2 tid; try done. eauto.
  - intros t1 t2 f. map_cases t1 tid; map_cases t2 tid; try done.
    + intros [= <-] Hx. specialize (inv_bfresh0 _ (inv_bq0 _ _ Hx)). lia.
    + intros Hx [= <-]. specialize (inv_bfresh0 _ (inv_bq0 _ _ Hx)). lia.
    + eauto.
  - intros f. rewrite get_create. eauto.
  - intros Hv t fut i. rewrite get_create. map_cases t tid; [done|]. eauto.
  - intros Hst t fut i. rewrite get_create. map_cases t tid; [done|]. eauto.
  - intros t fut i. map_cases t tid; [done|]. eauto.
  - intros t1 t2 f1 f2 i. map_cases t1 tid; map_cases t2 tid; try done. eauto.
  - intros t. map_cases t tid; [done|]. eauto.
Qed.

Lemma inv_dequeue_b b σ cs l tid fut bw :
  inv (Sys b σ cs) l → cs !! tid = Some (InBlock fut) →
  deque_remove fut (Event._waiters (_blocking b)) = Some bw →
  inv (Sys (with_blocking (Event.mk bw (Event._value (_blocking b))) b) σ
           (delete tid cs)) l.
Proof.
  intros [] Ht Hrm. unfold inside in *. barrier_cbn.
  split; unfold inside; barrier_cbn; try done.
  - intros t. rewrite inv_inside0. map_cases t tid; [|done].
    split; intros (? & ? & ?); congruence.
  - intros t f i. map_cases t tid; [done|]. eauto.
  - intros t f. map_cases t tid; [done|]. intros Hx.
    eapply deque_remove_other; [done|by eauto|]. intros ->. eauto.
  - intros f Hf. eapply inv_bfresh0, deque_remove_sub; done.
  - intros t1 t2 f i1 i2. map_cases t1 tid; map_cases t2 tid; try done. eauto.
  - intros t1 t2 f. map_cases t1 tid; map_cases t2 tid; try done. eauto.
  - intros Hv t f i. map_cases t tid; [done|]. eauto.
  - intros Hst t f i. map_cases t tid; [done|]. eauto.
  - intros t f i. map_cases t tid; [done|]. eauto.
  - intros t1 t2 f1 f2 i. map_cases t1 tid; map_cases t2 tid; try done. eauto.
  - intros t. map_cases t tid; [done|]. eauto.
Qed.

Lemma inv_dequeue_w b σ cs l tid fut i ww :
  inv (Sys b σ cs) l → cs !! tid = Some (InWait fut i) → _state b ≠ 0 →
  deque_remove fut (Event._waiters (_waiting b)) = Some ww →
  inv (Sys (with_count (_count b - 1)
              (with_waiting (Event.mk ww (Event._value (_waiting b))) b)) σ
           (delete tid cs))
      (filter (λ t, t ≠ tid) l).
Proof.
  intros [] Ht Hst Hrm. unfold inside in *. barrier_cbn.
  assert (Hin : tid ∈ l) by (apply inv_inside0; eauto).
  pose proof (length_filter_ne_in tid l inv_nodup0 Hin) as Hlen.
  split; unfold inside; barrier_cbn; try done.
  - lia.
  - by apply NoDup_filter.
  - intros t. rewrite list_elem_of_filter, inv_inside0. map_cases t tid; [|naive_solver].
    split; [by intros [? _]|]. intros (? & ? & ?). congruence.
  - lia.
  - intros t f j. map_cases t tid; [done|]. intros Hx.
    eapply deque_remove_other; [done|by eauto|]. intros ->. eauto.
  - intros t f. map_cases t tid; [done|]. eauto.
  - intros f Hf. eapply inv_wfresh0, deque_remove_sub; done.
  - intros t1 t2 f i1 i2. map_cases t1 tid; map_cases t2 tid; try done. eauto.
  - intros t1 t2 f. map_cases t1 tid; map_cases t2 tid; try done. eauto.
  - intros Hv t f j. map_cases t tid; [done|]. eauto.
  - intros t f j. map_cases t tid; [done|]. eauto.
  - intros t1 t2 f1 f2 j. map_cases t1 tid; map_cases t2 tid; try done. eauto.
  - intros t. map_cases t tid; [done|]. eauto.
Qed.

Lemma leave_wake b σ st :
  leave (wake_waiting (with_state st (with_count (_count b + 1) b)) σ).1
        (wake_waiting (with_state st (with_count (_count b + 1) b)) σ).2
  = _exit (wake_waiting (with_state st b) σ).1 (wake_waiting (with_state st b) σ).2.
Proof.
  unfold leave, wake_waiting. destruct b as [w bl act p s c]. barrier_cbn.
  destruct (Event.set w σ) as [w' σ']. barrier_cbn.
  by replace (c + 1 - 1) with c by lia.
Qed.

Lemma leave_arrived b σ :
  leave (with_waiting (_waiting b) (with_count (_count b + 1) b)) σ = _exit b σ.
Proof.
  unfold leave. destruct b as [w bl act p s c]. barrier_cbn.
  by replace (c + 1 - 1) with c by lia.
Qed.

Lemma inv_enter b σ cs l tid :
  inv (Sys b σ cs) l → cs !! tid = None →
  ∃ l', inv (Sys (enter b σ).1.2 (enter b σ).2 (<[tid := (enter b σ).1.1]> cs)) l'.
Proof.
  intros I Ht. unfold enter.
  destruct ((_state b =? -1) || (_state b =? 1)) eqn:Hblock.
  { assert (Hv : Event._value (_blocking b) = false).
    { apply (inv_bunset _ _ I). cbn. lia. }
    unfold Event.wait_enter, Future.create. rewrite Hv. cbn.
    exists l. rewrite <- Hv at 1. by apply inv_enqueue_b. }
  destruct (Z.ltb_spec (_state b) 0) as [Hneg|Hpos].
  { exists l. cbn. by apply inv_settle. }
  assert (Hst : _state b = 0).
  { pose proof (inv_state _ _ I) as H. cbn in H. lia. }
  unfold arrive. barrier_cbn.
  destruct (Z.eqb_spec (_count b + 1) (_parties b)) as [Hfull|Hroom].
  - assert (Hrel : ∃ st r, (st = 1 ∨ st = -1 ∨ st = -2)
                   ∧ _release (with_count (_count b + 1) b) σ
                     = (r, (wake_waiting (with_state st (with_count (_count b + 1) b)) σ).1,
                        (wake_waiting (with_state st (with_count (_count b + 1) b)) σ).2)).
    { unfold _release, abort. barrier_cbn. destruct (_action b) as [[[]|e]|].
      - exists 1, (Ok ()). split; [by left|]. by destruct (wake_waiting _ _).
      - exists (-2), (Raise e). split; [by right; right|]. by destruct (wake_waiting _ _).
      - exists 1, (Ok ()). split; [by left|]. by destruct (wake_waiting _ _). }
    destruct Hrel as (st & r & Hst' & ->).
    pose proof (leave_wake b σ st) as Hl.
    destruct (leave _ _) as [b2 σ2]. cbn [fst snd]. exists l.
    apply inv_settle; [|done].
    change b2 with (b2, σ2).1. change σ2 with (b2, σ2).2 at 2.
    rewrite Hl. by apply inv_exit, inv_wake.
  - unfold Event.wait_enter, Future.create.
    destruct (Event._value (_waiting b)) eqn:Hv.
    + rewrite leave_arrived. pose proof (inv_exit _ _ _ _ I) as I'.
      destruct (_exit b σ) as [b2 σ2]. cbn [fst snd] in *. exists l.
      by apply inv_settle.
    + cbn [fst snd]. exists (l ++ [tid]). by apply inv_enqueue_w.
Qed.

Lemma inv_reset_empty b σ cs l :
  inv (Sys b σ cs) l → _count b ≤ 0 → inv (Sys (with_state 0 b) σ cs) l.
Proof.
  intros [] Hc. unfold inside in *. barrier_cbn.
  assert (l = []) as ->.
  { destruct l; [done|]. simpl in inv_card0. lia. }
  assert (Hnone : ∀ t fut i, cs !! t ≠ Some (InWait fut i)).
  { intros t fut i Ht. apply (not_elem_of_nil t), inv_inside0. eauto. }
  split; unfold inside; barrier_cbn; try done;
    try (by intros; exfalso; eapply Hnone).
  - by left.
  - lia.
Qed.

Lemma await_result σ fut r :
  (Future.get σ fut = Future.Pending ∨ Future.get σ fut = Future.Result) →
  Future.await false (Future.get σ fut) = Some r →
  r = Ok () ∧ Future.get σ fut = Future.Result.
Proof. intros [-> | ->]; simpl; [done|]. by intros [= <-]. Qed.

Lemma barrier_inv_step ev s l : inv s l → ∃ l', inv (step ev s) l'.
Proof.
  intros I. destruct s as [b σ cs]. destruct ev as [tid|tid| |]; cbn [step barrier futs calls].
  - (* Wait *)
    assert (Hgo : cs !! tid = None ∨ (∃ r, cs !! tid = Some (Done r)) →
                  ∃ l', inv (let '(p, b', σ') := enter b σ in
                             Sys b' σ' (<[tid := p]> cs)) l').
    { intros Ht. pose proof (inv_forget _ _ _ _ tid I Ht) as I0.
      destruct (inv_enter _ _ _ _ tid I0 (lookup_delete_eq cs tid)) as [l' I'].
      rewrite insert_delete_eq in I'. exists l'.
      by destruct (enter b σ) as [[p b'] σ']. }
    destruct (cs !! tid) as [[fut|fut i| |r]|] eqn:Ht; try (by exists l).
    + apply Hgo. right. by exists r.
    + apply Hgo. by left.
  - (* Resume *)
    destruct (cs !! tid) as [[fut|fut i| |r]|] eqn:Ht; cbn [awaited]; try (by exists l).
    + destruct (Future.await false (Future.get σ fut)) as [r|] eqn:Ha; [|by exists l].
      destruct (await_result _ _ _ (inv_plain _ _ I fut) Ha) as [-> Hres].
      cbn [futs] in Hres.
      cbn [resume]. unfold Event.wait_resume.
      destruct (deque_remove_elem fut (Event._waiters (_blocking b))) as [bw Hrm].
      { by eapply (inv_bq _ _ I). }
      rewrite Hrm. pose proof (inv_dequeue_b _ _ _ _ _ _ _ I Ht Hrm) as I0.
      destruct (inv_enter _ _ _ _ tid I0 (lookup_delete_eq cs tid)) as [l' I'].
      rewrite insert_delete_eq in I'. exists l'.
      by destruct (enter _ σ) as [[p b'] σ'].
    + destruct (Future.await false (Future.get σ fut)) as [r|] eqn:Ha; [|by exists l].
      destruct (await_result _ _ _ (inv_plain _ _ I fut) Ha) as [-> Hres].
      cbn [futs] in Hres.
      assert (Hst : _state b ≠ 0).
      { intros Hst. destruct (inv_filling _ _ I Hst _ _ _ Ht) as [Hp _].
        cbn [futs] in Hp, Hres. congruence. }
      cbn [resume]. unfold Event.wait_resume.
      destruct (deque_remove_elem fut (Event._waiters (_waiting b))) as [ww Hrm].
      { by eapply (inv_wq _ _ I). }
      rewrite Hrm. pose proof (inv_dequeue_w _ _ _ _ _ _ _ _ I Ht Hst Hrm) as I0.
      apply inv_exit in I0. unfold leave. barrier_cbn.
      destruct (_exit _ σ) as [b' σ']. cbn [fst snd] in *. eexists.
      rewrite <- insert_delete_eq. apply inv_settle; [exact I0|apply lookup_delete_eq].
  - (* Reset *)
    unfold reset. destruct (Z.ltb_spec 0 (_count b)) as [Hc|Hc].
    + assert ((if (_state b =? 0) || (_state b =? 1) then with_state (-1) b
               else if _state b =? -2 then with_state (-1) b else b)
              = with_state (-1) b) as ->.
      { pose proof (inv_state _ _ I) as Hs. cbn in Hs.
        destruct (Z.eqb_spec (_state b) 0); [done|].
        destruct (Z.eqb_spec (_state b) 1); [done|]. cbn [orb].
        destruct (Z.eqb_spec (_state b) (-2)); [done|].
        destruct b as [w bl act p st c]. unfold with_state. cbn in *. f_equal. lia. }
      pose proof (inv_wake _ _ _ _ (-1) I) as I'.
      destruct (wake_waiting _ σ) as [b' σ']. exists l. apply I'. lia.
    + exists l. by apply inv_reset_empty.
  - (* Abort *)
    unfold abort. pose proof (inv_wake _ _ _ _ (-2) I) as I'.
    destruct (wake_waiting _ σ) as [b' σ']. exists l. apply I'. lia.
Qed.

Lemma barrier_inv_run evs s l : inv s l → ∃ l', inv (run evs s) l'.
Proof.
  revert s l. induction evs as [|ev evs IH]; intros s l I; [by exists l|].
  simpl. destruct (barrier_inv_step ev s l I) as [l1 I1]. by eapply IH.
Qed.

Lemma barrier_inv_sys0 p act b : init p act = Ok b → inv (sys0 b) [].
Proof.
  unfold init. destruct (Z.ltb_spec p 1); [done|]. intros [= <-].
  split; unfold inside; cbn [barrier futs calls sys0 _parties _count _state
                                   _waiting _blocking Event.init Event._waiters
                                   Event._value];
    try done; try lia; try (by intros f ?%elem_of_nil).
  - apply NoDup_nil_2.
  - intros t. split; [by intros ?%elem_of_nil|]. by intros (? & ? & ?).
  - intros f. left. by rewrite get_beyond by (simpl; lia).
Qed.

(** X12. The counter of the barrier is the number of tasks inside.
    From a barrier made by [Barrier(parties, action)], after any sequence
    of wait, resume, reset and abort events, [_count] is the number of
    tasks suspended in [_wait()], it stays below [parties], and
    [n_waiting] is this number while the barrier is filling and 0
    otherwise. *)
Theorem barrier_count_is_tasks_inside
  (p : Z) (act : option (result unit)) (b : t) (evs : list event) :
  init p act = Ok b →
  ∃ l, NoDup l
       ∧ (∀ tid, tid ∈ l ↔ inside (run evs (sys0 b)) tid)
       ∧ _count (barrier (run evs (sys0 b))) = Z.of_nat (length l)
       ∧ _count (barrier (run evs (sys0 b))) < parties (barrier (run evs (sys0 b)))
       ∧ n_waiting (barrier (run evs (sys0 b)))
         = if _state (barrier (run evs (sys0 b))) =? 0
           then Z.of_nat (length l) else 0.
Proof.
  intros Hinit.
  destruct (barrier_inv_run evs _ _ (barrier_inv_sys0 _ _ _ Hinit)) as [l I].
  exists l. destruct I. unfold n_waiting, parties. rewrite inv_card0.
  by split_and!.
Qed.

Lemma barrier_count_is_tasks_inside_witness :
  ∃ l, NoDup l
       ∧ (∀ tid, tid ∈ l ↔
                 inside (run [Wait 0; Wait 1]%nat
                           (sys0 (mk Event.init Event.init None 3 0 0))) tid)
       ∧ _count (barrier (run [Wait 0; Wait 1]%nat
                            (sys0 (mk Event.init Event.init None 3 0 0))))
         = Z.of_nat (length l)
       ∧ _count (barrier (run [Wait 0; Wait 1]%nat
                            (sys0 (mk Event.init Event.init None 3 0 0))))
         < parties (barrier (run [Wait 0; Wait 1]%nat
                               (sys0 (mk Event.init Event.init None 3 0 0))))
       ∧ n_waiting (barrier (run [Wait 0; Wait 1]%nat
                               (sys0 (mk Event.init Event.init None 3 0 0))))
         = if _state (barrier (run [Wait 0; Wait 1]%nat
                                 (sys0 (mk Event.init Event.init None 3 0 0)))) =? 0
           then Z.of_nat (length l) else 0.
Proof.
  apply (barrier_count_is_tasks_inside 3 None
           (mk Event.init Event.init None 3 0 0) [Wait 0; Wait 1]%nat).
  reflexivity.
Defined.

(** X13. Nobody leaves a filling barrier, and who leaves knows why.
    After any sequence of events, a task suspended in [_wait()] cannot
    run while the barrier is filling: its future is pending.  When its
    future is done and it runs, [wait()] returns the index the task got
    on arrival if the barrier is draining, and raises
    [BrokenBarrierError] if it was reset or aborted. *)
Theorem barrier_waiter_outcome
  (p : Z) (act : option (result unit)) (b : t) (evs : list event)
  (tid fut : nat) (i : Z) :
  init p act = Ok b →
  calls (run evs (sys0 b)) !! tid = Some (InWait fut i) →
  (_state (barrier (run evs (sys0 b))) = 0 →
   step (Resume tid) (run evs (sys0 b)) = run evs (sys0 b))
  ∧ (Future.get (futs (run evs (sys0 b))) fut = Future.Result →
     calls (step (Resume tid) (run evs (sys0 b))) !! tid
     = Some (Done (if _state (barrier (run evs (sys0 b))) =? 1 then Ok i
                   else Raise BrokenBarrierError))).
Proof.
  intros Hinit Ht.
  destruct (barrier_inv_run evs _ _ (barrier_inv_sys0 _ _ _ Hinit)) as [l I].
  destruct (run evs (sys0 b)) as [b' σ cs]. cbn [barrier futs calls] in *.
  split.
  - intros Hst. destruct (inv_filling _ _ I Hst _ _ _ Ht) as [Hp _].
    cbn [futs] in Hp. cbn [step calls futs]. rewrite Ht. cbn [awaited].
    by rewrite Hp.
  - intros Hres. cbn [step calls futs barrier]. rewrite Ht. cbn [awaited].
    rewrite Hres. cbn [Future.await resume]. unfold Event.wait_resume.
    destruct (deque_remove_elem fut (Event._waiters (_waiting b'))) as [ww Hrm].
    { by eapply (inv_wq _ _ I). }
    rewrite Hrm. barrier_cbn. destruct (leave _ σ) as [b2 σ2].
    cbn [calls]. rewrite lookup_insert_eq. do 2 f_equal.
    pose proof (inv_state _ _ I) as Hs. cbn [barrier] in Hs.
    assert (_state b' ≠ 0).
    { intros Hst. destruct (inv_filling _ _ I Hst _ _ _ Ht) as [Hp _].
      cbn [futs] in Hp. congruence. }
    destruct (Z.ltb_spec (_state b') 0), (Z.eqb_spec (_state b') 1); try done; lia.
Qed.

Lemma barrier_waiter_outcome_witness :
  (_state (barrier (run [Wait 0; Wait 1]%nat
                      (sys0 (mk Event.init Event.init None 2 0 0)))) = 0 →
   step (Resume 0%nat) (run [Wait 0; Wait 1]%nat
                          (sys0 (mk Event.init Event.init None 2 0 0)))
   = run [Wait 0; Wait 1]%nat (sys0 (mk Event.init Event.init None 2 0 0)))
  ∧ (Future.get (futs (run [Wait 0; Wait 1]%nat
                         (sys0 (mk Event.init Event.init None 2 0 0)))) 0%nat
     = Future.Result →
     calls (step (Resume 0%nat)
              (run [Wait 0; Wait 1]%nat (sys0 (mk Event.init Event.init None 2 0 0))))
     !! 0%nat
     = Some (Done (if _state (barrier (run [Wait 0; Wait 1]%nat
                                         (sys0 (mk Event.init Event.init None 2 0 0))))
                      =? 1
                   then Ok 0 else Raise BrokenBarrierError))).
Proof.
  apply (barrier_waiter_outcome 2 None (mk Event.init Event.init None 2 0 0)
           [Wait 0; Wait 1]%nat 0%nat 0%nat 0); reflexivity.
Defined.

Lemma exit_get b σ g :
  Forall (λ f, (f < length σ)%nat) (Event._waiters (_blocking b)) →
  Future.done (Future.get σ g) = true →
  Future.get (_exit b σ).2 g = Future.get σ g.
Proof.
  intros Hfresh Hd. unfold _exit. destruct (_count b =? 0); [|done].
  set (b1 := if _state b =? 1 then with_state 0 b
             else if _state b =? -1 then with_state 0 b else b).
  assert (Hb1 : _blocking b1 = _blocking b).
  { unfold b1. by destruct (_state b =? 1), (_state b =? -1). }
  clearbody b1. barrier_cbn. rewrite Hb1.
  pose proof (set_get (_blocking b) σ g Hfresh) as Hget.
  destruct (Event.set (_blocking b) σ) as [bl σ']. cbn [fst snd] in *.
  rewrite Hget. destruct (decide _) as [(_ & _ & H)|]; [congruence|done].
Qed.

(** X14. The arrival that fills the barrier releases everybody, the
    others queue up in order.  After any sequence of events, let a task
    that is not inside a call of [wait()], because it never called it or
    because its last call is over, call [wait()] while the barrier is
    filling and [_waiting] is not set.  If it is the [parties]-th to
    arrive, its call returns index [parties - 1] at once, or raises what
    the action raised, and the future of every task inside has a result.
    Otherwise it is suspended with the number of tasks inside as its
    index, the counter grows by one and the barrier goes on filling. *)
Theorem barrier_arrival
  (p : Z) (act : option (result unit)) (b : t) (evs : list event) (tid : nat) :
  init p act = Ok b →
  calls (run evs (sys0 b)) !! tid = None
  ∨ (∃ r, calls (run evs (sys0 b)) !! tid = Some (Done r)) →
  _state (barrier (run evs (sys0 b))) = 0 →
  Event._value (_waiting (barrier (run evs (sys0 b)))) = false →
  if decide (_count (barrier (run evs (sys0 b))) + 1
             = _parties (barrier (run evs (sys0 b))))
  then calls (step (Wait tid) (run evs (sys0 b))) !! tid
       = Some (Done match _action (barrier (run evs (sys0 b))) with
                    | Some (Raise e) => Raise e
                    | _ => Ok (_parties (barrier (run evs (sys0 b))) - 1)
                    end)
       ∧ ∀ t f i, calls (run evs (sys0 b)) !! t = Some (InWait f i) →
                  Future.get (futs (step (Wait tid) (run evs (sys0 b)))) f
                  = Future.Result
  else calls (step (Wait tid) (run evs (sys0 b))) !! tid
       = Some (InWait (length (futs (run evs (sys0 b))))
                      (_count (barrier (run evs (sys0 b)))))
       ∧ _count (barrier (step (Wait tid) (run evs (sys0 b))))
         = _count (barrier (run evs (sys0 b))) + 1
       ∧ _state (barrier (step (Wait tid) (run evs (sys0 b)))) = 0.
Proof.
  intros Hinit Ht Hst Hv.
  destruct (barrier_inv_run evs _ _ (barrier_inv_sys0 _ _ _ Hinit)) as [l I].
  destruct (run evs (sys0 b)) as [b' σ cs]. cbn [barrier futs calls] in *.
  assert (Hstep : step (Wait tid) (Sys b' σ cs)
                  = let '(p, b, σ) := enter b' σ in Sys b σ (<[tid := p]> cs)).
  { cbn [step calls futs barrier]. by destruct Ht as [->|[r ->]]. }
  rewrite Hstep. clear Hstep Ht. unfold enter, arrive.
  rewrite Hst. cbn [Z.eqb orb Z.ltb Z.compare]. barrier_cbn.
  destruct (decide (_count b' + 1 = _parties b')) as [Hfull|Hroom].
  - rewrite (proj2 (Z.eqb_eq _ _) Hfull).
    assert (Hfresh : Forall (λ f, (f < length σ)%nat)
                            (Event._waiters (_waiting b'))).
    { apply Forall_forall. intros f. apply (inv_wfresh _ _ I). }
    assert (Hrel : ∃ st,
               (st = 1 ∨ st = -1 ∨ st = -2)
               ∧ _release (with_count (_count b' + 1) b') σ
                 = (match _action b' with
                    | Some (Raise e) => Raise e
                    | _ => Ok ()
                    end,
                    (wake_waiting (with_state st (with_count (_count b' + 1) b')) σ).1,
                    (wake_waiting (with_state st (with_count (_count b' + 1) b')) σ).2)).
    { unfold _release, abort. barrier_cbn. destruct (_action b') as [[[]|e]|].
      - exists 1. split; [by left|]. by destruct (wake_waiting _ _).
      - exists (-2). split; [by right; right|]. by destruct (wake_waiting _ _).
      - exists 1. split; [by left|]. by destruct (wake_waiting _ _). }
    destruct Hrel as (st & Hst' & ->).
    pose proof (leave_wake b' σ st) as Hl.
    pose proof (inv_wake _ _ _ _ st I Hst') as I1.
    assert (Hwoken : ∀ f, f ∈ Event._waiters (_waiting b') →
                          Future.get (wake_waiting (with_state st b') σ).2 f
                          = Future.Result).
    { intros f Hf. unfold wake_waiting. barrier_cbn.
      pose proof (set_get (_waiting b') σ f Hfresh) as Hget.
      destruct (Event.set (_waiting b') σ) as [w σ']. cbn [fst snd] in *.
      rewrite Hget. destruct (decide _) as [|Hn]; [done|].
      destruct (inv_plain _ _ I f) as [Hp|Hr]; [|done]. cbn [futs] in Hp.
      destruct Hn. split_and!; [done|done|by rewrite Hp]. }
    destruct (leave _ _) as [b2 σ2]. cbn [calls futs]. rewrite lookup_insert_eq.
    split.
    + do 2 f_equal. destruct (_action b') as [[[]|e]|]; try done; f_equal; lia.
    + intros t f i Hx. change σ2 with (b2, σ2).2. rewrite Hl.
      rewrite exit_get.
      * apply Hwoken. by eapply (inv_wq _ _ I).
      * apply Forall_forall. intros g. apply (inv_bfresh _ _ I1).
      * rewrite Hwoken; [done|]. by eapply (inv_wq _ _ I).
  - rewrite (proj2 (Z.eqb_neq _ _) Hroom).
    unfold Event.wait_enter, Future.create. rewrite Hv.
    cbn [calls futs barrier]. rewrite lookup_insert_eq. by barrier_cbn.
Qed.

Lemma barrier_arrival_witness :
  (calls (step (Wait 1%nat) (run [Wait 0%nat] (sys0 (mk Event.init Event.init None 2 0 0))))
   !! 1%nat = Some (Done (Ok (2 - 1)))
   ∧ ∀ t f i, calls (run [Wait 0%nat] (sys0 (mk Event.init Event.init None 2 0 0))) !! t
              = Some (InWait f i) →
              Future.get (futs (step (Wait 1%nat)
                                  (run [Wait 0%nat]
                                     (sys0 (mk Event.init Event.init None 2 0 0))))) f
              = Future.Result)
  ∧ calls (step (Wait 0%nat)
             (run [Wait 0; Wait 1; Resume 0]%nat
                (sys0 (mk Event.init Event.init None 2 0 0))))
    !! 0%nat = Some (InWait 1 0).
Proof.
  split.
  - apply (barrier_arrival 2 None (mk Event.init Event.init None 2 0 0)
             [Wait 0%nat] 1%nat); try reflexivity. left. reflexivity.
  - apply (barrier_arrival 2 None (mk Event.init Event.init None 2 0 0)
             [Wait 0; Wait 1; Resume 0]%nat 0%nat); try reflexivity.
    right. exists (Ok 0). reflexivity.
Defined.

(** X16. [wait()] never spins.  After any sequence of events no call of
    [wait()] is caught in the loop of [_block()] without yielding: while
    the barrier is draining or resetting, [_blocking] is not set. *)
Theorem barrier_block_never_spins
  (p : Z) (act : option (result unit)) (b : t) (evs : list event) :
  init p act = Ok b →
  (∀ tid, calls (run evs (sys0 b)) !! tid ≠ Some Spinning)
  ∧ (_state (barrier (run evs (sys0 b))) = 1
     ∨ _state (barrier (run evs (sys0 b))) = -1 →
     Event.is_set (_blocking (barrier (run evs (sys0 b)))) = false).
Proof.
  intros Hinit.
  destruct (barrier_inv_run evs _ _ (barrier_inv_sys0 _ _ _ Hinit)) as [l I].
  split; [apply (inv_nospin _ _ I)|apply (inv_bunset _ _ I)].
Qed.

Lemma barrier_block_never_spins_witness :
  (∀ tid, calls (run [Wait 0; Wait 1; Wait 2]%nat
                   (sys0 (mk Event.init Event.init None 2 0 0))) !! tid
          ≠ Some Spinning)
  ∧ (_state (barrier (run [Wait 0; Wait 1; Wait 2]%nat
                        (sys0 (mk Event.init Event.init None 2 0 0)))) = 1
     ∨ _state (barrier (run [Wait 0; Wait 1; Wait 2]%nat
                          (sys0 (mk Event.init Event.init None 2 0 0)))) = -1 →
     Event.is_set (_blocking (barrier (run [Wait 0; Wait 1; Wait 2]%nat
                                         (sys0 (mk Event.init Event.init None 2 0 0)))))
     = false).
Proof.
  apply (barrier_block_never_spins 2 None (mk Event.init Event.init None 2 0 0)
           [Wait 0; Wait 1; Wait 2]%nat).
  reflexivity.
Defined.

Lemma enter_broken b σ :
  _state b < 0 → (_state b = -1 → Event._value (_blocking b) = false) →
  _state (enter b σ).1.2 = _state b
  ∧ ∀ g, Future.get (enter b σ).2 g = Future.get σ g.
Proof.
  intros Hneg Hv. unfold enter.
  destruct (Z.eqb_spec (_state b) (-1)) as [Hs|Hs]; cbn [orb].
  - unfold Event.wait_enter, Future.create. rewrite Hv by done. cbn.
    split; [done|]. intros g. apply get_create.
  - destruct (Z.eqb_spec (_state b) 1); [lia|].
    destruct (Z.ltb_spec (_state b) 0); [done|lia].
Qed.

Lemma resume_inside s l tid fut i :
  inv s l → calls s !! tid = Some (InWait fut i) →
  Future.get (futs s) fut = Future.Result →
  calls (step (Resume tid) s) !! tid
  = Some (Done (if _state (barrier s) <? 0 then Raise BrokenBarrierError else Ok i)).
Proof.
  intros I Ht Hres. destruct s as [b σ cs]. cbn [barrier futs calls] in *.
  cbn [step calls futs barrier]. rewrite Ht. cbn [awaited].
  rewrite Hres. cbn [Future.await resume]. unfold Event.wait_resume.
  destruct (deque_remove_elem fut (Event._waiters (_waiting b))) as [ww Hrm].
  { by eapply (inv_wq _ _ I). }
  rewrite Hrm. barrier_cbn. destruct (leave _ σ) as [b2 σ2].
  cbn [calls]. by rewrite lookup_insert_eq.
Qed.

(** A task inside a barrier that is reset or broken stays so until it
    runs. *)
Lemma broken_step ev s l tid fut i :
  inv s l → ev ≠ Resume tid →
  calls s !! tid = Some (InWait fut i) → _state (barrier s) < 0 →
  Future.get (futs s) fut = Future.Result →
  calls (step ev s) !! tid = Some (InWait fut i)
  ∧ _state (barrier (step ev s)) < 0
  ∧ Future.get (futs (step ev s)) fut = Future.Result.
Proof.
  intros I Hev Ht Hneg Hres. destruct s as [b σ cs]. cbn [barrier futs calls] in *.
  assert (Hin : tid ∈ l) by (apply (inv_inside _ _ I); by exists fut, i).
  assert (Hbl : _state b = -1 → Event._value (_blocking b) = false).
  { intros Hs. apply (inv_bunset _ _ I). by right. }
  assert (Hfresh : Forall (λ f, (f < length σ)%nat) (Event._waiters (_waiting b))).
  { apply Forall_forall. intros f. apply (inv_wfresh _ _ I). }
  assert (Hwake : ∀ st, st < 0 →
            _state (wake_waiting (with_state st b) σ).1 < 0
            ∧ Future.get (wake_waiting (with_state st b) σ).2 fut = Future.Result).
  { intros st Hst. unfold wake_waiting. barrier_cbn.
    pose proof (set_get (_waiting b) σ fut Hfresh) as Hget.
    destruct (Event.set (_waiting b) σ) as [w σ']. barrier_cbn.
    split; [done|]. rewrite Hget. by destruct (decide _). }
  destruct ev as [t|t| |]; cbn [step barrier futs calls].
  - (* Wait *)
    destruct (decide (t = tid)) as [->|N]; [by rewrite Ht|].
    assert (Hgo : calls (let '(p, b', σ') := enter b σ in
                         Sys b' σ' (<[t := p]> cs)) !! tid = Some (InWait fut i)
                  ∧ _state (barrier (let '(p, b', σ') := enter b σ in
                                     Sys b' σ' (<[t := p]> cs))) < 0
                  ∧ Future.get (futs (let '(p, b', σ') := enter b σ in
                                      Sys b' σ' (<[t := p]> cs))) fut
                    = Future.Result).
    { destruct (enter_broken b σ Hneg Hbl) as [Hs Hg].
      destruct (enter b σ) as [[p b'] σ']. cbn [fst snd barrier futs calls] in *.
      rewrite lookup_insert_ne by done. rewrite Hs, Hg. done. }
    by destruct (cs !! t) as [[| | |]|].
  - (* Resume *)
    destruct (decide (t = tid)) as [->|N]; [done|].
    destruct (cs !! t) as [[f|f j| |r]|] eqn:Hc; cbn [awaited]; try done.
    + destruct (Future.await false (Future.get σ f)) as [r|] eqn:Ha; [|done].
      destruct (await_result _ _ _ (inv_plain _ _ I f) Ha) as [-> Hr].
      cbn [resume]. unfold Event.wait_resume.
      destruct (deque_remove f (Event._waiters (_blocking b))) as [bw|];
        cbn [calls barrier futs]; try (by rewrite lookup_insert_ne by done).
      destruct (enter_broken (with_blocking
                                     {| Event._waiters := bw;
                                        Event._value := Event._value (_blocking b) |} b)
                       σ Hneg Hbl) as [Hs Hg].
      destruct (enter _ σ) as [[p b'] σ']. cbn [fst snd barrier futs calls] in *.
      rewrite lookup_insert_ne by done. by rewrite Hs, Hg.
    + destruct (Future.await false (Future.get σ f)) as [r|] eqn:Ha; [|done].
      cbn [resume]. unfold Event.wait_resume, leave, _exit.
      assert (Hin' : t ∈ l) by (apply (inv_inside _ _ I); by exists f, j).
      assert (Hcount : 2 ≤ _count b).
      { pose proof (inv_card _ _ I) as Hcard. pose proof (inv_nodup _ _ I) as Hnd.
        cbn [barrier] in Hcard. rewrite <- Hcard.
        destruct l as [|x [|y l']]; [by apply elem_of_nil in Hin| |simpl; lia].
        apply list_elem_of_singleton in Hin, Hin'. congruence. }
      destruct (deque_remove f (Event._waiters (_waiting b))) as [ww|]; barrier_cbn.
      * destruct (Z.eqb_spec (_count b - 1) 0); [lia|].
        cbn [calls barrier futs]. rewrite lookup_insert_ne by done. by barrier_cbn.
      * destruct (Z.eqb_spec (_count b - 1) 0); [lia|].
        cbn [calls barrier futs]. rewrite lookup_insert_ne by done. by barrier_cbn.
  - (* Reset *)
    unfold reset.
    assert (Hcount : 0 < _count b).
    { pose proof (inv_card _ _ I) as Hcard. cbn [barrier] in Hcard.
      rewrite <- Hcard. destruct l; [by apply elem_of_nil in Hin|simpl; lia]. }
    rewrite (proj2 (Z.ltb_lt _ _) Hcount).
    assert ((if (_state b =? 0) || (_state b =? 1) then with_state (-1) b
             else if _state b =? -2 then with_state (-1) b else b)
            = with_state (-1) b) as ->.
    { pose proof (inv_state _ _ I) as Hs. cbn in Hs.
      destruct (Z.eqb_spec (_state b) 0); [done|].
      destruct (Z.eqb_spec (_state b) 1); [done|]. cbn [orb].
      destruct (Z.eqb_spec (_state b) (-2)); [done|].
      destruct b as [w bl act p st c]. unfold with_state. cbn in *. f_equal. lia. }
    destruct (Hwake (-1)) as [Hs Hg]; [lia|].
    destruct (wake_waiting _ σ) as [b' σ']. by cbn [fst snd calls barrier futs] in *.
  - (* Abort *)
    unfold abort. destruct (Hwake (-2)) as [Hs Hg]; [lia|].
    destruct (wake_waiting _ σ) as [b' σ']. by cbn [fst snd calls barrier futs] in *.
Qed.

Lemma broken_run evs s l tid fut i :
  inv s l → Resume tid ∉ evs →
  calls s !! tid = Some (InWait fut i) → _state (barrier s) < 0 →
  Future.get (futs s) fut = Future.Result →
  ∃ l', inv (run evs s) l'
        ∧ calls (run evs s) !! tid = Some (InWait fut i)
        ∧ _state (barrier (run evs s)) < 0
        ∧ Future.get (futs (run evs s)) fut = Future.Result.
Proof.
  revert s l. induction evs as [|ev evs IH]; intros s l I Hno Ht Hneg Hres.
  { exists l. by split_and!. }
  apply not_elem_of_cons in Hno as [Hne Hno]. cbn [run foldl].
  destruct (broken_step ev s l tid fut i I) as (Ht' & Hneg' & Hres'); try done.
  destruct (barrier_inv_step ev s l I) as [l1 I1]. by eapply IH.
Qed.

(** X15. [abort()] and [reset()] turn away the tasks inside.  After any
    sequence of events, let [abort()] or [reset()] be called while a task
    is suspended in [_wait()].  Whatever happens next, more arrivals,
    resets or aborts, other tasks leaving, this task stays suspended
    until it runs, it can run, and its [wait()] then raises
    [BrokenBarrierError]. *)
Theorem barrier_abort_reset_break_waiters
  (p : Z) (act : option (result unit)) (b : t) (evs evs' : list event)
  (ev : event) (tid fut : nat) (i : Z) :
  init p act = Ok b →
  calls (run evs (sys0 b)) !! tid = Some (InWait fut i) →
  ev = Abort ∨ ev = Reset →
  Resume tid ∉ evs' →
  calls (run evs' (step ev (run evs (sys0 b)))) !! tid = Some (InWait fut i)
  ∧ Future.get (futs (run evs' (step ev (run evs (sys0 b))))) fut = Future.Result
  ∧ calls (step (Resume tid) (run evs' (step ev (run evs (sys0 b))))) !! tid
    = Some (Done (Raise BrokenBarrierError)).
Proof.
  intros Hinit Ht Hev Hno.
  destruct (barrier_inv_run evs _ _ (barrier_inv_sys0 _ _ _ Hinit)) as [l I].
  destruct (barrier_inv_step ev _ _ I) as [l1 I1].
  assert (H1 : calls (step ev (run evs (sys0 b))) !! tid = Some (InWait fut i)
               ∧ _state (barrier (step ev (run evs (sys0 b)))) < 0
               ∧ Future.get (futs (step ev (run evs (sys0 b)))) fut = Future.Result).
  { clear I1. destruct (run evs (sys0 b)) as [b' σ cs]. cbn [calls] in Ht.
    assert (Hin : tid ∈ l) by (apply (inv_inside _ _ I); by exists fut, i).
    assert (Hfresh : Forall (λ f, (f < length σ)%nat)
                            (Event._waiters (_waiting b'))).
    { apply Forall_forall. intros f. apply (inv_wfresh _ _ I). }
    assert (Hwake : ∀ st, st < 0 →
              _state (wake_waiting (with_state st b') σ).1 < 0
              ∧ Future.get (wake_waiting (with_state st b') σ).2 fut
                = Future.Result).
    { intros st Hst. unfold wake_waiting. barrier_cbn.
      pose proof (set_get (_waiting b') σ fut Hfresh) as Hget.
      destruct (Event.set (_waiting b') σ) as [w σ']. barrier_cbn.
      split; [done|]. rewrite Hget. destruct (decide _) as [|Hn]; [done|].
      destruct (inv_plain _ _ I fut) as [Hp|Hr]; [|done]. cbn [futs] in Hp.
      destruct (Event._value (_waiting b')) eqn:Hv.
      - by eapply (inv_wset _ _ I).
      - destruct Hn. split_and!; [done|by eapply (inv_wq _ _ I)|by rewrite Hp]. }
    destruct Hev as [-> | ->]; cbn [step barrier futs calls].
    - unfold abort. destruct (Hwake (-2)) as [Hs Hg]; [lia|].
      destruct (wake_waiting _ σ) as [b2 σ2]. by cbn [fst snd calls barrier futs] in *.
    - unfold reset.
      assert (Hcount : 0 < _count b').
      { pose proof (inv_card _ _ I) as Hcard. cbn [barrier] in Hcard.
        rewrite <- Hcard. destruct l; [by apply elem_of_nil in Hin|simpl; lia]. }
      rewrite (proj2 (Z.ltb_lt _ _) Hcount).
      assert ((if (_state b' =? 0) || (_state b' =? 1) then with_state (-1) b'
               else if _state b' =? -2 then with_state (-1) b' else b')
              = with_state (-1) b') as ->.
      { pose proof (inv_state _ _ I) as Hs. cbn in Hs.
        destruct (Z.eqb_spec (_state b') 0); [done|].
        destruct (Z.eqb_spec (_state b') 1); [done|]. cbn [orb].
        destruct (Z.eqb_spec (_state b') (-2)); [done|].
        destruct b' as [w bl a p' st c]. unfold with_state. cbn in *. f_equal. lia. }
      destruct (Hwake (-1)) as [Hs Hg]; [lia|].
      destruct (wake_waiting _ σ) as [b2 σ2]. by cbn [fst snd calls barrier futs] in *. }
  destruct H1 as (Ht1 & Hneg1 & Hres1).
  destruct (broken_run evs' _ _ _ _ _ I1 Hno Ht1 Hneg1 Hres1)
    as (l2 & I2 & Ht2 & Hneg2 & Hres2).
  split_and!; [done|done|].
  rewrite (resume_inside _ _ _ _ _ I2 Ht2 Hres2).
  by rewrite (proj2 (Z.ltb_lt _ _) Hneg2).
Qed.

Lemma barrier_abort_reset_break_waiters_witness :
  calls (run [Wait 1; Reset]%nat
           (step Abort (run [Wait 0%nat] (sys0 (mk Event.init Event.init None 3 0 0)))))
  !! 0%nat = Some (InWait 0%nat 0)
  ∧ Future.get (futs (run [Wait 1; Reset]%nat
                        (step Abort (run [Wait 0%nat]
                                       (sys0 (mk Event.init Event.init None 3 0 0))))))
               0%nat = Future.Result
  ∧ calls (step (Resume 0%nat)
             (run [Wait 1; Reset]%nat
                (step Abort (run [Wait 0%nat]
                               (sys0 (mk Event.init Event.init None 3 0 0))))))
    !! 0%nat = Some (Done (Raise BrokenBarrierError)).
Proof.
  apply (barrier_abort_reset_break_waiters 3 None
           (mk Event.init Event.init None 3 0 0) [Wait 0%nat] [Wait 1; Reset]%nat
           Abort 0%nat 0%nat 0).
  - reflexivity.
  - reflexivity.
  - by left.
  - by apply (bool_decide_unpack _).
Defined.

End barrier_service.

(** ** Stream: [readuntil] over data that arrives in pieces *)

Section separator_in_pieces.
Implicit Types (sep buf pre tail rest : bytes) (j p : nat).

Lemma startswith_mono sep buf rest :
  startswith sep buf = true → startswith sep (buf ++ rest) = true.
Proof.
  revert buf. induction sep as [|s sep IH]; intros [|c buf]; simpl; try done.
  intros [-> Hs]%andb_true_iff. simpl. by apply IH.
Qed.

Lemma startswith_short sep buf :
  (length buf < length sep)%nat → startswith sep buf = false.
Proof.
  revert buf. induction sep as [|s sep IH]; intros [|c buf]; simpl; try lia; try done.
  intros H. rewrite IH by lia. apply andb_false_r.
Qed.

Lemma find_first_at sep buf p :
  startswith sep (drop p buf) = true →
  (∀ j, (j < p)%nat → startswith sep (drop j buf) = false) →
  find_first sep buf = Some p.
Proof.
  intros Hp Hlt. destruct (find_first sep buf) as [i|] eqn:E.
  - destruct (find_first_Some _ _ _ E) as [Hi Hbefore]. f_equal.
    destruct (lt_eq_lt_dec i p) as [[H|H]|H]; [|done|].
    + rewrite Hlt in Hi by done. done.
    + rewrite Hbefore in Hp by done. done.
  - by rewrite (find_first_None _ _ p E) in Hp.
Qed.

Lemma find_first_absent sep buf :
  (∀ j, startswith sep (drop j buf) = false) → find_first sep buf = None.
Proof.
  intros Hno. destruct (find_first sep buf) as [i|] eqn:E; [|done].
  destruct (find_first_Some _ _ _ E) as [Hi _]. by rewrite Hno in Hi.
Qed.

Lemma bytes_find_at sep buf (o : Z) p :
  0 ≤ o ≤ Z.of_nat p →
  startswith sep (drop p buf) = true →
  (∀ j, (j < p)%nat → startswith sep (drop j buf) = false) →
  bytes_find sep buf o = Z.of_nat p.
Proof.
  intros Ho Hp Hlt. unfold bytes_find.
  rewrite (find_first_at sep (drop (Z.to_nat o) buf) (p - Z.to_nat o)).
  - lia.
  - rewrite drop_drop. by replace (Z.to_nat o + (p - Z.to_nat o))%nat with p by lia.
  - intros j Hj. rewrite drop_drop. apply Hlt. lia.
Qed.

Lemma bytes_find_absent sep buf (o : Z) :
  (∀ j, startswith sep (drop j buf) = false) → bytes_find sep buf o = -1.
Proof.
  intros Hno. unfold bytes_find. rewrite find_first_absent; [done|].
  intros j. rewrite drop_drop. apply Hno.
Qed.

(** [buf] is the part received so far of data whose first separator
    stands after [pre]. *)
Lemma prefix_no_earlier sep pre tail buf rest j :
  (∀ j, (j < length pre)%nat → startswith sep (drop j (pre ++ sep ++ tail)) = false) →
  buf ++ rest = pre ++ sep ++ tail →
  (j < length pre)%nat → startswith sep (drop j buf) = false.
Proof.
  intros Hfirst Heq Hj. destruct (startswith sep (drop j buf)) eqn:E; [|done].
  rewrite <- (Hfirst j Hj), <- Heq, drop_app. symmetry. by apply startswith_mono.
Qed.

Lemma prefix_incomplete sep pre tail buf rest j :
  (∀ j, (j < length pre)%nat → startswith sep (drop j (pre ++ sep ++ tail)) = false) →
  buf ++ rest = pre ++ sep ++ tail →
  (0 < length sep)%nat →
  (length buf < length pre + length sep)%nat →
  startswith sep (drop j buf) = false.
Proof.
  intros Hfirst Heq Hsep Hshort. destruct (decide (j < length pre)%nat).
  - by eapply prefix_no_earlier.
  - apply startswith_short. rewrite length_drop. lia.
Qed.

Lemma prefix_complete sep pre tail buf rest :
  buf ++ rest = pre ++ sep ++ tail →
  (length pre + length sep ≤ length buf)%nat →
  take (length pre + length sep) buf = pre ++ sep
  ∧ startswith sep (drop (length pre) buf) = true.
Proof.
  intros Heq Hlong.
  assert (Htake : take (length pre + length sep) buf = pre ++ sep).
  { rewrite <- (take_app_le buf rest) by done. rewrite Heq, app_assoc.
    apply take_app_length'. by rewrite length_app. }
  split; [done|].
  rewrite <- (take_drop (length pre + length sep) buf), Htake, <- app_assoc.
  rewrite drop_app_length. apply startswith_app.
Qed.

End separator_in_pieces.

Section readuntil_in_pieces.
Import Stream.
Implicit Types (w : world) (sep pre tail rest : bytes) (o : Z).

Lemma wakeup_waiter_limit w :
  _limit (stream (_wakeup_waiter w)) = _limit (stream w).
Proof.
  unfold _wakeup_waiter. destruct (_waiter (stream w)); [|done]. simpl.
  by destruct (Future.cancelled _).
Qed.

Lemma feed_data_limit d w :
  _limit (stream (feed_data d w).2) = _limit (stream w).
Proof.
  unfold feed_data. destruct (_check_read _); [|done].
  destruct (_eof (stream w)); [done|]. destruct d as [|c d]; [done|].
  set (w1 := on_stream _ w).
  pose proof (wakeup_waiter_limit w1) as Hl. change (_limit (stream w1)) with
    (_limit (stream w)) in Hl.
  destruct (_transport (stream (_wakeup_waiter w1))); [|done].
  destruct (negb _ && _); [|done].
  by destruct (pause_reading_supported _).
Qed.

Lemma apply_feed_limit f w : _limit (stream (apply_feed f w)) = _limit (stream w).
Proof.
  destruct f as [d| |e|]; simpl.
  - apply feed_data_limit.
  - unfold feed_eof. destruct (_check_read _); [|done]. simpl.
    by rewrite wakeup_waiter_limit.
  - unfold set_exception. simpl. destruct (_waiter (stream w)); [|done]. simpl.
    by destruct (Future.cancelled _).
  - by destruct (_waiter (stream w)).
Qed.

Lemma apply_feeds_limit fs w : _limit (stream (apply_feeds fs w)) = _limit (stream w).
Proof.
  revert w. induction fs as [|f fs IH]; intros w; [done|].
  unfold apply_feeds in *. simpl. by rewrite IH, apply_feed_limit.
Qed.

Lemma wait_for_data_limit name w :
  _limit (stream (_wait_for_data name w).2) = _limit (stream w).
Proof.
  unfold _wait_for_data. destruct (_waiter (stream w)); [done|].
  destruct (_eof (stream w)); [done|].
  destruct (_paused (stream w)); [|done].
  unfold transport_resume_reading. simpl. by destruct (_transport (stream w)).
Qed.

Section first_separator.
Variables (sep pre tail : bytes).
Hypothesis Hsep : (0 < length sep)%nat.
Hypothesis Hfirst :
  ∀ j, (j < length pre)%nat → startswith sep (drop j (pre ++ sep ++ tail)) = false.

Lemma readuntil_iter_complete rest o w :
  _buffer (stream w) ++ rest = pre ++ sep ++ tail →
  wf (stream w) → 0 ≤ o ≤ len pre → len pre ≤ _limit (stream w) →
  (length pre + length sep ≤ length (_buffer (stream w)))%nat →
  ∃ w', readuntil_iter sep o w = Finish (Ok (pre ++ sep)) w'
        ∧ _buffer (stream w')
          = drop (length pre + length sep) (_buffer (stream w)).
Proof.
  intros Heq Hwf Ho Hlim Hlong.
  destruct (prefix_complete _ _ _ _ _ Heq Hlong) as [Htake Hat].
  unfold readuntil_iter, readuntil_scan, len in *.
  replace (_ <=? _) with true by (symmetry; apply Z.leb_le; lia).
  rewrite (bytes_find_at sep _ o (length pre)); [|lia|done|].
  2:{ intros j Hj. by eapply prefix_no_earlier. }
  replace (negb (Z.of_nat (length pre) =? -1)) with true
    by (symmetry; apply negb_true_iff, Z.eqb_neq; lia).
  destruct (readuntil_found_ok sep (Z.of_nat (length pre)) w Hwf Hlim)
    as (w' & -> & Hb & _). exists w'. unfold len in *.
  replace (Z.to_nat (Z.of_nat (length pre) + Z.of_nat (length sep)))
    with (length pre + length sep)%nat in * by lia.
  by rewrite Htake.
Qed.

Lemma readuntil_iter_incomplete rest o w :
  _buffer (stream w) ++ rest = pre ++ sep ++ tail →
  readable w → 0 ≤ o ≤ len pre → len pre ≤ _limit (stream w) →
  (length (_buffer (stream w)) < length pre + length sep)%nat →
  ∃ o' fut w', readuntil_iter sep o w = Suspend o' fut w'
               ∧ suspended w' fut
               ∧ _buffer (stream w') = _buffer (stream w)
               ∧ _limit (stream w') = _limit (stream w)
               ∧ 0 ≤ o' ≤ len pre.
Proof.
  intros Heq Hr Ho Hlim Hshort. pose proof Hr as (_ & He & _ & _).
  assert (Hwait : ∀ o', 0 ≤ o' ≤ len pre →
            ∃ o'' fut w', readuntil_wait o' w = Suspend o'' fut w'
                          ∧ suspended w' fut
                          ∧ _buffer (stream w') = _buffer (stream w)
                          ∧ _limit (stream w') = _limit (stream w)
                          ∧ 0 ≤ o'' ≤ len pre).
  { intros o' Ho'. unfold readuntil_wait. rewrite He.
    pose proof (wait_for_data_limit "readuntil" w) as Hl.
    destruct (wait_for_data_suspends "readuntil" w Hr) as (w1 & fut & Hw & Hs & Hb).
    rewrite Hw in *. by exists o', fut, w1. }
  unfold readuntil_iter, readuntil_scan, len in *.
  destruct (Z.leb_spec (Z.of_nat (length sep))
              (Z.of_nat (length (_buffer (stream w))) - o)); [|by apply Hwait].
  rewrite bytes_find_absent.
  2:{ intros j. by eapply prefix_incomplete. }
  cbn [Z.eqb negb].
  replace (_ <? _) with false by (symmetry; apply Z.ltb_ge; lia).
  apply Hwait. lia.
Qed.

Lemma readuntil_wait_pieces dss env o w fut :
  (_buffer (stream w) ++ concat (concat dss)) = pre ++ sep ++ tail →
  suspended w fut → 0 ≤ o ≤ len pre → len pre ≤ _limit (stream w) →
  (length (_buffer (stream w)) < length pre + length sep)%nat →
  ∃ w', wait (readuntil_iter sep) (batches dss ++ env) o fut w
        = Finished (Ok (pre ++ sep)) w'.
Proof.
  revert w fut o. induction dss as [|ds dss IH]; intros w fut o Heq Hs Ho Hlim Hshort.
  - simpl in Heq. rewrite app_nil_r in Heq. rewrite Heq, !length_app in Hshort. lia.
  - simpl in Heq. rewrite concat_app, app_assoc in Heq. cbn [batches map app wait].
    destruct (feed_batch_suspended ds w fut Hs) as (Hb & [[Hnil Hsame]|Hwoken]).
    + rewrite Hsame. pose proof Hs as (? & ? & ? & ? & ? & Hp). rewrite Hp.
      rewrite must_cancel_data. simpl.
      rewrite Hnil, app_nil_r in Heq. by apply IH.
    + destruct Hwoken as (Hm1 & He1 & Hwf1 & Hw1 & Hres). rewrite Hres.
      rewrite must_cancel_data. simpl.
      pose proof (apply_feeds_limit (map FeedData ds) w) as Hl1.
      set (w1 := apply_feeds (map FeedData ds) w) in *.
      assert (Hr2 : readable (on_stream (with_waiter None) w1)) by by split_and!.
      rewrite <- Hb in Heq.
      destruct (decide (length pre + length sep ≤ length (_buffer (stream w1)))%nat)
        as [Hlong|Hshort1].
      * destruct (readuntil_iter_complete (concat (concat dss)) o
                    (on_stream (with_waiter None) w1)) as (w' & -> & _); try done.
        { cbn. by rewrite Hl1. }
        by exists w'.
      * destruct (readuntil_iter_incomplete (concat (concat dss)) o
                    (on_stream (with_waiter None) w1))
          as (o' & fut' & w' & -> & Hs' & Hb' & Hl' & Ho'); try done.
        { cbn. by rewrite Hl1. }
        { cbn. lia. }
        cbn in Hb', Hl'. apply IH; try done.
        -- by rewrite Hb'.
        -- by rewrite Hl', Hl1.
        -- rewrite Hb'. lia.
Qed.

End first_separator.

(** X17. [readuntil] finds a separator however the data is cut into
    pieces.  On a readable stream without stored exception, let the
    buffer followed by the data of the coming [feed_data] calls be
    [pre ++ separator ++ tail], with no occurrence of the separator
    starting inside [pre], and [len(pre) <= limit].  Then [readuntil]
    returns [pre ++ separator]: the offset it keeps between two scans
    never skips an occurrence, also when the separator itself is split
    between two feeds. *)
Theorem readuntil_finds_separator_across_feeds
  (sep pre tail : bytes) (dss : list (list bytes)) (env : list (list feed))
  (w : world) :
  readable w → _exception (stream w) = None →
  (0 < length sep)%nat →
  (∀ j, (j < length pre)%nat → startswith sep (drop j (pre ++ sep ++ tail)) = false) →
  len pre ≤ _limit (stream w) →
  _buffer (stream w) ++ concat (concat dss) = pre ++ sep ++ tail →
  ∃ w', readuntil sep (batches dss ++ env) w = Finished (Ok (pre ++ sep)) w'.
Proof.
  intros Hr Hexc Hsep Hfirst Hlim Heq. pose proof Hr as (Hm & He & Hw & Hwf).
  unfold readuntil, _check_read. rewrite Hm, Hexc.
  replace (len sep =? 0) with false by (symmetry; apply Z.eqb_neq; unfold len; lia).
  unfold drive.
  destruct (decide (length pre + length sep ≤ length (_buffer (stream w)))%nat)
    as [Hlong|Hshort].
  - destruct (readuntil_iter_complete sep pre tail Hsep Hfirst
                (concat (concat dss)) 0 w) as (w' & -> & _); try done.
    { unfold len. lia. }
    by exists w'.
  - destruct (readuntil_iter_incomplete sep pre tail Hsep Hfirst
                (concat (concat dss)) 0 w)
      as (o' & fut' & w' & -> & Hs' & Hb' & Hl' & Ho'); try done.
    { unfold len. lia. }
    { lia. }
    apply (readuntil_wait_pieces sep pre tail Hsep Hfirst); try done.
    + by rewrite Hb'.
    + by rewrite Hl'.
    + rewrite Hb'. lia.
Qed.

Lemma readuntil_finds_separator_across_feeds_witness :
  ∃ w', readuntil ["013"; "010"]%byte
          (batches [[["010"; "b"]]]%byte ++ [])
          (buffered READ 8 ["a"; "013"]%byte false)
        = Finished (Ok (["a"] ++ ["013"; "010"])%byte) w'.
Proof.
  apply (readuntil_finds_separator_across_feeds
           ["013"; "010"]%byte ["a"]%byte ["b"]%byte [[["010"; "b"]]]%byte []
           (buffered READ 8 ["a"; "013"]%byte false)).
  - split_and!; try reflexivity. intros H; discriminate H.
  - reflexivity.
  - simpl. lia.
  - intros [|j] Hj; [reflexivity|simpl in Hj; lia].
  - vm_compute. discriminate.
  - reflexivity.
Defined.

End readuntil_in_pieces.

(** ** Stream: [readline] *)

Section readline.
Import Stream.
Implicit Types (w : world) (pre tail : bytes).

Lemma newline_first (c : byte) pre tail j :
  c ∉ pre → (j < length pre)%nat →
  startswith [c] (drop j (pre ++ [c] ++ tail)) = false.
Proof.
  revert j. induction pre as [|p pre IH]; intros j Hc Hj; [simpl in Hj; lia|].
  apply not_elem_of_cons in Hc as [Hne Hc]. destruct j as [|j]; simpl.
  - destruct (Byte.eqb c p) eqn:E; [|done]. by apply Byte.byte_dec_bl in E.
  - apply IH; [done|]. simpl in Hj. lia.
Qed.

Lemma newline_absent (c : byte) pre j : c ∉ pre → startswith [c] (drop j pre) = false.
Proof.
  revert j. induction pre as [|p pre IH]; intros j Hc; [by destruct j|].
  apply not_elem_of_cons in Hc as [Hne Hc]. destruct j as [|j]; simpl.
  - destruct (Byte.eqb c p) eqn:E; [|done]. by apply Byte.byte_dec_bl in E.
  - by apply IH.
Qed.

(** X18. What [readline] does with the buffer.  On a readable stream
    without stored exception and with a positive limit, let [pre] hold no
    newline.  If the buffer is [pre], a newline and [tail], then
    [readline] returns [pre] with its newline and leaves [tail] when
    [len(pre) <= limit]; when [pre] is longer it raises [ValueError] and
    has dropped the whole line, leaving [tail].  If the buffer is [pre]
    alone, [readline] raises [ValueError] and clears the buffer when
    [pre] is longer than the limit, and at EOF it returns [pre], the
    line without newline, when [pre] is within the limit. *)
Theorem readline_outcomes (pre tail : bytes) (env : list (list feed)) (w : world) :
  is_read (_mode (stream w)) = true → _exception (stream w) = None →
  wf (stream w) → 0 < _limit (stream w) → "010"%byte ∉ pre →
  (_buffer (stream w) = pre ++ ["010"%byte] ++ tail →
   if len pre <=? _limit (stream w)
   then ∃ w', readline env w = Finished (Ok (pre ++ ["010"%byte])) w'
              ∧ _buffer (stream w') = tail
   else ∃ w', readline env w
              = Finished (Raise (ValueError
                                   "Separator is found, but chunk is longer than limit")) w'
              ∧ _buffer (stream w') = tail)
  ∧ (_buffer (stream w) = pre →
     if len pre <=? _limit (stream w)
     then _eof (stream w) = true →
          ∃ w', readline env w = Finished (Ok pre) w' ∧ _buffer (stream w') = []
     else ∃ w', readline env w
                = Finished (Raise (ValueError
                                     "Separator is not found, and chunk exceed the limit")) w'
                ∧ _buffer (stream w') = []).
Proof.
  intros Hm Hexc Hwf Hlim Hnl. unfold readline, readuntil, _check_read, drive.
  rewrite Hm, Hexc. change (len ["010"%byte] =? 0) with false. cbv iota.
  split; intros Hb.
  - destruct (Z.leb_spec (len pre) (_limit (stream w))) as [Hle|Hgt].
    + destruct (readuntil_iter_complete ["010"%byte] pre tail ltac:(simpl; lia)
                  (λ j, newline_first _ pre tail j Hnl) [] 0 w)
        as (w' & -> & Hb'); try done.
      * by rewrite app_nil_r.
      * unfold len. lia.
      * rewrite Hb, !length_app. simpl. lia.
      * exists w'. split; [done|]. rewrite Hb', Hb, app_assoc.
        apply drop_app_length'. by rewrite length_app.
    + unfold readuntil_iter, readuntil_scan, len in *.
      assert (Hat : startswith ["010"%byte] (drop (length pre) (_buffer (stream w)))
                    = true).
      { by rewrite Hb, drop_app_length. }
      replace (_ <=? _) with true
        by (symmetry; apply Z.leb_le; rewrite Hb, !length_app; simpl; lia).
      rewrite (bytes_find_at _ _ 0 (length pre)); [|lia|done|].
      2:{ intros j Hj. rewrite Hb. by apply newline_first. }
      replace (negb (Z.of_nat (length pre) =? -1)) with true
        by (symmetry; apply negb_true_iff, Z.eqb_neq; lia).
      unfold readuntil_found.
      replace (_ <? _) with true by (symmetry; apply Z.ltb_lt; lia).
      unfold readline_overrun. rewrite Nat2Z.id, Hat.
      destruct (maybe_resume_transport_ok
                  (on_stream (λ s, with_buffer
                                     (drop (Z.to_nat (Z.of_nat (length pre)
                                                      + len ["010"%byte]))
                                           (_buffer s)) s) w))
        as (w' & -> & Hb' & _); [done|].
      exists w'. split; [done|]. rewrite Hb'. cbn [stream on_stream with_buffer _buffer].
      rewrite Hb, app_assoc. apply drop_app_length'. rewrite length_app.
      unfold len. simpl. lia.
  - unfold readuntil_iter, readuntil_scan, readuntil_wait, len in *.
    assert (Hfind : bytes_find ["010"%byte] (_buffer (stream w)) 0 = -1).
    { apply bytes_find_absent. intros j. rewrite Hb. by apply newline_absent. }
    rewrite Hfind. change (negb (-1 =? -1)) with false. cbv iota. cbn [length].
    rewrite Hb. destruct (Z.leb_spec (Z.of_nat (length pre)) (_limit (stream w)))
      as [Hle|Hgt].
    + intros He. rewrite He.
      destruct (Z.leb_spec (Z.of_nat 1) (Z.of_nat (length pre) - 0)).
      * replace (_ <? _) with false by (symmetry; apply Z.ltb_ge; lia).
        eexists. by rewrite <- Hb.
      * eexists. by rewrite <- Hb.
    + replace (Z.of_nat 1 <=? _) with true by (symmetry; apply Z.leb_le; lia).
      replace (_ <? _) with true by (symmetry; apply Z.ltb_lt; lia).
      unfold readline_overrun.
      rewrite newline_absent by (by rewrite Hb).
      destruct (maybe_resume_transport_ok (on_stream (with_buffer []) w))
        as (w' & -> & Hb' & _); [done|].
      exists w'. by rewrite Hb'.
Qed.

Lemma readline_outcomes_witness :
  (∃ w', readline [] (buffered READ 4 ["a"; "b"; "010"; "c"; "d"]%byte false)
         = Finished (Ok (["a"; "b"] ++ ["010"])%byte) w'
         ∧ _buffer (stream w') = ["c"; "d"]%byte)
  ∧ (∃ w', readline [] (buffered READ 1 ["a"; "b"; "010"; "c"; "d"]%byte false)
           = Finished (Raise (ValueError
                                "Separator is found, but chunk is longer than limit")) w'
           ∧ _buffer (stream w') = ["c"; "d"]%byte).
Proof.
  split.
  - destruct (readline_outcomes ["a"; "b"]%byte ["c"; "d"]%byte []
                (buffered READ 4 ["a"; "b"; "010"; "c"; "d"]%byte false))
      as [HA _]; try reflexivity.
    + intros H; discriminate H.
    + intros H. apply elem_of_cons in H as [H|H]; [discriminate H|].
      apply elem_of_cons in H as [H|H]; [discriminate H|]. by apply elem_of_nil in H.
    + exact (HA eq_refl).
  - destruct (readline_outcomes ["a"; "b"]%byte ["c"; "d"]%byte []
                (buffered READ 1 ["a"; "b"; "010"; "c"; "d"]%byte false))
      as [HA _]; try reflexivity.
    + intros H; discriminate H.
    + intros H. apply elem_of_cons in H as [H|H]; [discriminate H|].
      apply elem_of_cons in H as [H|H]; [discriminate H|]. by apply elem_of_nil in H.
    + exact (HA eq_refl).
Defined.

End readline.

(** ** Stream: [read] *)

Section read.
Import Stream.
Implicit Types (w : world) (n : Z) (ds : list bytes).

Lemma maybe_resume_transport_frame w :
  wf (stream w) →
  ∃ w', _maybe_resume_transport w = (Ok (), w')
        ∧ _buffer (stream w') = _buffer (stream w)
        ∧ _eof (stream w') = _eof (stream w)
        ∧ _mode (stream w') = _mode (stream w)
        ∧ _waiter (stream w') = _waiter (stream w)
        ∧ _limit (stream w') = _limit (stream w)
        ∧ _exception (stream w') = _exception (stream w)
        ∧ wf (stream w').
Proof.
  intros Hwf. unfold _maybe_resume_transport.
  destruct (_paused (stream w)) eqn:Hp; simpl; [|by eexists].
  destruct (_ <=? _); [|by eexists].
  unfold transport_resume_reading. simpl.
  destruct (Hwf Hp) as [tr ->]. by eexists.
Qed.

(** [read(n)] past its wait, or without one. *)
Lemma read_some_takes n resumed w :
  wf (stream w) →
  resumed = true ∨ _buffer (stream w) ≠ [] ∨ _eof (stream w) = true →
  ∃ w', read_some n resumed w
        = Finish (Ok (take (Z.to_nat n) (_buffer (stream w)))) w'
        ∧ _buffer (stream w') = drop (Z.to_nat n) (_buffer (stream w))
        ∧ _eof (stream w') = _eof (stream w)
        ∧ _mode (stream w') = _mode (stream w)
        ∧ _waiter (stream w') = _waiter (stream w)
        ∧ _limit (stream w') = _limit (stream w)
        ∧ _exception (stream w') = _exception (stream w)
        ∧ wf (stream w').
Proof.
  intros Hwf Hgo. unfold read_some.
  assert (negb resumed && bool_decide (_buffer (stream w) = [])
          && negb (_eof (stream w)) = false) as ->.
  { destruct Hgo as [->|[Hb|He]]; [done| |].
    - rewrite bool_decide_eq_false_2 by done. by destruct resumed.
    - rewrite He. by destruct resumed, (bool_decide _). }
  destruct (maybe_resume_transport_frame
              (on_stream (λ s, with_buffer (drop (Z.to_nat n) (_buffer s)) s) w))
    as (w' & -> & Hb & He & Hm & Hw & Hl & Hx & Hwf'); [done|].
  exists w'. by split_and!.
Qed.

Lemma feed_data_exception d w :
  _exception (stream (feed_data d w).2) = _exception (stream w).
Proof.
  unfold feed_data. destruct (_check_read _); [|done].
  destruct (_eof (stream w)); [done|]. destruct d as [|c d]; [done|].
  set (w1 := on_stream _ w).
  assert (Hx : _exception (stream (_wakeup_waiter w1)) = _exception (stream w)).
  { unfold _wakeup_waiter. destruct (_waiter (stream w1)); [|done]. simpl.
    by destruct (Future.cancelled _). }
  destruct (_transport (stream (_wakeup_waiter w1))); [|done].
  destruct (negb _ && _); [|done].
  by destruct (pause_reading_supported _).
Qed.

Lemma feed_batch_exception ds w :
  _exception (stream (apply_feeds (map FeedData ds) w)) = _exception (stream w).
Proof.
  revert w. induction ds as [|d ds IH]; intros w; [done|].
  unfold apply_feeds in *. simpl. by rewrite IH, feed_data_exception.
Qed.

Lemma feed_batch_empty ds w :
  is_read (_mode (stream w)) = true → _eof (stream w) = false →
  concat ds = [] → apply_feeds (map FeedData ds) w = w.
Proof.
  intros Hm He. induction ds as [|d ds IH]; [done|]. simpl.
  intros [-> Hds]%app_eq_nil. unfold apply_feeds in *. simpl.
  replace (feed_data [] w).2 with w; [by apply IH|].
  unfold feed_data, _check_read. by rewrite Hm, He.
Qed.

(** A batch of data wakes a suspended reader exactly when it holds a
    byte. *)
Lemma feed_batch_wakes ds w fut :
  suspended w fut → concat ds ≠ [] →
  let w' := apply_feeds (map FeedData ds) w in
  readable (on_stream (with_waiter None) w')
  ∧ _buffer (stream w') = _buffer (stream w) ++ concat ds
  ∧ Future.get (futs w') fut = Future.Result
  ∧ _limit (stream w') = _limit (stream w)
  ∧ _exception (stream w') = _exception (stream w).
Proof.
  intros Hs Hne. cbv zeta.
  destruct (feed_batch_suspended ds w fut Hs) as (Hb & [[Hnil _]|Hwoken]); [done|].
  destruct Hwoken as (Hm1 & He1 & Hwf1 & Hw1 & Hres).
  split_and!; try done; [apply apply_feeds_limit|apply feed_batch_exception].
Qed.

Lemma feed_eof_wakes w fut :
  suspended w fut →
  let w' := apply_feeds [FeedEof] w in
  Future.get (futs w') fut = Future.Result
  ∧ _buffer (stream w') = _buffer (stream w)
  ∧ _eof (stream w') = true
  ∧ wf (stream w').
Proof.
  intros (Hm & He & Hwf & Hw & Hlt & Hp). cbv zeta. unfold apply_feeds. simpl.
  unfold feed_eof, _check_read. rewrite Hm. simpl.
  unfold _wakeup_waiter. simpl. rewrite Hw. simpl. rewrite Hp. simpl.
  unfold Future.set_result. rewrite get_insert. by rewrite decide_True.
Qed.

(** X19. [read(n)] with [n > 0] returns what is there, up to [n] bytes.
    On a readable stream without stored exception and without another
    reader: when the buffer is not empty or EOF was fed, the call returns
    at once the first [n] bytes of the buffer, or all of it when it is
    shorter, and leaves the rest.  Otherwise it waits; the first batch of
    [feed_data] that holds a byte ends the wait, and the call returns up
    to [n] bytes of that batch and leaves the rest; [feed_eof] ends the
    wait with an empty result. *)
Theorem read_returns_up_to_n
  (n : Z) (ds : list bytes) (env : list (list feed)) (w : world) :
  0 < n → is_read (_mode (stream w)) = true → _exception (stream w) = None →
  wf (stream w) → _waiter (stream w) = None →
  if bool_decide (_buffer (stream w) = []) && negb (_eof (stream w))
  then (concat ds ≠ [] →
        ∃ w', read n (map FeedData ds :: env) w
              = Finished (Ok (take (Z.to_nat n) (concat ds))) w'
              ∧ _buffer (stream w') = drop (Z.to_nat n) (concat ds))
       ∧ (∃ w', read n ([FeedEof] :: env) w = Finished (Ok []) w')
  else ∃ w', read n env w
             = Finished (Ok (take (Z.to_nat n) (_buffer (stream w)))) w'
             ∧ _buffer (stream w') = drop (Z.to_nat n) (_buffer (stream w)).
Proof.
  intros Hn Hm Hexc Hwf Hw. unfold read, _check_read, drive, read_iter.
  rewrite Hm, Hexc.
  replace (n =? 0) with false by (symmetry; apply Z.eqb_neq; lia).
  replace (n <? 0) with false by (symmetry; apply Z.ltb_ge; lia).
  destruct (bool_decide (_buffer (stream w) = []) && negb (_eof (stream w))) eqn:E.
  - apply andb_true_iff in E as [Hb%bool_decide_eq_true He%negb_true_iff].
    assert (Hr : readable w) by by split_and!.
    destruct (wait_for_data_suspends "read" w Hr) as (w1 & fut & Hwd & Hs & Hb1).
    assert (Hstart : read_some n false w = Suspend true fut w1).
    { unfold read_some. rewrite bool_decide_eq_true_2, He by done. simpl.
      by rewrite Hwd. }
    cbn [fst snd]. rewrite !Hstart. rewrite Hb in Hb1. split.
    + intros Hne. cbn [wait].
      destruct (feed_batch_wakes ds w1 fut Hs Hne) as (Hr' & Hb' & Hres & _).
      rewrite Hres, must_cancel_data. simpl. pose proof Hr' as (_ & _ & _ & Hwf').
      destruct (read_some_takes n true
                  (on_stream (with_waiter None) (apply_feeds (map FeedData ds) w1)))
        as (w' & -> & Hbw & _); [done|by left|].
      simpl in *. rewrite Hb', Hb1 in *. by exists w'.
    + cbn [wait]. destruct (feed_eof_wakes w1 fut Hs) as (Hres & Hb' & He' & Hwf').
      rewrite Hres. cbn [must_cancel orb Future.await fst snd].
      destruct (read_some_takes n true
                  (on_stream (with_waiter None) (apply_feeds [FeedEof] w1)))
        as (w' & -> & _); [done|by left|].
      cbn [stream on_stream with_waiter _buffer]. rewrite Hb', Hb1. exists w'.
      by rewrite take_nil.
  - cbn [fst snd]. destruct (read_some_takes n false w Hwf) as (w' & -> & Hb' & _).
    { right. apply andb_false_iff in E as [E|E].
      - left. by apply bool_decide_eq_false in E.
      - right. by apply negb_false_iff in E. }
    by exists w'.
Qed.

Lemma read_returns_up_to_n_witness :
  (["c"; "d"; "e"]%byte ≠ [] →
   ∃ w', read 2 (map FeedData [["c"]; ["d"; "e"]]%byte :: [])
              (buffered READ 8 [] false)
         = Finished (Ok (take (Z.to_nat 2) ["c"; "d"; "e"]%byte)) w'
         ∧ _buffer (stream w') = drop (Z.to_nat 2) ["c"; "d"; "e"]%byte)
  ∧ (∃ w', read 2 ([FeedEof] :: []) (buffered READ 8 [] false) = Finished (Ok []) w').
Proof.
  apply (read_returns_up_to_n 2 [["c"]; ["d"; "e"]]%byte []
           (buffered READ 8 [] false)); try reflexivity.
  intros H; discriminate H.
Defined.

(** The rounds of [read(-1)] that need no wait: the buffer goes into
    [blocks], then the call suspends. *)
Lemma read_all_drain fuel blocks w :
  readable w → _exception (stream w) = None → 0 < _limit (stream w) →
  (length (_buffer (stream w)) < fuel)%nat →
  ∃ blocks' fut w',
    read_all fuel (blocks, false) w = Suspend (blocks', true) fut w'
    ∧ suspended w' fut
    ∧ _buffer (stream w') = []
    ∧ concat blocks' = concat blocks ++ _buffer (stream w)
    ∧ _exception (stream w') = None
    ∧ _limit (stream w') = _limit (stream w).
Proof.
  revert blocks w. induction fuel as [|fuel IH]; intros blocks w Hr Hexc Hlim Hfuel;
    [lia|].
  pose proof Hr as (Hm & He & Hw & Hwf).
  cbn [read_all fst snd]. unfold read_block, _check_read. rewrite Hm, Hexc.
  replace (_ =? 0) with false by (symmetry; apply Z.eqb_neq; lia).
  replace (_ <? 0) with false by (symmetry; apply Z.ltb_ge; lia).
  destruct (_buffer (stream w)) as [|c buf] eqn:Hb.
  - unfold read_some. rewrite Hb, He. simpl.
    pose proof (wait_for_data_limit "read" w) as Hl.
    destruct (wait_for_data_ok "read" w Hr)
      as (w1 & Hwd & Hf1 & Hw1 & Hb1 & Hm1 & He1 & Hwf1).
    destruct (wait_for_data_suspends "read" w Hr) as (w2 & fut & Hwd2 & Hs & _).
    rewrite Hwd in *. injection Hwd2 as <- <-.
    exists blocks, (length (futs w)), w1. split_and!; try done.
    + congruence.
    + by rewrite app_nil_r.
    + unfold _wait_for_data in Hwd. rewrite Hw, He in Hwd.
      destruct (_paused (stream w)).
      * unfold transport_resume_reading in Hwd. simpl in Hwd.
        destruct (_transport (stream w)); [|done]. by injection Hwd as <-.
      * by injection Hwd as <-.
  - destruct (read_some_takes (_limit (stream w)) false w Hwf)
      as (w' & -> & Hb' & He' & Hm' & Hw' & Hl' & Hx' & Hwf').
    { right. left. by rewrite Hb. }
    rewrite Hb in *.
    destruct (Z.to_nat (_limit (stream w))) as [|k] eqn:Hk; [lia|].
    cbn [take fst snd]. destruct (IH (blocks ++ [c :: take k buf]) w')
      as (blocks' & fut & w'' & Heq & Hs & Hb'' & Hc & Hx'' & Hl'').
    + split_and!; [congruence..|done].
    + congruence.
    + lia.
    + rewrite Hb'. cbn [drop]. rewrite length_drop. simpl in Hfuel. lia.
    + exists blocks', fut, w''. split_and!; try done; [|congruence].
      rewrite Hc, Hb', concat_app. cbn [concat drop]. rewrite app_nil_r, <- app_assoc.
      f_equal. cbn [app]. f_equal. apply take_drop.
Qed.

Lemma read_all_resumed blocks w :
  readable w → _exception (stream w) = None → 0 < _limit (stream w) →
  _buffer (stream w) ≠ [] →
  ∃ blocks' fut w',
    read_all (S (length (_buffer (stream w)))) (blocks, true) w
    = Suspend (blocks', true) fut w'
    ∧ suspended w' fut
    ∧ _buffer (stream w') = []
    ∧ concat blocks' = concat blocks ++ _buffer (stream w)
    ∧ _exception (stream w') = None
    ∧ _limit (stream w') = _limit (stream w).
Proof.
  intros Hr Hexc Hlim Hne. pose proof Hr as (Hm & He & Hw & Hwf).
  cbn [read_all fst snd read_block].
  destruct (read_some_takes (_limit (stream w)) true w Hwf)
    as (w' & -> & Hb' & He' & Hm' & Hw' & Hl' & Hx' & Hwf'); [by left|].
  destruct (_buffer (stream w)) as [|c buf] eqn:Hb; [done|].
  destruct (Z.to_nat (_limit (stream w))) as [|k] eqn:Hk; [lia|].
  cbn [take fst snd]. destruct (read_all_drain (length (c :: buf))
                          (blocks ++ [c :: take k buf]) w')
    as (blocks' & fut & w'' & Heq & Hs & Hb'' & Hc & Hx'' & Hl'').
  - split_and!; [congruence..|done].
  - congruence.
  - lia.
  - rewrite Hb'. cbn [drop]. rewrite length_drop. simpl. lia.
  - exists blocks', fut, w''. split_and!; try done; [|congruence].
    rewrite Hc, Hb', concat_app. cbn [concat drop]. rewrite app_nil_r, <- app_assoc.
    f_equal. cbn [app]. f_equal. apply take_drop.
Qed.

Lemma read_all_wait dss env blocks w fut :
  suspended w fut → _buffer (stream w) = [] →
  _exception (stream w) = None → 0 < _limit (stream w) →
  ∃ w', wait (read_iter (-1)) (batches dss ++ [FeedEof] :: env) (blocks, true) fut w
        = Finished (Ok (concat blocks ++ concat (concat dss))) w'
        ∧ _buffer (stream w') = [].
Proof.
  revert blocks w fut. induction dss as [|ds dss IH];
    intros blocks w fut Hs Hb Hexc Hlim.
  - cbn [batches map app wait concat].
    destruct (feed_eof_wakes w fut Hs) as (Hres & Hb' & He' & Hwf').
    rewrite Hres. cbn [must_cancel orb Future.await]. unfold read_iter.
    cbn [Z.ltb Z.compare].
    set (w1 := on_stream (with_waiter None) (apply_feeds [FeedEof] w)) in *.
    assert (Hb1 : _buffer (stream w1) = []) by (by rewrite <- Hb, <- Hb').
    cbn [read_all fst snd read_block].
    destruct (read_some_takes (_limit (stream w1)) true w1)
      as (w' & -> & Hbw & _); [done|by left|].
    rewrite Hb1 in *. rewrite take_nil. exists w'. rewrite app_nil_r.
    split; [done|]. by rewrite Hbw, drop_nil.
  - cbn [batches map app wait concat]. rewrite concat_app, app_assoc.
    pose proof Hs as (Hm & He & Hwf & Hw & Hlt & Hp).
    destruct (decide (concat ds = [])) as [Hnil|Hne].
    + rewrite (feed_batch_empty ds w Hm He Hnil), Hp, must_cancel_data.
      cbn [Future.await].
      rewrite Hnil, app_nil_r. by apply IH.
    + destruct (feed_batch_wakes ds w fut Hs Hne) as (Hr' & Hb' & Hres & Hl' & Hx').
      rewrite Hres, must_cancel_data. cbn [Future.await]. unfold read_iter at 1.
      cbn [Z.ltb Z.compare].
      set (w1 := on_stream (with_waiter None) (apply_feeds (map FeedData ds) w)) in *.
      assert (Hb1 : _buffer (stream w1) = concat ds).
      { unfold w1. cbn [stream on_stream with_waiter _buffer]. by rewrite Hb', Hb. }
      destruct (read_all_resumed blocks w1)
        as (blocks' & fut' & w' & -> & Hs' & Hbe & Hc & Hxe & Hle); try done.
      * unfold w1. cbn. congruence.
      * unfold w1. cbn. lia.
      * by rewrite Hb1.
      * rewrite Hb1 in Hc. rewrite <- Hc. apply IH; try done.
        rewrite Hle. unfold w1. cbn. lia.
Qed.

(** X20. [read(-1)] returns everything up to EOF.  On a readable stream
    with a positive limit, without stored exception and without another
    reader, let batches of [feed_data] calls be followed by [feed_eof].
    Then [read(-1)] returns the buffer followed by all the data fed, in
    order, and leaves the buffer empty: the blocks of at most [limit]
    bytes it reads lose nothing and repeat nothing. *)
Theorem read_all_returns_everything
  (dss : list (list bytes)) (env : list (list feed)) (w : world) :
  readable w → _exception (stream w) = None → 0 < _limit (stream w) →
  ∃ w', read (-1) (batches dss ++ [FeedEof] :: env) w
        = Finished (Ok (_buffer (stream w) ++ concat (concat dss))) w'
        ∧ _buffer (stream w') = [].
Proof.
  intros Hr Hexc Hlim. pose proof Hr as (Hm & He & Hw & Hwf).
  unfold read, _check_read, drive. rewrite Hm, Hexc. cbn [Z.eqb].
  unfold read_iter at 1. cbn [Z.ltb Z.compare].
  destruct (read_all_drain (S (length (_buffer (stream w)))) [] w)
    as (blocks & fut & w1 & -> & Hs & Hb1 & Hc & Hx1 & Hl1); try done; [lia|].
  simpl in Hc. rewrite <- Hc. apply read_all_wait; try done. by rewrite Hl1.
Qed.

Lemma read_all_returns_everything_witness :
  ∃ w', read (-1) (batches [[["c"]; ["d"; "e"]]; [["f"]]]%byte ++ [FeedEof] :: [])
             (buffered READ 2 ["a"; "b"; "x"]%byte false)
        = Finished (Ok (["a"; "b"; "x"]
                        ++ concat (concat [[["c"]; ["d"; "e"]]; [["f"]]]))%byte) w'
        ∧ _buffer (stream w') = [].
Proof.
  apply (read_all_returns_everything [[["c"]; ["d"; "e"]]; [["f"]]]%byte []
           (buffered READ 2 ["a"; "b"; "x"]%byte false)); try reflexivity.
  split_and!; try reflexivity. intros H; discriminate H.
Defined.

End read.

(** ** Stream: what the transport sees *)

Section transport_calls.
Import Stream.
Implicit Types (w : world) (m : StreamMode) (d : list bytes) (cs : list call).

Lemma paced_app p cs c :
  paced p (cs ++ [c]) = paced p cs ≫= λ q, paced_step q c.
Proof.
  revert p. induction cs as [|c' cs IH]; intros p; simpl.
  - by destruct (paced_step p c).
  - destruct (paced_step p c'); [apply IH|done].
Qed.

Lemma steady_same m d w w' :
  _mode (stream w') = _mode (stream w) →
  _transport (stream w') = _transport (stream w) →
  _paused (stream w') = _paused (stream w) →
  calls w' = calls w →
  steady m d w → steady m d w'.
Proof. unfold steady. by intros -> -> -> ->. Qed.

Lemma steady_resume m d w :
  steady m d w → _paused (stream w) = true →
  ∃ w', transport_resume_reading (on_stream (with_paused false) w) = (Ok (), w')
        ∧ steady m d w'
        ∧ w' = log resume_reading (on_stream (with_paused false) w).
Proof.
  intros ((tr & Htr & Hsup) & Hp & Hd & Hm) Hpaused. unfold transport_resume_reading.
  simpl. rewrite Htr. eexists. split; [done|]. split; [|done].
  split_and!; simpl.
  - by exists tr.
  - rewrite paced_app, Hp, Hpaused. done.
  - unfold written in *. by rewrite omap_app, Hd, app_nil_r.
  - done.
Qed.

Lemma steady_maybe_resume m d w :
  steady m d w → steady m d (_maybe_resume_transport w).2.
Proof.
  intros Hs. unfold _maybe_resume_transport.
  destruct (_paused (stream w)) eqn:Hp; [|done]. simpl.
  destruct (_ <=? _); [|done].
  by destruct (steady_resume m d w Hs Hp) as (w' & -> & ? & _).
Qed.

Lemma steady_wakeup m d w : steady m d w → steady m d (_wakeup_waiter w).
Proof.
  intros Hs. unfold _wakeup_waiter. destruct (_waiter (stream w)); [|done].
  simpl. by destruct (Future.cancelled _).
Qed.

Lemma steady_wait_for_data m name d w :
  steady m d w → steady m d (_wait_for_data name w).2.
Proof.
  intros Hs. unfold _wait_for_data. destruct (_waiter (stream w)); [done|].
  destruct (_eof (stream w)); [done|].
  destruct (_paused (stream w)) eqn:Hp; [|done].
  by destruct (steady_resume m d w Hs Hp) as (w' & -> & ? & _).
Qed.

Lemma steady_feed_data m data d w : steady m d w → steady m d (feed_data data w).2.
Proof.
  intros Hs. unfold feed_data. destruct (_check_read _); [|done].
  destruct (_eof (stream w)); [done|]. destruct data as [|c data]; [done|].
  set (w1 := _wakeup_waiter _).
  assert (Hs1 : steady m d w1) by (apply steady_wakeup; exact Hs).
  pose proof Hs1 as ((tr & Htr & Hsup) & Hp & Hd & Hm). rewrite Htr.
  destruct (_paused (stream w1)) eqn:Hpaused; simpl; [done|].
  destruct (_ <? _); [|done]. rewrite Hsup. simpl.
  split_and!; simpl.
  - by exists tr.
  - by rewrite paced_app, Hp.
  - unfold written in *. by rewrite omap_app, Hd, app_nil_r.
  - done.
Qed.

Lemma steady_apply_feed m f d w : steady m d w → steady m d (apply_feed f w).
Proof.
  intros Hs. destruct f as [data| |e|]; simpl.
  - by apply steady_feed_data.
  - unfold feed_eof. destruct (_check_read _); [|done]. simpl.
    by apply steady_wakeup.
  - unfold set_exception. simpl. destruct (_waiter (stream w)); [|done]. simpl.
    by destruct (Future.cancelled _).
  - by destruct (_waiter (stream w)).
Qed.

Lemma steady_apply_feeds m fs d w : steady m d w → steady m d (apply_feeds fs w).
Proof.
  revert w. induction fs as [|f fs IH]; intros w Hs; [done|].
  unfold apply_feeds in *. simpl. by apply IH, steady_apply_feed.
Qed.

(** A reader keeps the transport steady when each run of its body does. *)
Lemma steady_wait m {L A : Type} (body : L → world → progress L A) d :
  (∀ l w, steady m d w → steady m d (progress_world (body l w))) →
  ∀ env l fut w, steady m d w → steady m d (world_of (wait body env l fut w)).
Proof.
  intros Hbody env. induction env as [|batch env IH]; intros l fut w Hs; [done|].
  cbn [wait]. pose proof (steady_apply_feeds m batch d w Hs) as Hs1.
  destruct (Future.await _ _) as [r|]; [|by apply IH].
  destruct r as [[]|e]; [|done].
  pose proof (Hbody l (on_stream (with_waiter None) (apply_feeds batch w)) Hs1) as Hs2.
  destruct (body l _) as [r w2|l2 fut2 w2]; [done|]. by apply IH.
Qed.

Lemma steady_drive m {L A : Type} (body : L → world → progress L A) d :
  (∀ l w, steady m d w → steady m d (progress_world (body l w))) →
  ∀ env l w, steady m d w → steady m d (world_of (drive body env l w)).
Proof.
  intros Hbody env l w Hs. unfold drive. pose proof (Hbody l w Hs) as Hs1.
  destruct (body l w) as [r w1|l1 fut w1]; [done|]. by apply steady_wait.
Qed.

Lemma steady_buffer m d w (f : t → bytes) :
  steady m d w → steady m d (on_stream (λ s, with_buffer (f s) s) w).
Proof. done. Qed.

Lemma steady_take m d w (buf : bytes) :
  steady m d w →
  steady m d (_maybe_resume_transport (on_stream (λ s, with_buffer buf s) w)).2.
Proof. intros Hs. by apply steady_maybe_resume. Qed.

Lemma steady_readexactly_iter m n d l w :
  steady m d w → steady m d (progress_world (readexactly_iter n l w)).
Proof.
  intros Hs. unfold readexactly_iter. destruct (_ <? n).
  - destruct (_eof (stream w)); [done|].
    pose proof (steady_wait_for_data m "readexactly" d w Hs) as Hs1.
    by destruct (_wait_for_data _ w) as [[fut|e] w1].
  - destruct (_ =? n).
    + pose proof (steady_maybe_resume m d (on_stream (with_buffer []) w) Hs) as Hs1.
      by destruct (_maybe_resume_transport _) as [[[]|e] w1].
    + pose proof (steady_maybe_resume m d
                    (on_stream (λ s, with_buffer (drop (Z.to_nat n) (_buffer s)) s) w)
                    Hs) as Hs1.
      by destruct (_maybe_resume_transport _) as [[[]|e] w1].
Qed.

Lemma steady_readuntil_iter m sep d o w :
  steady m d w → steady m d (progress_world (readuntil_iter sep o w)).
Proof.
  intros Hs.
  assert (Hwait : ∀ o', steady m d (progress_world (readuntil_wait o' w))).
  { intros o'. unfold readuntil_wait. destruct (_eof (stream w)); [done|].
    pose proof (steady_wait_for_data m "readuntil" d w Hs) as Hs1.
    by destruct (_wait_for_data _ w) as [[fut|e] w1]. }
  unfold readuntil_iter. destruct (readuntil_scan sep o (stream w)); try done.
  unfold readuntil_found. destruct (_ <? isep); [done|].
  pose proof (steady_maybe_resume m d
                (on_stream (λ s, with_buffer
                                   (drop (Z.to_nat (isep + len sep)) (_buffer s)) s) w)
                Hs) as Hs1.
  by destruct (_maybe_resume_transport _) as [[[]|e] w1].
Qed.

Lemma steady_read_some m n d resumed w :
  steady m d w → steady m d (progress_world (read_some n resumed w)).
Proof.
  intros Hs. unfold read_some. destruct (_ && _).
  - pose proof (steady_wait_for_data m "read" d w Hs) as Hs1.
    by destruct (_wait_for_data _ w) as [[fut|e] w1].
  - pose proof (steady_maybe_resume m d
                  (on_stream (λ s, with_buffer (drop (Z.to_nat n) (_buffer s)) s) w)
                  Hs) as Hs1.
    by destruct (_maybe_resume_transport _) as [[[]|e] w1].
Qed.

Lemma steady_read_block m d resumed w :
  steady m d w → steady m d (progress_world (read_block resumed w)).
Proof.
  intros Hs. unfold read_block. destruct resumed; [by apply steady_read_some|].
  destruct (_check_read _); [|done]. destruct (_exception (stream w)); [done|].
  destruct (_ =? 0); [done|]. destruct (_ <? 0); [done|].
  by apply steady_read_some.
Qed.

Lemma steady_read_all m fuel d l w :
  steady m d w → steady m d (progress_world (read_all fuel l w)).
Proof.
  revert l w. induction fuel as [|fuel IH]; intros l w Hs; [done|].
  cbn [read_all]. pose proof (steady_read_block m d l.2 w Hs) as Hs1.
  destruct (read_block l.2 w) as [[[|c block]|e] w1|r fut w1]; try done.
  by apply IH.
Qed.

Lemma steady_read_iter m n d l w :
  steady m d w → steady m d (progress_world (read_iter n l w)).
Proof.
  intros Hs. unfold read_iter. destruct (n <? 0); [by apply steady_read_all|].
  pose proof (steady_read_some m n d l.2 w Hs) as Hs1.
  by destruct (read_some n l.2 w).
Qed.

Lemma steady_readuntil m sep d env w :
  steady m d w → steady m d (world_of (readuntil sep env w)).
Proof.
  intros Hs. unfold readuntil. destruct (_check_read _); [|done].
  destruct (_ =? 0); [done|]. destruct (_exception (stream w)); [done|].
  apply steady_drive; [|done]. intros l w'. apply steady_readuntil_iter.
Qed.

Lemma steady_exec m o d w :
  steady m d w →
  steady m (d ++ match o with
               | Write data =>
                   if is_write (_mode (stream w)) then [data] else []
               | _ => []
               end) (exec o w).
Proof.
  intros Hs. destruct o as [f|n env|sep env|env|n env|data];
    cbn [exec]; rewrite ?app_nil_r.
  - by apply steady_apply_feed.
  - unfold readexactly. destruct (_check_read _); [|done].
    destruct (n <? 0); [done|]. destruct (_exception (stream w)); [done|].
    destruct (n =? 0); [done|].
    apply steady_drive; [|done]. intros l w'. apply steady_readexactly_iter.
  - by apply steady_readuntil.
  - unfold readline. destruct (_check_read _); [|done].
    pose proof (steady_readuntil m ["010"%byte] d env w Hs) as Hs1.
    destruct (readuntil _ env w) as [[line|e] w1|l fut w1]; try done.
    destruct e; try done. unfold readline_overrun.
    destruct (startswith _ _).
    + pose proof (steady_maybe_resume m d
                    (on_stream (λ s, with_buffer
                                       (drop (Z.to_nat (consumed + len ["010"%byte]))
                                             (_buffer s)) s) w1) Hs1) as Hs2.
      by destruct (_maybe_resume_transport _) as [[[]|e] w2].
    + pose proof (steady_maybe_resume m d (on_stream (with_buffer []) w1) Hs1) as Hs2.
      by destruct (_maybe_resume_transport _) as [[[]|e] w2].
  - unfold read. destruct (_check_read _); [|done].
    destruct (_exception (stream w)); [done|]. destruct (n =? 0); [done|].
    apply steady_drive; [|done]. intros l w'. apply steady_read_iter.
  - unfold write, _check_write. destruct (is_write _); [|by rewrite app_nil_r].
    destruct Hs as ((tr & Htr & Hsup) & Hp & Hd & Hm). rewrite Htr. simpl.
    split_and!; simpl.
    + by exists tr.
    + by rewrite paced_app, Hp.
    + unfold written in *. by rewrite omap_app, Hd.
    + done.
Qed.

Lemma steady_exec_all os m d w :
  steady m d w →
  steady m (d ++ if is_write m then writes os else []) (exec_all os w).
Proof.
  revert d w. induction os as [|o os IH]; intros d w Hs.
  - cbn. destruct (is_write m); by rewrite app_nil_r.
  - cbn [exec_all foldl]. pose proof (steady_exec m o d w Hs) as Hs1.
    pose proof Hs as (_ & _ & _ & Hm). rewrite Hm in Hs1.
    apply IH in Hs1. unfold exec_all in Hs1.
    replace (d ++ if is_write m then writes (o :: os) else [])
      with ((d ++ match o with
                  | Write data => if is_write m then [data] else []
                  | _ => []
                  end) ++ if is_write m then writes os else []); [done|].
    rewrite <- app_assoc. f_equal. unfold writes.
    destruct o; cbn [omap list_omap]; try done. by destruct (is_write m).
Qed.

(** X21. The transport is paused and resumed in turn, and gets what was
    written.  On a stream connected to a transport that can pause, after
    any sequence of feeds ([feed_data], [feed_eof], [set_exception],
    cancellation of the reader), reads ([readexactly], [readuntil],
    [readline], [read], each suspended and woken any number of times) and
    writes: the calls of [pause_reading] and [resume_reading] made on the
    transport alternate, beginning with [pause_reading]; the stream is
    paused exactly when the last of them was [pause_reading]; and the
    transport was handed the data of the [write] calls, each once, in
    order, if the stream is writable, and nothing if it is not. *)
Theorem transport_calls_are_paced (mode : StreamMode) (limit : Z) (os : list op) :
  paced false (calls (exec_all os (connected mode limit)))
  = Some (_paused (stream (exec_all os (connected mode limit))))
  ∧ written (calls (exec_all os (connected mode limit)))
    = if is_write mode then writes os else [].
Proof.
  assert (H0 : steady mode [] (connected mode limit)).
  { split_and!; try done. by eexists. }
  by destruct (steady_exec_all os mode [] _ H0) as (_ & Hp & Hw & _).
Qed.

End transport_calls.

(** ** Stream: errors of the connection and readers in each other's way *)

Section reader_errors.
Import Stream.
Implicit Types (w : world) (n : Z).

(** X22. An exception set on the stream reaches the reader that waits
    and every later read.  Let a call of [readexactly], [readuntil] or
    [read] be suspended in [_wait_for_data] (the theorem takes any loop
    body that lets the exception of its [await] through, which these
    three do), and the protocol call [set_exception(e)].  Then the reader
    is woken and its call raises [e]; the buffer is left as it is; and
    from then on [readexactly], [readuntil] and [read] raise [e] at once,
    without touching the stream.  [readline] is not covered: it catches
    the [IncompleteReadError] and [LimitOverrunError] that [readuntil]
    raises, also when they come from [set_exception]. *)
Theorem stream_exception_reaches_readers
  {L A : Type} (body : L → world → progress L A) (l : L)
  (env env' : list (list feed)) (w : world) (fut : nat) (e : exn)
  (n : Z) (sep : bytes) :
  suspended w fut →
  wait body ([SetException e] :: env) l fut w
  = Finished (Raise e) (on_stream (with_waiter None) (apply_feeds [SetException e] w))
  ∧ exception (on_stream (with_waiter None) (apply_feeds [SetException e] w)) = Some e
  ∧ _buffer (stream (on_stream (with_waiter None) (apply_feeds [SetException e] w)))
    = _buffer (stream w)
  ∧ (0 ≤ n →
     readexactly n env' (on_stream (with_waiter None) (apply_feeds [SetException e] w))
     = Finished (Raise e)
         (on_stream (with_waiter None) (apply_feeds [SetException e] w)))
  ∧ (sep ≠ [] →
     readuntil sep env' (on_stream (with_waiter None) (apply_feeds [SetException e] w))
     = Finished (Raise e)
         (on_stream (with_waiter None) (apply_feeds [SetException e] w)))
  ∧ read n env' (on_stream (with_waiter None) (apply_feeds [SetException e] w))
    = Finished (Raise e)
        (on_stream (with_waiter None) (apply_feeds [SetException e] w)).
Proof.
  intros (Hm & He & Hwf & Hw & Hlt & Hp).
  assert (Hset : apply_feeds [SetException e] w
                 = on_futs (Future.set_exception fut e)
                     (on_stream (with_waiter None)
                        (on_stream (with_exception (Some e)) w))).
  { unfold apply_feeds. cbn [foldl apply_feed]. unfold set_exception.
    cbn [stream on_stream with_exception _waiter]. rewrite Hw.
    cbn [futs on_stream]. by rewrite Hp. }
  cbn [wait]. rewrite Hset.
  cbn [futs on_futs on_stream stream with_waiter with_exception].
  unfold Future.set_exception at 1. rewrite get_insert, decide_True by done.
  cbn [Future.await]. split; [done|].
  unfold exception, readexactly, readuntil, read, _check_read.
  cbn [stream on_futs on_stream with_waiter with_exception _exception _buffer _mode].
  rewrite Hm. split_and!; try done.
  - intros Hn. by replace (n <? 0) with false by (symmetry; apply Z.ltb_ge; lia).
  - intros Hsep. replace (len sep =? 0) with false; [done|].
    symmetry. apply Z.eqb_neq. unfold len. destruct sep; [done|simpl; lia].
Qed.

Lemma stream_exception_reaches_readers_witness :
  wait (readexactly_iter 3) ([SetException (OSError 104)] :: []) () 1%nat
       (progress_world (readexactly_iter 3 () (buffered READ 8 ["a"]%byte false)))
  = Finished (Raise (OSError 104))
      (on_stream (with_waiter None)
         (apply_feeds [SetException (OSError 104)]
            (progress_world (readexactly_iter 3 () (buffered READ 8 ["a"]%byte false))))).
Proof.
  destruct (stream_exception_reaches_readers (readexactly_iter 3) () [] []
              (progress_world (readexactly_iter 3 () (buffered READ 8 ["a"]%byte false)))
              1%nat (OSError 104) 3 ["010"%byte]) as [H _]; [|exact H].
  split_and!; try reflexivity; [intros H; discriminate H|vm_compute; lia].
Defined.



End reader_errors.

(** ** Stream: a reader that is cancelled *)

Section reader_cancellation.
Import Stream.
Implicit Types (w : world) (fut : nat) (f : feed).

(** What a feed does to the futures: nothing, or it settles the future
    that is the waiter of the stream, which was not cancelled. *)
Lemma apply_feed_shape f w :
  ∃ (b : bool) (i : nat) (x : Future.state),
    futs (apply_feed f w) = (if b then futs w else <[i := x]> (futs w))
    ∧ x ≠ Future.Pending
    ∧ (b = false → _waiter (stream w) = Some i
                   ∧ Future.cancelled (Future.get (futs w) i) = false)
    ∧ (_waiter (stream (apply_feed f w)) = _waiter (stream w)
       ∨ (_waiter (stream (apply_feed f w)) = None
          ∧ (b = true → ∀ wt, _waiter (stream w) = Some wt →
                              Future.cancelled (Future.get (futs w) wt) = true))).
Proof.
  assert (Hnop : ∃ (b : bool) (i : nat) (x : Future.state),
             futs w = (if b then futs w else <[i := x]> (futs w))
             ∧ x ≠ Future.Pending
             ∧ (b = false → _waiter (stream w) = Some i
                            ∧ Future.cancelled (Future.get (futs w) i) = false)
             ∧ (_waiter (stream w) = _waiter (stream w)
                ∨ (_waiter (stream w) = None
                   ∧ (b = true → ∀ wt, _waiter (stream w) = Some wt →
                                       Future.cancelled (Future.get (futs w) wt) = true)))).
  { exists true, 0%nat, Future.Result. split_and!; try done. by left. }
  assert (Hwake : ∀ w0 x,
             futs w0 = futs w → _waiter (stream w0) = _waiter (stream w) →
             x ≠ Future.Pending →
             ∀ w', w' = match _waiter (stream w0) with
                        | None => w0
                        | Some waiter =>
                            if Future.cancelled (Future.get (futs w0) waiter)
                            then on_stream (with_waiter None) w0
                            else on_futs (λ σ, <[waiter := x]> σ)
                                   (on_stream (with_waiter None) w0)
                        end →
             ∃ (b : bool) (i : nat) (x : Future.state),
               futs w' = (if b then futs w else <[i := x]> (futs w))
               ∧ x ≠ Future.Pending
               ∧ (b = false → _waiter (stream w) = Some i
                              ∧ Future.cancelled (Future.get (futs w) i) = false)
               ∧ (_waiter (stream w') = _waiter (stream w)
                  ∨ (_waiter (stream w') = None
                     ∧ (b = true → ∀ wt, _waiter (stream w) = Some wt →
                                         Future.cancelled (Future.get (futs w) wt)
                                         = true)))).
  { intros w0 x Hf Hw Hx w' ->. rewrite Hw.
    destruct (_waiter (stream w)) as [wt|] eqn:Hwt.
    - rewrite Hf. destruct (Future.cancelled (Future.get (futs w) wt)) eqn:Hc.
      + exists true, 0%nat, x. split_and!; try done. right. split; [done|].
        by intros _ ? [= <-].
      + exists false, wt, x. cbn [futs on_futs on_stream stream with_waiter _waiter].
        rewrite Hf. split_and!; try done. by right.
    - exists true, 0%nat, x. split_and!; try done. left. by rewrite Hw. }
  destruct f as [data| |exc|]; cbn [apply_feed].
  - unfold feed_data. destruct (_check_read _); [|done]. cbn [snd].
    destruct (_eof (stream w)); [done|]. destruct data as [|c data]; [done|].
    set (w1 := on_stream _ w).
    destruct (Hwake w1 Future.Result eq_refl eq_refl ltac:(done) (_wakeup_waiter w1))
      as (b & i & x & Hf & Hx & Hb & Hw').
    { unfold _wakeup_waiter. destruct (_waiter (stream w1)); [|done].
      cbn [futs on_stream]. by destruct (Future.cancelled _). }
    exists b, i, x.
    destruct (_transport (stream (_wakeup_waiter w1))); [|done].
    destruct (negb _ && _); [|done].
    by destruct (pause_reading_supported _).
  - unfold feed_eof. destruct (_check_read _); [|done]. cbn [snd].
    by apply (Hwake (on_stream (with_eof true) w) Future.Result).
  - apply (Hwake (on_stream (with_exception (Some exc)) w) (Future.Exception exc));
      done.
  - destruct (_waiter (stream w)) as [wt|] eqn:Hwt.
    2:{ exists true, 0%nat, Future.Result. split_and!; try done. by left. }
    unfold Future.cancel. cbn [futs on_futs stream].
    destruct (Future.done (Future.get (futs w) wt)) eqn:Hd.
    + exists true, 0%nat, Future.Result. split_and!; try done. by left.
    + exists false, wt, Future.Cancelled. split_and!; try done; [|by left].
      intros _. split; [done|]. by destruct (Future.get (futs w) wt).
Qed.

(** While the reader's future is pending it is the waiter of the stream. *)
Lemma apply_feed_waiting f w fut :
  (fut < length (futs w))%nat →
  (Future.get (futs w) fut = Future.Pending → _waiter (stream w) = Some fut) →
  (fut < length (futs (apply_feed f w)))%nat
  ∧ (Future.get (futs (apply_feed f w)) fut = Future.Pending →
     _waiter (stream (apply_feed f w)) = Some fut).
Proof.
  intros Hlt Hp.
  destruct (apply_feed_shape f w) as (b & i & x & -> & Hx & Hb & Hw).
  destruct b.
  - split; [done|]. intros Hpend. pose proof (Hp Hpend) as Hwt.
    destruct Hw as [->|[_ Hc]]; [done|].
    specialize (Hc eq_refl fut Hwt). by rewrite Hpend in Hc.
  - destruct (Hb eq_refl) as [Hwt Hc]. rewrite length_insert. split; [done|].
    rewrite get_insert. case_decide as Hd; [done|]. intros Hpend.
    pose proof (Hp Hpend) as Hwt'. rewrite Hwt in Hwt'. injection Hwt' as ->.
    destruct Hd. done.
Qed.

(** A cancelled future stays cancelled. *)
Lemma apply_feed_cancelled f w fut :
  Future.get (futs w) fut = Future.Cancelled →
  Future.get (futs (apply_feed f w)) fut = Future.Cancelled.
Proof.
  intros Hc. destruct (apply_feed_shape f w) as (b & i & x & -> & Hx & Hb & Hw).
  destruct b; [done|]. destruct (Hb eq_refl) as [Hwt Hnc].
  rewrite get_insert. case_decide as Hd; [|done]. destruct Hd as [-> _].
  by rewrite Hc in Hnc.
Qed.

Lemma apply_feeds_cancelled batch w fut :
  Future.get (futs w) fut = Future.Cancelled →
  Future.get (futs (apply_feeds batch w)) fut = Future.Cancelled.
Proof.
  revert w. induction batch as [|f batch IH]; intros w Hc; [done|].
  unfold apply_feeds in *. cbn [foldl]. by apply IH, apply_feed_cancelled.
Qed.

(** A batch that cancels the reader leaves its future cancelled or its
    task with the request. *)
Lemma cancel_reader_reaches batch w fut :
  (fut < length (futs w))%nat →
  (Future.get (futs w) fut = Future.Pending → _waiter (stream w) = Some fut) →
  CancelReader ∈ batch →
  must_cancel batch fut w = true
  ∨ Future.get (futs (apply_feeds batch w)) fut = Future.Cancelled.
Proof.
  revert w. induction batch as [|f batch IH]; intros w Hlt Hp Hin;
    [by apply elem_of_nil in Hin|].
  apply elem_of_cons in Hin as [<-|Hin].
  - cbn [must_cancel]. destruct (Future.done (Future.get (futs w) fut)) eqn:Hd;
      [by left|]. right. unfold apply_feeds. cbn [foldl].
    apply (apply_feeds_cancelled batch). cbn [apply_feed].
    rewrite Hp by (by destruct (Future.get (futs w) fut)).
    unfold Future.cancel. cbn [futs on_futs]. rewrite Hd.
    by rewrite get_insert, decide_True.
  - destruct (apply_feed_waiting f w fut Hlt Hp) as [Hlt' Hp'].
    destruct (IH _ Hlt' Hp' Hin) as [Hm|Hc]; [|by right].
    left. cbn [must_cancel]. rewrite Hm. apply orb_true_r.
Qed.

(** X24. Cancellation wins.  Let a reader be suspended in
    [_wait_for_data], and its task be cancelled before it runs again.
    Whatever the protocol feeds in the same turn of the loop, before or
    after the cancellation, data, EOF or an exception, the call raises
    [CancelledError]: also when the reader had been woken already, as the
    loop throws the pending request into it.  The reader does nothing but
    forget the waiter: what was fed stays in the buffer and the transport
    is not called. *)
Theorem reader_cancellation_wins
  {L A : Type} (body : L → world → progress L A) (l : L)
  (batch : list feed) (env : list (list feed)) (w : world) (fut : nat) :
  suspended w fut →
  CancelReader ∈ batch →
  wait body (batch :: env) l fut w
  = Finished (Raise CancelledError) (on_stream (with_waiter None) (apply_feeds batch w)).
Proof.
  intros (Hm & He & Hwf & Hw & Hlt & Hp) Hin. cbn [wait].
  destruct (cancel_reader_reaches batch w fut Hlt (λ _, Hw) Hin) as [->| ->]; [done|].
  unfold Future.await. by destruct (must_cancel _ _ _).
Qed.

Lemma reader_cancellation_wins_witness :
  wait (readexactly_iter 5) [[FeedData ["a"; "b"; "c"; "d"; "e"]%byte; CancelReader]] () 1%nat
       (progress_world (readexactly_iter 5 () (connected READ 2)))
  = Finished (Raise CancelledError)
      (on_stream (with_waiter None)
         (apply_feeds [FeedData ["a"; "b"; "c"; "d"; "e"]%byte; CancelReader]
            (progress_world (readexactly_iter 5 () (connected READ 2))))).
Proof.
  apply (reader_cancellation_wins (readexactly_iter 5) ()
           [FeedData ["a"; "b"; "c"; "d"; "e"]%byte; CancelReader] []
           (progress_world (readexactly_iter 5 () (connected READ 2))) 1%nat).
  - split_and!; try reflexivity; [intros H; discriminate H|vm_compute; lia].
  - apply elem_of_cons. right. apply elem_of_cons. left. reflexivity.
Defined.

End reader_cancellation.

(** ** Stream: a drain that is cancelled *)

Section drain_cancellation.
Import Stream.
Implicit Types (w : world) (fut g : nat) (st : world * bool).

(** Every call of the protocol settles only futures that are not done,
    or, through [_wakeup_waiter] and [set_exception], not cancelled: a
    cancelled future stays as it is, and no future is added. *)
Lemma guarded_insert σ i x g (b : bool) :
  Future.get σ g = Future.Cancelled →
  (b = false → Future.cancelled (Future.get σ i) = false) →
  Future.get (if b then σ else <[i := x]> σ) g = Future.Cancelled
  ∧ length (if b then σ else <[i := x]> σ) = length σ.
Proof.
  intros Hc Hb. destruct b; [done|]. rewrite get_insert, length_insert.
  split; [|done]. case_decide as Hd; [|done]. destruct Hd as [-> _].
  rewrite Hc in Hb. by specialize (Hb eq_refl).
Qed.

Lemma not_done_not_cancelled (s : Future.state) :
  Future.done s = false → Future.cancelled s = false.
Proof. by destruct s. Qed.

Lemma apply_feed_settled f w g :
  Future.get (futs w) g = Future.Cancelled →
  Future.get (futs (apply_feed f w)) g = Future.Cancelled
  ∧ length (futs (apply_feed f w)) = length (futs w).
Proof.
  intros Hc. destruct (apply_feed_shape f w) as (b & i & x & -> & Hx & Hb & Hw).
  apply guarded_insert; [done|]. intros ->. by destruct (Hb eq_refl).
Qed.

Lemma apply_feed_length f w : length (futs (apply_feed f w)) = length (futs w).
Proof.
  destruct (apply_feed_shape f w) as (b & i & x & -> & _).
  destruct b; [done|]. by rewrite length_insert.
Qed.

Lemma resume_writing_settled w g :
  (Future.get (futs w) g = Future.Cancelled →
   Future.get (futs (resume_writing w).2) g = Future.Cancelled)
  ∧ length (futs (resume_writing w).2) = length (futs w).
Proof.
  unfold resume_writing, FlowControlMixin.resume_writing.
  destruct (negb _); [done|].
  destruct (FlowControlMixin._drain_waiter _) as [wt|]; [|done].
  cbn [snd futs on_futs]. unfold Future.set_result.
  destruct (Future.done (Future.get (futs w) wt)) eqn:Hd; [done|].
  rewrite length_insert. split; [|done]. intros Hc.
  apply (guarded_insert (futs w) wt Future.Result g false Hc).
  intros _. by apply not_done_not_cancelled.
Qed.

Lemma notify_stream_feed exc w :
  (notify_stream exc w).2 = w
  ∨ ∃ f, (notify_stream exc w).2 = apply_feed f w.
Proof.
  unfold notify_stream. destruct (_stream (protocol w)); [|by left].
  right. destruct exc as [e|]; [by exists (SetException e)|by exists FeedEof].
Qed.

Lemma close_protocol_settled exc w g :
  (Future.get (futs w) g = Future.Cancelled →
   Future.get (futs (close_protocol exc w)) g = Future.Cancelled)
  ∧ length (futs (close_protocol exc w)) = length (futs w).
Proof.
  unfold close_protocol.
  set (w1 := if Future.done _ then w else _).
  assert ((Future.get (futs w) g = Future.Cancelled →
           Future.get (futs w1) g = Future.Cancelled)
          ∧ length (futs w1) = length (futs w)) as [Hc1 Hl1].
  { unfold w1. destruct (Future.done _) eqn:Hd; [done|].
    destruct exc as [e|]; cbn [futs on_futs];
      unfold Future.set_exception, Future.set_result;
      rewrite length_insert; (split; [|done]); intros Hc;
      apply (guarded_insert (futs w) _ _ g false Hc);
      intros _; by apply not_done_not_cancelled. }
  unfold FlowControlMixin.connection_lost.
  cbn [FlowControlMixin._paused FlowControlMixin._drain_waiter].
  destruct (negb _); [done|].
  destruct (FlowControlMixin._drain_waiter _) as [wt|]; [|done].
  destruct (Future.done (Future.get (futs w1) wt)) eqn:Hd; [done|].
  destruct exc as [e|]; cbn [futs];
    unfold Future.set_exception, Future.set_result;
    rewrite length_insert; (split; [|done]); intros Hc%Hc1;
    apply (guarded_insert (futs w1) _ _ g false Hc);
    intros _; by apply not_done_not_cancelled.
Qed.

Lemma connection_lost_settled exc w g :
  (Future.get (futs w) g = Future.Cancelled →
   Future.get (futs (connection_lost exc w).2) g = Future.Cancelled)
  ∧ length (futs (connection_lost exc w).2) = length (futs w).
Proof.
  unfold connection_lost.
  assert ((Future.get (futs w) g = Future.Cancelled →
           Future.get (futs (notify_stream exc w).2) g = Future.Cancelled)
          ∧ length (futs (notify_stream exc w).2) = length (futs w)) as [Hc1 Hl1].
  { destruct (notify_stream_feed exc w) as [->|[f ->]]; [done|].
    split; [|apply apply_feed_length].
    intros Hc. by destruct (apply_feed_settled f w g Hc). }
  destruct (notify_stream exc w) as [[[]|e] w1]; cbn [fst snd] in *; [|done].
  destruct (close_protocol_settled exc w1 g) as [Hc2 Hl2].
  split; [eauto|congruence].
Qed.

(** Once the task of the drain has a cancellation pending, or its future
    is cancelled, that remains so. *)
Lemma apply_pevent_settled fut ev st :
  (fut < length (futs st.1))%nat →
  (fut < length (futs (apply_pevent (Draining fut) ev st).1))%nat
  ∧ (st.2 = true ∨ Future.get (futs st.1) fut = Future.Cancelled ∨ ev = CancelDrain →
     (apply_pevent (Draining fut) ev st).2 = true
     ∨ Future.get (futs (apply_pevent (Draining fut) ev st).1) fut = Future.Cancelled).
Proof.
  destruct st as [w mc]. cbn [fst snd]. intros Hlt.
  destruct ev as [| |exc|f|]; cbn [apply_pevent fst snd].
  - split; [by unfold pause_writing; destruct (FlowControlMixin.pause_writing _)|].
    intros [?|[?|?]]; [by left| |done]. right.
    unfold pause_writing. by destruct (FlowControlMixin.pause_writing _).
  - destruct (resume_writing_settled w fut) as [Hc Hl]. split; [by rewrite Hl|].
    intros [?|[?|?]]; [by left|right; by apply Hc|done].
  - destruct (connection_lost_settled exc w fut) as [Hc Hl]. split; [by rewrite Hl|].
    intros [?|[?|?]]; [by left|right; by apply Hc|done].
  - split; [by rewrite apply_feed_length|].
    intros [?|[?|?]]; [by left|right; by apply apply_feed_settled|done].
  - unfold cancel_drain, Future.cancel_task.
    destruct (Future.done (Future.get (futs w) fut)) eqn:Hd; cbn [fst snd futs on_futs].
    + split; [done|]. intros _. left. apply orb_true_r.
    + rewrite length_insert. split; [done|]. intros _. right.
      by rewrite get_insert, decide_True.
Qed.

Lemma cancel_drain_reaches fut batch st :
  (fut < length (futs st.1))%nat →
  st.2 = true ∨ Future.get (futs st.1) fut = Future.Cancelled ∨ CancelDrain ∈ batch →
  (foldl (λ st ev, apply_pevent (Draining fut) ev st) st batch).2 = true
  ∨ Future.get (futs (foldl (λ st ev, apply_pevent (Draining fut) ev st) st batch).1) fut
    = Future.Cancelled.
Proof.
  revert st. induction batch as [|ev batch IH]; intros st Hlt H.
  - destruct H as [?|[?|?%elem_of_nil]]; [by left|by right|done].
  - cbn [foldl]. destruct (apply_pevent_settled fut ev st Hlt) as [Hlt' Hs].
    apply IH; [done|].
    destruct H as [?|[?|[<-|?]%elem_of_cons]].
    + destruct Hs as [?|?]; [by left|by left|by right; left].
    + destruct Hs as [?|?]; [by right; left|by left|by right; left].
    + destruct Hs as [?|?]; [by right; right|by left|by right; left].
    + by right; right.
Qed.

Lemma sleeping_cancelled batch st :
  st.2 = true ∨ CancelDrain ∈ batch →
  (foldl (λ st ev, apply_pevent Sleeping ev st) st batch).2 = true.
Proof.
  revert st. induction batch as [|ev batch IH]; intros st H.
  - by destruct H as [?|?%elem_of_nil].
  - cbn [foldl]. apply IH.
    destruct H as [H|[<-|?]%elem_of_cons]; [|left; apply orb_true_r|by right].
    left. destruct st as [w mc]. cbn [snd] in H. subst mc. by destruct ev.
Qed.

(** X25. A cancelled [drain()] raises [CancelledError].  Let a call of
    [drain()] be suspended, in [_drain_helper] on its waiter or in
    [sleep(0)] because the transport is closing, and its task be
    cancelled before it runs again.  Whatever the protocol is told in the
    same turn of the loop, before or after the cancellation
    ([resume_writing()], [connection_lost()], data for the stream), the
    call raises [CancelledError]: the loop throws the request into the
    task also when the waiter has been resolved already. *)
Theorem drain_cancellation_wins
  (batch : list pevent) (env : list (list pevent)) (w : world) :
  CancelDrain ∈ batch →
  (∀ fut, (fut < length (futs w))%nat →
          ∃ w', drain_wait (batch :: env) fut w = DFinished (Raise CancelledError) w')
  ∧ (∀ tr, is_write (_mode (stream w)) = true → exception w = None →
           _transport (stream w) = Some tr → is_closing tr = true →
           ∃ w', drain (batch :: env) w = DFinished (Raise CancelledError) w').
Proof.
  intros Hin. split.
  - intros fut Hlt. cbn [drain_wait]. unfold apply_pevents.
    destruct (cancel_drain_reaches fut batch (w, false) Hlt) as [->| ->];
      [by right; right|by eexists|].
    unfold Future.await. destruct (_ .2); by eexists.
  - intros tr Hm Hexc Ht Hc. unfold drain, drain_enter, _check_write.
    rewrite Hm, Hexc, Ht, Hc. unfold apply_pevents.
    rewrite sleeping_cancelled by (by right). by eexists.
Qed.

Lemma drain_cancellation_wins_witness :
  ∃ w', drain_wait [[ResumeWriting; CancelDrain]] 1
          (World (mk WRITE (Some (mkTransport true false)) 8 [] false None None false)
             (mkProtocol (FlowControlMixin.mk true (Some 1%nat) false) true 0)
             [Future.Pending; Future.Pending] [])
        = DFinished (Raise CancelledError) w'.
Proof.
  destruct (drain_cancellation_wins [ResumeWriting; CancelDrain] []
              (World (mk WRITE (Some (mkTransport true false)) 8 [] false None None false)
                 (mkProtocol (FlowControlMixin.mk true (Some 1%nat) false) true 0)
                 [Future.Pending; Future.Pending] [])) as [H _].
  - apply elem_of_cons. right. apply elem_of_cons. left. reflexivity.
  - apply (H 1%nat). simpl. lia.
Defined.

End drain_cancellation.
